(** * Baseline readiness audit: status resolution, scoring, budgets, diff

    A shallow embedding of the Baseline audit of the Lighthouse fork:

    - the WebStatus client (circuit breaker, retrying batch fetch, cache),
    - the UA targets ([uaSupportFactor]),
    - the two scoring engines found in the sources (the one that weights by
      UA distribution, and the earlier [score.js] without UA weighting),
    - the budget evaluator and the report diff.

    JavaScript numbers are modelled by exact rationals ([Q]): rounding,
    overflow and the infinities are outside the model, and so is [NaN] except
    in [uaSupportFactorNumber].  A lookup [obj[key]] on a plain object is
    modelled by its own properties; this is what the code does for every key
    but the names inherited from [Object.prototype]
    ([Js.inheritedProperty]); [ordinaryStatus] and [ordinaryFeature] name the
    inputs on which the scoring engines make no other lookup.  JavaScript
    [Map]s are association lists in insertion order with unique keys
    ([Js.set] overwrites in place).  Strings are byte strings; [toLowerCase]
    is the ASCII one. *)

From Stdlib Require Import ZArith QArith Qminmax Qround Qabs String Ascii List.
From Stdlib Require Import Lia Lqa Bool Permutation Sorted DecimalString.
From Stdlib Require Import OrderedTypeEx.
Import ListNotations.

Local Open Scope string_scope.
Local Open Scope Z_scope.

(* ================================================================== *)
(** * Part I. Definitions                                              *)
(* ================================================================== *)

(** ** JavaScript built-ins used by the sources *)

Module Js.

Definition Math_max (a b : Q) : Q := Qmax a b.
Definition Math_min (a b : Q) : Q := Qmin a b.

(** [Math.round]: nearest integer, halves towards +infinity. *)
Definition Math_round (x : Q) : Z := Qfloor (x + (1 # 2))%Q.

(** The integer [n] of [x.toFixed(digits)]: [n / 10^digits] is nearest to
    [|x|], the larger [n] on a tie; the sign is put back by the callers. *)
Definition toFixedDigits (digits : nat) (x : Q) : Z :=
  Math_round (Qabs x * inject_Z (10 ^ Z.of_nat digits))%Q.

(** [Number(x.toFixed(3))]. *)
Definition toFixed3 (x : Q) : Q :=
  let n := toFixedDigits 3 x in
  ((if Qle_bool 0 x then n else - n)%Z # 1000)%Q.

(** Template-literal rendering of an integral number. *)
Definition numberToString (z : Z) : string := NilZero.string_of_int (Z.to_int z).

Fixpoint padLeft (width : nat) (s : string) : string :=
  match width with
  | O => s
  | S w => if (String.length s <? S w)%nat then padLeft w ("0" ++ s) else s
  end.

(** [x.toFixed(2)] as text. *)
Definition toFixed2 (x : Q) : string :=
  let n := toFixedDigits 2 x in
  (if Qle_bool 0 x then "" else "-") ++
  numberToString (n / 100) ++ "." ++ padLeft 2 (numberToString (n mod 100)).

Definition lowerChar (c : ascii) : ascii :=
  let n := nat_of_ascii c in
  if ((65 <=? n) && (n <=? 90))%nat then ascii_of_nat (n + 32) else c.

Fixpoint toLowerCase (s : string) : string :=
  match s with
  | EmptyString => EmptyString
  | String c s' => String (lowerChar c) (toLowerCase s')
  end.

(** [hay.includes(needle)] *)
Fixpoint includes (hay needle : string) : bool :=
  prefix needle hay ||
  match hay with
  | EmptyString => false
  | String _ hay' => includes hay' needle
  end.

Fixpoint filterChars (keep : ascii -> bool) (s : string) : string :=
  match s with
  | EmptyString => EmptyString
  | String c s' =>
      if keep c then String c (filterChars keep s') else filterChars keep s'
  end.

Definition nonEmpty (s : string) : bool :=
  match s with EmptyString => false | _ => true end.

(** [Array.prototype.join] *)
Fixpoint join (sep : string) (l : list string) : string :=
  match l with
  | [] => ""
  | [x] => x
  | x :: l' => x ++ sep ++ join sep l'
  end.

(** [Array.prototype.slice(i, j)] *)
Definition slice {A} (i j : nat) (l : list A) : list A :=
  firstn (j - i) (skipn i l).

(** [Map]: insertion-ordered, keys unique. *)
Definition Map (V : Type) : Type := list (string * V).

Fixpoint get {V} (k : string) (m : Map V) : option V :=
  match m with
  | [] => None
  | (k', v) :: m' => if String.eqb k' k then Some v else get k m'
  end.

Definition has {V} (k : string) (m : Map V) : bool :=
  match get k m with Some _ => true | None => false end.

Fixpoint set {V} (k : string) (v : V) (m : Map V) : Map V :=
  match m with
  | [] => [(k, v)]
  | (k', v') :: m' =>
      if String.eqb k' k then (k', v) :: m' else (k', v') :: set k v m'
  end.

Definition keys {V} (m : Map V) : list string := map fst m.
Definition values {V} (m : Map V) : list V := map snd m.

(** A run of [set] calls, first to last. *)
Definition setAll {V} (writes : list (string * V)) (m : Map V) : Map V :=
  fold_left (fun acc kv => set (fst kv) (snd kv) acc) writes m.

(** [Set.prototype.has] on a set kept as a list. *)
Definition setHas (k : string) (s : list string) : bool :=
  existsb (String.eqb k) s.

(** The names a plain object inherits from [Object.prototype]: with no own
    property of that name, [obj[key]] finds the inherited one (a function, or
    the prototype itself for [__proto__]). *)
Definition inheritedProperty (key : string) : bool :=
  setHas key
    ["constructor"; "hasOwnProperty"; "isPrototypeOf"; "propertyIsEnumerable";
     "toLocaleString"; "toString"; "valueOf"; "__proto__";
     "__defineGetter__"; "__defineSetter__"; "__lookupGetter__";
     "__lookupSetter__"].

(** What [obj[key]] finds on an object literal whose own properties are
    numbers. *)
Inductive Property : Type :=
| OwnNumber (q : Q)
| InheritedValue
| Missing.

Definition property (own : Map Q) (key : string) : Property :=
  match get key own with
  | Some q => OwnNumber q
  | None => if inheritedProperty key then InheritedValue else Missing
  end.

(** A number that may be [NaN]. *)
Inductive Number : Type :=
| Fin (q : Q)
| NaN.

(** Subtraction, [Math.max] and [Math.min] give [NaN] as soon as an operand
    is [NaN]. *)
Definition lift2 (f : Q -> Q -> Q) (a b : Number) : Number :=
  match a, b with
  | Fin x, Fin y => Fin (f x y)
  | _, _ => NaN
  end.

(** [x || 0] on an optional number. *)
Definition orZero (x : option Q) : Q :=
  match x with Some q => q | None => 0%Q end.

(** [x || 1] on an optional number: [undefined] and [0] are falsy. *)
Definition orOne (x : option Q) : Q :=
  match x with
  | Some q => if Qeq_bool q 0 then 1%Q else q
  | None => 1%Q
  end.

End Js.

(** ** JSON values, as [response.json()] delivers them *)

#[local] Unset Elimination Schemes.
Inductive Json : Type :=
| JNull
| JBool (b : bool)
| JNum (q : Q)
| JStr (s : string)
| JArr (items : list Json)
| JObj (fields : list (string * Json)).
#[local] Set Elimination Schemes.

(** Property access; [None] is [undefined]. *)
Definition field (k : string) (j : Json) : option Json :=
  match j with
  | JObj fields => Js.get k fields
  | _ => None
  end.

Definition truthy (j : Json) : bool :=
  match j with
  | JNull => false
  | JBool b => b
  | JNum q => negb (Qeq_bool q 0)
  | JStr s => Js.nonEmpty s
  | JArr _ | JObj _ => true
  end.

Definition truthyOpt (j : option Json) : bool :=
  match j with Some v => truthy v | None => false end.

(** [v || undefined] *)
Definition orUndefined (j : option Json) : option Json :=
  if truthyOpt j then j else None.

(** [typeof v === "object"] ([null] included, as in JavaScript). *)
Definition typeofObject (j : Json) : bool :=
  match j with
  | JNull | JArr _ | JObj _ => true
  | _ => false
  end.

(** ** webstatus-client.js: constants and records *)

Definition BATCH_SIZE : nat := 20.
Definition MAX_RETRIES : nat := 3.
Definition CIRCUIT_BREAKER_THRESHOLD : Z := 5.
Definition CIRCUIT_BREAKER_TIMEOUT : Z := 30000.

Record BaselineStatus : Type := {
  status : string;
  low_date : option Json;
  high_date : option Json
}.

Definition unknownStatus : BaselineStatus :=
  {| status := "unknown"; low_date := None; high_date := None |}.

(** ** The circuit breaker *)

Inductive BreakerState : Type := closed | open | half_open.

Record CircuitBreaker : Type := {
  failureCount : Z;
  lastFailureTime : Z;
  state : BreakerState
}.

(** The module-level initial value, also what [resetCircuitBreaker] installs. *)
Definition initialBreaker : CircuitBreaker :=
  {| failureCount := 0; lastFailureTime := 0; state := closed |}.

(** [shouldAllowRequest], with [Date.now()] passed in. *)
Definition shouldAllowRequest (now : Z) (cb : CircuitBreaker)
  : bool * CircuitBreaker :=
  match state cb with
  | closed => (true, cb)
  | open =>
      if now - lastFailureTime cb >? CIRCUIT_BREAKER_TIMEOUT
      then (true, {| failureCount := failureCount cb;
                     lastFailureTime := lastFailureTime cb;
                     state := half_open |})
      else (false, cb)
  | half_open => (true, cb)
  end.

Definition recordSuccess (cb : CircuitBreaker) : CircuitBreaker :=
  {| failureCount := 0;
     lastFailureTime := lastFailureTime cb;
     state := closed |}.

Definition recordFailure (now : Z) (cb : CircuitBreaker) : CircuitBreaker :=
  let n := failureCount cb + 1 in
  {| failureCount := n;
     lastFailureTime := now;
     state := if n >=? CIRCUIT_BREAKER_THRESHOLD then open else state cb |}.

(** The three operations of the breaker, as events. *)
Inductive BreakerOp : Type :=
| OpShouldAllow (now : Z)
| OpRecordSuccess
| OpRecordFailure (now : Z).

Definition breakerStep (op : BreakerOp) (cb : CircuitBreaker) : CircuitBreaker :=
  match op with
  | OpShouldAllow now => snd (shouldAllowRequest now cb)
  | OpRecordSuccess => recordSuccess cb
  | OpRecordFailure now => recordFailure now cb
  end.

Definition breakerRun (ops : list BreakerOp) (cb : CircuitBreaker)
  : CircuitBreaker :=
  fold_left (fun acc op => breakerStep op acc) ops cb.

(** States the breaker can be in after any sequence of operations on a fresh
    process. *)
Inductive breakerReachable : CircuitBreaker -> Prop :=
| reach_init : breakerReachable initialBreaker
| reach_step : forall cb op,
    breakerReachable cb -> breakerReachable (breakerStep op cb).

(** The state changes between two breaker values. *)
Inductive BreakerTransition : BreakerState -> BreakerState -> Prop :=
| tr_closed_open : BreakerTransition closed open
| tr_open_half : BreakerTransition open half_open
| tr_half_closed : BreakerTransition half_open closed
| tr_half_open : BreakerTransition half_open open
| tr_open_closed : BreakerTransition open closed.

(** ** webstatus-client.js: the world the client runs in

    The module-level state ([cache], [circuitBreakerState], [cacheStats]) is
    threaded explicitly.  The outside world is an oracle read by position:
    [tick] counts the reads made so far, [Date_now] and [fetch] give what the
    read at that position observes.  [sent] logs every request handed to
    [fetch]: the batch and the query string built from it. *)

Record JsError : Type := { name : string; message : string }.

Definition Error (msg : string) : JsError := {| name := "Error"; message := msg |}.

Inductive Body : Type :=
| ParseError (parseErr : string)      (* response.json() rejects *)
| Parsed (data : Json).

Inductive Reply : Type :=
| Rejects (err : JsError)             (* fetch rejects; an abort has name AbortError *)
| Responds (httpStatus : Z) (statusText : string) (body : Body).

Record Env : Type := {
  Date_now : nat -> Z;
  fetch : nat -> Reply
}.

Record CacheStats : Type := { hits : Z; misses : Z }.

Record World : Type := {
  cache : Js.Map BaselineStatus;
  circuitBreakerState : CircuitBreaker;
  cacheStats : CacheStats;
  tick : nat;
  sent : list (list string * string)
}.

(** A fresh process: empty cache, breaker closed. *)
Definition freshWorld : World :=
  {| cache := [];
     circuitBreakerState := initialBreaker;
     cacheStats := {| hits := 0; misses := 0 |};
     tick := 0%nat;
     sent := [] |}.

Inductive Outcome (A : Type) : Type :=
| Returned (value : A)
| Thrown (err : JsError).
Arguments Returned {A} value.
Arguments Thrown {A} err.

Definition M (A : Type) : Type := World -> A * World.

Definition ret {A} (a : A) : M A := fun w => (a, w).

Definition bind {A B} (m : M A) (k : A -> M B) : M B :=
  fun w => let (a, w') := m w in k a w'.

Notation "x <- m ;; k" := (bind m (fun x => k))
  (at level 61, m at next level, right associativity).
Notation "m ;;; k" := (bind m (fun _ => k))
  (at level 61, right associativity).

Definition withCache (f : Js.Map BaselineStatus -> Js.Map BaselineStatus)
  : M unit :=
  fun w => (tt, {| cache := f (cache w);
                   circuitBreakerState := circuitBreakerState w;
                   cacheStats := cacheStats w;
                   tick := tick w;
                   sent := sent w |}).

Definition withBreaker (cb : CircuitBreaker) (w : World) : World :=
  {| cache := cache w;
     circuitBreakerState := cb;
     cacheStats := cacheStats w;
     tick := tick w;
     sent := sent w |}.

Definition withStats (s : CacheStats) (w : World) : World :=
  {| cache := cache w;
     circuitBreakerState := circuitBreakerState w;
     cacheStats := s;
     tick := tick w;
     sent := sent w |}.

Section Client.

Variable E : Env.

(** [Date.now()] *)
Definition dateNow : M Z :=
  fun w => (Date_now E (tick w),
            {| cache := cache w;
               circuitBreakerState := circuitBreakerState w;
               cacheStats := cacheStats w;
               tick := S (tick w);
               sent := sent w |}).

(** [fetch(url, ...)] for the batch [featureIds] and query [query]. *)
Definition doFetch (featureIds : list string) (query : string) : M Reply :=
  fun w => (fetch E (tick w),
            {| cache := cache w;
               circuitBreakerState := circuitBreakerState w;
               cacheStats := cacheStats w;
               tick := S (tick w);
               sent := sent w ++ [(featureIds, query)] |}).

Definition shouldAllowRequestM : M bool :=
  now <- dateNow ;;
  fun w => let (allowed, cb) := shouldAllowRequest now (circuitBreakerState w) in
           (allowed, withBreaker cb w).

Definition recordSuccessM : M unit :=
  fun w => (tt, withBreaker (recordSuccess (circuitBreakerState w)) w).

Definition recordFailureM : M unit :=
  now <- dateNow ;;
  fun w => (tt, withBreaker (recordFailure now (circuitBreakerState w)) w).

(** [fetchWithTimeout]: an abort becomes a timeout error, anything else passes. *)
Definition fetchWithTimeout (featureIds : list string) (query : string)
  : M (JsError + (Z * string * Body)) :=
  r <- doFetch featureIds query ;;
  match r with
  | Rejects err =>
      if String.eqb (name err) "AbortError"
      then ret (inl (Error "Request timeout after 5000ms"))
      else ret (inl err)
  | Responds st txt body => ret (inr (st, txt, body))
  end.

(** The character class kept by [buildQuery]: letters, digits, [-], [_], [.]. *)
Definition validIdChar (c : ascii) : bool :=
  let n := nat_of_ascii c in
  (((97 <=? n) && (n <=? 122)) || ((65 <=? n) && (n <=? 90)) ||
   ((48 <=? n) && (n <=? 57)) || (n =? 45) || (n =? 95) || (n =? 46))%nat.

(** [buildQuery]; [None] is the thrown "No valid feature IDs provided". *)
Definition buildQuery (featureIds : list string) : option string :=
  let validIds :=
    filter Js.nonEmpty
      (map (Js.filterChars validIdChar) (filter Js.nonEmpty featureIds)) in
  match validIds with
  | [] => None
  | _ => Some (Js.join " OR " (map (fun id => "id:" ++ id) validIds))
  end.

Definition validFeature (feature : Json) : bool :=
  truthy feature &&
  match field "feature_id" feature with
  | Some (JStr _) => true
  | _ => false
  end &&
  match field "baseline" feature with
  | None => true
  | Some b =>
      negb (truthy b) ||
      (typeofObject b &&
       match field "status" b with
       | Some (JStr s) =>
           existsb (String.eqb s) ["limited"; "newly"; "widely"]
       | _ => false
       end)
  end.

(** [isValidResponse] *)
Definition isValidResponse (data : Json) : bool :=
  truthy data && typeofObject data &&
  match field "data" data with
  | Some (JArr features) => forallb validFeature features
  | _ => false
  end.

(** [data.data || []] of a validated response. *)
Definition responseData (data : Json) : list Json :=
  match field "data" data with
  | Some (JArr features) => features
  | _ => []
  end.

Definition okStatus (st : Z) : bool := (200 <=? st) && (st <=? 299).

(** The [catch (err)] block of [fetchFeaturesBatch] at attempt [retries];
    [again] is the call [fetchFeaturesBatch(featureIds, retries + 1)], there
    while [retries < MAX_RETRIES].  The [sleep] before a retry only lets time
    pass, which the oracle decides anyway. *)
Definition catchBlock (retries : Z) (again : option (M (Outcome (list Json))))
    (err : JsError) : M (Outcome (list Json)) :=
  if String.eqb (name err) "AbortError" || Js.includes (message err) "timeout"
  then
    match again with
    | Some retry => retry
    | None =>
        recordFailureM ;;;
        ret (Thrown (Error ("Request timeout after " ++
                            Js.numberToString (retries + 1) ++ " attempts")))
    end
  else if Js.includes (message err) "Circuit breaker" ||
          Js.includes (message err) "Invalid feature IDs"
  then ret (Thrown err)
  else
    match again with
    | Some retry => retry
    | None => recordFailureM ;;; ret (Thrown err)
    end.

(** One attempt of [fetchFeaturesBatch]: breaker check, query, and the [try]
    block.  An error thrown inside the [try] block is caught by its own
    [catch]; the promise of a retry is returned, not awaited, so its rejection
    is not.  The two [Date.now()] reads around the request only feed
    [responseTime], which nothing uses, and are left out. *)
Definition attempt (retries : Z) (again : option (M (Outcome (list Json))))
    (featureIds : list string) : M (Outcome (list Json)) :=
  allowed <- shouldAllowRequestM ;;
  if negb allowed
  then ret (Thrown (Error
         "Circuit breaker is open - WebStatus API temporarily unavailable"))
  else
    match featureIds with
    | [] => ret (Returned [])
    | _ =>
      match buildQuery featureIds with
      | None =>
          ret (Thrown (Error
                 "Invalid feature IDs: No valid feature IDs provided"))
      | Some query =>
          r <- fetchWithTimeout featureIds query ;;
          match r with
          | inl err => catchBlock retries again err
          | inr (st, txt, body) =>
              if negb (okStatus st) then
                if st =? 429 then
                  match again with
                  | Some retry => retry
                  | None =>
                      recordFailureM ;;;
                      catchBlock retries again
                        (Error ("Rate limited after " ++
                                Js.numberToString (retries + 1) ++ " attempts"))
                  end
                else if st >=? 500 then
                  match again with
                  | Some retry => retry
                  | None =>
                      recordFailureM ;;;
                      catchBlock retries again
                        (Error ("Server error: " ++ Js.numberToString st))
                  end
                else
                  recordFailureM ;;;
                  catchBlock retries again
                    (Error ("Client error: " ++ Js.numberToString st ++
                            " " ++ txt))
              else
                match body with
                | ParseError parseErr =>
                    recordFailureM ;;;
                    catchBlock retries again
                      (Error ("Invalid JSON response: " ++ parseErr))
                | Parsed data =>
                    if negb (isValidResponse data) then
                      recordFailureM ;;;
                      catchBlock retries again
                        (Error "Invalid response structure from WebStatus API")
                    else
                      recordSuccessM ;;; ret (Returned (responseData data))
                end
          end
      end
    end.

(** [fetchFeaturesBatch(featureIds, retries)] with
    [retries = MAX_RETRIES - remaining]. *)
Fixpoint fetchFeaturesBatchFrom (remaining : nat) (featureIds : list string)
  : M (Outcome (list Json)) :=
  attempt (Z.of_nat (MAX_RETRIES - remaining))
    (match remaining with
     | S r => Some (fetchFeaturesBatchFrom r featureIds)
     | O => None
     end)
    featureIds.

(** [fetchFeaturesBatch(featureIds)], i.e. [retries = 0]. *)
Definition fetchFeaturesBatch (featureIds : list string)
  : M (Outcome (list Json)) :=
  fetchFeaturesBatchFrom MAX_RETRIES featureIds.

Definition featureId (feature : Json) : string :=
  match field "feature_id" feature with
  | Some (JStr s) => s
  | _ => ""
  end.

(** The features of a response that [processBatch] does not skip. *)
Definition usableFeature (feature : Json) : bool :=
  truthy feature && truthyOpt (field "feature_id" feature).

(** The record [processBatch] stores for one feature of the response. *)
Definition featureStatus (feature : Json) : BaselineStatus :=
  match field "baseline" feature with
  | Some b =>
      match field "status" b with
      | Some (JStr s) =>
          if truthy b && Js.nonEmpty s
          then {| status := s;
                  low_date := orUndefined (field "low_date" b);
                  high_date := orUndefined (field "high_date" b) |}
          else unknownStatus
      | _ => unknownStatus
      end
  | None => unknownStatus
  end.

(** The [set] calls of the two loops of the [try] block, in order. *)
Definition responseWrites (features : list Json) (featureIds : list string)
  : list (string * BaselineStatus) :=
  let usable := filter usableFeature features in
  let foundFeatureIds := map featureId usable in
  map (fun feature => (featureId feature, featureStatus feature)) usable ++
  map (fun id => (id, unknownStatus))
      (filter (fun id => negb (Js.setHas id foundFeatureIds)) featureIds).

(** The [set] calls of the [catch] block. *)
Definition failureWrites (featureIds : list string)
  : list (string * BaselineStatus) :=
  map (fun id => (id, unknownStatus)) featureIds.

(** [processBatch]: every [set] goes to [results] and to the shared [cache]. *)
Definition processBatch (featureIds : list string)
  : M (Js.Map BaselineStatus) :=
  match featureIds with
  | [] => ret []
  | _ =>
      o <- fetchFeaturesBatch featureIds ;;
      let writes :=
        match o with
        | Returned features => responseWrites features featureIds
        | Thrown _ => failureWrites featureIds
        end in
      withCache (Js.setAll writes) ;;;
      ret (Js.setAll writes [])
  end.

(** The [for (i = 0; i < l.length; i += size)] loops that cut [l] in slices. *)
Fixpoint slicesFrom {A} (fuel i size : nat) (l : list A) : list (list A) :=
  match fuel with
  | O => []
  | S fuel' =>
      if (i <? length l)%nat
      then Js.slice i (i + size) l :: slicesFrom fuel' (i + size) size l
      else []
  end.

Definition slices {A} (size : nat) (l : list A) : list (list A) :=
  slicesFrom (length l) 0 size l.

Definition maxConcurrent : nat := 3.

Definition allUnknown (result : Js.Map BaselineStatus) : bool :=
  forallb (fun s => String.eqb (status s) "unknown") (Js.values result).

(** One element of [batchPromises]: the batch's map and whether it counts as
    a failure.  [processBatch] never rejects, so the [catch] of the source
    has nothing to catch. *)
Definition runBatch (batch : list string) : M (Js.Map BaselineStatus * bool) :=
  result <- processBatch batch ;;
  ret (result, allUnknown result && negb (Nat.eqb (length batch) 0)).

(** [Promise.all] over one group of batches.  The batches of a group are
    taken one after the other. *)
Fixpoint runGroup (group : list (list string))
  : M (list (Js.Map BaselineStatus * bool)) :=
  match group with
  | [] => ret []
  | batch :: rest =>
      r <- runBatch batch ;;
      rs <- runGroup rest ;;
      ret (r :: rs)
  end.

Definition mergeInto (results : Js.Map BaselineStatus)
    (batchResults : list (Js.Map BaselineStatus * bool))
  : Js.Map BaselineStatus :=
  fold_left (fun acc r => Js.setAll (fst r) acc) batchResults results.

(** The loop over groups of [maxConcurrent] batches. *)
Fixpoint runGroups (groups : list (list (list string)))
    (results : Js.Map BaselineStatus) (hasAnyFailures : bool)
  : M (Js.Map BaselineStatus * bool) :=
  match groups with
  | [] => ret (results, hasAnyFailures)
  | group :: rest =>
      batchResults <- runGroup group ;;
      runGroups rest (mergeInto results batchResults)
        (hasAnyFailures || existsb snd batchResults)
  end.

(** The first loop of [fetchBaselineStatus]: cache hits go to [results],
    misses to [toFetch]. *)
Fixpoint checkCache (featureIds : list string)
    (results : Js.Map BaselineStatus) (toFetch : list string)
  : M (Js.Map BaselineStatus * list string) :=
  match featureIds with
  | [] => ret (results, toFetch)
  | id :: rest =>
      fun w =>
        match Js.get id (cache w) with
        | Some st =>
            checkCache rest (Js.set id st results) toFetch
              (withStats {| hits := hits (cacheStats w) + 1;
                            misses := misses (cacheStats w) |} w)
        | None =>
            checkCache rest results (toFetch ++ [id])
              (withStats {| hits := hits (cacheStats w);
                            misses := misses (cacheStats w) + 1 |} w)
        end
  end.

(** [fetchBaselineStatus(featureIds)]; the [Set] comes as the list of its
    elements in iteration order. *)
Definition fetchBaselineStatus (featureIds : list string)
  : M (Outcome (Js.Map BaselineStatus)) :=
  rt <- checkCache featureIds [] [] ;;
  let (results, toFetch) := (rt : Js.Map BaselineStatus * list string) in
  match toFetch with
  | [] => ret (Returned results)
  | _ =>
      let batches := slices BATCH_SIZE toFetch in
      allowed <- shouldAllowRequestM ;;
      if negb allowed
      then ret (Thrown (Error
             "WebStatus API temporarily unavailable - circuit breaker open"))
      else
        rf <- runGroups (slices maxConcurrent batches) results false ;;
        let (results', hasAnyFailures) :=
          (rf : Js.Map BaselineStatus * bool) in
        fun w =>
          if hasAnyFailures && (failureCount (circuitBreakerState w) >? 0)
          then (Thrown (Error
                  "WebStatus API unreachable - multiple request failures"), w)
          else (Returned results', w)
  end.

(** [clearCache] *)
Definition clearCache : M unit := withCache (fun _ => []).

(** Step 3 of the audit ([baseline-readiness.js]): a thrown
    [fetchBaselineStatus] is replaced by an all-unknown map. *)
Definition auditFetchStatuses (featureIds : list string)
  : M (Js.Map BaselineStatus) :=
  o <- fetchBaselineStatus featureIds ;;
  match o with
  | Returned featureStatuses => ret featureStatuses
  | Thrown _ => ret (Js.setAll (map (fun id => (id, unknownStatus)) featureIds) [])
  end.

End Client.

(** ** targets.js: UA distribution *)

(** A UA distribution is a plain object from browser name to number. *)
Definition UADistribution : Type := Js.Map Q.

Definition defaultDist : UADistribution :=
  [("safari", 0.25%Q); ("chrome", 0.25%Q); ("firefox", 0.25%Q); ("edge", 0.25%Q)].

(** [Object.entries] of a parsed JSON value. *)
Definition objectEntries (j : Json) : list (string * Json) :=
  match j with
  | JObj fields => fields
  | JArr items =>
      combine (map (fun i => Js.numberToString (Z.of_nat i))
                   (seq 0 (length items))) items
  | _ => []
  end.







(** The own entries of the object literal [supportLevels]. *)
Definition supportLevels (status : string) : option Q :=
  if String.eqb status "widely" then Some 1.0%Q
  else if String.eqb status "newly" then Some 0.8%Q
  else if String.eqb status "limited" then Some 0.5%Q
  else if String.eqb status "unknown" then Some 0.7%Q
  else None.

(** [uaSupportFactor] on a status that names no inherited property, where
    [supportLevels[status]] is an own entry or [undefined] and every number is
    finite; [uaSupportFactorNumber] below is the function on every string. *)
Definition uaSupportFactor (status : string) (uaDistribution : UADistribution)
  : Q :=
  let baseFactor :=
    match supportLevels status with Some q => q | None => 0.7%Q end in
  if String.eqb status "limited" then
    let chromeEdgeShare :=
      (Js.orZero (Js.get "chrome" uaDistribution) +
       Js.orZero (Js.get "edge" uaDistribution))%Q in
    Js.Math_max 0.5 (Js.Math_min 1.0 (0.5 + chromeEdgeShare * 0.5))%Q
  else if String.eqb status "newly" then
    let safariShare := Js.orZero (Js.get "safari" uaDistribution) in
    Js.Math_max 0.5 (Js.Math_min 1.0 (baseFactor - safariShare * 0.2))%Q
  else
    Js.Math_max 0.5 (Js.Math_min 1.0 baseFactor)%Q.

(** [uaSupportFactor] on every string.  [supportLevels[status]] is a lookup
    on an object literal: a status that names an inherited property finds
    that property, which is truthy, so [|| 0.7] keeps it, and taken as a
    number it is [NaN]. *)
Definition uaSupportFactorNumber (status : string)
    (uaDistribution : UADistribution) : Js.Number :=
  let supportLevels : Js.Map Q :=
    [("widely", 1.0%Q); ("newly", 0.8%Q); ("limited", 0.5%Q);
     ("unknown", 0.7%Q)] in
  let baseFactor :=
    match Js.property supportLevels status with
    | Js.OwnNumber q => Js.Fin (if Qeq_bool q 0 then 0.7 else q)
    | Js.InheritedValue => Js.NaN
    | Js.Missing => Js.Fin 0.7
    end in
  if String.eqb status "limited" then
    let chromeEdgeShare :=
      (Js.orZero (Js.get "chrome" uaDistribution) +
       Js.orZero (Js.get "edge" uaDistribution))%Q in
    Js.Fin (Js.Math_max 0.5 (Js.Math_min 1.0 (0.5 + chromeEdgeShare * 0.5)))%Q
  else if String.eqb status "newly" then
    let safariShare := Js.orZero (Js.get "safari" uaDistribution) in
    Js.lift2 Js.Math_max (Js.Fin 0.5)
      (Js.lift2 Js.Math_min (Js.Fin 1.0)
         (Js.lift2 Qminus baseFactor (Js.Fin (safariShare * 0.2))))
  else
    Js.lift2 Js.Math_max (Js.Fin 0.5)
      (Js.lift2 Js.Math_min (Js.Fin 1.0) baseFactor).

(** The two shares the factor reads. *)
Definition chromeEdgeShare (d : UADistribution) : Q :=
  (Js.orZero (Js.get "chrome" d) + Js.orZero (Js.get "edge" d))%Q.

Definition safariShare (d : UADistribution) : Q :=
  Js.orZero (Js.get "safari" d).

(** ** Scoring: what both score engines share word for word *)

Record Token : Type := {
  type : string;
  token : string;
  location : option string;
  line : option Z;
  column : option Z;
  originType : option string
}.

(** Platform functions the engines call: [Date]'s
    [toLocaleDateString("en-US", {year, month})] and
    [String.prototype.localeCompare]. *)
Record Platform : Type := {
  toLocaleDateString : Json -> string;
  localeCompare : string -> string -> Z
}.

Definition coreFeatures : list string :=
  ["fetch"; "abortable-fetch"; "promises"; "async-await"; "grid"; "flexbox";
   "custom-properties"; "es6-module"; "arrow-functions"; "const-let";
   "websockets"; "xhr"; "dom-manipulation"; "forms"; "semantic-html";
   "accessibility"].

Definition isCoreFeature (featureId : string) : bool :=
  Js.setHas featureId coreFeatures.

Record BonusCounts : Type := {
  coreCount : Z;
  coreWidelySupported : Z;
  enhancementCount : Z;
  enhancementAppropriate : Z
}.

Definition countForBonus (featureStatuses : Js.Map BaselineStatus)
  : BonusCounts :=
  fold_left
    (fun c kv =>
       let st := status (snd kv) in
       if isCoreFeature (fst kv) then
         {| coreCount := coreCount c + 1;
            coreWidelySupported :=
              if String.eqb st "widely" then coreWidelySupported c + 1
              else coreWidelySupported c;
            enhancementCount := enhancementCount c;
            enhancementAppropriate := enhancementAppropriate c |}
       else
         {| coreCount := coreCount c;
            coreWidelySupported := coreWidelySupported c;
            enhancementCount := enhancementCount c + 1;
            enhancementAppropriate :=
              if String.eqb st "newly" || String.eqb st "widely"
              then enhancementAppropriate c + 1
              else enhancementAppropriate c |})
    featureStatuses
    {| coreCount := 0; coreWidelySupported := 0;
       enhancementCount := 0; enhancementAppropriate := 0 |}.

Definition calculateProgressiveEnhancementBonus
    (featureStatuses : Js.Map BaselineStatus) : Q :=
  let c := countForBonus featureStatuses in
  let bonus1 :=
    if (coreCount c >? 0) &&
       Qle_bool 0.9 (inject_Z (coreWidelySupported c) / inject_Z (coreCount c))
    then 0.1%Q else 0%Q in
  let bonus2 :=
    if (enhancementCount c >? 0) &&
       Qle_bool 0.8 (inject_Z (enhancementAppropriate c) /
                     inject_Z (enhancementCount c))
    then (bonus1 + 0.05)%Q else bonus1 in
  Js.Math_min bonus2 0.15.

Definition formatDate (P : Platform) (dateStr : option Json) : string :=
  if truthyOpt dateStr then
    match dateStr with
    | Some d => toLocaleDateString P d
    | None => ""
    end
  else "".

Record SourceLocation : Type := {
  loc_url : string;
  loc_line : Z;
  loc_column : Z
}.

Record Where : Type := {
  url : string;
  subItems : option (list SourceLocation)
}.

Definition orZeroZ (x : option Z) : Z :=
  match x with Some z => z | None => 0 end.

Definition tokenMapsTo (tokenToFeatureMap : Js.Map string) (featureId : string)
    (t : Token) : bool :=
  match Js.get (token t) tokenToFeatureMap with
  | Some f => String.eqb f featureId
  | None => false
  end.

Definition groupByFile (featureTokens : list Token)
  : Js.Map (list SourceLocation) :=
  fold_left
    (fun (locationsByFile : Js.Map (list SourceLocation)) t =>
       match location t with
       | Some file =>
           if Js.nonEmpty file then
             let here := {| loc_url := file;
                            loc_line := orZeroZ (line t);
                            loc_column := orZeroZ (column t) |} in
             match Js.get file locationsByFile with
             | Some l => Js.set file (l ++ [here])%list locationsByFile
             | None => Js.set file [here] locationsByFile
             end
           else locationsByFile
       | None => locationsByFile
       end)
    featureTokens [].

Definition findFeatureLocation (featureId : string) (tokens : list Token)
    (tokenToFeatureMap : Js.Map string) : Where :=
  let featureTokens := filter (tokenMapsTo tokenToFeatureMap featureId) tokens in
  match groupByFile featureTokens with
  | [] => {| url := "Various"; subItems := None |}
  | (firstFile, l) :: rest =>
      {| url := firstFile;
         subItems := Some (concat (Js.values ((firstFile, l) :: rest))) |}
  end.

(** The token-occurrence count of [calculateUsageWeight]. *)
Definition tokenCount (featureId : string) (tokens : list Token) : nat :=
  let featureIdStr := Js.toLowerCase featureId in
  length (filter
            (fun t =>
               Js.includes (Js.toLowerCase (token t)) featureIdStr ||
               Js.includes featureIdStr (Js.toLowerCase (token t)))
            tokens).

Record Usage : Type := { frequency : Q }.

(** [Math.min(Math.max(usage.frequency / 10, 0.5), 1.5)] when coverage data
    has an entry for the feature.  The entry is looked up among the own
    properties of [coverageData]: this is [coverageData[featureId]] for every
    identifier that names no inherited property. *)
Definition coverageMultiplier (coverageData : option (Js.Map Usage))
    (featureId : string) : option Q :=
  match coverageData with
  | Some data =>
      match Js.get featureId data with
      | Some usage =>
          Some (Js.Math_min (Js.Math_max (frequency usage / 10) 0.5) 1.5)%Q
      | None => None
      end
  | None => None
  end.

Record BaselineScore (Row : Type) : Type := {
  score01 : Q;
  numeric100 : Z;
  rows : list Row;
  warnings : list string
}.
Arguments score01 {Row} _.
Arguments numeric100 {Row} _.
Arguments rows {Row} _.
Arguments warnings {Row} _.

(** [Array.prototype.sort(compare)]: stable; a negative result puts the first
    argument first. *)
Fixpoint sortInsert {A} (compare : A -> A -> Q) (x : A) (l : list A) : list A :=
  match l with
  | [] => [x]
  | y :: l' =>
      if Qle_bool (compare x y) 0 then x :: l
      else y :: sortInsert compare x l'
  end.

Definition arraySort {A} (compare : A -> A -> Q) (l : list A) : list A :=
  fold_right (sortInsert compare) [] l.

Definition unknownCountOf (featureStatuses : Js.Map BaselineStatus) : nat :=
  length (filter (fun s => String.eqb (status s) "unknown")
                 (Js.values featureStatuses)).

(** The "Enhanced warnings" that follow the sort in both engines. *)
Definition laterWarnings (featureStatuses : Js.Map BaselineStatus)
    (coreFeatureCount : Z) : list string :=
  (if Nat.eqb (length featureStatuses) 0
   then ["No Web Platform features detected"] else []) ++
  (if (0 <? unknownCountOf featureStatuses)%nat
   then ["Unable to determine Baseline status for " ++
         Js.numberToString (Z.of_nat (unknownCountOf featureStatuses)) ++
         " features"]
   else []) ++
  (if (coreFeatureCount =? 0) && negb (Nat.eqb (length featureStatuses) 0)
   then ["Consider using well-established web platform features for better compatibility"]
   else []).

(** The score from the two sums: base score, bonus, limited-ratio penalty. *)
Definition finalScore (featureStatuses : Js.Map BaselineStatus)
    (totalPoints maxPoints : Q) (limitedFeatureCount : Z) : Q * list string :=
  let progressiveBonus := calculateProgressiveEnhancementBonus featureStatuses in
  let base := if Qlt_le_dec 0 maxPoints then (totalPoints / maxPoints)%Q else 1%Q in
  let score := Js.Math_min (base + progressiveBonus) 1.0 in
  let size := Z.of_nat (length featureStatuses) in
  let limitedRatio :=
    if size >? 0 then (inject_Z limitedFeatureCount / inject_Z size)%Q else 0%Q in
  if Qlt_le_dec 0.3 limitedRatio
  then ((score * 0.8)%Q,
        ["High usage of features with limited browser support detected"])
  else (score, []).

(** ** The score engine that weights by UA distribution
    ([calculateScore(featureStatuses, tokens, tokenToFeatureMap, usageData,
    settings)]) *)

Module ScoreUA.

(** [calculateUsageWeight]: the weight and its reason. *)
Definition calculateUsageWeight (featureId : string)
    (coverageData : option (Js.Map Usage)) (tokens : list Token) : Q * string :=
  let n := tokenCount featureId tokens in
  let usage :=
    if (50 <? n)%nat then (1.5%Q, "high usage")
    else if (20 <? n)%nat then (1.3%Q, "medium-high usage")
    else if (5 <? n)%nat then (1.1%Q, "medium usage")
    else if (n =? 1)%nat then (0.8%Q, "single use")
    else if (n =? 0)%nat then (0.5%Q, "unused")
    else (1.0%Q, "") in
  let adjusted :=
    match coverageMultiplier coverageData featureId with
    | Some m =>
        ((fst usage * m)%Q,
         snd usage ++ (if Js.nonEmpty (snd usage) then ", coverage-adjusted"
                       else "coverage-adjusted"))
    | None => usage
    end in
  (Js.Math_min (Js.Math_max (fst adjusted) 0.5) 1.5, snd adjusted).

(** [getStatusPoints(status)] *)
Definition getStatusPoints (status : string) : Q :=
  if String.eqb status "widely" then 2%Q
  else if String.eqb status "newly" then 1%Q
  else 0%Q.

Definition nicheFeatures : list string :=
  ["web-nfc"; "webnn"; "compute-pressure"; "document-picture-in-picture"].

Record Row : Type := {
  r_feature_id : string;
  r_status : string;
  r_low_date : string;
  r_high_date : string;
  r_where : Where;
  r_weight : option Q;
  r_weightReason : option string;
  r_isCore : option bool;
  r_originType : option string
}.

(** [tokens.find(...)?.originType || 'first-party'] *)
Definition originTypeOf (featureId : string) (tokens : list Token)
    (tokenToFeatureMap : Js.Map string) : string :=
  match find (tokenMapsTo tokenToFeatureMap featureId) tokens with
  | Some t =>
      match originType t with
      | Some o => if Js.nonEmpty o then o else "first-party"
      | None => "first-party"
      end
  | None => "first-party"
  end.

Definition addReason (weightReason extra : string) : string :=
  weightReason ++ (if Js.nonEmpty weightReason then ", " else "") ++ extra.

(** The weight of one feature as the loop of [calculateScore] computes it:
    usage weight, UA factor, vendor downweight, final clamp. *)
Definition featureWeight (featureId : string) (st : BaselineStatus)
    (tokens : list Token) (tokenToFeatureMap : Js.Map string)
    (usageData : option (Js.Map Usage)) (uaDistribution : UADistribution)
  : Q * string :=
  let usageResult := calculateUsageWeight featureId usageData tokens in
  let uaFactor := uaSupportFactor (status st) uaDistribution in
  let weight1 := (fst usageResult * uaFactor)%Q in
  let reason1 :=
    if negb (Qeq_bool uaFactor 1.0)
    then addReason (snd usageResult) ("UA factor " ++ Js.toFixed2 uaFactor)
    else snd usageResult in
  let vendorNiche :=
    String.eqb (originTypeOf featureId tokens tokenToFeatureMap) "vendor" &&
    Js.setHas featureId nicheFeatures in
  let weight2 := if vendorNiche then (weight1 * 0.75)%Q else weight1 in
  let reason2 := if vendorNiche then addReason reason1 "vendor-only" else reason1 in
  (Js.Math_min (Js.Math_max weight2 0.5) 1.5, reason2).

Definition makeRow (P : Platform) (featureId : string) (st : BaselineStatus)
    (tokens : list Token) (tokenToFeatureMap : Js.Map string)
    (usageData : option (Js.Map Usage)) (uaDistribution : UADistribution)
  : Row :=
  let w := featureWeight featureId st tokens tokenToFeatureMap usageData
             uaDistribution in
  let origin := originTypeOf featureId tokens tokenToFeatureMap in
  {| r_feature_id := featureId;
     r_status := status st;
     r_low_date := formatDate P (low_date st);
     r_high_date := formatDate P (high_date st);
     r_where := findFeatureLocation featureId tokens tokenToFeatureMap;
     r_weight := if negb (Qeq_bool (fst w) 1.0) then Some (fst w) else None;
     r_weightReason := if Js.nonEmpty (snd w) then Some (snd w) else None;
     r_isCore := if isCoreFeature featureId then Some true else None;
     r_originType :=
       if negb (String.eqb origin "first-party") then Some origin else None |}.

Record Totals : Type := {
  t_rows : list Row;
  totalPoints : Q;
  maxPoints : Q;
  limitedFeatureCount : Z;
  coreFeatureCount : Z
}.

(** The body of the loop over [featureStatuses]. *)
Definition processFeature (P : Platform) (tokens : list Token)
    (tokenToFeatureMap : Js.Map string) (usageData : option (Js.Map Usage))
    (uaDistribution : UADistribution)
    (acc : Totals) (entry : string * BaselineStatus) : Totals :=
  let featureId := fst entry in
  let st := snd entry in
  let weight := fst (featureWeight featureId st tokens tokenToFeatureMap
                       usageData uaDistribution) in
  let points := getStatusPoints (status st) in
  {| t_rows := t_rows acc ++
               [makeRow P featureId st tokens tokenToFeatureMap usageData
                  uaDistribution];
     totalPoints := (totalPoints acc + points * weight)%Q;
     maxPoints := (maxPoints acc + 2 * weight)%Q;
     limitedFeatureCount :=
       if String.eqb (status st) "limited" then limitedFeatureCount acc + 1
       else limitedFeatureCount acc;
     coreFeatureCount :=
       if isCoreFeature featureId then coreFeatureCount acc + 1
       else coreFeatureCount acc |}.

Definition statusOrder (status : string) : option Z :=
  if String.eqb status "limited" then Some 0
  else if String.eqb status "newly" then Some 1
  else if String.eqb status "widely" then Some 2
  else if String.eqb status "unknown" then Some 3
  else None.

(** The comparator of [rows.sort].  A status outside the table makes the
    difference [NaN], which is returned and read as [+0] by the sort. *)
Definition compareRows (P : Platform) (a b : Row) : Q :=
  match statusOrder (r_status a), statusOrder (r_status b) with
  | Some x, Some y =>
      let statusDiff := x - y in
      if negb (statusDiff =? 0) then inject_Z statusDiff
      else
        let weightDiff := (Js.orOne (r_weight b) - Js.orOne (r_weight a))%Q in
        if negb (Qeq_bool weightDiff 0) then weightDiff
        else inject_Z (localeCompare P (r_feature_id a) (r_feature_id b))
  | _, _ => 0%Q
  end.

(** [calculateScore]; [uaDistribution] is [loadTargets({settings}).uaDistribution]. *)
Definition calculateScore (P : Platform)
    (featureStatuses : Js.Map BaselineStatus) (tokens : list Token)
    (tokenToFeatureMap : Js.Map string) (usageData : option (Js.Map Usage))
    (uaDistribution : UADistribution) : BaselineScore Row :=
  let totals :=
    fold_left (processFeature P tokens tokenToFeatureMap usageData uaDistribution)
      featureStatuses
      {| t_rows := []; totalPoints := 0; maxPoints := 0;
         limitedFeatureCount := 0; coreFeatureCount := 0 |} in
  let scored := finalScore featureStatuses (totalPoints totals)
                  (maxPoints totals) (limitedFeatureCount totals) in
  {| score01 := fst scored;
     numeric100 := Js.Math_round (fst scored * 100)%Q;
     rows := arraySort (compareRows P) (t_rows totals);
     warnings := snd scored ++
                 laterWarnings featureStatuses (coreFeatureCount totals) |}.

End ScoreUA.

(** ** The score engine of [score.js]
    ([calculateScore(featureStatuses, tokens, tokenToFeatureMap, usageData)]) *)

Module ScoreJs.

(** [calculateUsageWeight]: "Weight between 0.3 and 2.0". *)
Definition calculateUsageWeight (featureId : string)
    (coverageData : option (Js.Map Usage)) (tokens : list Token) : Q :=
  let base := if isCoreFeature featureId then 1.2%Q else 1.0%Q in
  let n := tokenCount featureId tokens in
  let weight :=
    if (50 <? n)%nat then (base * 1.8)%Q
    else if (20 <? n)%nat then (base * 1.5)%Q
    else if (5 <? n)%nat then (base * 1.2)%Q
    else if (n =? 1)%nat then (base * 0.7)%Q
    else if (n =? 0)%nat then (base * 0.3)%Q
    else base in
  let adjusted :=
    match coverageMultiplier coverageData featureId with
    | Some m => (weight * m)%Q
    | None => weight
    end in
  Js.Math_min (Js.Math_max adjusted 0.3) 2.0.

(** [getStatusPoints(status, isCore)] *)
Definition getStatusPoints (status : string) (isCore : bool) : Q :=
  if String.eqb status "widely" then 3%Q
  else if String.eqb status "newly" then (if isCore then 1.5%Q else 2%Q)
  else if String.eqb status "limited" then (if isCore then (-1)%Q else 0%Q)
  else 0%Q.

Record Row : Type := {
  r_feature_id : string;
  r_status : string;
  r_low_date : string;
  r_high_date : string;
  r_where : Where;
  r_weight : option Q;
  r_isCore : option bool
}.

Definition makeRow (P : Platform) (featureId : string) (st : BaselineStatus)
    (tokens : list Token) (tokenToFeatureMap : Js.Map string)
    (usageData : option (Js.Map Usage)) : Row :=
  let weight := calculateUsageWeight featureId usageData tokens in
  {| r_feature_id := featureId;
     r_status := status st;
     r_low_date := formatDate P (low_date st);
     r_high_date := formatDate P (high_date st);
     r_where := findFeatureLocation featureId tokens tokenToFeatureMap;
     r_weight := if negb (Qeq_bool weight 1.0) then Some weight else None;
     r_isCore := if isCoreFeature featureId then Some true else None |}.

Record Totals : Type := {
  t_rows : list Row;
  totalPoints : Q;
  maxPoints : Q;
  limitedFeatureCount : Z;
  coreFeatureCount : Z
}.

Definition processFeature (P : Platform) (tokens : list Token)
    (tokenToFeatureMap : Js.Map string) (usageData : option (Js.Map Usage))
    (acc : Totals) (entry : string * BaselineStatus) : Totals :=
  let featureId := fst entry in
  let st := snd entry in
  let isCore := isCoreFeature featureId in
  let weight := calculateUsageWeight featureId usageData tokens in
  let points := getStatusPoints (status st) isCore in
  {| t_rows := t_rows acc ++
               [makeRow P featureId st tokens tokenToFeatureMap usageData];
     totalPoints := (totalPoints acc + points * weight)%Q;
     maxPoints := (maxPoints acc + 3 * weight)%Q;
     limitedFeatureCount :=
       if String.eqb (status st) "limited" then limitedFeatureCount acc + 1
       else limitedFeatureCount acc;
     coreFeatureCount :=
       if isCore then coreFeatureCount acc + 1 else coreFeatureCount acc |}.

Definition statusOrder (status : string) : option Z :=
  if String.eqb status "limited" then Some 0
  else if String.eqb status "unknown" then Some 1
  else if String.eqb status "newly" then Some 2
  else if String.eqb status "widely" then Some 3
  else None.

Definition isTrue (b : option bool) : bool :=
  match b with Some true => true | _ => false end.

(** The comparator of [rows.sort]: core limited rows first, then status,
    then weight. *)
Definition compareRows (a b : Row) : Q :=
  if isTrue (r_isCore a) && negb (isTrue (r_isCore b)) &&
     String.eqb (r_status a) "limited" then (-1)%Q
  else if isTrue (r_isCore b) && negb (isTrue (r_isCore a)) &&
          String.eqb (r_status b) "limited" then 1%Q
  else
    match statusOrder (r_status a), statusOrder (r_status b) with
    | Some x, Some y =>
        let statusDiff := x - y in
        if negb (statusDiff =? 0) then inject_Z statusDiff
        else (Js.orOne (r_weight b) - Js.orOne (r_weight a))%Q
    | _, _ => 0%Q
    end.

Definition calculateScore (P : Platform)
    (featureStatuses : Js.Map BaselineStatus) (tokens : list Token)
    (tokenToFeatureMap : Js.Map string) (usageData : option (Js.Map Usage))
  : BaselineScore Row :=
  let totals :=
    fold_left (processFeature P tokens tokenToFeatureMap usageData)
      featureStatuses
      {| t_rows := []; totalPoints := 0; maxPoints := 0;
         limitedFeatureCount := 0; coreFeatureCount := 0 |} in
  let scored := finalScore featureStatuses (totalPoints totals)
                  (maxPoints totals) (limitedFeatureCount totals) in
  {| score01 := fst scored;
     numeric100 := Js.Math_round (fst scored * 100)%Q;
     rows := arraySort compareRows (t_rows totals);
     warnings := snd scored ++
                 laterWarnings featureStatuses (coreFeatureCount totals) |}.

End ScoreJs.

(** ** budgets.js: the budget evaluator *)

Module Budgets.

Record RoutePolicy : Type := {
  rp_minScore : option Q;
  rp_forbidLimited : option bool
}.

Record BaselineBudget : Type := {
  minScore : option Q;
  forbidLimited : option bool;
  allowUnknown : option bool;
  perRoute : option (Js.Map RoutePolicy)
}.

Record BudgetEvaluation : Type := {
  violated : bool;
  reasons : list string
}.

(** [typeof v === 'number' ? Math.max(0, Math.min(1, v)) : undefined] *)
Definition clampScore (v : option Json) : option Q :=
  match v with
  | Some (JNum q) => Some (Js.Math_max 0 (Js.Math_min 1 q))
  | _ => None
  end.

(** [v !== false] *)
Definition notFalse (v : option Json) : bool :=
  match v with
  | Some (JBool false) => false
  | _ => true
  end.

(** The per-route loop of [normalizePolicy]; [None] is the [TypeError] of
    reading a property of [null]. *)
Fixpoint normalizeRoutes (entries : list (string * Json))
    (acc : Js.Map RoutePolicy) : option (Js.Map RoutePolicy) :=
  match entries with
  | [] => Some acc
  | (route, routePolicy) :: rest =>
      if typeofObject routePolicy then
        match routePolicy with
        | JNull => None
        | _ =>
            normalizeRoutes rest
              (Js.set route
                 {| rp_minScore := clampScore (field "minScore" routePolicy);
                    rp_forbidLimited :=
                      Some (truthyOpt (field "forbidLimited" routePolicy)) |}
                 acc)
        end
      else normalizeRoutes rest acc
  end.

(** [normalizePolicy(policy)]; [None] when it throws. *)
Definition normalizePolicy (policy : Json) : option BaselineBudget :=
  match policy with
  | JNull => None
  | _ =>
      let routes :=
        match field "perRoute" policy with
        | Some pr =>
            if truthy pr && typeofObject pr
            then normalizeRoutes (objectEntries pr) []
            else Some []
        | None => Some []
        end in
      match routes with
      | Some perRoute' =>
          Some {| minScore := clampScore (field "minScore" policy);
                  forbidLimited := Some (truthyOpt (field "forbidLimited" policy));
                  allowUnknown := Some (notFalse (field "allowUnknown" policy));
                  perRoute := Some perRoute' |}
      | None => None
      end
  end.

(** [a ?? b] *)
Definition nullish {A} (a b : option A) : option A :=
  match a with Some _ => a | None => b end.

Definition isTrue (b : option bool) : bool :=
  match b with Some true => true | _ => false end.

Definition countStatus {Row} (statusOf : Row -> string) (s : string)
    (rows : list Row) : nat :=
  length (filter (fun r => String.eqb (statusOf r) s) rows).

Definition plural (n : nat) : string := if (1 <? n)%nat then "s" else "".

(** [reasons[reasons.length - 1] += suffix] *)
Fixpoint appendToLast (reasons : list string) (suffix : string) : list string :=
  match reasons with
  | [] => []
  | [r] => [r ++ suffix]
  | r :: rest => r :: appendToLast rest suffix
  end.

(** [evaluateBudgets({policy, route, score01, rows})]; [statusOf] reads
    [r.status]. *)
Definition evaluateBudgets {Row} (statusOf : Row -> string)
    (policy : BaselineBudget) (route : string) (score01 : Q) (rows : list Row)
  : BudgetEvaluation :=
  let routePolicy :=
    match perRoute policy with
    | Some pr =>
        match Js.get route pr with
        | Some rp => rp
        | None => {| rp_minScore := None; rp_forbidLimited := None |}
        end
    | None => {| rp_minScore := None; rp_forbidLimited := None |}
    end in
  let effMinScore := nullish (rp_minScore routePolicy) (minScore policy) in
  let effForbidLimited :=
    nullish (rp_forbidLimited routePolicy) (forbidLimited policy) in
  let effAllowUnknown := allowUnknown policy in
  let r1 :=
    match effMinScore with
    | Some m =>
        if Qlt_le_dec score01 m
        then ["score " ++ Js.numberToString (Js.Math_round (score01 * 100)%Q) ++
              "% < " ++ Js.numberToString (Js.Math_round (m * 100)%Q) ++ "%"]
        else []
    | None => []
    end in
  let limitedCount := countStatus statusOf "limited" rows in
  let r2 :=
    if isTrue effForbidLimited && existsb (fun r => String.eqb (statusOf r) "limited") rows
    then [Js.numberToString (Z.of_nat limitedCount) ++ " limited feature" ++
          plural limitedCount ++ " present"]
    else [] in
  let unknownCount := countStatus statusOf "unknown" rows in
  let r3 :=
    if negb (isTrue effAllowUnknown) &&
       existsb (fun r => String.eqb (statusOf r) "unknown") rows
    then [Js.numberToString (Z.of_nat unknownCount) ++ " unknown feature" ++
          plural unknownCount ++ " present"]
    else [] in
  let rs := (r1 ++ r2 ++ r3)%list in
  let isViolated := negb (Nat.eqb (length rs) 0) in
  {| violated := isViolated;
     reasons :=
       if isViolated && negb (String.eqb route "/") &&
          match rp_minScore routePolicy with Some _ => true | None => false end
       then appendToLast rs (" on route " ++ route)
       else rs |}.

End Budgets.

(** ** baseline-diff.mjs: the diff of two reports *)

Module Diff.

(** A row of the audit's details table in a report. *)
Record Item : Type := {
  feature_id : string;
  item_status : option string;
  item_weight : option Q
}.

Record Details : Type := { items : option (list Item) }.

Record Audit : Type := {
  score : Q;
  numericValue : Q;
  details : option Details
}.

(** A report; [None] when it has no [audits['baseline-readiness']]. *)
Record LHR : Type := { baselineReadiness : option Audit }.

Record BaselineData : Type := {
  bd_score : Q;
  bd_numericValue : Q;
  bd_items : list Item
}.

Definition extractBaselineData (lhr : LHR) : option BaselineData :=
  match baselineReadiness lhr with
  | Some audit =>
      match details audit with
      | Some d =>
          match items d with
          | Some its =>
              Some {| bd_score := score audit;
                      bd_numericValue := numericValue audit;
                      bd_items := its |}
          | None => None
          end
      | None => None
      end
  | None => None
  end.

Record FeatureData : Type := {
  fd_status : option string;
  fd_weight : Q
}.

Definition buildFeatureMap (its : list Item) : Js.Map FeatureData :=
  fold_left
    (fun map item =>
       Js.set (feature_id item)
         {| fd_status := option_map Js.toLowerCase (item_status item);
            fd_weight := Js.orOne (item_weight item) |}
         map)
    its [].

Record NewLimited : Type := { nl_feature_id : string; nl_where : string }.

Definition statusIs (s : option string) (v : string) : bool :=
  match s with Some x => String.eqb x v | None => false end.

Definition findNewLimited (baseMap headMap : Js.Map FeatureData)
  : list NewLimited :=
  flat_map
    (fun kv =>
       let baseData := Js.get (fst kv) baseMap in
       if statusIs (fd_status (snd kv)) "limited" &&
          match baseData with
          | None => true
          | Some b => negb (statusIs (fd_status b) "limited")
          end
       then [{| nl_feature_id := fst kv; nl_where := "New in head" |}]
       else [])
    headMap.

Record Downgrade : Type := {
  dg_feature_id : string;
  dg_from : option string;
  dg_to : option string
}.

(** [statusRank[status] || 0] *)
Definition statusRank (s : option string) : Z :=
  match s with
  | Some x =>
      if String.eqb x "widely" then 3
      else if String.eqb x "newly" then 2
      else if String.eqb x "limited" then 1
      else 0
  | None => 0
  end.

Definition findDowngrades (baseMap headMap : Js.Map FeatureData)
  : list Downgrade :=
  flat_map
    (fun kv =>
       match Js.get (fst kv) baseMap with
       | Some baseData =>
           if statusRank (fd_status (snd kv)) <? statusRank (fd_status baseData)
           then [{| dg_feature_id := fst kv;
                    dg_from := fd_status baseData;
                    dg_to := fd_status (snd kv) |}]
           else []
       | None => []
       end)
    headMap.

Record Contributor : Type := { c_feature_id : string; delta : Q }.

(** [statusPoints[status]]; [None] is [undefined]. *)
Definition statusPoints (s : option string) : option Q :=
  match s with
  | Some x =>
      if String.eqb x "widely" then Some 2%Q
      else if String.eqb x "newly" then Some 1%Q
      else if String.eqb x "limited" then Some 0%Q
      else if String.eqb x "unknown" then Some 0%Q
      else None
  | None => None
  end.

(** [fd_weight || 1.0] *)
Definition weightOrOne (w : Q) : Q := if Qeq_bool w 0 then 1%Q else w.

(** The [delta] of one head feature; [None] is [NaN], which fails the
    [Math.abs(delta) > 0.001] test. *)
Definition contribution (baseMap : Js.Map FeatureData)
    (kv : string * FeatureData) : option Q :=
  let basePoints :=
    match Js.get (fst kv) baseMap with
    | Some baseData =>
        option_map (fun p => (p * weightOrOne (fd_weight baseData))%Q)
                   (statusPoints (fd_status baseData))
    | None => Some 0%Q
    end in
  let headPoints :=
    option_map (fun p => (p * weightOrOne (fd_weight (snd kv)))%Q)
               (statusPoints (fd_status (snd kv))) in
  match headPoints, basePoints with
  | Some h, Some b => Some (h - b)%Q
  | _, _ => None
  end.

Definition findTopContributors (baseMap headMap : Js.Map FeatureData)
    (limit : nat) : list Contributor :=
  let contributors :=
    flat_map
      (fun kv =>
         match contribution baseMap kv with
         | Some d =>
             if Qlt_le_dec 0.001 (Qabs d)
             then [{| c_feature_id := fst kv; delta := d |}]
             else []
         | None => []
         end)
      headMap in
  Js.slice 0 limit
    (arraySort (fun a b => (Qabs (delta b) - Qabs (delta a))%Q) contributors).

Record DiffResult : Type := {
  scoreDelta : Q;
  newLimited : list NewLimited;
  downgrades : list Downgrade;
  topContributors : list Contributor
}.

(** [main] once both reports are loaded; [None] is the exit with
    "Baseline audit not found in one or both reports". *)
Definition main (baseLHR headLHR : LHR) : option DiffResult :=
  match extractBaselineData baseLHR, extractBaselineData headLHR with
  | Some baseData, Some headData =>
      let baseMap := buildFeatureMap (bd_items baseData) in
      let headMap := buildFeatureMap (bd_items headData) in
      Some {| scoreDelta := Js.toFixed3 (bd_score headData - bd_score baseData);
              newLimited := findNewLimited baseMap headMap;
              downgrades := findDowngrades baseMap headMap;
              topContributors := findTopContributors baseMap headMap 5 |}
  | _, _ => None
  end.

End Diff.

(** ** score.js and the UA engine: summary statistics *)

Module Summary.

Record Stats : Type := { widely : Z; newly : Z; limited : Z; unknown : Z }.

(** [generateSummaryStats(rows)]; [statusOf] reads [row.status]. *)
Definition generateSummaryStats {Row} (statusOf : Row -> string)
    (rows : list Row) : Stats :=
  fold_left
    (fun stats row =>
       let s := statusOf row in
       if String.eqb s "widely" then
         {| widely := widely stats + 1; newly := newly stats;
            limited := limited stats; unknown := unknown stats |}
       else if String.eqb s "newly" then
         {| widely := widely stats; newly := newly stats + 1;
            limited := limited stats; unknown := unknown stats |}
       else if String.eqb s "limited" then
         {| widely := widely stats; newly := newly stats;
            limited := limited stats + 1; unknown := unknown stats |}
       else if String.eqb s "unknown" then
         {| widely := widely stats; newly := newly stats;
            limited := limited stats; unknown := unknown stats + 1 |}
       else stats)
    rows {| widely := 0; newly := 0; limited := 0; unknown := 0 |}.

End Summary.

(** ** budgets.js: loading a policy *)

Module BudgetsLoad.

(** [loadBudgets({settings})]: [baselineBudgets] is
    [settings.baselineBudgets]; [budgetsFile] is the parsed
    [baseline.budgets.json] when the file is there and parses.  A policy in
    the settings that makes [normalizePolicy] throw makes [loadBudgets] throw
    ([None]); one in the file is dropped for the defaults by the [catch]. *)
Definition loadBudgets (baselineBudgets budgetsFile : option Json)
  : option Budgets.BaselineBudget :=
  match baselineBudgets with
  | Some policy =>
      if truthy policy then Budgets.normalizePolicy policy
      else
        match budgetsFile with
        | Some filePolicy =>
            match Budgets.normalizePolicy filePolicy with
            | Some b => Some b
            | None => Budgets.normalizePolicy (JObj [])
            end
        | None => Budgets.normalizePolicy (JObj [])
        end
  | None =>
      match budgetsFile with
      | Some filePolicy =>
          match Budgets.normalizePolicy filePolicy with
          | Some b => Some b
          | None => Budgets.normalizePolicy (JObj [])
          end
      | None => Budgets.normalizePolicy (JObj [])
      end
  end.

End BudgetsLoad.

(** ** webstatus-client.js: statistics and resets *)

(** [x.toFixed(digits)] as text, for [digits > 0]. *)
Definition toFixedText (digits : nat) (x : Q) : string :=
  let n := Js.toFixedDigits digits x in
  let unit := 10 ^ Z.of_nat digits in
  (if Qle_bool 0 x then "" else "-") ++
  Js.numberToString (n / unit) ++ "." ++
  Js.padLeft digits (Js.numberToString (n mod unit)).

Record CacheReport : Type := {
  cr_size : nat;
  cr_hits : Z;
  cr_misses : Z;
  cr_hitRate : string
}.

Record BreakerReport : Type := {
  br_state : string;
  br_failureCount : Z;
  br_lastFailureTime : Z
}.

Record StatsReport : Type := {
  sr_cache : CacheReport;
  sr_circuitBreaker : BreakerReport
}.

(** The text of the [state] field of the breaker. *)
Definition stateText (s : BreakerState) : string :=
  match s with
  | closed => "closed"
  | open => "open"
  | half_open => "half-open"
  end.

(** [getStats] *)
Definition getStats : M StatsReport :=
  fun w =>
    let h := hits (cacheStats w) in
    let m := misses (cacheStats w) in
    ({| sr_cache :=
          {| cr_size := length (cache w);
             cr_hits := h;
             cr_misses := m;
             cr_hitRate :=
               if h + m >? 0
               then toFixedText 3 (inject_Z h / inject_Z (h + m))
               else "0.000" |};
        sr_circuitBreaker :=
          {| br_state := stateText (state (circuitBreakerState w));
             br_failureCount := failureCount (circuitBreakerState w);
             br_lastFailureTime := lastFailureTime (circuitBreakerState w) |} |},
     w).

(** [resetCircuitBreaker] *)
Definition resetCircuitBreaker : M unit :=
  fun w => (tt, withBreaker initialBreaker w).

(** [resetCacheStats] *)
Definition resetCacheStats : M unit :=
  fun w => (tt, withStats {| hits := 0; misses := 0 |} w).

(* ================================================================== *)
(** * Part II. The vocabulary of the properties                        *)
(* ================================================================== *)

(** The points table of the specification. *)
Definition tablePoints (status : string) : Q :=
  if String.eqb status "widely" then 2%Q
  else if String.eqb status "newly" then 1%Q
  else 0%Q.

Definition fourStatuses : list string := ["widely"; "newly"; "limited"; "unknown"].

(** The policy file of the scenario: global [minScore] 0.80, route [/api]
    overriding with [minScore] 0.95 and [forbidLimited]. *)
Definition scenarioPolicyJson : Json :=
  JObj [("minScore", JNum 0.80);
        ("perRoute",
         JObj [("/api", JObj [("minScore", JNum 0.95);
                              ("forbidLimited", JBool true)])])].

(** The same policy as the test hands it to [evaluateBudgets]. *)
Definition scenarioPolicy : Budgets.BaselineBudget :=
  {| Budgets.minScore := Some 0.80%Q;
     Budgets.forbidLimited := Some false;
     Budgets.allowUnknown := Some true;
     Budgets.perRoute :=
       Some [("/api", {| Budgets.rp_minScore := Some 0.95%Q;
                         Budgets.rp_forbidLimited := Some true |})] |}.

Definition reportOf (score : Q) (rows : list (string * string)) : Diff.LHR :=
  {| Diff.baselineReadiness :=
       Some {| Diff.score := score;
               Diff.numericValue := (score * 100)%Q;
               Diff.details :=
                 Some {| Diff.items :=
                   Some (map (fun r => {| Diff.feature_id := fst r;
                                          Diff.item_status := Some (snd r);
                                          Diff.item_weight := None |}) rows) |} |} |}.

Definition scenarioBase : Diff.LHR :=
  reportOf 0.90 [("grid", "Widely"); ("flexbox", "Widely")].

Definition scenarioHead : Diff.LHR :=
  reportOf 0.85 [("grid", "Widely"); ("flexbox", "Newly")].

(** A run of [recordFailure] calls at the given times. *)
Definition recordFailures (times : list Z) (cb : CircuitBreaker) : CircuitBreaker :=
  fold_left (fun acc now => recordFailure now acc) times cb.

(** The failures recorded since the last success, or since the start when
    there was none; asking [shouldAllowRequest] neither counts nor resets. *)
Definition consecutiveFailures (ops : list BreakerOp) : nat :=
  fold_left
    (fun n op =>
       match op with
       | OpShouldAllow _ => n
       | OpRecordSuccess => 0%nat
       | OpRecordFailure _ => S n
       end) ops 0%nat.

(** The time of the last failure recorded, if there was one. *)
Definition lastFailure (ops : list BreakerOp) : option Z :=
  fold_left
    (fun t op =>
       match op with
       | OpRecordFailure now => Some now
       | _ => t
       end) ops None.

(** What every reachable breaker satisfies: it is closed exactly while fewer
    than [CIRCUIT_BREAKER_THRESHOLD] failures are counted. *)
Definition breakerInv (cb : CircuitBreaker) : Prop :=
  0 <= failureCount cb /\
  (state cb = closed <-> failureCount cb < CIRCUIT_BREAKER_THRESHOLD).

(** [a] may stand before [b]. *)
Definition before {A} (compare : A -> A -> Q) (a b : A) : Prop :=
  (compare a b <= 0)%Q.

(** A platform to run examples on: strings compared by code unit, dates left
    as a fixed text. *)
Definition codeUnitCompare (a b : string) : Z :=
  match String_as_OT.cmp a b with
  | Lt => -1
  | Eq => 0
  | Gt => 1
  end.

Definition samplePlatform : Platform :=
  {| toLocaleDateString := fun _ => "Jan 2020";
     localeCompare := codeUnitCompare |}.

(** The row a feature gets in the UA-weighted engine. *)
Definition rowOfEntry (P : Platform) (tokens : list Token)
    (tokenToFeatureMap : Js.Map string) (usageData : option (Js.Map Usage))
    (uaDistribution : UADistribution) (entry : string * BaselineStatus)
  : ScoreUA.Row :=
  ScoreUA.makeRow P (fst entry) (snd entry) tokens tokenToFeatureMap usageData
    uaDistribution.

(** The weight a row carries: [row.weight || 1]. *)
Definition rowWeight (r : ScoreUA.Row) : Q := Js.orOne (ScoreUA.r_weight r).

Definition validStatus (status : string) : Prop := In status fourStatuses.





(** The status names no property that a plain object inherits, so
    [supportLevels[status]] is an own entry or [undefined]. *)
Definition ordinaryStatus (st : BaselineStatus) : Prop :=
  Js.inheritedProperty (status st) = false.

(** [coverageData[featureId]] is an own entry or [undefined]: there is no
    coverage data, or the identifier names no inherited property. *)
Definition ordinaryFeature (usageData : option (Js.Map Usage))
    (featureId : string) : Prop :=
  usageData = None \/ Js.inheritedProperty featureId = false.


(** [reply] carries a record for feature [x]. *)
Definition replyMentions (reply : Reply) (x : string) : Prop :=
  match reply with
  | Responds _ _ (Parsed data) => In x (map featureId (responseData data))
  | _ => False
  end.

(** From [w] to [w'] only the breaker and the clock moved, and every request
    sent was for the batch [ids]. *)
Definition extends (ids : list string) (w w' : World) : Prop :=
  cache w' = cache w /\
  cacheStats w' = cacheStats w /\
  (tick w <= tick w')%nat /\
  exists extra,
    sent w' = (sent w ++ extra)%list /\ Forall (fun e => fst e = ids) extra.

(** A computation that, started at or after position [t0] of the oracle,
    extends the world and returns a value satisfying [V]. *)
Definition spec {A} (ids : list string) (t0 : nat) (m : M A) (V : A -> Prop)
  : Prop :=
  forall w, (t0 <= tick w)%nat -> extends ids w (snd (m w)) /\ V (fst (m w)).

(** Where the features handed back by [fetchFeaturesBatch] come from: an
    accepted body read from the oracle at or after [t0] (or nowhere, for the
    empty batch). *)
Definition outOk (E : Env) (t0 : nat) (o : Outcome (list Json)) : Prop :=
  match o with
  | Returned features =>
      features = [] \/
      exists k st txt data,
        (t0 <= k)%nat /\ fetch E k = Responds st txt (Parsed data) /\
        features = responseData data
  | Thrown _ => True
  end.

Definition againOk (E : Env) (ids : list string) (t0 : nat)
    (again : option (M (Outcome (list Json)))) : Prop :=
  forall retry, again = Some retry -> spec ids t0 retry (outOk E t0).

(** A reply that [fetchFeaturesBatch] accepts: an ok status with a body that
    parses and passes [isValidResponse]. *)
Definition accepted (reply : Reply) : Prop :=
  match reply with
  | Responds st _ (Parsed data) =>
      okStatus st = true /\ isValidResponse data = true
  | _ => False
  end.

Definition isThrown {A} (o : Outcome A) : Prop :=
  match o with
  | Thrown _ => True
  | Returned _ => False
  end.

(** The result of merging the maps of batches whose [set] calls are the
    lists of [writesList]. *)
Definition mergeWrites (writesList : list (list (string * BaselineStatus)))
    (results : Js.Map BaselineStatus) : Js.Map BaselineStatus :=
  fold_left (fun acc writes => Js.setAll (Js.setAll writes []) acc)
    writesList results.

(** The [set] calls of one [processBatch] run: those of the [catch] block,
    or those of the [try] block for features read from the oracle. *)
Definition writesOk (E : Env) (t0 : nat) (ids : list string)
    (writes : list (string * BaselineStatus)) : Prop :=
  writes = failureWrites ids \/
  exists features,
    outOk E t0 (Returned features) /\ writes = responseWrites features ids.

(** From [w] to [w'] the cache received the [set] calls [writes], and every
    request sent was for one of [batches]. *)
Definition ran (batches : list (list string))
    (writes : list (string * BaselineStatus)) (w w' : World) : Prop :=
  cache w' = Js.setAll writes (cache w) /\
  (tick w <= tick w')%nat /\
  exists extra,
    sent w' = (sent w ++ extra)%list /\
    Forall (fun e => In (fst e) batches) extra.

(** The cache hits of a request, as the [set] calls of the first loop. *)
Definition cachedEntries (c : Js.Map BaselineStatus) (ids : list string)
  : list (string * BaselineStatus) :=
  flat_map (fun id => match Js.get id c with
                      | Some st => [(id, st)]
                      | None => []
                      end) ids.

(** The cache misses of a request: its [toFetch]. *)
Definition uncached (c : Js.Map BaselineStatus) (ids : list string)
  : list string :=
  filter (fun id => negb (Js.has id c)) ids.

(** An authority that cannot be reached: every [fetch] rejects. *)
Definition unreachableAuthority : Env :=
  {| Date_now := fun k => 1000 * Z.of_nat k;
     fetch := fun _ => Rejects {| name := "TypeError";
                                  message := "fetch failed" |} |}.

(** A sequence of [fetchBaselineStatus] calls, one after the other. *)
Fixpoint runCalls (E : Env) (calls : list (list string)) (w : World)
  : list (Outcome (Js.Map BaselineStatus)) * World :=
  match calls with
  | [] => ([], w)
  | req :: rest =>
      let (o, w1) := fetchBaselineStatus E req w in
      let (os, w2) := runCalls E rest w1 in
      (o :: os, w2)
  end.

(** The call for [req] with outcome [o] resolved the identifiers of [batch]
    it was asked for to unknown. *)
Definition keepsUnknown (batch req : list string)
    (o : Outcome (Js.Map BaselineStatus)) : Prop :=
  forall m, o = Returned m ->
  forall id, In id batch -> In id req -> Js.get id m = Some unknownStatus.

(** An authority that is down for the first nine reads and then answers every
    request with records for [flexbox] and [grid]. *)
Definition recoveringAuthority : Env :=
  {| Date_now := fun k => 1000 * Z.of_nat k;
     fetch := fun k =>
       if (k <? 9)%nat
       then Rejects {| name := "TypeError"; message := "fetch failed" |}
       else Responds 200 "OK"
              (Parsed (JObj [("data", JArr [
                 JObj [("feature_id", JStr "flexbox");
                       ("baseline", JObj [("status", JStr "widely")])];
                 JObj [("feature_id", JStr "grid");
                       ("baseline", JObj [("status", JStr "widely")])]])])) |}.

(** An authority that is down for the first nine reads and then answers with
    the record of [flexbox] only. *)
Definition recoveredForFlexbox : Env :=
  {| Date_now := fun k => 1000 * Z.of_nat k;
     fetch := fun k =>
       if (k <? 9)%nat
       then Rejects {| name := "TypeError"; message := "fetch failed" |}
       else Responds 200 "OK"
              (Parsed (JObj [("data", JArr [
                 JObj [("feature_id", JStr "flexbox");
                       ("baseline", JObj [("status", JStr "widely")])]])])) |}.

(** ** Scores *)

(** The number of features of a status map with status [s]. *)
Definition statusCount (s : string) (m : Js.Map BaselineStatus) : nat :=
  length (filter (fun e => String.eqb (status (snd e)) s) m).

Definition limitedWarning : string :=
  "High usage of features with limited browser support detected".

(** The number of rows with status [s]. *)
Definition rowsWithStatus {Row} (statusOf : Row -> string) (s : string)
    (rows : list Row) : Z :=
  Z.of_nat (length (filter (fun r => String.eqb (statusOf r) s) rows)).

(** More than 30% of the features of a status map are [limited]. *)
Definition heavilyLimited (m : Js.Map BaselineStatus) : Prop :=
  (3 * length m < 10 * statusCount "limited" m)%nat.

(** [token.location] is truthy. *)
Definition hasLocation (t : Token) : bool :=
  match location t with Some file => Js.nonEmpty file | None => false end.

(** The source location [findFeatureLocation] records for a token. *)
Definition locationOfToken (t : Token) : SourceLocation :=
  {| loc_url := match location t with Some file => file | None => "" end;
     loc_line := orZeroZ (line t);
     loc_column := orZeroZ (column t) |}.

(** The tokens that map to a feature and carry a location, in token order. *)
Definition locatedTokens (featureId : string) (tokens : list Token)
    (tokenToFeatureMap : Js.Map string) : list Token :=
  filter (fun t => tokenMapsTo tokenToFeatureMap featureId t && hasLocation t)
         tokens.

Definition firstKey {V} (m : Js.Map V) : option string :=
  match m with [] => None | (k, _) :: _ => Some k end.

Definition addLocation (acc : Js.Map (list SourceLocation)) (t : Token)
  : Js.Map (list SourceLocation) :=
  let file := loc_url (locationOfToken t) in
  match Js.get file acc with
  | Some l => Js.set file (l ++ [locationOfToken t])%list acc
  | None => Js.set file [locationOfToken t] acc
  end.

(** ** The report diff *)

(** The features whose points changed by more than 0.001, in head order:
    the [contributors] of [findTopContributors] before the sort. *)
Definition changedFeatures (baseMap headMap : Js.Map Diff.FeatureData)
  : list Diff.Contributor :=
  flat_map
    (fun kv =>
       match Diff.contribution baseMap kv with
       | Some d =>
           if Qlt_le_dec 0.001 (Qabs d)
           then [{| Diff.c_feature_id := fst kv; Diff.delta := d |}]
           else []
       | None => []
       end)
    headMap.

(** [a] contributes at least as much as [b]. *)
Definition outweighs (a b : Diff.Contributor) : Prop :=
  (Qabs (Diff.delta b) <= Qabs (Diff.delta a))%Q.

(** ** Budgets *)

Definition inUnit (x : option Q) : Prop :=
  match x with Some q => (0 <= q <= 1)%Q | None => True end.

(** A policy as [normalizePolicy] leaves it: scores clamped to [0, 1], the
    flags booleans, the routes keyed once. *)
Definition normalizedBudget (b : Budgets.BaselineBudget) : Prop :=
  inUnit (Budgets.minScore b) /\
  (exists f, Budgets.forbidLimited b = Some f) /\
  (exists a, Budgets.allowUnknown b = Some a) /\
  exists routes,
    Budgets.perRoute b = Some routes /\ NoDup (Js.keys routes) /\
    Forall (fun kv => inUnit (Budgets.rp_minScore (snd kv)) /\
                      exists f, Budgets.rp_forbidLimited (snd kv) = Some f)
           routes.

(** The defaults: no minimum score, limited features allowed, unknown
    features allowed, no route. *)
Definition defaultBudget : Budgets.BaselineBudget :=
  {| Budgets.minScore := None;
     Budgets.forbidLimited := Some false;
     Budgets.allowUnknown := Some true;
     Budgets.perRoute := Some [] |}.

(** [policy.perRoute?.[route] || {}] *)
Definition routePolicyOf (policy : Budgets.BaselineBudget) (route : string)
  : Budgets.RoutePolicy :=
  match Budgets.perRoute policy with
  | Some pr =>
      match Js.get route pr with
      | Some rp => rp
      | None => {| Budgets.rp_minScore := None; Budgets.rp_forbidLimited := None |}
      end
  | None => {| Budgets.rp_minScore := None; Budgets.rp_forbidLimited := None |}
  end.

(** The three checks of [evaluateBudgets], on the effective policy of the
    route (the route's fields where it has them, the global ones otherwise;
    [allowUnknown] is global only). *)
Definition scoreTooLow (policy : Budgets.BaselineBudget) (route : string)
    (score01 : Q) : Prop :=
  exists m,
    Budgets.nullish (Budgets.rp_minScore (routePolicyOf policy route))
                    (Budgets.minScore policy) = Some m /\
    (score01 < m)%Q.

Definition limitedForbidden {Row} (statusOf : Row -> string)
    (policy : Budgets.BaselineBudget) (route : string) (rows : list Row) : Prop :=
  Budgets.nullish (Budgets.rp_forbidLimited (routePolicyOf policy route))
                  (Budgets.forbidLimited policy) = Some true /\
  exists r, In r rows /\ statusOf r = "limited".

Definition unknownForbidden {Row} (statusOf : Row -> string)
    (policy : Budgets.BaselineBudget) (rows : list Row) : Prop :=
  Budgets.allowUnknown policy <> Some true /\
  exists r, In r rows /\ statusOf r = "unknown".

(** ** UA distributions *)











(** ** The status resolver: requests, statuses, counters *)

(** A request as [sent] logs it is for one of [batches], with the query
    [buildQuery] makes of that batch. *)
Definition requestFor (batches : list (list string))
    (e : list string * string) : Prop :=
  In (fst e) batches /\ buildQuery (fst e) = Some (snd e).

(** From [w] to [w'] cache and counters are untouched and at most [n]
    requests were sent, each for one of [batches]. *)
Definition asksAtMost (n : nat) (batches : list (list string)) (w w' : World)
  : Prop :=
  cache w' = cache w /\
  cacheStats w' = cacheStats w /\
  (tick w <= tick w')%nat /\
  exists extra,
    sent w' = (sent w ++ extra)%list /\ (length extra <= n)%nat /\
    Forall (requestFor batches) extra.

Definition bounded {A} (n : nat) (ids : list string) (m : M A) (V : A -> Prop)
  : Prop :=
  forall w, asksAtMost n [ids] w (snd (m w)) /\ V (fst (m w)).

(** The features a batch request hands back passed [isValidResponse]. *)
Definition validFeatures (o : Outcome (list Json)) : Prop :=
  match o with
  | Returned features => forallb validFeature features = true
  | Thrown _ => True
  end.

Definition validEntries (m : Js.Map BaselineStatus) : Prop :=
  Forall (fun kv => validStatus (status (snd kv))) m.

(** From [w] to [w'] the counters are untouched, the cache keeps holding
    statuses among the four if it did, and at most [n] requests were sent,
    each for one of [batches]. *)
Definition worked (n : nat) (batches : list (list string)) (w w' : World)
  : Prop :=
  (validEntries (cache w) -> validEntries (cache w')) /\
  cacheStats w' = cacheStats w /\
  (tick w <= tick w')%nat /\
  exists extra,
    sent w' = (sent w ++ extra)%list /\ (length extra <= n)%nat /\
    Forall (requestFor batches) extra.

(** The identifiers of a request the cache holds. *)
Definition cachedIds (c : Js.Map BaselineStatus) (ids : list string)
  : list string :=
  filter (fun id => Js.has id c) ids.

(** ** The status resolver: answers, failures, the breaker *)

(** The record the features of a response carry for [id]: that of the last
    feature [processBatch] does not skip whose [feature_id] is [id]. *)
Definition recordIn (features : list Json) (id : string)
  : option BaselineStatus :=
  option_map featureStatus
    (find (fun feature => String.eqb (featureId feature) id)
          (rev (filter usableFeature features))).

(** [r] is stated for [id] by a body the oracle delivers at or after
    position [t0]. *)
Definition statedBy (E : Env) (t0 : nat) (id : string) (r : BaselineStatus)
  : Prop :=
  exists k st txt data,
    (t0 <= k)%nat /\ fetch E k = Responds st txt (Parsed data) /\
    exists feature,
      In feature (responseData data) /\ featureId feature = id /\
      featureStatus feature = r.

(** An authority that gives the same reply to every request. *)
Definition steadyAuthority (reply : Reply) : Env :=
  {| Date_now := fun k => 1000 * Z.of_nat k;
     fetch := fun _ => reply |}.

(** A body with a record for [grid] only. *)
Definition gridBody : Json :=
  JObj [("data", JArr [
    JObj [("feature_id", JStr "grid");
          ("baseline", JObj [("status", JStr "widely")])]])].

Definition widelyStatus : BaselineStatus :=
  {| status := "widely"; low_date := None; high_date := None |}.

(** A world whose breaker has just opened. *)
Definition trippedWorld : World :=
  {| cache := [("grid", widelyStatus)];
     circuitBreakerState :=
       {| failureCount := 5; lastFailureTime := 0; state := open |};
     cacheStats := {| hits := 0; misses := 0 |};
     tick := 0%nat;
     sent := [] |}.

(** What a call that reaches the authority, and is answered with [features]
    every time, resolves [id] to: the record the answer carries for it, else
    the record the cache [c] held, else unknown. *)
Definition resolution (features : list Json) (c : Js.Map BaselineStatus)
    (id : string) : BaselineStatus :=
  match recordIn features id with
  | Some r => r
  | None =>
      match Js.get id c with
      | Some r => r
      | None => unknownStatus
      end
  end.

(** [id] keeps at least one character in [buildQuery]. *)
Definition queryable (id : string) : Prop :=
  Js.nonEmpty (Js.filterChars validIdChar id) = true.

(** The world after one accepted request for [batch]. *)
Definition afterSuccess (batch : list string) (q : string) (w : World) : World :=
  {| cache := cache w;
     circuitBreakerState := recordSuccess (circuitBreakerState w);
     cacheStats := cacheStats w;
     tick := S (S (tick w));
     sent := (sent w ++ [(batch, q)])%list |}.

(** A batch [buildQuery] accepts. *)
Definition askable (batch : list string) : Prop :=
  batch <> [] /\ buildQuery batch <> None.

(** From [w] to [w'] the batches were each asked once and answered. *)
Definition answered (features : list Json) (batches : list (list string)) (w w' : World) : Prop :=
  cache w' =
    Js.setAll (concat (map (responseWrites features) batches))
      (cache w) /\
  state (circuitBreakerState w') <> open /\
  (batches <> [] -> circuitBreakerState w' =
                    recordSuccess (circuitBreakerState w)) /\
  (batches = [] -> circuitBreakerState w' = circuitBreakerState w) /\
  exists extra,
    sent w' = (sent w ++ extra)%list /\ map fst extra = batches /\
    Forall (fun e => buildQuery (fst e) = Some (snd e)) extra.

(** The error that reaches the [catch] block of [fetchFeaturesBatch] at its
    last attempt for [reply]; [None] for an accepted reply. *)
Definition caughtError (reply : Reply) : option JsError :=
  match reply with
  | Rejects err =>
      Some (if String.eqb (name err) "AbortError"
            then Error "Request timeout after 5000ms"
            else err)
  | Responds st txt body =>
      if negb (okStatus st) then
        if st =? 429 then
          Some (Error ("Rate limited after " ++
                       Js.numberToString (Z.of_nat MAX_RETRIES + 1) ++
                       " attempts"))
        else if st >=? 500 then
          Some (Error ("Server error: " ++ Js.numberToString st))
        else
          Some (Error ("Client error: " ++ Js.numberToString st ++ " " ++ txt))
      else
        match body with
        | ParseError parseErr =>
            Some (Error ("Invalid JSON response: " ++ parseErr))
        | Parsed data =>
            if isValidResponse data then None
            else Some (Error "Invalid response structure from WebStatus API")
        end
  end.

(** The [catch] block does not rethrow [err] at once: it is a timeout, or its
    message has neither of the two texts that block retries. *)
Definition retried (err : JsError) : bool :=
  (String.eqb (name err) "AbortError" || Js.includes (message err) "timeout") ||
  negb (Js.includes (message err) "Circuit breaker" ||
        Js.includes (message err) "Invalid feature IDs").

(** The breaker's state agrees with its failure count. *)
Definition breakerInStep (cb : CircuitBreaker) : Prop :=
  state cb = if failureCount cb >=? CIRCUIT_BREAKER_THRESHOLD then open
             else closed.

(** From [w] to [w'], [n] requests for [batch] were sent and [k] failures
    recorded, and nothing else changed. *)
Definition failedRun (n : nat) (k : Z) (batch : list string) (q : string)
    (w w' : World) : Prop :=
  cache w' = cache w /\ cacheStats w' = cacheStats w /\
  sent w' = (sent w ++ repeat (batch, q) n)%list /\
  failureCount (circuitBreakerState w') =
    failureCount (circuitBreakerState w) + k /\
  breakerInStep (circuitBreakerState w').

(** How many failures the [try] block records at an attempt that will be
    retried, and at the last attempt. *)
Definition recordedPerRetry (reply : Reply) : Z :=
  match reply with
  | Rejects _ => 0
  | Responds st _ _ =>
      if negb (okStatus st) && ((st =? 429) || (st >=? 500)) then 0 else 1
  end.

Definition recordedAtLast (reply : Reply) : Z :=
  match reply with
  | Rejects _ => 0
  | Responds st _ _ => 1
  end.

(** The failures one batch records when each of its attempts gets [reply]:
    one for a request that does not complete, two for a 429 or 5xx status,
    five for any other status or a body that cannot be used. *)
Definition failuresOf (reply : Reply) : Z :=
  match reply with
  | Rejects _ => 1
  | Responds st _ _ =>
      if negb (okStatus st) && ((st =? 429) || (st >=? 500)) then 2 else 5
  end.

(** Every character of [s] passes [p]. *)
Fixpoint everyChar (p : ascii -> bool) (s : string) : bool :=
  match s with
  | EmptyString => true
  | String c s' => p c && everyChar p s'
  end.

(** The characters a query is made of: those [buildQuery] keeps, and the
    colon and the space of [id:] and [ OR ]. *)
Definition queryChar (c : ascii) : bool :=
  validIdChar c || Ascii.eqb c ":" || Ascii.eqb c " ".

(** An identifier [buildQuery] passes on as it is. *)
Definition cleanId (id : string) : Prop :=
  Js.nonEmpty id = true /\ everyChar validIdChar id = true.

(* ================================================================== *)
(** * Part III. Properties                                             *)
(* ================================================================== *)

(** ** Clamps on rationals *)

Lemma clamp_min_max_bounds (lo hi x : Q) :
  (lo <= hi)%Q ->
  (lo <= Js.Math_min (Js.Math_max x lo) hi <= hi)%Q.
Proof.
  intros Hle. unfold Js.Math_min, Js.Math_max.
  destruct (Q.max_spec x lo) as [[H1 E1] | [H1 E1]];
  destruct (Q.min_spec (Qmax x lo) hi) as [[H2 E2] | [H2 E2]];
  rewrite E2; rewrite ?E1 in *; split; lra.
Qed.

Lemma clamp_max_min_bounds (lo hi x : Q) :
  (lo <= hi)%Q ->
  (lo <= Js.Math_max lo (Js.Math_min hi x) <= hi)%Q.
Proof.
  intros Hle. unfold Js.Math_min, Js.Math_max.
  destruct (Q.min_spec hi x) as [[H1 E1] | [H1 E1]];
  destruct (Q.max_spec lo (Qmin hi x)) as [[H2 E2] | [H2 E2]];
  rewrite E2; rewrite ?E1 in *; split; lra.
Qed.

Lemma clamp_max_min_mono (lo hi x y : Q) :
  (x <= y)%Q ->
  (Js.Math_max lo (Js.Math_min hi x) <= Js.Math_max lo (Js.Math_min hi y))%Q.
Proof.
  intros Hxy. unfold Js.Math_min, Js.Math_max.
  apply Q.max_le_compat_l. apply Q.min_le_compat_l. exact Hxy.
Qed.

(** ** [uaSupportFactor] *)

Lemma uaSupportFactor_limited (d : UADistribution) :
  uaSupportFactor "limited" d =
  Js.Math_max 0.5 (Js.Math_min 1.0 (0.5 + chromeEdgeShare d * 0.5))%Q.
Proof. reflexivity. Qed.

Lemma uaSupportFactor_newly (d : UADistribution) :
  uaSupportFactor "newly" d =
  Js.Math_max 0.5 (Js.Math_min 1.0 (0.8 - safariShare d * 0.2))%Q.
Proof. reflexivity. Qed.

Lemma uaSupportFactor_range (status : string) (d : UADistribution) :
  (0.5 <= uaSupportFactor status d <= 1.0)%Q.
Proof.
  unfold uaSupportFactor.
  destruct (String.eqb status "limited");
    [| destruct (String.eqb status "newly")];
    apply clamp_max_min_bounds; lra.
Qed.

(** On a status that names no inherited property the factor is the finite
    number [uaSupportFactor]. *)
Lemma uaSupportFactorNumber_ordinary (status : string) (d : UADistribution) :
  Js.inheritedProperty status = false ->
  uaSupportFactorNumber status d = Js.Fin (uaSupportFactor status d).
Proof.
  intros Hord. unfold uaSupportFactorNumber, uaSupportFactor. cbv zeta.
  destruct (String.eqb status "limited") eqn:El; [reflexivity |].
  unfold Js.property, supportLevels. cbn [Js.get].
  rewrite (String.eqb_sym "widely"), (String.eqb_sym "newly"),
    (String.eqb_sym "limited"), (String.eqb_sym "unknown").
  rewrite El, Hord.
  destruct (String.eqb status "widely") eqn:Ew.
  { apply String.eqb_eq in Ew. subst status. reflexivity. }
  destruct (String.eqb status "newly") eqn:En; [reflexivity |].
  destruct (String.eqb status "unknown"); reflexivity.
Qed.



(** ** Base points per status *)

(** The claim as worded fails for [score.js]: its [getStatusPoints] gives 3 for
    [widely] and depends on [isCore]. *)
Lemma score_js_points_differ :
  ~ (forall (status : string) (isCore : bool),
        In status fourStatuses ->
        (ScoreJs.getStatusPoints status isCore == tablePoints status)%Q).
Proof.
  intros H. specialize (H "widely" false (or_introl eq_refl)).
  vm_compute in H. discriminate.
Qed.

(** C1 (amended). In the engine that weights by UA distribution the base
    points are widely = 2, newly = 1, limited = 0, unknown = 0 (0 for any other
    string), whatever the feature: the contribution of a feature to the point
    total is these points times its weight, core or not.  In [score.js] the
    points are widely = 3, newly = 2 (1.5 for a core feature), limited = 0
    (-1 for a core feature), unknown = 0. *)
Theorem status_points_per_engine :
  (forall status : string, ScoreUA.getStatusPoints status = tablePoints status) /\
  (ScoreUA.getStatusPoints "widely" = 2%Q /\
   ScoreUA.getStatusPoints "newly" = 1%Q /\
   ScoreUA.getStatusPoints "limited" = 0%Q /\
   ScoreUA.getStatusPoints "unknown" = 0%Q) /\
  (forall P tokens tokenToFeatureMap usageData uaDistribution acc featureId st,
      ScoreUA.totalPoints
        (ScoreUA.processFeature P tokens tokenToFeatureMap usageData
           uaDistribution acc (featureId, st)) =
      (ScoreUA.totalPoints acc +
       tablePoints (status st) *
       fst (ScoreUA.featureWeight featureId st tokens tokenToFeatureMap
              usageData uaDistribution))%Q) /\
  (forall isCore : bool,
      ScoreJs.getStatusPoints "widely" isCore = 3%Q /\
      ScoreJs.getStatusPoints "newly" isCore = (if isCore then 1.5%Q else 2%Q) /\
      ScoreJs.getStatusPoints "limited" isCore = (if isCore then (-1)%Q else 0%Q) /\
      ScoreJs.getStatusPoints "unknown" isCore = 0%Q).
Proof.
  repeat split; reflexivity.
Qed.

(** ** The empty status map *)

(** C10. For an empty status map both engines return [score01 = 1] and
    [numeric100 = 100], no rows, and exactly the zero-features warning. *)
Theorem empty_map_scores_one :
  forall (P : Platform) (tokens : list Token)
         (tokenToFeatureMap : Js.Map string)
         (usageData : option (Js.Map Usage)) (uaDistribution : UADistribution),
    ScoreUA.calculateScore P [] tokens tokenToFeatureMap usageData uaDistribution =
    {| score01 := 1; numeric100 := 100; rows := [];
       warnings := ["No Web Platform features detected"] |} /\
    ScoreJs.calculateScore P [] tokens tokenToFeatureMap usageData =
    {| score01 := 1; numeric100 := 100; rows := [];
       warnings := ["No Web Platform features detected"] |}.
Proof.
  intros. split; reflexivity.
Qed.

(** ** The budget scenario *)

Lemma normalizePolicy_scenario :
  Budgets.normalizePolicy scenarioPolicyJson = Some scenarioPolicy.
Proof. reflexivity. Qed.

Lemma existsb_of_count {Row} (statusOf : Row -> string) (s : string)
    (rows : list Row) :
  existsb (fun r => String.eqb (statusOf r) s) rows =
  negb (Nat.eqb (Budgets.countStatus statusOf s rows) 0).
Proof.
  unfold Budgets.countStatus.
  induction rows as [| r rows IH]; simpl; [reflexivity |].
  destruct (String.eqb (statusOf r) s); simpl; [reflexivity | exact IH].
Qed.

(** C7. With the global policy [minScore] 0.80, the override
    [{minScore: 0.95, forbidLimited: true}] for [/api], a score of 0.90 and
    rows of which exactly one is [limited], the evaluation for route [/api]
    is violated with exactly two reasons: the score against the route's 0.95
    (not the global 0.80), and the limited feature (forbidden by the route,
    not by the global policy); unknown rows add none, [allowUnknown] being
    true. *)
Theorem budget_route_override_two_reasons :
  forall (Row : Type) (statusOf : Row -> string) (rows : list Row),
    Budgets.countStatus statusOf "limited" rows = 1%nat ->
    Budgets.normalizePolicy scenarioPolicyJson = Some scenarioPolicy /\
    Budgets.evaluateBudgets statusOf scenarioPolicy "/api" 0.90 rows =
    {| Budgets.violated := true;
       Budgets.reasons := ["score 90% < 95%";
                           "1 limited feature present on route /api"] |} /\
    length (Budgets.reasons
              (Budgets.evaluateBudgets statusOf scenarioPolicy "/api" 0.90 rows))
    = 2%nat.
Proof.
  intros Row statusOf rows Hlim.
  assert (E : Budgets.evaluateBudgets statusOf scenarioPolicy "/api" 0.90 rows =
              {| Budgets.violated := true;
                 Budgets.reasons := ["score 90% < 95%";
                                     "1 limited feature present on route /api"] |}).
  { unfold Budgets.evaluateBudgets.
    rewrite (existsb_of_count statusOf "limited"), Hlim. reflexivity. }
  split; [reflexivity | split; [exact E | rewrite E; reflexivity]].
Qed.

Lemma budget_route_override_two_reasons_witness :
  Budgets.evaluateBudgets (fun s : string => s) scenarioPolicy "/api" 0.90
    ["limited"] =
  {| Budgets.violated := true;
     Budgets.reasons := ["score 90% < 95%";
                         "1 limited feature present on route /api"] |}.
Proof.
  apply (budget_route_override_two_reasons string (fun s => s) ["limited"]).
  reflexivity.
Defined.

(** ** The diff scenario *)

Lemma findDowngrades_spec (baseMap headMap : Js.Map Diff.FeatureData)
    (d : Diff.Downgrade) :
  In d (Diff.findDowngrades baseMap headMap) <->
  exists headData baseData,
    In (Diff.dg_feature_id d, headData) headMap /\
    Js.get (Diff.dg_feature_id d) baseMap = Some baseData /\
    Diff.statusRank (Diff.fd_status headData) <
      Diff.statusRank (Diff.fd_status baseData) /\
    Diff.dg_from d = Diff.fd_status baseData /\
    Diff.dg_to d = Diff.fd_status headData.
Proof.
  unfold Diff.findDowngrades. rewrite in_flat_map. split.
  - intros [[k h] [Hin Hd]]. simpl in Hd.
    destruct (Js.get k baseMap) as [b |] eqn:Eb; [| contradiction].
    destruct (Diff.statusRank (Diff.fd_status h) <?
              Diff.statusRank (Diff.fd_status b)) eqn:Er; [| contradiction].
    destruct Hd as [<- | []]. simpl.
    exists h, b. apply Z.ltb_lt in Er. repeat split; assumption.
  - intros (h & b & Hin & Hb & Hr & Hfrom & Hto).
    exists (Diff.dg_feature_id d, h). split; [exact Hin |]. simpl.
    rewrite Hb. apply Z.ltb_lt in Hr. rewrite Hr. left.
    destruct d as [i f t]. simpl in *. subst. reflexivity.
Qed.

(** C8. For the base run [grid: Widely, flexbox: Widely] with score 0.90 and
    the head run [grid: Widely, flexbox: Newly] with score 0.85, weights left
    to their default, the diff has [scoreDelta = -0.05], exactly the downgrade
    [flexbox: widely -> newly], and no new limited feature.  In general a
    downgrade is listed exactly for a head feature that the base run has too,
    with a lower status rank in head than in base. *)
Theorem diff_scenario_flexbox_downgrade :
  (exists d : Diff.DiffResult,
      Diff.main scenarioBase scenarioHead = Some d /\
      (Diff.scoreDelta d == -0.05)%Q /\
      Diff.downgrades d =
        [{| Diff.dg_feature_id := "flexbox";
            Diff.dg_from := Some "widely";
            Diff.dg_to := Some "newly" |}] /\
      Diff.newLimited d = []) /\
  (forall (baseMap headMap : Js.Map Diff.FeatureData) (d : Diff.Downgrade),
      In d (Diff.findDowngrades baseMap headMap) <->
      exists headData baseData,
        In (Diff.dg_feature_id d, headData) headMap /\
        Js.get (Diff.dg_feature_id d) baseMap = Some baseData /\
        Diff.statusRank (Diff.fd_status headData) <
          Diff.statusRank (Diff.fd_status baseData) /\
        Diff.dg_from d = Diff.fd_status baseData /\
        Diff.dg_to d = Diff.fd_status headData).
Proof.
  split.
  - eexists. split; [reflexivity |].
    split; [| split]; reflexivity.
  - exact findDowngrades_spec.
Qed.

(** ** The circuit breaker *)

Lemma breakerInv_init : breakerInv initialBreaker.
Proof.
  unfold breakerInv, CIRCUIT_BREAKER_THRESHOLD; simpl.
  split; [lia | split; [lia | reflexivity]].
Qed.

Lemma breakerInv_step (op : BreakerOp) (cb : CircuitBreaker) :
  breakerInv cb -> breakerInv (breakerStep op cb).
Proof.
  unfold breakerInv, CIRCUIT_BREAKER_THRESHOLD.
  intros [Hpos Hiff]. destruct op as [now | | now]; simpl.
  - unfold shouldAllowRequest.
    destruct (state cb) eqn:Est; simpl; try (rewrite Est; tauto).
    destruct (now - lastFailureTime cb >? CIRCUIT_BREAKER_TIMEOUT); simpl.
    + split; [exact Hpos |].
      split; [discriminate | intros H; apply Hiff in H; discriminate].
    + rewrite Est. tauto.
  - split; [lia | split; [lia | reflexivity]].
  - unfold CIRCUIT_BREAKER_THRESHOLD.
    split; [lia |].
    destruct (failureCount cb + 1 >=? 5) eqn:E.
    + split; [discriminate | lia].
    + split; [lia | intros _; apply Hiff; lia].
Qed.

Lemma breakerReachable_inv (cb : CircuitBreaker) :
  breakerReachable cb -> breakerInv cb.
Proof.
  induction 1 as [| cb op _ IH].
  - exact breakerInv_init.
  - apply breakerInv_step; exact IH.
Qed.

Lemma breakerRun_reachable (ops : list BreakerOp) (cb : CircuitBreaker) :
  breakerReachable cb -> breakerReachable (breakerRun ops cb).
Proof.
  revert cb. induction ops as [| op ops IH]; intros cb H; simpl.
  - exact H.
  - apply (IH (breakerStep op cb)). apply reach_step; exact H.
Qed.

Lemma recordFailures_count (times : list Z) (cb : CircuitBreaker) :
  breakerInv cb ->
  breakerInv (recordFailures times cb) /\
  failureCount (recordFailures times cb) =
  failureCount cb + Z.of_nat (length times).
Proof.
  revert cb. induction times as [| now times IH]; intros cb Hinv.
  - simpl. split; [exact Hinv | lia].
  - change (recordFailures (now :: times) cb)
      with (recordFailures times (recordFailure now cb)).
    destruct (IH (recordFailure now cb)) as [Hinv' Hcount].
    { exact (breakerInv_step (OpRecordFailure now) cb Hinv). }
    split; [exact Hinv' |].
    rewrite Hcount. simpl length. simpl failureCount. lia.
Qed.

(** After [n] failures in a row on a closed breaker with a count of zero the
    breaker is open exactly when [n] has reached 5. *)
Lemma opens_at_fifth_failure (times : list Z) (cb : CircuitBreaker) :
  state cb = closed -> failureCount cb = 0 ->
  state (recordFailures times cb) =
  if (length times <? 5)%nat then closed else open.
Proof.
  intros Hst Hcount.
  assert (Hinv : breakerInv cb).
  { unfold breakerInv, CIRCUIT_BREAKER_THRESHOLD. rewrite Hcount.
    split; [lia | split; [lia | intros _; exact Hst]]. }
  destruct (recordFailures_count times cb Hinv) as [[_ Hiff] Hn].
  rewrite Hcount in Hn. unfold CIRCUIT_BREAKER_THRESHOLD in Hiff.
  destruct (length times <? 5)%nat eqn:E.
  - apply Nat.ltb_lt in E. apply Hiff. lia.
  - apply Nat.ltb_ge in E.
    destruct (state (recordFailures times cb)) eqn:Es.
    + assert (failureCount (recordFailures times cb) < 5) by (apply Hiff; reflexivity).
      lia.
    + reflexivity.
    + exfalso.
      (* a run of failures never produces half-open *)
      clear Hiff Hn E Hinv Hcount.
      revert cb Hst Es. induction times as [| now times IH]; intros cb Hst Es.
      * simpl in Es. congruence.
      * change (recordFailures (now :: times) cb)
          with (recordFailures times (recordFailure now cb)) in Es.
        destruct (state (recordFailure now cb)) eqn:E1.
        -- exact (IH _ E1 Es).
        -- clear IH. revert Es. generalize (recordFailure now cb) E1.
           induction times as [| t times IH2]; intros c Ec Es.
           ++ simpl in Es. congruence.
           ++ change (recordFailures (t :: times) c)
                with (recordFailures times (recordFailure t c)) in Es.
              apply (IH2 (recordFailure t c)); [| exact Es].
              unfold recordFailure; simpl. rewrite Ec.
              destruct (failureCount c + 1 >=? CIRCUIT_BREAKER_THRESHOLD);
                reflexivity.
        -- unfold recordFailure in E1; simpl in E1. rewrite Hst in E1.
           destruct (failureCount cb + 1 >=? CIRCUIT_BREAKER_THRESHOLD);
             discriminate.
Qed.

Lemma breakerRun_inv (ops : list BreakerOp) (cb : CircuitBreaker) :
  breakerInv cb -> breakerInv (breakerRun ops cb).
Proof.
  revert cb. induction ops as [| op ops IH]; intros cb H; simpl.
  - exact H.
  - apply IH. apply breakerInv_step. exact H.
Qed.

(** The count and the time stamp follow the history of operations. *)
Lemma breakerRun_history (ops : list BreakerOp) (cb : CircuitBreaker)
    (n : nat) (t : option Z) :
  failureCount cb = Z.of_nat n ->
  (forall now, t = Some now -> lastFailureTime cb = now) ->
  let n' := fold_left
              (fun n op =>
                 match op with
                 | OpShouldAllow _ => n
                 | OpRecordSuccess => 0%nat
                 | OpRecordFailure _ => S n
                 end) ops n in
  let t' := fold_left
              (fun t op =>
                 match op with
                 | OpRecordFailure now => Some now
                 | _ => t
                 end) ops t in
  failureCount (breakerRun ops cb) = Z.of_nat n' /\
  (forall now, t' = Some now -> lastFailureTime (breakerRun ops cb) = now).
Proof.
  revert cb n t. induction ops as [| op ops IH]; intros cb n t Hn Ht; simpl.
  - split; assumption.
  - apply IH.
    + destruct op as [now | | now]; simpl.
      * unfold shouldAllowRequest. destruct (state cb); simpl; try exact Hn.
        destruct (now - lastFailureTime cb >? CIRCUIT_BREAKER_TIMEOUT);
          simpl; exact Hn.
      * reflexivity.
      * lia.
    + destruct op as [now | | now]; simpl.
      * unfold shouldAllowRequest. destruct (state cb); simpl; try exact Ht.
        destruct (now - lastFailureTime cb >? CIRCUIT_BREAKER_TIMEOUT);
          simpl; exact Ht.
      * exact Ht.
      * intros now' E. congruence.
Qed.

Lemma consecutiveFailures_positive_lastFailure (ops : list BreakerOp) :
  (0 < consecutiveFailures ops)%nat -> exists t, lastFailure ops = Some t.
Proof.
  unfold consecutiveFailures, lastFailure.
  induction ops as [| op ops IH] using rev_ind; simpl; [lia |].
  rewrite !fold_left_app. simpl.
  destruct op as [now | | now]; [exact IH | lia | intros _; eauto].
Qed.

(** From a closed breaker with a count of zero, after any run of operations:
    the count is the number of failures since the last success, the breaker
    is closed exactly while that number is below 5, and the cool-down of an
    open breaker runs from the last failure recorded. *)
Lemma breaker_history (cb : CircuitBreaker) (ops : list BreakerOp) :
  state cb = closed -> failureCount cb = 0 ->
  failureCount (breakerRun ops cb) = Z.of_nat (consecutiveFailures ops) /\
  (state (breakerRun ops cb) = closed <-> (consecutiveFailures ops < 5)%nat) /\
  (forall t, lastFailure ops = Some t ->
             lastFailureTime (breakerRun ops cb) = t) /\
  (state (breakerRun ops cb) = open ->
   exists t, lastFailure ops = Some t /\
             forall now, fst (shouldAllowRequest now (breakerRun ops cb)) =
                         (now - t >? 30000)) /\
  (forall now,
      state (breakerRun (ops ++ [OpRecordFailure now]) cb) =
      if (consecutiveFailures ops <? 4)%nat then closed else open).
Proof.
  intros Hst Hc.
  assert (Hinv : breakerInv cb).
  { unfold breakerInv, CIRCUIT_BREAKER_THRESHOLD. rewrite Hc.
    split; [lia | split; [lia | intros _; exact Hst]]. }
  destruct (breakerRun_history ops cb 0%nat None) as [Hn Ht];
    [rewrite Hc; reflexivity | discriminate |].
  fold (consecutiveFailures ops) in Hn. fold (lastFailure ops) in Ht.
  destruct (breakerRun_inv ops cb Hinv) as [_ Hiff].
  unfold CIRCUIT_BREAKER_THRESHOLD in Hiff. rewrite Hn in Hiff.
  split; [exact Hn |]. split; [rewrite Hiff; lia |]. split; [exact Ht |].
  split.
  - intros Hopen.
    destruct (consecutiveFailures_positive_lastFailure ops) as [t Hlast].
    { destruct (Nat.eq_dec (consecutiveFailures ops) 0) as [E | E]; [| lia].
      assert (state (breakerRun ops cb) = closed) by (apply Hiff; lia).
      congruence. }
    exists t. split; [exact Hlast |]. intros now.
    unfold shouldAllowRequest. rewrite Hopen. rewrite (Ht t Hlast).
    unfold CIRCUIT_BREAKER_TIMEOUT.
    destruct (now - t >? 30000); reflexivity.
  - intros now. unfold breakerRun. rewrite fold_left_app. simpl.
    fold (breakerRun ops cb). rewrite Hn.
    unfold CIRCUIT_BREAKER_THRESHOLD.
    destruct (consecutiveFailures ops <? 4)%nat eqn:E.
    + apply Nat.ltb_lt in E.
      destruct (Z.of_nat (consecutiveFailures ops) + 1 >=? 5) eqn:E5; [lia |].
      apply Hiff. lia.
    + apply Nat.ltb_ge in E.
      destruct (Z.of_nat (consecutiveFailures ops) + 1 >=? 5) eqn:E5;
        [reflexivity | lia].
Qed.

(** The claim as worded fails twice.  Half-open does not admit one trial
    only: every [shouldAllowRequest] in that state answers [true].  And there
    is a fifth state change: [recordSuccess] closes an open breaker. *)
Lemma half_open_admits_every_call_and_open_can_close :
  ~ (forall (cb : CircuitBreaker) (now : Z),
        breakerReachable cb -> state cb = half_open ->
        fst (shouldAllowRequest now cb) = false) /\
  ~ (forall (cb : CircuitBreaker) (op : BreakerOp),
        breakerReachable cb ->
        state (breakerStep op cb) = state cb \/
        (state cb = closed /\ state (breakerStep op cb) = open) \/
        (state cb = open /\ state (breakerStep op cb) = half_open) \/
        (state cb = half_open /\ state (breakerStep op cb) = closed) \/
        (state cb = half_open /\ state (breakerStep op cb) = open)).
Proof.
  split.
  - intros H.
    specialize (H (breakerRun [OpRecordFailure 0; OpRecordFailure 0;
                               OpRecordFailure 0; OpRecordFailure 0;
                               OpRecordFailure 0; OpShouldAllow 30001]
                     initialBreaker) 30002).
    assert (Hr : breakerReachable
                   (breakerRun [OpRecordFailure 0; OpRecordFailure 0;
                                OpRecordFailure 0; OpRecordFailure 0;
                                OpRecordFailure 0; OpShouldAllow 30001]
                      initialBreaker))
      by (apply breakerRun_reachable; exact reach_init).
    specialize (H Hr eq_refl). vm_compute in H. discriminate.
  - intros H.
    specialize (H (breakerRun [OpRecordFailure 0; OpRecordFailure 0;
                               OpRecordFailure 0; OpRecordFailure 0;
                               OpRecordFailure 0] initialBreaker)
                  OpRecordSuccess).
    assert (Hr : breakerReachable
                   (breakerRun [OpRecordFailure 0; OpRecordFailure 0;
                                OpRecordFailure 0; OpRecordFailure 0;
                                OpRecordFailure 0] initialBreaker))
      by (apply breakerRun_reachable; exact reach_init).
    specialize (H Hr). vm_compute in H.
    destruct H as [H | [[H _] | [[_ H] | [[H _] | [H _]]]]]; discriminate.
Qed.

(** C2 (amended). For every breaker value reachable from a fresh process:
    from closed with a count of zero, a run of failures leaves it closed up to
    the 4th and open from the 5th on; while open, [shouldAllowRequest] answers
    [false] and changes nothing as long as no more than 30000 ms have passed
    since the last failure, and after that answers [true] and enters
    half-open; in half-open it answers [true] on every call and stays
    half-open; from half-open [recordSuccess] gives closed with a count of
    zero and [recordFailure] gives open; and the only state changes are
    closed -> open, open -> half-open, half-open -> closed, half-open -> open
    and open -> closed (a [recordSuccess] that arrives while open).
    Moreover [recordSuccess] gives closed with a count of zero from every
    state, and [recordFailure] stamps the time of the failure; so, from closed
    with a count of zero and after any run of operations, the count is the
    number of failures since the last success (the consecutive ones), the
    breaker is closed exactly while fewer than 5 failures are consecutive,
    the time stamp is that of the last failure recorded, an open breaker
    answers [true] exactly when more than 30000 ms have passed since that
    failure, and a further failure leaves the breaker closed when it is at
    most the 4th consecutive one and open otherwise. *)
Theorem breaker_lifecycle :
  forall cb : CircuitBreaker,
    breakerReachable cb ->
    (state cb = closed -> failureCount cb = 0 ->
     forall times : list Z,
       state (recordFailures times cb) =
       if (length times <? 5)%nat then closed else open) /\
    (state cb = open ->
     forall now : Z,
       shouldAllowRequest now cb =
       if now - lastFailureTime cb >? 30000
       then (true, {| failureCount := failureCount cb;
                      lastFailureTime := lastFailureTime cb;
                      state := half_open |})
       else (false, cb)) /\
    (state cb = half_open ->
     (forall now : Z, shouldAllowRequest now cb = (true, cb)) /\
     state (recordSuccess cb) = closed /\
     failureCount (recordSuccess cb) = 0 /\
     (forall now : Z, state (recordFailure now cb) = open)) /\
    (forall op : BreakerOp,
       state (breakerStep op cb) = state cb \/
       BreakerTransition (state cb) (state (breakerStep op cb))) /\
    (state (recordSuccess cb) = closed /\
     failureCount (recordSuccess cb) = 0 /\
     forall now : Z, lastFailureTime (recordFailure now cb) = now) /\
    (state cb = closed -> failureCount cb = 0 ->
     forall ops : list BreakerOp,
       failureCount (breakerRun ops cb) = Z.of_nat (consecutiveFailures ops) /\
       (state (breakerRun ops cb) = closed <->
        (consecutiveFailures ops < 5)%nat) /\
       (forall t : Z, lastFailure ops = Some t ->
                      lastFailureTime (breakerRun ops cb) = t) /\
       (state (breakerRun ops cb) = open ->
        exists t : Z,
          lastFailure ops = Some t /\
          forall now : Z,
            fst (shouldAllowRequest now (breakerRun ops cb)) =
            (now - t >? 30000)) /\
       (forall now : Z,
           state (breakerRun (ops ++ [OpRecordFailure now]) cb) =
           if (consecutiveFailures ops <? 4)%nat then closed else open)).
Proof.
  intros cb Hreach.
  pose proof (breakerReachable_inv cb Hreach) as [Hpos Hiff].
  unfold CIRCUIT_BREAKER_THRESHOLD in Hiff.
  split; [| split; [| split; [| split; [| split]]]];
    [| | | | repeat split
     | intros Hst Hc ops; apply breaker_history; assumption].
  - intros Hst Hc times. apply opens_at_fifth_failure; assumption.
  - intros Hst now. unfold shouldAllowRequest. rewrite Hst. reflexivity.
  - intros Hst.
    split; [| split; [| split]].
    + intros now. unfold shouldAllowRequest. rewrite Hst. reflexivity.
    + reflexivity.
    + reflexivity.
    + intros now. unfold recordFailure; simpl.
      destruct (failureCount cb + 1 >=? CIRCUIT_BREAKER_THRESHOLD) eqn:E;
        [reflexivity |].
      unfold CIRCUIT_BREAKER_THRESHOLD in E.
      assert (failureCount cb < 5) by lia.
      apply Hiff in H. congruence.
  - intros op. destruct op as [now | | now]; simpl.
    + unfold shouldAllowRequest.
      destruct (state cb) eqn:Est; simpl; auto.
      destruct (now - lastFailureTime cb >? CIRCUIT_BREAKER_TIMEOUT); simpl.
      * right. constructor.
      * left. exact Est.
    + destruct (state cb); [left; reflexivity | right; constructor
                           | right; constructor].
    + destruct (failureCount cb + 1 >=? CIRCUIT_BREAKER_THRESHOLD) eqn:E.
      * destruct (state cb); [right; constructor | left; reflexivity
                             | right; constructor].
      * left. reflexivity.
Qed.

Lemma breaker_lifecycle_witness :
  state (recordFailures [10; 20; 30; 40] initialBreaker) = closed /\
  state (recordFailures [10; 20; 30; 40; 50] initialBreaker) = open /\
  state (breakerRun [OpRecordFailure 10; OpRecordFailure 20;
                     OpRecordFailure 30; OpRecordFailure 40; OpRecordSuccess;
                     OpRecordFailure 50; OpRecordFailure 60;
                     OpRecordFailure 70; OpRecordFailure 80]
           initialBreaker) = closed.
Proof.
  destruct (breaker_lifecycle initialBreaker reach_init)
    as [Hopen [_ [_ [_ [_ Hhistory]]]]].
  split; [| split].
  - exact (Hopen eq_refl eq_refl [10; 20; 30; 40]).
  - exact (Hopen eq_refl eq_refl [10; 20; 30; 40; 50]).
  - apply (proj1 (proj2 (Hhistory eq_refl eq_refl _))).
    unfold consecutiveFailures. simpl. lia.
Defined.

(** Each of the five state changes does occur. *)
Lemma breaker_transitions_occur :
  forall s s' : BreakerState,
    BreakerTransition s s' ->
    exists (cb : CircuitBreaker) (op : BreakerOp),
      breakerReachable cb /\ state cb = s /\ state (breakerStep op cb) = s'.
Proof.
  pose (fails n := repeat (OpRecordFailure 0) n).
  assert (R : forall ops, breakerReachable (breakerRun ops initialBreaker))
    by (intros; apply breakerRun_reachable; exact reach_init).
  intros s s' T. destruct T.
  - exists (breakerRun (fails 4%nat) initialBreaker), (OpRecordFailure 0).
    split; [apply R | split; reflexivity].
  - exists (breakerRun (fails 5%nat) initialBreaker), (OpShouldAllow 30001).
    split; [apply R | split; reflexivity].
  - exists (breakerRun (fails 5%nat ++ [OpShouldAllow 30001]) initialBreaker),
      OpRecordSuccess.
    split; [apply R | split; reflexivity].
  - exists (breakerRun (fails 5%nat ++ [OpShouldAllow 30001]) initialBreaker),
      (OpRecordFailure 30002).
    split; [apply R | split; reflexivity].
  - exists (breakerRun (fails 5%nat) initialBreaker), OpRecordSuccess.
    split; [apply R | split; reflexivity].
Qed.

(** ** [Array.prototype.sort] with a consistent comparator *)

Section SortFacts.

Context {A : Type}.
Variable compare : A -> A -> Q.

Lemma sortInsert_perm (x : A) (l : list A) :
  Permutation (x :: l) (sortInsert compare x l).
Proof.
  induction l as [| y l IH]; simpl.
  - apply Permutation_refl.
  - destruct (Qle_bool (compare x y) 0).
    + apply Permutation_refl.
    + eapply perm_trans; [apply perm_swap |].
      apply perm_skip. exact IH.
Qed.

Lemma arraySort_perm (l : list A) : Permutation l (arraySort compare l).
Proof.
  induction l as [| x l IH]; simpl.
  - apply perm_nil.
  - eapply perm_trans; [apply perm_skip; exact IH |].
    apply sortInsert_perm.
Qed.

Lemma arraySort_In (x : A) (l : list A) :
  In x (arraySort compare l) <-> In x l.
Proof.
  split; intros H.
  - eapply Permutation_in; [apply Permutation_sym, arraySort_perm | exact H].
  - eapply Permutation_in; [apply arraySort_perm | exact H].
Qed.

Variable D : A -> Prop.
Hypothesis before_total : forall a b, D a -> D b -> (before compare) a b \/ (before compare) b a.
Hypothesis before_trans :
  forall a b c, D a -> D b -> D c -> (before compare) a b -> (before compare) b c -> (before compare) a c.

Lemma sortInsert_sorted (x : A) (l : list A) :
  D x -> Forall D l -> StronglySorted (before compare) l ->
  StronglySorted (before compare) (sortInsert compare x l).
Proof.
  intros Dx. induction l as [| y l IH]; intros Dl Hs; simpl.
  - constructor; constructor.
  - inversion Dl as [| ? ? Dy Dl']; subst.
    apply StronglySorted_inv in Hs. destruct Hs as [Hs Hy].
    destruct (Qle_bool (compare x y) 0) eqn:E.
    + apply Qle_bool_iff in E.
      constructor.
      * constructor; assumption.
      * constructor; [exact E |].
        rewrite Forall_forall in *. intros z Hz.
        apply (before_trans x y z); auto.
    + assert (Hyx : (before compare) y x).
      { destruct (before_total x y Dx Dy) as [H | H]; [| exact H].
        apply Qle_bool_iff in H. unfold before in *. congruence. }
      constructor.
      * apply IH; assumption.
      * rewrite Forall_forall in *. intros z Hz.
        apply (Permutation_in _ (Permutation_sym (sortInsert_perm x l))) in Hz.
        destruct Hz as [<- | Hz]; [exact Hyx | apply Hy; exact Hz].
Qed.

Lemma arraySort_sorted (l : list A) :
  Forall D l -> StronglySorted (before compare) (arraySort compare l).
Proof.
  induction l as [| x l IH]; intros Dl; simpl.
  - constructor.
  - inversion Dl as [| ? ? Dx Dl']; subst.
    apply sortInsert_sorted.
    + exact Dx.
    + apply Forall_forall. intros z Hz.
      apply (proj1 (arraySort_In z l)) in Hz.
      rewrite Forall_forall in Dl'. apply Dl'. exact Hz.
    + apply IH. exact Dl'.
Qed.


End SortFacts.


(** ** Weights in the two engines *)

Lemma featureWeight_range (featureId : string) (st : BaselineStatus)
    (tokens : list Token) (tokenToFeatureMap : Js.Map string)
    (usageData : option (Js.Map Usage)) (uaDistribution : UADistribution) :
  (0.5 <= fst (ScoreUA.featureWeight featureId st tokens tokenToFeatureMap
                 usageData uaDistribution) <= 1.5)%Q.
Proof.
  unfold ScoreUA.featureWeight. cbv zeta. cbn [fst].
  apply clamp_min_max_bounds. lra.
Qed.

Lemma orOne_of_weight (w : Q) :
  (0.5 <= w)%Q ->
  (Js.orOne (if negb (Qeq_bool w 1.0) then Some w else None) == w)%Q.
Proof.
  intros Hw. destruct (Qeq_bool w 1.0) eqn:E1; simpl.
  - apply Qeq_bool_iff in E1. rewrite E1. reflexivity.
  - destruct (Qeq_bool w 0) eqn:E0.
    + apply Qeq_bool_iff in E0. lra.
    + reflexivity.
Qed.

Lemma rowWeight_rowOfEntry (P : Platform) (tokens : list Token)
    (tokenToFeatureMap : Js.Map string) (usageData : option (Js.Map Usage))
    (uaDistribution : UADistribution) (entry : string * BaselineStatus) :
  (rowWeight (rowOfEntry P tokens tokenToFeatureMap usageData uaDistribution entry)
   == fst (ScoreUA.featureWeight (fst entry) (snd entry) tokens
             tokenToFeatureMap usageData uaDistribution))%Q.
Proof.
  unfold rowWeight, rowOfEntry, ScoreUA.makeRow. cbv zeta. cbn [ScoreUA.r_weight].
  apply orOne_of_weight. apply featureWeight_range.
Qed.

Lemma ScoreUA_rows_of_fold (P : Platform) (tokens : list Token)
    (tokenToFeatureMap : Js.Map string) (usageData : option (Js.Map Usage))
    (uaDistribution : UADistribution)
    (featureStatuses : Js.Map BaselineStatus) (acc : ScoreUA.Totals) :
  ScoreUA.t_rows
    (fold_left (ScoreUA.processFeature P tokens tokenToFeatureMap usageData
                  uaDistribution) featureStatuses acc) =
  (ScoreUA.t_rows acc ++
   map (rowOfEntry P tokens tokenToFeatureMap usageData uaDistribution)
       featureStatuses)%list.
Proof.
  revert acc. induction featureStatuses as [| e m IH]; intros acc; simpl.
  - rewrite app_nil_r. reflexivity.
  - rewrite IH. unfold ScoreUA.processFeature. cbn [ScoreUA.t_rows].
    rewrite <- app_assoc. reflexivity.
Qed.

Lemma ScoreUA_rows (P : Platform) (tokens : list Token)
    (tokenToFeatureMap : Js.Map string) (usageData : option (Js.Map Usage))
    (uaDistribution : UADistribution)
    (featureStatuses : Js.Map BaselineStatus) :
  rows (ScoreUA.calculateScore P featureStatuses tokens tokenToFeatureMap
          usageData uaDistribution) =
  arraySort (ScoreUA.compareRows P)
    (map (rowOfEntry P tokens tokenToFeatureMap usageData uaDistribution)
         featureStatuses).
Proof.
  unfold ScoreUA.calculateScore. cbv zeta. cbn [rows].
  rewrite ScoreUA_rows_of_fold. reflexivity.
Qed.

Lemma ScoreJs_usageWeight_range (featureId : string)
    (coverageData : option (Js.Map Usage)) (tokens : list Token) :
  (0.3 <= ScoreJs.calculateUsageWeight featureId coverageData tokens <= 2.0)%Q.
Proof.
  unfold ScoreJs.calculateUsageWeight. cbv zeta.
  apply clamp_min_max_bounds. lra.
Qed.

(** The claim as worded fails for [score.js]: a feature that is not core and
    has no matching token gets weight 0.3. *)
Lemma score_js_weight_below_half :
  ~ (forall (featureId : string) (coverageData : option (Js.Map Usage))
            (tokens : list Token),
        (0.5 <= ScoreJs.calculateUsageWeight featureId coverageData tokens
         <= 1.5)%Q).
Proof.
  intros H. specialize (H "has" None []). destruct H as [H _].
  vm_compute in H. apply H. reflexivity.
Qed.

(** C4 (amended). In the engine that weights by UA distribution the final
    weight of a feature (after usage weighting, coverage adjustment,
    UA-support factor and vendor-niche downweight) lies in [0.5, 1.5], and so
    does the weight of every row it returns.  In [score.js] the weight is the
    usage weight, which lies in [0.3, 2.0].  This is for features whose
    status names no inherited property and, when usage data is given, whose
    identifier names none either; nothing is said of the others. *)
Theorem feature_weight_ranges :
  (forall featureId st tokens tokenToFeatureMap usageData uaDistribution,
      ordinaryStatus st -> ordinaryFeature usageData featureId ->
      (0.5 <= fst (ScoreUA.featureWeight featureId st tokens tokenToFeatureMap
                     usageData uaDistribution) <= 1.5)%Q) /\
  (forall P featureStatuses tokens tokenToFeatureMap usageData uaDistribution row,
      Forall (fun e => ordinaryStatus (snd e) /\
                       ordinaryFeature usageData (fst e)) featureStatuses ->
      In row (rows (ScoreUA.calculateScore P featureStatuses tokens
                      tokenToFeatureMap usageData uaDistribution)) ->
      (0.5 <= rowWeight row <= 1.5)%Q) /\
  (forall featureId coverageData tokens,
      ordinaryFeature coverageData featureId ->
      (0.3 <= ScoreJs.calculateUsageWeight featureId coverageData tokens
       <= 2.0)%Q).
Proof.
  split; [| split].
  - intros. apply featureWeight_range.
  - intros P m tokens tmap usage ua row _ Hin.
    rewrite ScoreUA_rows in Hin. apply arraySort_In in Hin.
    apply in_map_iff in Hin. destruct Hin as [entry [<- _]].
    rewrite rowWeight_rowOfEntry. apply featureWeight_range.
  - intros. apply ScoreJs_usageWeight_range.
Qed.

Lemma feature_weight_ranges_witness :
  (0.5 <= rowWeight
            (rowOfEntry samplePlatform [] [] None defaultDist
               ("has", unknownStatus)) <= 1.5)%Q.
Proof.
  destruct feature_weight_ranges as [_ [Hrows _]].
  apply (Hrows samplePlatform [("has", unknownStatus)] [] [] None defaultDist).
  - repeat constructor.
  - left. reflexivity.
Defined.

(** ** The order of the rows *)









Lemma StronglySorted_weaken {A} (R1 R2 : A -> A -> Prop) (D : A -> Prop)
    (l : list A) :
  (forall a b, D a -> D b -> R1 a b -> R2 a b) ->
  Forall D l -> StronglySorted R1 l -> StronglySorted R2 l.
Proof.
  intros Himp. induction l as [| x l IH]; intros Dl Hs.
  - constructor.
  - inversion Dl as [| ? ? Dx Dl']; subst.
    apply StronglySorted_inv in Hs. destruct Hs as [Hs Hx].
    constructor; [apply IH; assumption |].
    rewrite Forall_forall in *. intros z Hz.
    apply Himp; auto.
Qed.





(** ** Facts about [Map] *)

Lemma get_set_same {V} (k : string) (v : V) (m : Js.Map V) :
  Js.get k (Js.set k v m) = Some v.
Proof.
  induction m as [| [k' v'] m IH]; simpl.
  - rewrite String.eqb_refl. reflexivity.
  - destruct (String.eqb k' k) eqn:E; simpl; rewrite E; [reflexivity | exact IH].
Qed.

Lemma get_set_other {V} (k k' : string) (v : V) (m : Js.Map V) :
  k <> k' -> Js.get k' (Js.set k v m) = Js.get k' m.
Proof.
  intros Hne. induction m as [| [k0 v0] m IH]; simpl.
  - destruct (String.eqb k k') eqn:E; [| reflexivity].
    apply String.eqb_eq in E. contradiction.
  - destruct (String.eqb k0 k) eqn:E; simpl.
    + apply String.eqb_eq in E. subst k0.
      destruct (String.eqb k k') eqn:E'; [| reflexivity].
      apply String.eqb_eq in E'. contradiction.
    + rewrite IH. reflexivity.
Qed.

Lemma has_In {V} (k : string) (m : Js.Map V) :
  Js.has k m = true <-> In k (Js.keys m).
Proof.
  unfold Js.has, Js.keys. induction m as [| [k' v'] m IH]; simpl.
  - split; [discriminate | contradiction].
  - destruct (String.eqb k' k) eqn:E.
    + apply String.eqb_eq in E. split; [intros _; left; exact E | reflexivity].
    + apply String.eqb_neq in E. rewrite IH. split.
      * intros H. right. exact H.
      * intros [H | H]; [contradiction | exact H].
Qed.

Lemma get_Some_In {V} (k : string) (v : V) (m : Js.Map V) :
  Js.get k m = Some v -> In k (Js.keys m).
Proof.
  intros H. apply has_In. unfold Js.has. rewrite H. reflexivity.
Qed.

Lemma get_None_notIn {V} (k : string) (m : Js.Map V) :
  Js.get k m = None -> ~ In k (Js.keys m).
Proof.
  intros H Hin. apply has_In in Hin. unfold Js.has in Hin.
  rewrite H in Hin. discriminate.
Qed.

Lemma In_keys_set {V} (x k : string) (v : V) (m : Js.Map V) :
  In x (Js.keys (Js.set k v m)) <-> x = k \/ In x (Js.keys m).
Proof.
  unfold Js.keys. induction m as [| [k' v'] m IH]; simpl.
  - split; [intros [H | []]; left; congruence | intros [H | []]; left; congruence].
  - destruct (String.eqb k' k) eqn:E; simpl.
    + apply String.eqb_eq in E. subst k'. split.
      * intros [H | H]; [left; congruence | right; right; exact H].
      * intros [H | [H | H]]; [left; congruence | left; exact H | right; exact H].
    + rewrite IH. split.
      * intros [H | [H | H]]; [right; left; exact H | left; exact H
                              | right; right; exact H].
      * intros [H | [H | H]]; [right; left; exact H | left; exact H
                              | right; right; exact H].
Qed.

Lemma NoDup_keys_set {V} (k : string) (v : V) (m : Js.Map V) :
  NoDup (Js.keys m) -> NoDup (Js.keys (Js.set k v m)).
Proof.
  unfold Js.keys. induction m as [| [k' v'] m IH]; simpl; intros Hnd.
  - constructor; [intros [] | constructor].
  - inversion Hnd as [| ? ? Hnotin Hnd']; subst.
    destruct (String.eqb k' k) eqn:E; simpl.
    + constructor; assumption.
    + apply String.eqb_neq in E. constructor.
      * intros Hin. apply (In_keys_set k' k v m) in Hin.
        destruct Hin as [H | H]; [congruence | contradiction].
      * apply IH. exact Hnd'.
Qed.

Lemma In_keys_setAll {V} (x : string) (writes : list (string * V))
    (m : Js.Map V) :
  In x (Js.keys (Js.setAll writes m)) <-> In x (map fst writes) \/ In x (Js.keys m).
Proof.
  unfold Js.setAll. revert m.
  induction writes as [| [k v] writes IH]; intros m; simpl.
  - split; [intros H; right; exact H | intros [[] | H]; exact H].
  - rewrite IH, In_keys_set. split.
    + intros [H | [H | H]]; [left; right; exact H | left; left; congruence
                            | right; exact H].
    + intros [[H | H] | H]; [right; left; congruence | left; exact H
                            | right; right; exact H].
Qed.

Lemma NoDup_keys_setAll {V} (writes : list (string * V)) (m : Js.Map V) :
  NoDup (Js.keys m) -> NoDup (Js.keys (Js.setAll writes m)).
Proof.
  unfold Js.setAll. revert m.
  induction writes as [| [k v] writes IH]; intros m Hnd; simpl.
  - exact Hnd.
  - apply IH. apply NoDup_keys_set. exact Hnd.
Qed.

Lemma get_setAll_other {V} (x : string) (writes : list (string * V))
    (m : Js.Map V) :
  ~ In x (map fst writes) -> Js.get x (Js.setAll writes m) = Js.get x m.
Proof.
  unfold Js.setAll. revert m.
  induction writes as [| [k v] writes IH]; intros m Hnot; simpl.
  - reflexivity.
  - rewrite IH.
    + apply get_set_other. intros ->. apply Hnot. left. reflexivity.
    + intros H. apply Hnot. right. exact H.
Qed.

Lemma get_setAll_const {V} (x : string) (v : V) (writes : list (string * V))
    (m : Js.Map V) :
  (forall e, In e writes -> snd e = v) ->
  In x (map fst writes) -> Js.get x (Js.setAll writes m) = Some v.
Proof.
  unfold Js.setAll. revert m.
  induction writes as [| [k v'] writes IH]; intros m Hall Hin; simpl.
  - contradiction.
  - assert (Hall' : forall e, In e writes -> snd e = v)
      by (intros e He; apply Hall; right; exact He).
    destruct (in_dec string_dec x (map fst writes)) as [Hin' | Hnot].
    + apply IH; assumption.
    + fold (Js.setAll writes (Js.set k v' m)).
      rewrite get_setAll_other by exact Hnot.
      destruct Hin as [Hk | Hin]; [| contradiction].
      simpl in Hk. subst k.
      rewrite get_set_same. f_equal.
      apply (Hall (x, v')). left. reflexivity.
Qed.

Lemma setAll_app {V} (w1 w2 : list (string * V)) (m : Js.Map V) :
  Js.setAll (w1 ++ w2) m = Js.setAll w2 (Js.setAll w1 m).
Proof. unfold Js.setAll. apply fold_left_app. Qed.

(** ** The batch fetch: what it can change and where its result comes from *)

Section ClientFacts.

Variable E : Env.

Lemma extends_quiet (ids : list string) (w w' : World) :
  cache w' = cache w -> cacheStats w' = cacheStats w ->
  (tick w <= tick w')%nat -> sent w' = sent w ->
  extends ids w w'.
Proof.
  intros Hc Hs Ht Hsent. unfold extends.
  split; [exact Hc | split; [exact Hs | split; [exact Ht |]]].
  exists []. rewrite app_nil_r. split; [exact Hsent | constructor].
Qed.

Lemma extends_refl (ids : list string) (w : World) : extends ids w w.
Proof. apply extends_quiet; auto. Qed.

Lemma extends_trans (ids : list string) (w1 w2 w3 : World) :
  extends ids w1 w2 -> extends ids w2 w3 -> extends ids w1 w3.
Proof.
  intros (C1 & S1 & T1 & x1 & X1 & F1) (C2 & S2 & T2 & x2 & X2 & F2).
  unfold extends.
  split; [congruence | split; [congruence | split; [lia |]]].
  exists (x1 ++ x2)%list. split.
  - rewrite X2, X1, app_assoc. reflexivity.
  - apply Forall_app. split; assumption.
Qed.

Lemma spec_ret {A} ids t0 (a : A) (V : A -> Prop) :
  V a -> spec ids t0 (ret a) V.
Proof. intros Hv w _. simpl. split; [apply extends_refl | exact Hv]. Qed.

Lemma spec_bind {A B} ids t0 (m : M A) (k : A -> M B)
    (V1 : A -> Prop) (V2 : B -> Prop) :
  spec ids t0 m V1 ->
  (forall a, V1 a -> spec ids t0 (k a) V2) ->
  spec ids t0 (bind m k) V2.
Proof.
  intros Hm Hk w Ht. unfold bind.
  destruct (Hm w Ht) as [Hext Hv].
  destruct (m w) as [a w1]. simpl in Hext, Hv.
  assert (Ht1 : (t0 <= tick w1)%nat)
    by (destruct Hext as (_ & _ & Hle & _); lia).
  destruct (Hk a Hv w1 Ht1) as [Hext2 Hv2].
  split; [eapply extends_trans; eassumption | exact Hv2].
Qed.

Lemma spec_dateNow ids t0 : spec ids t0 (dateNow E) (fun _ => True).
Proof.
  intros w _. unfold dateNow. simpl. split; [| exact I].
  apply extends_quiet; simpl; auto.
Qed.

Lemma spec_doFetch ids t0 (query : string) :
  spec ids t0 (doFetch E ids query)
    (fun r => exists k, (t0 <= k)%nat /\ fetch E k = r).
Proof.
  intros w Ht. unfold doFetch. simpl. split.
  - unfold extends. simpl.
    split; [reflexivity | split; [reflexivity | split; [lia |]]].
    exists [(ids, query)].
    split; [reflexivity | constructor; [reflexivity | constructor]].
  - exists (tick w). split; [exact Ht | reflexivity].
Qed.

Lemma spec_withBreaker {A} ids t0 (f : World -> A * CircuitBreaker) :
  spec ids t0 (fun w => (fst (f w), withBreaker (snd (f w)) w)) (fun _ => True).
Proof.
  intros w _. simpl. split; [| exact I].
  apply extends_quiet; simpl; auto.
Qed.

Lemma spec_shouldAllowRequestM ids t0 :
  spec ids t0 (shouldAllowRequestM E) (fun _ => True).
Proof.
  unfold shouldAllowRequestM.
  eapply spec_bind; [apply spec_dateNow |].
  intros now _ w _.
  destruct (shouldAllowRequest now (circuitBreakerState w)) as [allowed cb].
  simpl. split; [| exact I].
  apply extends_quiet; simpl; auto.
Qed.

Lemma spec_recordSuccessM ids t0 : spec ids t0 recordSuccessM (fun _ => True).
Proof.
  intros w _. unfold recordSuccessM. simpl. split; [| exact I].
  apply extends_quiet; simpl; auto.
Qed.

Lemma spec_recordFailureM ids t0 :
  spec ids t0 (recordFailureM E) (fun _ => True).
Proof.
  unfold recordFailureM.
  eapply spec_bind; [apply spec_dateNow |].
  intros now _ w _. simpl. split; [| exact I].
  apply extends_quiet; simpl; auto.
Qed.

Lemma spec_fetchWithTimeout ids t0 (query : string) :
  spec ids t0 (fetchWithTimeout E ids query)
    (fun r =>
       match r with
       | inr (st, txt, body) =>
           exists k, (t0 <= k)%nat /\ fetch E k = Responds st txt body
       | inl _ => True
       end).
Proof.
  unfold fetchWithTimeout.
  eapply spec_bind; [apply spec_doFetch |].
  intros r [k [Hk Hr]]. destruct r as [err | st txt body].
  - destruct (String.eqb (name err) "AbortError"); apply spec_ret; exact I.
  - apply spec_ret. exists k. split; assumption.
Qed.

Lemma spec_fail ids t0 (err : JsError) :
  spec ids t0 (recordFailureM E ;;; ret (Thrown err)) (outOk E t0).
Proof.
  eapply spec_bind; [apply spec_recordFailureM |].
  intros _ _. apply spec_ret. exact I.
Qed.

Lemma spec_catchBlock ids t0 retries again err :
  againOk E ids t0 again ->
  spec ids t0 (catchBlock E retries again err) (outOk E t0).
Proof.
  intros Hagain. unfold catchBlock.
  destruct (String.eqb (name err) "AbortError" ||
            Js.includes (message err) "timeout").
  - destruct again as [retry |]; [apply Hagain; reflexivity | apply spec_fail].
  - destruct (Js.includes (message err) "Circuit breaker" ||
              Js.includes (message err) "Invalid feature IDs").
    + apply spec_ret. exact I.
    + destruct again as [retry |]; [apply Hagain; reflexivity | apply spec_fail].
Qed.

Lemma spec_fail_then_catch ids t0 retries again err :
  againOk E ids t0 again ->
  spec ids t0 (recordFailureM E ;;; catchBlock E retries again err) (outOk E t0).
Proof.
  intros Hagain.
  eapply spec_bind; [apply spec_recordFailureM |].
  intros _ _. apply spec_catchBlock. exact Hagain.
Qed.

Lemma spec_attempt ids t0 retries again :
  againOk E ids t0 again ->
  spec ids t0 (attempt E retries again ids) (outOk E t0).
Proof.
  intros Hagain. unfold attempt.
  eapply spec_bind; [apply spec_shouldAllowRequestM |].
  intros allowed _. destruct allowed; simpl negb; cbv iota.
  2: { apply spec_ret. exact I. }
  destruct ids as [| id0 rest] eqn:Eids.
  { apply spec_ret. left. reflexivity. }
  rewrite <- Eids in *.
  destruct (buildQuery ids) as [query |].
  2: { apply spec_ret. exact I. }
  eapply spec_bind; [apply spec_fetchWithTimeout |].
  intros r Hr. destruct r as [err | [[st txt] body]].
  { apply spec_catchBlock. exact Hagain. }
  destruct Hr as [k [Hk Hfetch]].
  destruct (negb (okStatus st)).
  - destruct (st =? 429).
    + destruct again as [retry |];
        [apply Hagain; reflexivity | apply spec_fail_then_catch; exact Hagain].
    + destruct (st >=? 500).
      * destruct again as [retry |];
          [apply Hagain; reflexivity | apply spec_fail_then_catch; exact Hagain].
      * apply spec_fail_then_catch; exact Hagain.
  - destruct body as [parseErr | data].
    + apply spec_fail_then_catch; exact Hagain.
    + destruct (negb (isValidResponse data)).
      * apply spec_fail_then_catch; exact Hagain.
      * eapply spec_bind; [apply spec_recordSuccessM |].
        intros _ _. apply spec_ret. right.
        exists k, st, txt, data. repeat split; assumption.
Qed.

Lemma spec_fetchFeaturesBatchFrom ids t0 (remaining : nat) :
  spec ids t0 (fetchFeaturesBatchFrom E remaining ids) (outOk E t0).
Proof.
  induction remaining as [| r IH]; simpl; apply spec_attempt.
  - intros retry H. discriminate.
  - intros retry H. inversion H; subst. exact IH.
Qed.

Lemma spec_fail_thrown ids t0 (err : JsError) :
  spec ids t0 (recordFailureM E ;;; ret (Thrown err))
    (isThrown (A := list Json)).
Proof.
  eapply spec_bind; [apply spec_recordFailureM |].
  intros _ _. apply spec_ret. exact I.
Qed.

Lemma spec_catchBlock_thrown ids t0 retries again err :
  (forall retry, again = Some retry -> spec ids t0 retry isThrown) ->
  spec ids t0 (catchBlock E retries again err) isThrown.
Proof.
  intros Hagain. unfold catchBlock.
  destruct (String.eqb (name err) "AbortError" ||
            Js.includes (message err) "timeout").
  - destruct again as [retry |];
      [apply Hagain; reflexivity | apply spec_fail_thrown].
  - destruct (Js.includes (message err) "Circuit breaker" ||
              Js.includes (message err) "Invalid feature IDs").
    + apply spec_ret. exact I.
    + destruct again as [retry |];
        [apply Hagain; reflexivity | apply spec_fail_thrown].
Qed.

Lemma spec_fail_then_catch_thrown ids t0 retries again err :
  (forall retry, again = Some retry -> spec ids t0 retry isThrown) ->
  spec ids t0 (recordFailureM E ;;; catchBlock E retries again err) isThrown.
Proof.
  intros Hagain.
  eapply spec_bind; [apply spec_recordFailureM |].
  intros _ _. apply spec_catchBlock_thrown. exact Hagain.
Qed.

Lemma spec_attempt_thrown ids t0 retries again :
  ids <> [] ->
  (forall k, (t0 <= k)%nat -> ~ accepted (fetch E k)) ->
  (forall retry, again = Some retry -> spec ids t0 retry isThrown) ->
  spec ids t0 (attempt E retries again ids) isThrown.
Proof.
  intros Hne Henv Hagain. unfold attempt.
  eapply spec_bind; [apply spec_shouldAllowRequestM |].
  intros allowed _. destruct allowed; simpl negb; cbv iota.
  2: { apply spec_ret. exact I. }
  destruct ids as [| id0 rest] eqn:Eids; [congruence |].
  rewrite <- Eids in *.
  destruct (buildQuery ids) as [query |].
  2: { apply spec_ret. exact I. }
  eapply spec_bind; [apply spec_fetchWithTimeout |].
  intros r Hr. destruct r as [err | [[st txt] body]].
  { apply spec_catchBlock_thrown. exact Hagain. }
  destruct Hr as [k [Hk Hfetch]].
  destruct (okStatus st) eqn:Eok; simpl negb; cbv iota.
  - destruct body as [parseErr | data].
    + apply spec_fail_then_catch_thrown; exact Hagain.
    + destruct (isValidResponse data) eqn:Ev; simpl negb; cbv iota.
      * exfalso. apply (Henv k Hk). rewrite Hfetch. simpl. split; assumption.
      * apply spec_fail_then_catch_thrown; exact Hagain.
  - destruct (st =? 429).
    + destruct again as [retry |];
        [apply Hagain; reflexivity
        | apply spec_fail_then_catch_thrown; exact Hagain].
    + destruct (st >=? 500).
      * destruct again as [retry |];
          [apply Hagain; reflexivity
          | apply spec_fail_then_catch_thrown; exact Hagain].
      * apply spec_fail_then_catch_thrown; exact Hagain.
Qed.

(** The batch request fails whenever no reply it reads is accepted: the
    network is down, the server answers with an error status, the body does
    not parse or has the wrong shape. *)
Lemma unaccepted_replies_fail_batch ids t0 (remaining : nat) :
  ids <> [] ->
  (forall k, (t0 <= k)%nat -> ~ accepted (fetch E k)) ->
  spec ids t0 (fetchFeaturesBatchFrom E remaining ids) isThrown.
Proof.
  intros Hne Henv.
  induction remaining as [| r IH]; simpl; apply spec_attempt_thrown; auto.
  - intros retry H. discriminate.
  - intros retry H. inversion H; subst. exact IH.
Qed.

(** The batch request fails without a request when the breaker is open and
    the cool-down has not passed. *)
Lemma open_breaker_fails_batch (ids : list string) (w : World) :
  state (circuitBreakerState w) = open ->
  Date_now E (tick w) - lastFailureTime (circuitBreakerState w) <=
    CIRCUIT_BREAKER_TIMEOUT ->
  isThrown (fst (fetchFeaturesBatch E ids w)) /\
  sent (snd (fetchFeaturesBatch E ids w)) = sent w.
Proof.
  intros Hopen Htime.
  unfold fetchFeaturesBatch, fetchFeaturesBatchFrom, MAX_RETRIES, attempt.
  unfold bind at 1. unfold shouldAllowRequestM, bind, dateNow. simpl.
  unfold shouldAllowRequest. rewrite Hopen.
  destruct (Date_now E (tick w) - lastFailureTime (circuitBreakerState w) >?
            CIRCUIT_BREAKER_TIMEOUT) eqn:Egt; [lia |].
  simpl. split; [exact I | reflexivity].
Qed.

End ClientFacts.

(** ** Slices *)

Lemma concat_slicesFrom {A} (fuel i size : nat) (l : list A) :
  (0 < size)%nat -> (length l <= fuel + i)%nat ->
  concat (slicesFrom fuel i size l) = skipn i l.
Proof.
  intros Hsize. revert i. induction fuel as [| fuel IH]; intros i Hlen; simpl.
  - symmetry. apply skipn_all2. lia.
  - destruct (i <? length l)%nat eqn:Ei.
    + simpl. rewrite IH by lia. unfold Js.slice.
      replace (i + size - i)%nat with size by lia.
      replace (i + size)%nat with (size + i)%nat by lia.
      rewrite <- skipn_skipn. apply firstn_skipn.
    + apply Nat.ltb_ge in Ei. symmetry. apply skipn_all2. exact Ei.
Qed.

Lemma concat_slices {A} (size : nat) (l : list A) :
  (0 < size)%nat -> concat (slices size l) = l.
Proof.
  intros Hsize. unfold slices.
  rewrite concat_slicesFrom by (try assumption; lia). reflexivity.
Qed.

Lemma In_firstn_In {A} (n : nat) (l : list A) (x : A) :
  In x (firstn n l) -> In x l.
Proof.
  revert l. induction n as [| n IH]; intros l; simpl.
  - contradiction.
  - destruct l as [| y l]; simpl; [contradiction |].
    intros [H | H]; [left; exact H | right; apply IH; exact H].
Qed.

Lemma In_skipn_In {A} (n : nat) (l : list A) (x : A) :
  In x (skipn n l) -> In x l.
Proof.
  revert l. induction n as [| n IH]; intros l; simpl.
  - intros H. exact H.
  - destruct l as [| y l]; simpl; [contradiction |].
    intros H. right. apply IH. exact H.
Qed.

Lemma slicesFrom_incl {A} (fuel i size : nat) (l b : list A) :
  In b (slicesFrom fuel i size l) -> incl b l.
Proof.
  revert i. induction fuel as [| fuel IH]; intros i; simpl.
  - contradiction.
  - destruct (i <? length l)%nat; [| contradiction].
    intros [<- | Hin].
    + unfold Js.slice. intros x Hx.
      apply In_firstn_In in Hx. apply In_skipn_In in Hx. exact Hx.
    + apply (IH (i + size)%nat). exact Hin.
Qed.

Lemma slices_incl {A} (size : nat) (l b : list A) :
  In b (slices size l) -> incl b l.
Proof. apply slicesFrom_incl. Qed.

(** ** [processBatch] and the loop over batches *)

Lemma setHas_In (k : string) (s : list string) :
  Js.setHas k s = true <-> In k s.
Proof.
  unfold Js.setHas. rewrite existsb_exists. split.
  - intros [x [Hx He]]. apply String.eqb_eq in He. subst. exact Hx.
  - intros H. exists k. split; [exact H | apply String.eqb_refl].
Qed.

Lemma mergeWrites_app wl1 wl2 results :
  mergeWrites (wl1 ++ wl2) results = mergeWrites wl2 (mergeWrites wl1 results).
Proof. unfold mergeWrites. apply fold_left_app. Qed.

Lemma keys_of_setAll_nil (x : string) (writes : list (string * BaselineStatus)) :
  In x (map fst (Js.setAll writes [])) <-> In x (map fst writes).
Proof.
  rewrite (In_keys_setAll x writes []). simpl. tauto.
Qed.



Lemma get_mergeWrites_other (x : string) wl results :
  (forall writes, In writes wl -> ~ In x (map fst writes)) ->
  Js.get x (mergeWrites wl results) = Js.get x results.
Proof.
  unfold mergeWrites. revert results.
  induction wl as [| ws wl IH]; intros results Hnot; simpl.
  - reflexivity.
  - rewrite IH by (intros ws' Hin; apply Hnot; right; exact Hin).
    apply get_setAll_other. rewrite keys_of_setAll_nil.
    apply Hnot. left. reflexivity.
Qed.

Lemma mergeInto_mergeWrites (brs : list (Js.Map BaselineStatus * bool)) wl results :
  map fst brs = map (fun writes => Js.setAll writes []) wl ->
  mergeInto results brs = mergeWrites wl results.
Proof.
  unfold mergeInto, mergeWrites. revert wl results.
  induction brs as [| br brs IH]; intros wl results Hmap;
    destruct wl as [| ws wl]; simpl in *; try discriminate.
  - reflexivity.
  - inversion Hmap as [[Hbr Hrest]].
    destruct br as [m0 f0]. simpl in Hbr. subst m0. simpl.
    apply IH. exact Hrest.
Qed.

Section ResolverFacts.

Variable E : Env.

Lemma writes_cover t0 ids writes :
  writesOk E t0 ids writes -> forall id, In id ids -> In id (map fst writes).
Proof.
  intros [-> | [features [_ ->]]] id Hin.
  - unfold failureWrites. rewrite map_map. simpl. rewrite map_id. exact Hin.
  - unfold responseWrites. cbv zeta. rewrite map_app, !map_map. simpl.
    apply in_or_app.
    destruct (Js.setHas id (map featureId (filter usableFeature features)))
      eqn:Eh.
    + left. apply setHas_In in Eh. exact Eh.
    + right. rewrite map_id. apply filter_In.
      split; [exact Hin | rewrite Eh; reflexivity].
Qed.

Lemma writes_avoid t0 ids writes (x : string) :
  writesOk E t0 ids writes ->
  ~ In x ids ->
  (forall k, (t0 <= k)%nat -> ~ replyMentions (fetch E k) x) ->
  ~ In x (map fst writes).
Proof.
  intros [-> | [features [Hok ->]]] Hx Henv Hin.
  - unfold failureWrites in Hin. rewrite map_map in Hin. simpl in Hin.
    rewrite map_id in Hin. contradiction.
  - unfold responseWrites in Hin. cbv zeta in Hin.
    rewrite map_app, !map_map in Hin. simpl in Hin.
    apply in_app_or in Hin. destruct Hin as [Hin | Hin].
    + apply in_map_iff in Hin. destruct Hin as [f [Hf Hin]].
      apply filter_In in Hin. destruct Hin as [Hin _].
      destruct Hok as [-> | (k & st & txt & data & Hk & Hfetch & ->)].
      * contradiction.
      * apply (Henv k Hk). rewrite Hfetch. simpl.
        apply in_map_iff. exists f. split; assumption.
    + rewrite map_id in Hin. apply filter_In in Hin. tauto.
Qed.

Lemma ran_nil (w : World) : ran [] [] w w.
Proof.
  unfold ran. simpl. split; [reflexivity | split; [lia |]].
  exists []. rewrite app_nil_r. split; [reflexivity | constructor].
Qed.

Lemma ran_trans b1 b2 ws1 ws2 w1 w2 w3 :
  ran b1 ws1 w1 w2 -> ran b2 ws2 w2 w3 ->
  ran (b1 ++ b2) (ws1 ++ ws2) w1 w3.
Proof.
  intros (C1 & T1 & x1 & X1 & F1) (C2 & T2 & x2 & X2 & F2). unfold ran.
  split; [rewrite C2, C1, setAll_app; reflexivity | split; [lia |]].
  exists (x1 ++ x2)%list. split.
  - rewrite X2, X1, app_assoc. reflexivity.
  - apply Forall_app. split.
    + eapply Forall_impl; [| exact F1]. intros e He.
      apply in_or_app. left. exact He.
    + eapply Forall_impl; [| exact F2]. intros e He.
      apply in_or_app. right. exact He.
Qed.

Lemma processBatch_spec (ids : list string) (t0 : nat) (w : World) :
  (t0 <= tick w)%nat ->
  exists writes,
    writesOk E t0 ids writes /\
    fst (processBatch E ids w) = Js.setAll writes [] /\
    ran [ids] writes w (snd (processBatch E ids w)).
Proof.
  intros Ht. destruct ids as [| id0 rest] eqn:Eids.
  - exists []. split; [left; reflexivity | split; [reflexivity |]].
    simpl. unfold ran. simpl. split; [reflexivity | split; [lia |]].
    exists []. rewrite app_nil_r. split; [reflexivity | constructor].
  - rewrite <- Eids.
    assert (Hp : processBatch E ids w =
                 let (o, w1) := fetchFeaturesBatch E ids w in
                 let writes :=
                   match o with
                   | Returned features => responseWrites features ids
                   | Thrown _ => failureWrites ids
                   end in
                 (Js.setAll writes [],
                  {| cache := Js.setAll writes (cache w1);
                     circuitBreakerState := circuitBreakerState w1;
                     cacheStats := cacheStats w1;
                     tick := tick w1;
                     sent := sent w1 |})).
    { rewrite Eids. unfold processBatch, bind.
      destruct (fetchFeaturesBatch E (id0 :: rest) w) as [o w1].
      reflexivity. }
    rewrite Hp. clear Hp.
    destruct (spec_fetchFeaturesBatchFrom E ids t0 MAX_RETRIES w Ht)
      as [Hext Hout].
    unfold fetchFeaturesBatch.
    destruct (fetchFeaturesBatchFrom E MAX_RETRIES ids w) as [o w1].
    simpl in Hext, Hout.
    destruct Hext as (Hc & _ & Htick & extra & Hsent & Hall).
    exists (match o with
            | Returned features => responseWrites features ids
            | Thrown _ => failureWrites ids
            end).
    split; [| split].
    + destruct o as [features | err].
      * right. exists features. split; [exact Hout | reflexivity].
      * left. reflexivity.
    + reflexivity.
    + unfold ran. simpl. split; [rewrite Hc; reflexivity | split; [exact Htick |]].
      exists extra. split; [exact Hsent |].
      eapply Forall_impl; [| exact Hall]. intros e He. left. symmetry. exact He.
Qed.

Lemma runGroup_spec (group : list (list string)) (t0 : nat) (w : World) :
  (t0 <= tick w)%nat ->
  exists wl,
    Forall2 (writesOk E t0) group wl /\
    map fst (fst (runGroup E group w)) =
      map (fun writes => Js.setAll writes []) wl /\
    ran group (concat wl) w (snd (runGroup E group w)).
Proof.
  revert w. induction group as [| batch rest IH]; intros w Ht.
  - exists []. split; [constructor | split; [reflexivity | apply ran_nil]].
  - destruct (processBatch_spec batch t0 w Ht) as [ws [Hok [Hres Hran]]].
    assert (Hg : runGroup E (batch :: rest) w =
                 let (result, w1) := processBatch E batch w in
                 let (rs, w2) := runGroup E rest w1 in
                 ((result,
                   allUnknown result && negb (Nat.eqb (length batch) 0)) :: rs,
                  w2)).
    { simpl. unfold runBatch, bind, ret.
      destruct (processBatch E batch w) as [result w1].
      destruct (runGroup E rest w1) as [rs w2]. reflexivity. }
    rewrite Hg. clear Hg.
    destruct (processBatch E batch w) as [result w1]. simpl in Hres, Hran.
    assert (Ht1 : (t0 <= tick w1)%nat)
      by (destruct Hran as (_ & Hle & _); lia).
    destruct (IH w1 Ht1) as [wl [Hall [Hmap Hran2]]].
    destruct (runGroup E rest w1) as [rs w2]. simpl in Hmap, Hran2.
    exists (ws :: wl). split; [constructor; assumption | split].
    + simpl. rewrite Hres, Hmap. reflexivity.
    + simpl. exact (ran_trans [batch] rest ws (concat wl) w w1 w2 Hran Hran2).
Qed.

Lemma runGroups_spec (groups : list (list (list string))) (t0 : nat)
    (results : Js.Map BaselineStatus) (flag : bool) (w : World) :
  (t0 <= tick w)%nat ->
  exists wl,
    Forall2 (writesOk E t0) (concat groups) wl /\
    fst (fst (runGroups E groups results flag w)) = mergeWrites wl results /\
    ran (concat groups) (concat wl) w (snd (runGroups E groups results flag w)).
Proof.
  revert results flag w. induction groups as [| group rest IH];
    intros results flag w Ht.
  - exists []. split; [constructor | split; [reflexivity | apply ran_nil]].
  - destruct (runGroup_spec group t0 w Ht) as [wl1 [Hall1 [Hmap1 Hran1]]].
    assert (Hg : runGroups E (group :: rest) results flag w =
                 let (brs, w1) := runGroup E group w in
                 runGroups E rest (mergeInto results brs)
                   (flag || existsb snd brs) w1).
    { simpl. unfold bind. destruct (runGroup E group w) as [brs w1].
      reflexivity. }
    rewrite Hg. clear Hg.
    destruct (runGroup E group w) as [brs w1]. simpl in Hmap1, Hran1.
    assert (Ht1 : (t0 <= tick w1)%nat)
      by (destruct Hran1 as (_ & Hle & _); lia).
    destruct (IH (mergeInto results brs) (flag || existsb snd brs) w1 Ht1)
      as [wl2 [Hall2 [Hres2 Hran2]]].
    exists (wl1 ++ wl2)%list. split; [| split].
    + simpl. apply Forall2_app; assumption.
    + rewrite Hres2, mergeWrites_app.
      rewrite (mergeInto_mergeWrites brs wl1 results Hmap1). reflexivity.
    + simpl. rewrite concat_app.
      exact (ran_trans group (concat rest) (concat wl1) (concat wl2)
               w w1 _ Hran1 Hran2).
Qed.

End ResolverFacts.

(** ** [fetchBaselineStatus] *)

Lemma checkCache_spec (ids : list string) (results : Js.Map BaselineStatus)
    (toFetch : list string) (w : World) :
  fst (checkCache ids results toFetch w) =
    (Js.setAll (cachedEntries (cache w) ids) results,
     (toFetch ++ uncached (cache w) ids)%list) /\
  cache (snd (checkCache ids results toFetch w)) = cache w /\
  circuitBreakerState (snd (checkCache ids results toFetch w)) =
    circuitBreakerState w /\
  tick (snd (checkCache ids results toFetch w)) = tick w /\
  sent (snd (checkCache ids results toFetch w)) = sent w.
Proof.
  revert results toFetch w.
  induction ids as [| id rest IH]; intros results toFetch w; simpl.
  - rewrite app_nil_r. auto.
  - unfold Js.has. destruct (Js.get id (cache w)) as [st |] eqn:Eg; simpl.
    + match goal with
      | |- context [checkCache rest ?r ?t ?w'] =>
          destruct (IH r t w') as (H1 & H2 & H3 & H4 & H5)
      end.
      simpl in *. rewrite H1. auto.
    + match goal with
      | |- context [checkCache rest ?r ?t ?w'] =>
          destruct (IH r t w') as (H1 & H2 & H3 & H4 & H5)
      end.
      simpl in *. rewrite H1, <- app_assoc. auto.
Qed.

Lemma shouldAllowRequestM_quiet (E : Env) (w : World) :
  cache (snd (shouldAllowRequestM E w)) = cache w /\
  tick (snd (shouldAllowRequestM E w)) = S (tick w) /\
  sent (snd (shouldAllowRequestM E w)) = sent w.
Proof.
  unfold shouldAllowRequestM, bind, dateNow. simpl.
  destruct (shouldAllowRequest (Date_now E (tick w)) (circuitBreakerState w)).
  simpl. auto.
Qed.

(** The three ways a call of [fetchBaselineStatus] can go: everything is
    cached; the breaker denies at entry; or the batches are run. *)
Lemma fetchBaselineStatus_cases (E : Env) (ids : list string) (t0 : nat)
    (w : World) :
  (t0 <= tick w)%nat ->
  let c := cache w in
  let results0 := Js.setAll (cachedEntries c ids) [] in
  let toFetch := uncached c ids in
  let r := fetchBaselineStatus E ids w in
  (toFetch = [] /\ fst r = Returned results0 /\
   cache (snd r) = c /\
   circuitBreakerState (snd r) = circuitBreakerState w /\
   tick (snd r) = tick w /\ sent (snd r) = sent w) \/
  (toFetch <> [] /\
   fst r = Thrown (Error
     "WebStatus API temporarily unavailable - circuit breaker open") /\
   cache (snd r) = c /\ (tick w <= tick (snd r))%nat /\
   sent (snd r) = sent w) \/
  (toFetch <> [] /\
   exists wl,
     Forall2 (writesOk E t0) (slices BATCH_SIZE toFetch) wl /\
     ran (slices BATCH_SIZE toFetch) (concat wl) w (snd r) /\
     (fst r = Returned (mergeWrites wl results0) \/
      (fst r = Thrown (Error
         "WebStatus API unreachable - multiple request failures") /\
       0 < failureCount (circuitBreakerState (snd r))))).
Proof.
  intros Ht. unfold fetchBaselineStatus, bind. cbv zeta.
  destruct (checkCache_spec ids [] [] w) as (Hfst & Hc & Hb & Htick & Hs).
  destruct (checkCache ids [] [] w) as [[results tf] w0].
  simpl in Hfst, Hc, Hb, Htick, Hs. inversion Hfst; subst results tf.
  clear Hfst.
  remember (Js.setAll (cachedEntries (cache w) ids) []) as results0.
  remember (uncached (cache w) ids) as toFetch.
  destruct toFetch as [| id0 rest].
  - left. simpl. repeat split; solve [assumption | reflexivity].
  - right.
    destruct (shouldAllowRequestM_quiet E w0) as (Hc1 & Ht1 & Hs1).
    destruct (shouldAllowRequestM E w0) as [allowed w1].
    simpl in Hc1, Ht1, Hs1.
    destruct allowed; cbn [negb]; cbv beta match.
    + right. split; [discriminate |].
      assert (Ht0 : (t0 <= tick w1)%nat) by lia.
      destruct (runGroups_spec E
                  (slices maxConcurrent (slices BATCH_SIZE (id0 :: rest)))
                  t0 results0 false w1 Ht0) as [wl [Hall [Hres Hran]]].
      rewrite concat_slices in Hall, Hran by (unfold maxConcurrent; lia).
      destruct (runGroups E
                  (slices maxConcurrent (slices BATCH_SIZE (id0 :: rest)))
                  results0 false w1) as [[results' flag] w2].
      simpl in Hres, Hran.
      exists wl. split; [exact Hall |].
      destruct Hran as (C & T & extra & X & F).
      assert (Hran' : ran (slices BATCH_SIZE (id0 :: rest)) (concat wl) w w2).
      { unfold ran. split; [congruence | split; [lia |]].
        exists extra. split; [congruence | exact F]. }
      destruct (flag && (failureCount (circuitBreakerState w2) >? 0)) eqn:Ef;
        simpl.
      * split; [exact Hran' |]. right. split; [reflexivity |].
        apply andb_true_iff in Ef. destruct Ef as [_ Ef]. lia.
      * split; [exact Hran' |]. left. rewrite Hres. reflexivity.
    + left. simpl. split; [discriminate |].
      split; [reflexivity |].
      split; [congruence | split; [lia | congruence]].
Qed.


Lemma cachedEntries_cover (c : Js.Map BaselineStatus) (ids : list string)
    (id : string) :
  In id ids -> Js.has id c = true -> In id (map fst (cachedEntries c ids)).
Proof.
  intros Hin Hhas. unfold cachedEntries.
  apply in_map_iff. unfold Js.has in Hhas.
  destruct (Js.get id c) as [st |] eqn:Eg; [| discriminate].
  exists (id, st). split; [reflexivity |].
  apply in_flat_map. exists id. split; [exact Hin |].
  rewrite Eg. left. reflexivity.
Qed.

Lemma cachedEntries_sound (c : Js.Map BaselineStatus) (ids : list string)
    (k : string) (v : BaselineStatus) :
  In (k, v) (cachedEntries c ids) -> In k ids /\ Js.get k c = Some v.
Proof.
  unfold cachedEntries. intros H. apply in_flat_map in H.
  destruct H as [id [Hin H]].
  destruct (Js.get id c) as [st |] eqn:Eg; simpl in H; [| contradiction].
  destruct H as [H | []]. inversion H; subst. split; assumption.
Qed.

Lemma uncached_In (c : Js.Map BaselineStatus) (ids : list string) (id : string) :
  In id (uncached c ids) <-> In id ids /\ Js.has id c = false.
Proof.
  unfold uncached. rewrite filter_In.
  destruct (Js.has id c); simpl; intuition congruence.
Qed.

Lemma Forall2_In_l {A B} (R : A -> B -> Prop) (l : list A) (l' : list B) (x : A) :
  Forall2 R l l' -> In x l -> exists y, In y l' /\ R x y.
Proof.
  induction 1 as [| a b l l' Hab _ IH]; simpl.
  - contradiction.
  - intros [<- | Hin].
    + exists b. split; [left; reflexivity | exact Hab].
    + destruct (IH Hin) as [y [Hy Hr]]. exists y. split; [right |]; assumption.
Qed.

Lemma Forall2_In_r {A B} (R : A -> B -> Prop) (l : list A) (l' : list B) (y : B) :
  Forall2 R l l' -> In y l' -> exists x, In x l /\ R x y.
Proof.
  induction 1 as [| a b l l' Hab _ IH]; simpl.
  - contradiction.
  - intros [<- | Hin].
    + exists a. split; [left; reflexivity | exact Hab].
    + destruct (IH Hin) as [x [Hx Hr]]. exists x. split; [right |]; assumption.
Qed.






(** ** Failed batches and the cache *)

Lemma get_setAll_consistent {V} (x : string) (writes : list (string * V))
    (m c : Js.Map V) :
  (forall k v, In (k, v) writes -> Js.get k c = Some v) ->
  In x (map fst writes) -> Js.get x (Js.setAll writes m) = Js.get x c.
Proof.
  unfold Js.setAll. revert m.
  induction writes as [| [k v] writes IH]; intros m Hall Hin; simpl.
  - contradiction.
  - assert (Hall' : forall k0 v0, In (k0, v0) writes -> Js.get k0 c = Some v0)
      by (intros k0 v0 H0; apply Hall; right; exact H0).
    destruct (in_dec string_dec x (map fst writes)) as [Hin' | Hnot].
    + apply IH; assumption.
    + fold (Js.setAll writes (Js.set k v m)).
      rewrite get_setAll_other by exact Hnot.
      destruct Hin as [Hk | Hin]; [| contradiction].
      simpl in Hk. subst k. rewrite get_set_same.
      symmetry. apply Hall. left. reflexivity.
Qed.

(** A cached identifier that is requested is answered from the cache. *)
Lemma results0_get (c : Js.Map BaselineStatus) (ids : list string)
    (id : string) (st : BaselineStatus) :
  In id ids -> Js.get id c = Some st ->
  Js.get id (Js.setAll (cachedEntries c ids) []) = Some st.
Proof.
  intros Hin Hget. rewrite <- Hget.
  apply get_setAll_consistent.
  - intros k v H. apply (cachedEntries_sound c ids k v H).
  - apply cachedEntries_cover; [exact Hin |].
    unfold Js.has. rewrite Hget. reflexivity.
Qed.

Lemma In_map_fst_concat {V} (x : string) (wl : list (list (string * V))) :
  In x (map fst (concat wl)) ->
  exists writes, In writes wl /\ In x (map fst writes).
Proof.
  intros H. apply in_map_iff in H. destruct H as [[k v] [Hk Hin]].
  apply in_concat in Hin. destruct Hin as [ws [Hws Hin]].
  exists ws. split; [exact Hws |].
  apply in_map_iff. exists (k, v). split; assumption.
Qed.

(** When a batch fails, every identifier of the batch is written to the
    result and to the cache as unknown. *)
Lemma failed_batch_cached_unknown (E : Env) (batch : list string) (w : World)
    (err : JsError) (w1 : World) :
  fetchFeaturesBatch E batch w = (Thrown err, w1) ->
  batch <> [] ->
  cache (snd (processBatch E batch w)) =
    Js.setAll (failureWrites batch) (cache w) /\
  forall id, In id batch ->
    Js.get id (cache (snd (processBatch E batch w))) = Some unknownStatus /\
    Js.get id (fst (processBatch E batch w)) = Some unknownStatus.
Proof.
  intros Hfail Hne.
  destruct (spec_fetchFeaturesBatchFrom E batch 0 MAX_RETRIES w (Nat.le_0_l _))
    as [(Hc & _) _].
  change (fetchFeaturesBatchFrom E MAX_RETRIES batch w)
    with (fetchFeaturesBatch E batch w) in Hc.
  rewrite Hfail in Hc. simpl in Hc.
  assert (Hp : processBatch E batch w =
               (Js.setAll (failureWrites batch) [],
                {| cache := Js.setAll (failureWrites batch) (cache w1);
                   circuitBreakerState := circuitBreakerState w1;
                   cacheStats := cacheStats w1;
                   tick := tick w1;
                   sent := sent w1 |})).
  { destruct batch as [| id0 rest]; [congruence |].
    unfold processBatch, bind. rewrite Hfail. reflexivity. }
  rewrite Hp. simpl. rewrite Hc. split; [reflexivity |].
  assert (Hconst : forall e, In e (failureWrites batch) -> snd e = unknownStatus).
  { intros e He. unfold failureWrites in He. apply in_map_iff in He.
    destruct He as [id [<- _]]. reflexivity. }
  assert (Hkeys : forall id, In id batch -> In id (map fst (failureWrites batch))).
  { intros id Hin. unfold failureWrites. rewrite map_map. simpl.
    rewrite map_id. exact Hin. }
  intros id Hin. split; apply get_setAll_const; auto.
Qed.

(** A call that asks only for cached identifiers reads nothing from the
    oracle, sends nothing, and answers from the cache. *)
Lemma all_cached_no_request (E : Env) (req : list string) (w : World) :
  (forall id, In id req -> Js.has id (cache w) = true) ->
  fst (fetchBaselineStatus E req w) =
    Returned (Js.setAll (cachedEntries (cache w) req) []) /\
  cache (snd (fetchBaselineStatus E req w)) = cache w /\
  circuitBreakerState (snd (fetchBaselineStatus E req w)) =
    circuitBreakerState w /\
  tick (snd (fetchBaselineStatus E req w)) = tick w /\
  sent (snd (fetchBaselineStatus E req w)) = sent w.
Proof.
  intros Hall.
  assert (Hu : uncached (cache w) req = []).
  { destruct (uncached (cache w) req) as [| id rest] eqn:Eu; [reflexivity |].
    assert (Hin : In id (uncached (cache w) req))
      by (rewrite Eu; left; reflexivity).
    apply uncached_In in Hin. destruct Hin as [Hin Hno].
    rewrite (Hall id Hin) in Hno. discriminate. }
  destruct (fetchBaselineStatus_cases E req 0 w (Nat.le_0_l _))
    as [(_ & H) | [(Hne & _) | (Hne & _)]].
  - exact H.
  - contradiction.
  - contradiction.
Qed.

(** One later call: identifiers cached as unknown stay so, are answered as
    unknown, and are in no batch that is sent, as long as no reply read from
    position [t0] on carries a record for them. *)
Lemma unknown_persists (E : Env) (poisoned : list string) (t0 : nat)
    (req : list string) (w : World) :
  (t0 <= tick w)%nat ->
  (forall id, In id poisoned -> Js.get id (cache w) = Some unknownStatus) ->
  (forall k, (t0 <= k)%nat ->
     forall id, In id poisoned -> ~ replyMentions (fetch E k) id) ->
  (forall id, In id poisoned ->
     Js.get id (cache (snd (fetchBaselineStatus E req w))) = Some unknownStatus) /\
  (tick w <= tick (snd (fetchBaselineStatus E req w)))%nat /\
  keepsUnknown poisoned req (fst (fetchBaselineStatus E req w)) /\
  exists extra,
    sent (snd (fetchBaselineStatus E req w)) = (sent w ++ extra)%list /\
    Forall (fun e => forall id, In id poisoned -> ~ In id (fst e)) extra.
Proof.
  intros Ht Hpois Henv.
  assert (Hnotfetch : forall id, In id poisoned ->
                        ~ In id (uncached (cache w) req)).
  { intros id Hid Hin. apply uncached_In in Hin. destruct Hin as [_ Hno].
    unfold Js.has in Hno. rewrite (Hpois id Hid) in Hno. discriminate. }
  destruct (fetchBaselineStatus_cases E req t0 w Ht)
    as [(_ & Hfst & Hc & _ & Htick & Hs)
       | [(_ & Hfst & Hc & Htick & Hs)
         | (_ & wl & Hall & Hran & Hfst)]].
  - split; [| split; [| split]].
    + intros id Hid. rewrite Hc. apply Hpois. exact Hid.
    + lia.
    + intros m Hm id Hid Hreq. rewrite Hfst in Hm. inversion Hm; subst m.
      apply results0_get; [exact Hreq | apply Hpois; exact Hid].
    + exists []. rewrite app_nil_r. split; [exact Hs | constructor].
  - split; [| split; [| split]].
    + intros id Hid. rewrite Hc. apply Hpois. exact Hid.
    + exact Htick.
    + intros m Hm. rewrite Hfst in Hm. discriminate.
    + exists []. rewrite app_nil_r. split; [exact Hs | constructor].
  - assert (Havoid : forall id, In id poisoned ->
                       forall writes, In writes wl -> ~ In id (map fst writes)).
    { intros id Hid ws Hws.
      destruct (Forall2_In_r _ _ _ ws Hall Hws) as [batch [Hb Hok]].
      apply (writes_avoid E t0 batch ws id Hok).
      - intros Hin. apply (Hnotfetch id Hid).
        apply (slices_incl BATCH_SIZE _ batch Hb). exact Hin.
      - intros k Hk. apply Henv; assumption. }
    destruct Hran as (Hc & Htick & extra & Hs & Hextra).
    split; [| split; [| split]].
    + intros id Hid. rewrite Hc. rewrite get_setAll_other.
      * apply Hpois. exact Hid.
      * intros Hin. apply In_map_fst_concat in Hin.
        destruct Hin as [ws [Hws Hin]]. exact (Havoid id Hid ws Hws Hin).
    + exact Htick.
    + intros m Hm id Hid Hreq.
      destruct Hfst as [Hfst | [Hfst _]]; rewrite Hfst in Hm;
        [| discriminate].
      inversion Hm; subst m.
      rewrite get_mergeWrites_other by (apply Havoid; exact Hid).
      apply results0_get; [exact Hreq | apply Hpois; exact Hid].
    + exists extra. split; [exact Hs |].
      eapply Forall_impl; [| exact Hextra].
      intros e He id Hid Hin. apply (Hnotfetch id Hid).
      apply (slices_incl BATCH_SIZE _ (fst e) He). exact Hin.
Qed.

(** Every later call. *)
Lemma unknown_persists_calls (E : Env) (poisoned : list string) (t0 : nat)
    (calls : list (list string)) (w : World) :
  (t0 <= tick w)%nat ->
  (forall id, In id poisoned -> Js.get id (cache w) = Some unknownStatus) ->
  (forall k, (t0 <= k)%nat ->
     forall id, In id poisoned -> ~ replyMentions (fetch E k) id) ->
  Forall2 (keepsUnknown poisoned) calls (fst (runCalls E calls w)) /\
  (forall id, In id poisoned ->
     Js.get id (cache (snd (runCalls E calls w))) = Some unknownStatus) /\
  exists extra,
    sent (snd (runCalls E calls w)) = (sent w ++ extra)%list /\
    Forall (fun e => forall id, In id poisoned -> ~ In id (fst e)) extra.
Proof.
  revert w. induction calls as [| req rest IH]; intros w Ht Hpois Henv.
  - simpl. split; [constructor | split; [exact Hpois |]].
    exists []. rewrite app_nil_r. split; [reflexivity | constructor].
  - destruct (unknown_persists E poisoned t0 req w Ht Hpois Henv)
      as (Hc1 & Ht1 & Hk1 & x1 & X1 & F1).
    simpl. destruct (fetchBaselineStatus E req w) as [o w1].
    simpl in Hc1, Ht1, Hk1, X1.
    assert (Ht1' : (t0 <= tick w1)%nat) by lia.
    destruct (IH w1 Ht1' Hc1 Henv) as (Hk2 & Hc2 & x2 & X2 & F2).
    destruct (runCalls E rest w1) as [os w2]. simpl in Hk2, Hc2, X2. simpl.
    split; [constructor; assumption | split; [exact Hc2 |]].
    exists (x1 ++ x2)%list. split.
    + rewrite X2, X1, app_assoc. reflexivity.
    + apply Forall_app. split; assumption.
Qed.

(** The claim as worded fails: [processBatch] caches every feature of a
    response, requested or not.  After the batch [grid] failed, a later call
    for [flexbox] is answered with records for [flexbox] and [grid]; from then
    on [grid] is resolved from the cache as widely, not unknown. *)
Lemma later_response_overwrites_unknown :
  ~ (forall (E : Env) (batch : list string) (w : World) (err : JsError)
            (w1 : World) (calls : list (list string)),
        fetchFeaturesBatch E batch w = (Thrown err, w1) ->
        batch <> [] ->
        Forall2 (keepsUnknown batch) calls
          (fst (runCalls E calls (snd (processBatch E batch w))))).
Proof.
  intros H.
  assert (Hfail : exists err w1,
             fetchFeaturesBatch recoveringAuthority ["grid"] freshWorld =
             (Thrown err, w1))
    by (eexists; eexists; vm_compute; reflexivity).
  destruct Hfail as [err [w1 Hfail]].
  specialize (H recoveringAuthority ["grid"] freshWorld err w1
                [["flexbox"]; ["grid"]] Hfail).
  assert (Hne : ["grid"] <> []) by discriminate.
  specialize (H Hne).
  assert (Houts :
            fst (runCalls recoveringAuthority [["flexbox"]; ["grid"]]
                   (snd (processBatch recoveringAuthority ["grid"] freshWorld))) =
            [Returned [("flexbox", {| status := "widely"; low_date := None;
                                      high_date := None |});
                       ("grid", {| status := "widely"; low_date := None;
                                   high_date := None |})];
             Returned [("grid", {| status := "widely"; low_date := None;
                                   high_date := None |})]])
    by (vm_compute; reflexivity).
  rewrite Houts in H.
  inversion H as [| ? ? ? ? _ Hrest]; subst.
  inversion Hrest as [| ? ? ? ? Hgrid _]; subst.
  specialize (Hgrid _ eq_refl "grid" (or_introl eq_refl) (or_introl eq_refl)).
  vm_compute in Hgrid. discriminate.
Qed.

(** C9 (amended). When the batch request fails, [processBatch] writes an
    unknown record into the cache for every identifier of the batch.  From
    then on (the cache is never cleared by the client itself): a call that
    asks only for such identifiers returns them as unknown without reading
    the network at all; and in every later call these identifiers are in no
    batch that is sent, stay unknown in the cache and are returned as unknown,
    as long as no later response carries a record for one of them
    ([processBatch] caches every feature of a response, requested or not). *)
Theorem failed_batch_stays_unknown :
  forall (E : Env) (batch : list string) (w : World) (err : JsError)
         (w1 : World),
    fetchFeaturesBatch E batch w = (Thrown err, w1) ->
    batch <> [] ->
    (forall id, In id batch ->
       Js.get id (cache (snd (processBatch E batch w))) = Some unknownStatus) /\
    (forall (req : list string) (w3 : World),
        (forall id, In id batch -> Js.get id (cache w3) = Some unknownStatus) ->
        (forall id, In id req -> In id batch) ->
        (exists m,
            fst (fetchBaselineStatus E req w3) = Returned m /\
            forall id, In id req -> Js.get id m = Some unknownStatus) /\
        tick (snd (fetchBaselineStatus E req w3)) = tick w3 /\
        sent (snd (fetchBaselineStatus E req w3)) = sent w3) /\
    ((forall k, (tick (snd (processBatch E batch w)) <= k)%nat ->
        forall id, In id batch -> ~ replyMentions (fetch E k) id) ->
     forall calls : list (list string),
       Forall2 (keepsUnknown batch) calls
         (fst (runCalls E calls (snd (processBatch E batch w)))) /\
       (forall id, In id batch ->
          Js.get id (cache (snd (runCalls E calls (snd (processBatch E batch w)))))
          = Some unknownStatus) /\
       exists extra,
         sent (snd (runCalls E calls (snd (processBatch E batch w)))) =
           (sent (snd (processBatch E batch w)) ++ extra)%list /\
         Forall (fun e => forall id, In id batch -> ~ In id (fst e)) extra).
Proof.
  intros E batch w err w1 Hfail Hne.
  destruct (failed_batch_cached_unknown E batch w err w1 Hfail Hne)
    as [_ Hunknown].
  split; [| split].
  - intros id Hin. apply Hunknown. exact Hin.
  - intros req w3 Hpois Hsub.
    assert (Hall : forall id, In id req -> Js.has id (cache w3) = true).
    { intros id Hin. unfold Js.has. rewrite (Hpois id (Hsub id Hin)).
      reflexivity. }
    destruct (all_cached_no_request E req w3 Hall)
      as (Hfst & _ & _ & Htick & Hsent).
    split; [| split; assumption].
    eexists. split; [exact Hfst |].
    intros id Hin. apply results0_get; [exact Hin |].
    apply Hpois. apply Hsub. exact Hin.
  - intros Henv calls.
    apply (unknown_persists_calls E batch
             (tick (snd (processBatch E batch w))) calls
             (snd (processBatch E batch w))).
    + lia.
    + intros id Hin. apply Hunknown. exact Hin.
    + exact Henv.
Qed.

Lemma failed_batch_stays_unknown_witness :
  Forall2 (keepsUnknown ["grid"]) [["flexbox"; "grid"]; ["grid"]]
    (fst (runCalls recoveredForFlexbox [["flexbox"; "grid"]; ["grid"]]
            (snd (processBatch recoveredForFlexbox ["grid"] freshWorld)))).
Proof.
  assert (Hfail : exists err w1,
             fetchFeaturesBatch recoveredForFlexbox ["grid"] freshWorld =
             (Thrown err, w1))
    by (eexists; eexists; vm_compute; reflexivity).
  destruct Hfail as [err [w1 Hfail]].
  apply (failed_batch_stays_unknown recoveredForFlexbox ["grid"] freshWorld
           err w1 Hfail).
  - discriminate.
  - intros k _ id [<- | []]. simpl.
    destruct (k <? 9)%nat; simpl.
    + intros [].
    + intros [H | []]. discriminate.
Defined.

(* ================================================================== *)
(** * Part IV. Further properties                                      *)
(* ================================================================== *)

(** ** Scores *)

Lemma bonus_range (m : Js.Map BaselineStatus) :
  (0 <= calculateProgressiveEnhancementBonus m <= 0.15)%Q.
Proof.
  unfold calculateProgressiveEnhancementBonus. cbv zeta. unfold Js.Math_min.
  set (c := countForBonus m).
  set (b1 := if _ : bool then 0.1%Q else 0%Q).
  assert (H1 : (0 <= b1 <= 0.1)%Q).
  { subst b1. destruct (_ && _); split; lra. }
  clearbody b1.
  set (b2 := if _ : bool then (b1 + 0.05)%Q else b1).
  assert (H2 : (0 <= b2)%Q).
  { subst b2. destruct (_ && _); lra. }
  clearbody b2.
  split.
  - apply Q.min_glb; lra.
  - apply Q.le_min_r.
Qed.

Lemma finalScore_range (m : Js.Map BaselineStatus) (tp mp lo : Q) (lc : Z) :
  (lo <= 0)%Q -> (0 <= mp)%Q -> (lo * mp <= tp)%Q -> (tp <= mp)%Q ->
  (lo <= fst (finalScore m tp mp lc) <= 1)%Q.
Proof.
  intros Hlo Hmp Hlow Hup. unfold finalScore. cbv zeta.
  pose proof (bonus_range m) as [Hb0 Hb1].
  set (bonus := calculateProgressiveEnhancementBonus m) in *. clearbody bonus.
  set (base := if Qlt_le_dec 0 mp then (tp / mp)%Q else 1%Q).
  assert (Hbase : (lo <= base <= 1)%Q).
  { subst base. destruct (Qlt_le_dec 0 mp) as [Hpos | Hnp].
    - split.
      + apply Qle_shift_div_l; assumption.
      + apply Qle_shift_div_r; [assumption | lra].
    - split; lra. }
  clearbody base.
  set (s := Js.Math_min (base + bonus) 1.0).
  assert (Hscore : (lo <= s <= 1)%Q).
  { subst s. unfold Js.Math_min. split.
    - apply Q.min_glb; lra.
    - pose proof (Q.le_min_r (base + bonus) 1.0). lra. }
  clearbody s.
  destruct (Qlt_le_dec 0.3 _); cbn [fst]; [| exact Hscore].
  destruct Hscore as [Hs0 Hs1].
  split; [| lra].
  destruct (Qlt_le_dec s 0); lra.
Qed.

Lemma Math_round_range (x lo hi : Q) :
  (lo <= x <= hi)%Q ->
  Js.Math_round lo <= Js.Math_round x <= Js.Math_round hi.
Proof.
  intros [H1 H2]. unfold Js.Math_round.
  split; apply Qfloor_resp_le; lra.
Qed.

Lemma UA_points_range (s : string) : (0 <= ScoreUA.getStatusPoints s <= 2)%Q.
Proof.
  unfold ScoreUA.getStatusPoints.
  destruct (String.eqb s "widely"); [| destruct (String.eqb s "newly")];
    split; lra.
Qed.

Section UATotals.

Variables (P : Platform) (tokens : list Token) (tokenToFeatureMap : Js.Map string)
          (usageData : option (Js.Map Usage)) (uaDistribution : UADistribution).

Local Abbreviation step :=
  (ScoreUA.processFeature P tokens tokenToFeatureMap usageData uaDistribution).

Lemma UA_totals_range (m : Js.Map BaselineStatus) (acc : ScoreUA.Totals) :
  (0 <= ScoreUA.totalPoints acc)%Q ->
  (ScoreUA.totalPoints acc <= ScoreUA.maxPoints acc)%Q ->
  (0 <= ScoreUA.totalPoints (fold_left step m acc))%Q /\
  (ScoreUA.totalPoints (fold_left step m acc) <=
   ScoreUA.maxPoints (fold_left step m acc))%Q.
Proof.
  revert acc. induction m as [| e m IH]; intros acc H0 H1; simpl.
  - split; assumption.
  - apply IH; unfold ScoreUA.processFeature; cbv zeta;
      cbn [ScoreUA.totalPoints ScoreUA.maxPoints];
      pose proof (featureWeight_range (fst e) (snd e) tokens tokenToFeatureMap
                    usageData uaDistribution) as [Hw0 Hw1];
      pose proof (UA_points_range (status (snd e))) as [Hp0 Hp1];
      set (w := fst (ScoreUA.featureWeight _ _ _ _ _ _)) in *; clearbody w;
      set (p := ScoreUA.getStatusPoints _) in *; clearbody p; nra.
Qed.

Lemma UA_maxPoints_grows (m : Js.Map BaselineStatus) (acc : ScoreUA.Totals) :
  (ScoreUA.maxPoints acc + inject_Z (Z.of_nat (length m)) <=
   ScoreUA.maxPoints (fold_left step m acc))%Q.
Proof.
  revert acc. induction m as [| e m IH]; intros acc.
  - simpl. unfold inject_Z. lra.
  - change (fold_left step (e :: m) acc) with (fold_left step m (step acc e)).
    specialize (IH (step acc e)).
    assert (Hs : (ScoreUA.maxPoints acc + 1 <= ScoreUA.maxPoints (step acc e))%Q).
    { unfold ScoreUA.processFeature; cbv zeta;
        cbn [ScoreUA.maxPoints].
      pose proof (featureWeight_range (fst e) (snd e) tokens tokenToFeatureMap
                    usageData uaDistribution) as [Hw0 Hw1]. lra. }
    replace (Z.of_nat (length (e :: m))) with (1 + Z.of_nat (length m))
      by (simpl length; lia).
    rewrite inject_Z_plus. change (inject_Z 1) with 1%Q. lra.
Qed.

Lemma UA_limitedCount (m : Js.Map BaselineStatus) (acc : ScoreUA.Totals) :
  ScoreUA.limitedFeatureCount (fold_left step m acc) =
  ScoreUA.limitedFeatureCount acc + Z.of_nat (statusCount "limited" m).
Proof.
  revert acc. induction m as [| e m IH]; intros acc.
  - unfold statusCount. simpl. lia.
  - change (fold_left step (e :: m) acc) with (fold_left step m (step acc e)).
    rewrite IH. unfold ScoreUA.processFeature, statusCount. cbv zeta.
    cbn [ScoreUA.limitedFeatureCount]. simpl filter.
    destruct (String.eqb (status (snd e)) "limited"); simpl length; lia.
Qed.

Lemma UA_totals_when_points (m : Js.Map BaselineStatus) (acc : ScoreUA.Totals)
    (k : Q) :
  Forall (fun e => ScoreUA.getStatusPoints (status (snd e)) = k) m ->
  (ScoreUA.totalPoints acc * 2 == k * ScoreUA.maxPoints acc)%Q ->
  (ScoreUA.totalPoints (fold_left step m acc) * 2 ==
   k * ScoreUA.maxPoints (fold_left step m acc))%Q.
Proof.
  revert acc. induction m as [| e m IH]; intros acc Hall Hacc.
  - exact Hacc.
  - pose proof (Forall_inv Hall) as He. cbv beta in He.
    pose proof (Forall_inv_tail Hall) as Hm.
    change (fold_left step (e :: m) acc) with (fold_left step m (step acc e)).
    apply IH; [exact Hm |].
    unfold ScoreUA.processFeature. cbv zeta.
    cbn [ScoreUA.totalPoints ScoreUA.maxPoints]. rewrite He.
    set (w := fst (ScoreUA.featureWeight _ _ _ _ _ _)). clearbody w. lra.
Qed.

End UATotals.

Lemma Js_points_range (s : string) (isCore : bool) :
  (-1 <= ScoreJs.getStatusPoints s isCore <= 3)%Q /\
  ((isCore = true -> s <> "limited") -> (0 <= ScoreJs.getStatusPoints s isCore)%Q).
Proof.
  unfold ScoreJs.getStatusPoints.
  destruct (String.eqb s "widely") eqn:Ew; [split; [split; lra | intros; lra] |].
  destruct (String.eqb s "newly") eqn:En.
  { destruct isCore; (split; [split; lra | intros; lra]). }
  destruct (String.eqb s "limited") eqn:El.
  - apply String.eqb_eq in El. destruct isCore.
    + split; [split; lra |]. intros H. exfalso. apply H; [reflexivity | exact El].
    + split; [split; lra | intros; lra].
  - split; [split; lra | intros; lra].
Qed.

Section JsTotals.

Variables (P : Platform) (tokens : list Token) (tokenToFeatureMap : Js.Map string)
          (usageData : option (Js.Map Usage)).

Local Abbreviation step :=
  (ScoreJs.processFeature P tokens tokenToFeatureMap usageData).

Lemma Js_totals_range (m : Js.Map BaselineStatus) (acc : ScoreJs.Totals) :
  (0 <= ScoreJs.maxPoints acc)%Q ->
  (- (1 # 3) * ScoreJs.maxPoints acc <= ScoreJs.totalPoints acc)%Q ->
  (ScoreJs.totalPoints acc <= ScoreJs.maxPoints acc)%Q ->
  (0 <= ScoreJs.maxPoints (fold_left step m acc))%Q /\
  (- (1 # 3) * ScoreJs.maxPoints (fold_left step m acc) <=
   ScoreJs.totalPoints (fold_left step m acc))%Q /\
  (ScoreJs.totalPoints (fold_left step m acc) <=
   ScoreJs.maxPoints (fold_left step m acc))%Q.
Proof.
  revert acc. induction m as [| e m IH]; intros acc H0 H1 H2; simpl.
  - repeat split; assumption.
  - apply IH; unfold ScoreJs.processFeature; cbv zeta;
      cbn [ScoreJs.totalPoints ScoreJs.maxPoints];
      pose proof (ScoreJs_usageWeight_range (fst e) usageData tokens) as [Hw0 Hw1];
      pose proof (Js_points_range (status (snd e)) (isCoreFeature (fst e)))
        as [[Hp0 Hp1] _];
      set (w := ScoreJs.calculateUsageWeight _ _ _) in *; clearbody w;
      set (p := ScoreJs.getStatusPoints _ _) in *; clearbody p; nra.
Qed.

Lemma Js_totals_nonneg (m : Js.Map BaselineStatus) (acc : ScoreJs.Totals) :
  (forall id st, In (id, st) m -> isCoreFeature id = true ->
                 status st <> "limited") ->
  (0 <= ScoreJs.totalPoints acc)%Q ->
  (0 <= ScoreJs.totalPoints (fold_left step m acc))%Q.
Proof.
  revert acc. induction m as [| e m IH]; intros acc Hm H0; simpl.
  - exact H0.
  - apply IH; [intros id st Hin; apply Hm; right; exact Hin |].
    unfold ScoreJs.processFeature; cbv zeta;
      cbn [ScoreJs.totalPoints].
    pose proof (ScoreJs_usageWeight_range (fst e) usageData tokens) as [Hw0 Hw1].
    pose proof (Js_points_range (status (snd e)) (isCoreFeature (fst e)))
      as [_ Hp].
    assert (Hp0 : (0 <= ScoreJs.getStatusPoints (status (snd e))
                          (isCoreFeature (fst e)))%Q).
    { apply Hp. apply (Hm (fst e) (snd e)). left. destruct e; reflexivity. }
    set (w := ScoreJs.calculateUsageWeight _ _ _) in *; clearbody w.
    set (p := ScoreJs.getStatusPoints _ _) in *; clearbody p. nra.
Qed.

Lemma Js_maxPoints_grows (m : Js.Map BaselineStatus) (acc : ScoreJs.Totals) :
  (ScoreJs.maxPoints acc + (9 # 10) * inject_Z (Z.of_nat (length m)) <=
   ScoreJs.maxPoints (fold_left step m acc))%Q.
Proof.
  revert acc. induction m as [| e m IH]; intros acc.
  - simpl. unfold inject_Z. lra.
  - change (fold_left step (e :: m) acc) with (fold_left step m (step acc e)).
    specialize (IH (step acc e)).
    assert (Hs : (ScoreJs.maxPoints acc + (9 # 10) <=
                  ScoreJs.maxPoints (step acc e))%Q).
    { unfold ScoreJs.processFeature; cbv zeta;
        cbn [ScoreJs.maxPoints].
      pose proof (ScoreJs_usageWeight_range (fst e) usageData tokens)
        as [Hw0 Hw1]. lra. }
    replace (Z.of_nat (length (e :: m))) with (1 + Z.of_nat (length m))
      by (simpl length; lia).
    rewrite inject_Z_plus. change (inject_Z 1) with 1%Q. lra.
Qed.

Lemma Js_limitedCount (m : Js.Map BaselineStatus) (acc : ScoreJs.Totals) :
  ScoreJs.limitedFeatureCount (fold_left step m acc) =
  ScoreJs.limitedFeatureCount acc + Z.of_nat (statusCount "limited" m).
Proof.
  revert acc. induction m as [| e m IH]; intros acc.
  - unfold statusCount. simpl. lia.
  - change (fold_left step (e :: m) acc) with (fold_left step m (step acc e)).
    rewrite IH. unfold ScoreJs.processFeature, statusCount. cbv zeta.
    cbn [ScoreJs.limitedFeatureCount]. simpl filter.
    destruct (String.eqb (status (snd e)) "limited"); simpl length; lia.
Qed.

Lemma Js_totals_when_points (m : Js.Map BaselineStatus) (acc : ScoreJs.Totals)
    (k : Q) :
  Forall (fun e => forall c, ScoreJs.getStatusPoints (status (snd e)) c = k) m ->
  (ScoreJs.totalPoints acc * 3 == k * ScoreJs.maxPoints acc)%Q ->
  (ScoreJs.totalPoints (fold_left step m acc) * 3 ==
   k * ScoreJs.maxPoints (fold_left step m acc))%Q.
Proof.
  revert acc. induction m as [| e m IH]; intros acc Hall Hacc.
  - exact Hacc.
  - pose proof (Forall_inv Hall) as He. cbv beta in He.
    pose proof (Forall_inv_tail Hall) as Hm.
    change (fold_left step (e :: m) acc) with (fold_left step m (step acc e)).
    apply IH; [exact Hm |].
    unfold ScoreJs.processFeature. cbv zeta.
    cbn [ScoreJs.totalPoints ScoreJs.maxPoints]. rewrite He.
    set (w := ScoreJs.calculateUsageWeight _ _ _). clearbody w. lra.
Qed.

End JsTotals.

(** X1. In the engine that weights by UA distribution every score lies in
    [0, 1] and its percentage in [0, 100], whatever the status map, the tokens,
    the usage data and the UA distribution. *)
Theorem ua_score_in_unit_interval :
  forall (P : Platform) (featureStatuses : Js.Map BaselineStatus)
         (tokens : list Token) (tokenToFeatureMap : Js.Map string)
         (usageData : option (Js.Map Usage)) (uaDistribution : UADistribution),
    let r := ScoreUA.calculateScore P featureStatuses tokens tokenToFeatureMap
               usageData uaDistribution in
    (0 <= score01 r <= 1)%Q /\ 0 <= numeric100 r <= 100.
Proof.
  intros P m tokens tmap usage ua r.
  assert (H : (0 <= score01 r <= 1)%Q).
  { subst r. unfold ScoreUA.calculateScore. cbv zeta. cbn [score01].
    destruct (UA_totals_range P tokens tmap usage ua m
                {| ScoreUA.t_rows := []; ScoreUA.totalPoints := 0;
                   ScoreUA.maxPoints := 0; ScoreUA.limitedFeatureCount := 0;
                   ScoreUA.coreFeatureCount := 0 |}) as [H0 H1];
      [simpl; lra | simpl; lra |].
    apply finalScore_range; lra. }
  split; [exact H |].
  subst r. unfold ScoreUA.calculateScore in *. cbv zeta in *.
  cbn [score01 numeric100] in *.
  set (s := fst (finalScore _ _ _ _)) in *. clearbody s.
  apply (Math_round_range (s * 100) 0 100). lra.
Qed.

Lemma Math_round_of_Qeq (x y : Q) : (x == y)%Q -> Js.Math_round x = Js.Math_round y.
Proof. intros H. unfold Js.Math_round. rewrite H. reflexivity. Qed.

(** X2. In [score.js] a score lies in [-1/3, 1] and its percentage in
    [-33, 100]; it is not negative when no core feature is [limited], and it is
    negative for a lone core feature that is [limited]. *)
Theorem score_js_score_bounds :
  (forall (P : Platform) (featureStatuses : Js.Map BaselineStatus)
          (tokens : list Token) (tokenToFeatureMap : Js.Map string)
          (usageData : option (Js.Map Usage)),
      let r := ScoreJs.calculateScore P featureStatuses tokens tokenToFeatureMap
                 usageData in
      (- (1 # 3) <= score01 r <= 1)%Q /\ -33 <= numeric100 r <= 100 /\
      ((forall id st, In (id, st) featureStatuses ->
                      isCoreFeature id = true -> status st <> "limited") ->
       (0 <= score01 r)%Q /\ 0 <= numeric100 r)) /\
  (score01 (ScoreJs.calculateScore samplePlatform
              [("grid", {| status := "limited"; low_date := None;
                           high_date := None |})] [] [] None) == - (4 # 15))%Q.
Proof.
  split; [| vm_compute; reflexivity].
  intros P m tokens tmap usage r.
  pose (zero := {| ScoreJs.t_rows := []; ScoreJs.totalPoints := 0;
                   ScoreJs.maxPoints := 0; ScoreJs.limitedFeatureCount := 0;
                   ScoreJs.coreFeatureCount := 0 |}).
  destruct (Js_totals_range P tokens tmap usage m zero) as [Hm [Hl Hu]];
    [simpl; lra | simpl; lra | simpl; lra |].
  assert (H : (- (1 # 3) <= score01 r <= 1)%Q).
  { subst r. unfold ScoreJs.calculateScore. cbv zeta. cbn [score01].
    apply finalScore_range; [lra | exact Hm | exact Hl | exact Hu]. }
  split; [exact H |]. split.
  - subst r. unfold ScoreJs.calculateScore in *. cbv zeta in *.
    cbn [score01 numeric100] in *.
    set (s := fst (finalScore _ _ _ _)) in *. clearbody s.
    apply (Math_round_range (s * 100) (- (100 # 3)) 100). lra.
  - intros Hcore.
    pose proof (Js_totals_nonneg P tokens tmap usage m zero Hcore) as Hn.
    assert (H0 : (0 <= score01 r)%Q).
    { subst r. unfold ScoreJs.calculateScore. cbv zeta. cbn [score01].
      apply (finalScore_range m _ _ 0); [lra | exact Hm | | exact Hu].
      specialize (Hn ltac:(simpl; lra)). fold zero. lra. }
    split; [exact H0 |].
    subst r. unfold ScoreJs.calculateScore in *. cbv zeta in *.
    cbn [score01 numeric100] in *.
    set (s := fst (finalScore _ _ _ _)) in *. clearbody s.
    apply (Math_round_range (s * 100) 0 100). lra.
Qed.

Lemma score_js_score_bounds_witness :
  (0 <= score01 (ScoreJs.calculateScore samplePlatform
                   [("has", {| status := "limited"; low_date := None;
                               high_date := None |})] [] [] None))%Q.
Proof.
  destruct score_js_score_bounds as [H _].
  apply (H samplePlatform
           [("has", {| status := "limited"; low_date := None;
                       high_date := None |})] [] [] None).
  intros id st [E | []] Hcore. inversion E; subst. vm_compute in Hcore.
  discriminate.
Defined.

Lemma countForBonus_none_supported (m : Js.Map BaselineStatus) :
  Forall (fun e => status (snd e) <> "widely" /\ status (snd e) <> "newly") m ->
  coreWidelySupported (countForBonus m) = 0 /\
  enhancementAppropriate (countForBonus m) = 0.
Proof.
  unfold countForBonus.
  set (f := fun (c : BonusCounts) (kv : string * BaselineStatus) => _).
  assert (G : forall m acc,
             Forall (fun e => status (snd e) <> "widely" /\
                              status (snd e) <> "newly") m ->
             coreWidelySupported acc = 0 -> enhancementAppropriate acc = 0 ->
             coreWidelySupported (fold_left f m acc) = 0 /\
             enhancementAppropriate (fold_left f m acc) = 0).
  { clear m. induction m as [| e m IH]; intros acc Hall H1 H2; simpl.
    - split; assumption.
    - pose proof (Forall_inv Hall) as [Hw Hn]. cbv beta in Hw, Hn.
      apply IH; [exact (Forall_inv_tail Hall) | |]; subst f; cbv beta;
        apply String.eqb_neq in Hw; apply String.eqb_neq in Hn;
        rewrite Hw, Hn; destruct (isCoreFeature (fst e)); simpl; assumption. }
  intros Hall. apply G; [exact Hall | reflexivity | reflexivity].
Qed.

Lemma Qle_bool_zero_div (q d : Q) :
  (0 < q)%Q -> Qle_bool q (inject_Z 0 / d) = false.
Proof.
  intros Hq. destruct (Qle_bool q (inject_Z 0 / d)) eqn:E; [| reflexivity].
  apply Qle_bool_iff in E. unfold Qdiv in E.
  change (inject_Z 0) with 0%Q in E. rewrite Qmult_0_l in E. lra.
Qed.

Lemma bonus_zero (m : Js.Map BaselineStatus) :
  Forall (fun e => status (snd e) <> "widely" /\ status (snd e) <> "newly") m ->
  calculateProgressiveEnhancementBonus m = 0%Q.
Proof.
  intros Hall. unfold calculateProgressiveEnhancementBonus. cbv zeta.
  destruct (countForBonus_none_supported m Hall) as [H1 H2].
  rewrite H1, H2.
  rewrite !Qle_bool_zero_div by lra.
  rewrite !andb_false_r. reflexivity.
Qed.

Lemma div_zero_not_above (q d : Q) : (0 <= q)%Q -> ~ (q < inject_Z 0 / d)%Q.
Proof.
  intros Hq H. unfold Qdiv in H. change (inject_Z 0) with 0%Q in H.
  rewrite Qmult_0_l in H. lra.
Qed.

(** The score when no feature is [limited]: no penalty applies. *)
Lemma finalScore_no_limited (m : Js.Map BaselineStatus) (tp mp : Q) :
  fst (finalScore m tp mp 0) =
  Js.Math_min ((if Qlt_le_dec 0 mp then (tp / mp)%Q else 1%Q) +
               calculateProgressiveEnhancementBonus m) 1.0.
Proof.
  unfold finalScore. cbv zeta.
  destruct (Qlt_le_dec 0.3 _) as [H | H]; [| reflexivity].
  exfalso. destruct (Z.of_nat (length m) >? 0).
  - apply div_zero_not_above in H; [exact H | lra].
  - lra.
Qed.

Lemma statusCount_zero (s : string) (m : Js.Map BaselineStatus) :
  Forall (fun e => status (snd e) <> s) m -> statusCount s m = 0%nat.
Proof.
  unfold statusCount. induction 1 as [| e m He _ IH]; simpl; [reflexivity |].
  apply String.eqb_neq in He. rewrite He. exact IH.
Qed.

Lemma finalScore_full (m : Js.Map BaselineStatus) (tp mp : Q) :
  (0 < mp)%Q -> (tp == mp)%Q -> (fst (finalScore m tp mp 0) == 1)%Q.
Proof.
  intros Hpos Heq. rewrite finalScore_no_limited.
  pose proof (bonus_range m) as [Hb _].
  destruct (Qlt_le_dec 0 mp) as [_ | Hn]; [| lra].
  assert (Hd : (tp / mp == 1)%Q).
  { rewrite Heq. field. lra. }
  unfold Js.Math_min. rewrite Hd.
  rewrite Q.min_r by lra. lra.
Qed.

Lemma finalScore_nothing (m : Js.Map BaselineStatus) (tp mp : Q) (lc : Z) :
  (0 < mp)%Q -> (tp == 0)%Q ->
  Forall (fun e => status (snd e) <> "widely" /\ status (snd e) <> "newly") m ->
  (fst (finalScore m tp mp lc) == 0)%Q.
Proof.
  intros Hpos Heq Hall. unfold finalScore. cbv zeta.
  rewrite (bonus_zero m Hall).
  destruct (Qlt_le_dec 0 mp) as [_ | Hn]; [| lra].
  assert (Hd : (tp / mp == 0)%Q).
  { rewrite Heq. field. lra. }
  assert (Hs : (Js.Math_min (tp / mp + 0) 1.0 == 0)%Q).
  { unfold Js.Math_min. rewrite Hd. vm_compute. reflexivity. }
  destruct (Qlt_le_dec 0.3 _); cbn [fst]; rewrite Hs; reflexivity.
Qed.

Lemma length_pos_inject {A} (l : list A) :
  l <> [] -> (1 <= inject_Z (Z.of_nat (length l)))%Q.
Proof.
  intros H. destruct l as [| x l]; [congruence |].
  change 1%Q with (inject_Z 1). rewrite <- Zle_Qle. simpl length. lia.
Qed.

(** X3. In both engines a non-empty status map whose features are all
    [widely] scores 1 (100%), and one with no [widely] or [newly] feature (no
    [limited] one either, for [score.js]) scores 0; the score of 0 is for
    maps where no status names an inherited property (in the engine that
    reads [supportLevels]) and, when usage data is given, no identifier names
    one either. *)
Theorem all_widely_scores_one_none_supported_scores_zero :
  forall (P : Platform) (featureStatuses : Js.Map BaselineStatus)
         (tokens : list Token) (tokenToFeatureMap : Js.Map string)
         (usageData : option (Js.Map Usage)) (uaDistribution : UADistribution),
    featureStatuses <> [] ->
    let ua := ScoreUA.calculateScore P featureStatuses tokens tokenToFeatureMap
                usageData uaDistribution in
    let js := ScoreJs.calculateScore P featureStatuses tokens tokenToFeatureMap
                usageData in
    (Forall (fun e => status (snd e) = "widely") featureStatuses ->
     (score01 ua == 1)%Q /\ numeric100 ua = 100 /\
     (score01 js == 1)%Q /\ numeric100 js = 100) /\
    (Forall (fun e => status (snd e) <> "widely" /\ status (snd e) <> "newly")
            featureStatuses ->
     Forall (fun e => ordinaryStatus (snd e) /\
                      ordinaryFeature usageData (fst e)) featureStatuses ->
     (score01 ua == 0)%Q /\ numeric100 ua = 0) /\
    (Forall (fun e => status (snd e) <> "widely" /\ status (snd e) <> "newly" /\
                      status (snd e) <> "limited") featureStatuses ->
     Forall (fun e => ordinaryFeature usageData (fst e)) featureStatuses ->
     (score01 js == 0)%Q /\ numeric100 js = 0).
Proof.
  intros P m tokens tmap usage uad Hne ua js.
  pose (zu := {| ScoreUA.t_rows := []; ScoreUA.totalPoints := 0;
                 ScoreUA.maxPoints := 0; ScoreUA.limitedFeatureCount := 0;
                 ScoreUA.coreFeatureCount := 0 |}).
  pose (zj := {| ScoreJs.t_rows := []; ScoreJs.totalPoints := 0;
                 ScoreJs.maxPoints := 0; ScoreJs.limitedFeatureCount := 0;
                 ScoreJs.coreFeatureCount := 0 |}).
  pose proof (length_pos_inject m Hne) as Hlen.
  pose proof (UA_maxPoints_grows P tokens tmap usage uad m zu) as Hmu.
  pose proof (Js_maxPoints_grows P tokens tmap usage m zj) as Hmj.
  cbn [ScoreUA.maxPoints ScoreJs.maxPoints zu zj] in Hmu, Hmj.
  assert (Hround : forall s k, (s == k)%Q ->
            Js.Math_round (s * 100) = Js.Math_round (k * 100)).
  { intros s k E. apply Math_round_of_Qeq. rewrite E. reflexivity. }
  split; [| split].
  - intros Hall.
    assert (Hu : (score01 ua == 1)%Q).
    { subst ua. unfold ScoreUA.calculateScore. cbv zeta. cbn [score01].
      rewrite UA_limitedCount. cbn [ScoreUA.limitedFeatureCount].
      rewrite statusCount_zero.
      2:{ eapply Forall_impl; [| exact Hall]. cbv beta. intros e He.
          rewrite He. discriminate. }
      apply finalScore_full; [fold zu; lra |].
      pose proof (UA_totals_when_points P tokens tmap usage uad m zu 2) as Ht.
      fold zu. cbv zeta in Ht.
      assert (Hk : (ScoreUA.totalPoints
                      (fold_left (ScoreUA.processFeature P tokens tmap usage uad)
                         m zu) * 2 ==
                    2 * ScoreUA.maxPoints
                      (fold_left (ScoreUA.processFeature P tokens tmap usage uad)
                         m zu))%Q).
      { apply Ht; [| simpl; lra].
        eapply Forall_impl; [| exact Hall]. cbv beta. intros e He.
        rewrite He. reflexivity. }
      lra. }
    assert (Hj : (score01 js == 1)%Q).
    { subst js. unfold ScoreJs.calculateScore. cbv zeta. cbn [score01].
      rewrite Js_limitedCount. cbn [ScoreJs.limitedFeatureCount].
      rewrite statusCount_zero.
      2:{ eapply Forall_impl; [| exact Hall]. cbv beta. intros e He.
          rewrite He. discriminate. }
      apply finalScore_full; [fold zj; lra |].
      pose proof (Js_totals_when_points P tokens tmap usage m zj 3) as Ht.
      fold zj. cbv zeta in Ht.
      assert (Hk : (ScoreJs.totalPoints
                      (fold_left (ScoreJs.processFeature P tokens tmap usage)
                         m zj) * 3 ==
                    3 * ScoreJs.maxPoints
                      (fold_left (ScoreJs.processFeature P tokens tmap usage)
                         m zj))%Q).
      { apply Ht; [| simpl; lra].
        eapply Forall_impl; [| exact Hall]. cbv beta. intros e He c.
        rewrite He. reflexivity. }
      lra. }
    split; [exact Hu | split; [| split; [exact Hj |]]].
    + subst ua. unfold ScoreUA.calculateScore in *. cbv zeta in *.
      cbn [score01 numeric100] in *. rewrite (Hround _ 1%Q Hu). reflexivity.
    + subst js. unfold ScoreJs.calculateScore in *. cbv zeta in *.
      cbn [score01 numeric100] in *. rewrite (Hround _ 1%Q Hj). reflexivity.
  - intros Hall _.
    assert (Hu : (score01 ua == 0)%Q).
    { subst ua. unfold ScoreUA.calculateScore. cbv zeta. cbn [score01].
      apply finalScore_nothing; [fold zu; lra | | exact Hall].
      pose proof (UA_totals_when_points P tokens tmap usage uad m zu 0) as Ht.
      fold zu. cbv zeta in Ht.
      assert (Hk : (ScoreUA.totalPoints
                      (fold_left (ScoreUA.processFeature P tokens tmap usage uad)
                         m zu) * 2 ==
                    0 * ScoreUA.maxPoints
                      (fold_left (ScoreUA.processFeature P tokens tmap usage uad)
                         m zu))%Q).
      { apply Ht; [| simpl; lra].
        eapply Forall_impl; [| exact Hall]. cbv beta. intros e [Hw Hn].
        unfold ScoreUA.getStatusPoints.
        apply String.eqb_neq in Hw, Hn. rewrite Hw, Hn. reflexivity. }
      lra. }
    split; [exact Hu |].
    subst ua. unfold ScoreUA.calculateScore in *. cbv zeta in *.
    cbn [score01 numeric100] in *. rewrite (Hround _ 0%Q Hu). reflexivity.
  - intros Hall _.
    assert (Hall' : Forall (fun e => status (snd e) <> "widely" /\
                                     status (snd e) <> "newly") m).
    { eapply Forall_impl; [| exact Hall]. cbv beta. tauto. }
    assert (Hj : (score01 js == 0)%Q).
    { subst js. unfold ScoreJs.calculateScore. cbv zeta. cbn [score01].
      apply finalScore_nothing; [fold zj; lra | | exact Hall'].
      pose proof (Js_totals_when_points P tokens tmap usage m zj 0) as Ht.
      fold zj. cbv zeta in Ht.
      assert (Hk : (ScoreJs.totalPoints
                      (fold_left (ScoreJs.processFeature P tokens tmap usage)
                         m zj) * 3 ==
                    0 * ScoreJs.maxPoints
                      (fold_left (ScoreJs.processFeature P tokens tmap usage)
                         m zj))%Q).
      { apply Ht; [| simpl; lra].
        eapply Forall_impl; [| exact Hall]. cbv beta. intros e [Hw [Hn Hl]] c.
        unfold ScoreJs.getStatusPoints.
        apply String.eqb_neq in Hw, Hn, Hl. rewrite Hw, Hn, Hl. reflexivity. }
      lra. }
    split; [exact Hj |].
    subst js. unfold ScoreJs.calculateScore in *. cbv zeta in *.
    cbn [score01 numeric100] in *. rewrite (Hround _ 0%Q Hj). reflexivity.
Qed.

Lemma all_widely_scores_one_none_supported_scores_zero_witness :
  numeric100
    (ScoreUA.calculateScore samplePlatform
       [("grid", {| status := "widely"; low_date := None; high_date := None |})]
       [] [] None defaultDist) = 100 /\
  numeric100
    (ScoreUA.calculateScore samplePlatform
       [("has", {| status := "limited"; low_date := None; high_date := None |})]
       [] [] None defaultDist) = 0.
Proof.
  split.
  - destruct (all_widely_scores_one_none_supported_scores_zero samplePlatform
                [("grid", {| status := "widely"; low_date := None;
                             high_date := None |})]
                [] [] None defaultDist ltac:(discriminate)) as [H _].
    apply H. repeat constructor.
  - destruct (all_widely_scores_one_none_supported_scores_zero samplePlatform
                [("has", {| status := "limited"; low_date := None;
                            high_date := None |})]
                [] [] None defaultDist ltac:(discriminate)) as [_ [H _]].
    apply H.
    + repeat constructor; simpl; discriminate.
    + repeat constructor.
Defined.

Lemma ScoreJs_rows_of_fold (P : Platform) (tokens : list Token)
    (tokenToFeatureMap : Js.Map string) (usageData : option (Js.Map Usage))
    (featureStatuses : Js.Map BaselineStatus) (acc : ScoreJs.Totals) :
  ScoreJs.t_rows
    (fold_left (ScoreJs.processFeature P tokens tokenToFeatureMap usageData)
       featureStatuses acc) =
  (ScoreJs.t_rows acc ++
   map (fun e => ScoreJs.makeRow P (fst e) (snd e) tokens tokenToFeatureMap
                   usageData) featureStatuses)%list.
Proof.
  revert acc. induction featureStatuses as [| e m IH]; intros acc; simpl.
  - rewrite app_nil_r. reflexivity.
  - rewrite IH. unfold ScoreJs.processFeature. cbn [ScoreJs.t_rows].
    rewrite <- app_assoc. reflexivity.
Qed.

Lemma ScoreJs_rows (P : Platform) (tokens : list Token)
    (tokenToFeatureMap : Js.Map string) (usageData : option (Js.Map Usage))
    (featureStatuses : Js.Map BaselineStatus) :
  rows (ScoreJs.calculateScore P featureStatuses tokens tokenToFeatureMap
          usageData) =
  arraySort ScoreJs.compareRows
    (map (fun e => ScoreJs.makeRow P (fst e) (snd e) tokens tokenToFeatureMap
                     usageData) featureStatuses).
Proof.
  unfold ScoreJs.calculateScore. cbv zeta. cbn [rows].
  rewrite ScoreJs_rows_of_fold. reflexivity.
Qed.

(** X4. Both engines return exactly one row per feature of the status map,
    carrying the feature's identifier and status: the rows are a
    rearrangement of the map's entries. *)
Theorem one_row_per_feature :
  forall (P : Platform) (featureStatuses : Js.Map BaselineStatus)
         (tokens : list Token) (tokenToFeatureMap : Js.Map string)
         (usageData : option (Js.Map Usage)) (uaDistribution : UADistribution),
    Permutation
      (map (fun e => (fst e, status (snd e))) featureStatuses)
      (map (fun r => (ScoreUA.r_feature_id r, ScoreUA.r_status r))
           (rows (ScoreUA.calculateScore P featureStatuses tokens
                    tokenToFeatureMap usageData uaDistribution))) /\
    Permutation
      (map (fun e => (fst e, status (snd e))) featureStatuses)
      (map (fun r => (ScoreJs.r_feature_id r, ScoreJs.r_status r))
           (rows (ScoreJs.calculateScore P featureStatuses tokens
                    tokenToFeatureMap usageData))).
Proof.
  intros P m tokens tmap usage ua. split.
  - rewrite ScoreUA_rows.
    eapply Permutation_trans;
      [| apply Permutation_map; apply arraySort_perm].
    rewrite map_map. apply Permutation_refl.
  - rewrite ScoreJs_rows.
    eapply Permutation_trans;
      [| apply Permutation_map; apply arraySort_perm].
    rewrite map_map. apply Permutation_refl.
Qed.

Lemma statusCount_le (s : string) (m : Js.Map BaselineStatus) :
  (statusCount s m <= length m)%nat.
Proof. unfold statusCount. apply filter_length_le. Qed.

Lemma limited_ratio_iff (m : Js.Map BaselineStatus) :
  let size := Z.of_nat (length m) in
  let lc := Z.of_nat (statusCount "limited" m) in
  (0.3 < (if size >? 0 then (inject_Z lc / inject_Z size)%Q else 0%Q))%Q <->
  heavilyLimited m.
Proof.
  cbv zeta. unfold heavilyLimited.
  pose proof (statusCount_le "limited" m) as Hle.
  destruct (Z.of_nat (length m) >? 0) eqn:E.
  - assert (Hpos : (0 < inject_Z (Z.of_nat (length m)))%Q).
    { change 0%Q with (inject_Z 0). rewrite <- Zlt_Qlt. lia. }
    split.
    + intros H.
      set (c := inject_Z (Z.of_nat (length m))) in *.
      set (b := inject_Z (Z.of_nat (statusCount "limited" m))) in *.
      apply (proj2 (Qmult_lt_r _ _ c Hpos)) in H.
      assert (Hb : (b / c * c == b)%Q) by (field; lra).
      rewrite Hb in H.
      assert (H' : (inject_Z (3 * Z.of_nat (length m)) <
                    inject_Z (10 * Z.of_nat (statusCount "limited" m)))%Q).
      { rewrite !inject_Z_mult. change (inject_Z 3) with 3%Q.
        change (inject_Z 10) with 10%Q. fold c b. lra. }
      rewrite <- Zlt_Qlt in H'. lia.
    + intros H.
      assert (H' : (inject_Z (3 * Z.of_nat (length m)) <
                    inject_Z (10 * Z.of_nat (statusCount "limited" m)))%Q).
      { rewrite <- Zlt_Qlt. lia. }
      rewrite !inject_Z_mult in H'. change (inject_Z 3) with 3%Q in H'.
      change (inject_Z 10) with 10%Q in H'.
      apply Qlt_shift_div_l; [exact Hpos | lra].
  - split; [intros H; lra | intros H; lia].
Qed.

Lemma finalScore_penalty (m : Js.Map BaselineStatus) (tp mp : Q) :
  let r := finalScore m tp mp (Z.of_nat (statusCount "limited" m)) in
  (heavilyLimited m -> snd r = [limitedWarning] /\
     (fst r == fst (finalScore m tp mp 0) * 0.8)%Q) /\
  (~ heavilyLimited m -> snd r = [] /\ fst r = fst (finalScore m tp mp 0)).
Proof.
  cbv zeta. rewrite finalScore_no_limited. unfold finalScore. cbv zeta.
  pose proof (limited_ratio_iff m) as Hiff. cbv zeta in Hiff.
  destruct (Qlt_le_dec 0.3 _) as [H | H]; cbn [fst snd].
  - split.
    + intros _. split; reflexivity.
    + intros Hn. exfalso. apply Hn. apply Hiff. exact H.
  - split.
    + intros Hh. apply Hiff in Hh. lra.
    + intros _. split; reflexivity.
Qed.

Lemma limitedWarning_not_later (m : Js.Map BaselineStatus) (c : Z) :
  ~ In limitedWarning (laterWarnings m c).
Proof.
  unfold laterWarnings, limitedWarning. intros H.
  repeat (apply in_app_or in H; destruct H as [H | H]);
    match type of H with
    | In _ (if ?b then _ else _) => destruct b
    end;
    simpl in H; try contradiction;
    destruct H as [H | []]; discriminate.
Qed.

(** X5. In both engines the limited-usage penalty applies exactly when more
    than 30% of the features are [limited]: then the result carries the
    limited-usage warning and the score is at most 0.8; otherwise the warning
    is absent. *)
Theorem limited_penalty_above_thirty_percent :
  forall (P : Platform) (featureStatuses : Js.Map BaselineStatus)
         (tokens : list Token) (tokenToFeatureMap : Js.Map string)
         (usageData : option (Js.Map Usage)) (uaDistribution : UADistribution),
    let ua := ScoreUA.calculateScore P featureStatuses tokens tokenToFeatureMap
                usageData uaDistribution in
    let js := ScoreJs.calculateScore P featureStatuses tokens tokenToFeatureMap
                usageData in
    (In limitedWarning (warnings ua) <-> heavilyLimited featureStatuses) /\
    (In limitedWarning (warnings js) <-> heavilyLimited featureStatuses) /\
    (heavilyLimited featureStatuses ->
     (score01 ua <= 0.8)%Q /\ (score01 js <= 0.8)%Q).
Proof.
  intros P m tokens tmap usage uad ua js.
  pose (zu := {| ScoreUA.t_rows := []; ScoreUA.totalPoints := 0;
                 ScoreUA.maxPoints := 0; ScoreUA.limitedFeatureCount := 0;
                 ScoreUA.coreFeatureCount := 0 |}).
  pose (zj := {| ScoreJs.t_rows := []; ScoreJs.totalPoints := 0;
                 ScoreJs.maxPoints := 0; ScoreJs.limitedFeatureCount := 0;
                 ScoreJs.coreFeatureCount := 0 |}).
  set (fu := fold_left (ScoreUA.processFeature P tokens tmap usage uad) m zu).
  set (fj := fold_left (ScoreJs.processFeature P tokens tmap usage) m zj).
  assert (Eu : ScoreUA.limitedFeatureCount fu =
               Z.of_nat (statusCount "limited" m)).
  { subst fu. rewrite UA_limitedCount. reflexivity. }
  assert (Ej : ScoreJs.limitedFeatureCount fj =
               Z.of_nat (statusCount "limited" m)).
  { subst fj. rewrite Js_limitedCount. reflexivity. }
  pose proof (finalScore_penalty m (ScoreUA.totalPoints fu) (ScoreUA.maxPoints fu))
    as [Pu1 Pu2].
  pose proof (finalScore_penalty m (ScoreJs.totalPoints fj) (ScoreJs.maxPoints fj))
    as [Pj1 Pj2].
  cbv zeta in Pu1, Pu2, Pj1, Pj2.
  assert (Wu : warnings ua =
               (snd (finalScore m (ScoreUA.totalPoints fu) (ScoreUA.maxPoints fu)
                       (Z.of_nat (statusCount "limited" m))) ++
                laterWarnings m (ScoreUA.coreFeatureCount fu))%list).
  { rewrite <- Eu. reflexivity. }
  assert (Wj : warnings js =
               (snd (finalScore m (ScoreJs.totalPoints fj) (ScoreJs.maxPoints fj)
                       (Z.of_nat (statusCount "limited" m))) ++
                laterWarnings m (ScoreJs.coreFeatureCount fj))%list).
  { rewrite <- Ej. reflexivity. }
  assert (Su : score01 ua =
               fst (finalScore m (ScoreUA.totalPoints fu) (ScoreUA.maxPoints fu)
                      (Z.of_nat (statusCount "limited" m)))).
  { rewrite <- Eu. reflexivity. }
  assert (Sj : score01 js =
               fst (finalScore m (ScoreJs.totalPoints fj) (ScoreJs.maxPoints fj)
                      (Z.of_nat (statusCount "limited" m)))).
  { rewrite <- Ej. reflexivity. }
  assert (Dec : heavilyLimited m \/ ~ heavilyLimited m).
  { unfold heavilyLimited. lia. }
  split; [| split].
  - rewrite Wu. split.
    + intros Hin. destruct Dec as [Hh | Hn]; [exact Hh |].
      destruct (Pu2 Hn) as [E _]. rewrite E in Hin. simpl in Hin.
      exfalso. exact (limitedWarning_not_later _ _ Hin).
    + intros Hh. destruct (Pu1 Hh) as [E _]. rewrite E. left. reflexivity.
  - rewrite Wj. split.
    + intros Hin. destruct Dec as [Hh | Hn]; [exact Hh |].
      destruct (Pj2 Hn) as [E _]. rewrite E in Hin. simpl in Hin.
      exfalso. exact (limitedWarning_not_later _ _ Hin).
    + intros Hh. destruct (Pj1 Hh) as [E _]. rewrite E. left. reflexivity.
  - intros Hh. split.
    + rewrite Su. destruct (Pu1 Hh) as [_ E]. rewrite E.
      destruct (UA_totals_range P tokens tmap usage uad m zu) as [H0 H1];
        [simpl; lra | simpl; lra |].
      pose proof (finalScore_range m (ScoreUA.totalPoints fu)
                    (ScoreUA.maxPoints fu) 0 0) as Hr.
      fold fu in H0, H1. specialize (Hr ltac:(lra) ltac:(lra) ltac:(lra) H1).
      lra.
    + rewrite Sj. destruct (Pj1 Hh) as [_ E]. rewrite E.
      destruct (Js_totals_range P tokens tmap usage m zj) as [H0 [H1 H2]];
        [simpl; lra | simpl; lra | simpl; lra |].
      pose proof (finalScore_range m (ScoreJs.totalPoints fj)
                    (ScoreJs.maxPoints fj) (- (1 # 3)) 0) as Hr.
      fold fj in H0, H1, H2.
      specialize (Hr ltac:(lra) H0 H1 H2). lra.
Qed.

Lemma limited_penalty_above_thirty_percent_witness :
  (score01
     (ScoreUA.calculateScore samplePlatform
        [("has", {| status := "limited"; low_date := None; high_date := None |});
         ("grid", {| status := "widely"; low_date := None; high_date := None |})]
        [] [] None defaultDist) <= 0.8)%Q.
Proof.
  refine (proj1 (proj2 (proj2
    (limited_penalty_above_thirty_percent samplePlatform
       [("has", {| status := "limited"; low_date := None; high_date := None |});
        ("grid", {| status := "widely"; low_date := None; high_date := None |})]
       [] [] None defaultDist)) _)).
  unfold heavilyLimited. vm_compute. lia.
Defined.

Lemma count_filter_perm {A} (f : A -> bool) (l l' : list A) :
  Permutation l l' -> length (filter f l) = length (filter f l').
Proof.
  induction 1 as [| x l l' _ IH | x y l | l1 l2 l3 _ IH1 _ IH2]; simpl.
  - reflexivity.
  - destruct (f x); simpl; congruence.
  - destruct (f x), (f y); reflexivity.
  - congruence.
Qed.

Section SummaryFacts.

Context {Row : Type}.

Variable statusOf : Row -> string.

Local Abbreviation count := (rowsWithStatus statusOf).

Lemma generateSummaryStats_fold (rows : list Row) (acc : Summary.Stats) :
  let f := fun (stats : Summary.Stats) (row : Row) =>
       let s := statusOf row in
       if String.eqb s "widely" then
         {| Summary.widely := Summary.widely stats + 1;
            Summary.newly := Summary.newly stats;
            Summary.limited := Summary.limited stats;
            Summary.unknown := Summary.unknown stats |}
       else if String.eqb s "newly" then
         {| Summary.widely := Summary.widely stats;
            Summary.newly := Summary.newly stats + 1;
            Summary.limited := Summary.limited stats;
            Summary.unknown := Summary.unknown stats |}
       else if String.eqb s "limited" then
         {| Summary.widely := Summary.widely stats;
            Summary.newly := Summary.newly stats;
            Summary.limited := Summary.limited stats + 1;
            Summary.unknown := Summary.unknown stats |}
       else if String.eqb s "unknown" then
         {| Summary.widely := Summary.widely stats;
            Summary.newly := Summary.newly stats;
            Summary.limited := Summary.limited stats;
            Summary.unknown := Summary.unknown stats + 1 |}
       else stats in
  Summary.widely (fold_left f rows acc) = Summary.widely acc + count "widely" rows /\
  Summary.newly (fold_left f rows acc) = Summary.newly acc + count "newly" rows /\
  Summary.limited (fold_left f rows acc) =
    Summary.limited acc + count "limited" rows /\
  Summary.unknown (fold_left f rows acc) =
    Summary.unknown acc + count "unknown" rows.
Proof.
  cbv zeta. unfold rowsWithStatus.
  revert acc. induction rows as [| r rows IH]; intros acc.
  - simpl. repeat split; lia.
  - cbn [fold_left filter].
    destruct (IH
      (if String.eqb (statusOf r) "widely" then
         {| Summary.widely := Summary.widely acc + 1;
            Summary.newly := Summary.newly acc;
            Summary.limited := Summary.limited acc;
            Summary.unknown := Summary.unknown acc |}
       else if String.eqb (statusOf r) "newly" then
         {| Summary.widely := Summary.widely acc;
            Summary.newly := Summary.newly acc + 1;
            Summary.limited := Summary.limited acc;
            Summary.unknown := Summary.unknown acc |}
       else if String.eqb (statusOf r) "limited" then
         {| Summary.widely := Summary.widely acc;
            Summary.newly := Summary.newly acc;
            Summary.limited := Summary.limited acc + 1;
            Summary.unknown := Summary.unknown acc |}
       else if String.eqb (statusOf r) "unknown" then
         {| Summary.widely := Summary.widely acc;
            Summary.newly := Summary.newly acc;
            Summary.limited := Summary.limited acc;
            Summary.unknown := Summary.unknown acc + 1 |}
       else acc)) as [Hw [Hn [Hl Hu]]].
    rewrite Hw, Hn, Hl, Hu. clear IH Hw Hn Hl Hu.
    destruct (String.eqb (statusOf r) "widely") eqn:Ew.
    { apply String.eqb_eq in Ew. rewrite ?Ew. simpl. repeat split; lia. }
    destruct (String.eqb (statusOf r) "newly") eqn:En.
    { apply String.eqb_eq in En. rewrite ?En. simpl. repeat split; lia. }
    destruct (String.eqb (statusOf r) "limited") eqn:El.
    { apply String.eqb_eq in El. rewrite ?El. simpl. repeat split; lia. }
    destruct (String.eqb (statusOf r) "unknown") eqn:Eu.
    { apply String.eqb_eq in Eu. rewrite ?Eu. simpl. repeat split; lia. }
    repeat split; lia.
Qed.

Lemma generateSummaryStats_counts (rows : list Row) :
  let stats := Summary.generateSummaryStats statusOf rows in
  Summary.widely stats = count "widely" rows /\
  Summary.newly stats = count "newly" rows /\
  Summary.limited stats = count "limited" rows /\
  Summary.unknown stats = count "unknown" rows.
Proof.
  cbv zeta. unfold Summary.generateSummaryStats.
  pose proof (generateSummaryStats_fold rows
                {| Summary.widely := 0; Summary.newly := 0;
                   Summary.limited := 0; Summary.unknown := 0 |}) as H.
  cbv zeta in H. cbn [Summary.widely Summary.newly Summary.limited
                      Summary.unknown] in H.
  exact H.
Qed.

End SummaryFacts.

Lemma statusCount_of_rows {Row} (idOf statusOf : Row -> string)
    (m : Js.Map BaselineStatus) (rs : list Row) (s : string) :
  Permutation (map (fun e => (fst e, status (snd e))) m)
              (map (fun r => (idOf r, statusOf r)) rs) ->
  length (filter (fun r => String.eqb (statusOf r) s) rs) = statusCount s m.
Proof.
  intros Hp. unfold statusCount.
  apply (count_filter_perm (fun p : string * string => String.eqb (snd p) s))
    in Hp.
  assert (F : forall {A} (g : A -> string * string) (l : list A),
             length (filter (fun p => String.eqb (snd p) s) (map g l)) =
             length (filter (fun a => String.eqb (snd (g a)) s) l)).
  { intros A g l. induction l as [| a l IH]; simpl; [reflexivity |].
    destruct (String.eqb (snd (g a)) s); simpl; congruence. }
  rewrite !F in Hp. simpl in Hp. symmetry. exact Hp.
Qed.

Lemma statusCounts_sum (m : Js.Map BaselineStatus) :
  Forall (fun e => validStatus (status (snd e))) m ->
  (statusCount "widely" m + statusCount "newly" m +
   statusCount "limited" m + statusCount "unknown" m = length m)%nat.
Proof.
  unfold statusCount. induction 1 as [| e m He _ IH]; simpl; [reflexivity |].
  unfold validStatus, fourStatuses in He. simpl in He.
  destruct He as [E | [E | [E | [E | []]]]]; rewrite <- E; simpl; lia.
Qed.

(** X6. [generateSummaryStats] applied to the rows of either engine counts the
    features of the status map per status; when every status is one of the
    four, the four counters add up to the number of features. *)
Theorem summary_stats_count_the_features :
  forall (P : Platform) (featureStatuses : Js.Map BaselineStatus)
         (tokens : list Token) (tokenToFeatureMap : Js.Map string)
         (usageData : option (Js.Map Usage)) (uaDistribution : UADistribution),
    let ua := Summary.generateSummaryStats ScoreUA.r_status
                (rows (ScoreUA.calculateScore P featureStatuses tokens
                         tokenToFeatureMap usageData uaDistribution)) in
    let js := Summary.generateSummaryStats ScoreJs.r_status
                (rows (ScoreJs.calculateScore P featureStatuses tokens
                         tokenToFeatureMap usageData)) in
    (Summary.widely ua = Z.of_nat (statusCount "widely" featureStatuses) /\
     Summary.newly ua = Z.of_nat (statusCount "newly" featureStatuses) /\
     Summary.limited ua = Z.of_nat (statusCount "limited" featureStatuses) /\
     Summary.unknown ua = Z.of_nat (statusCount "unknown" featureStatuses)) /\
    js = ua /\
    (Forall (fun e => validStatus (status (snd e))) featureStatuses ->
     Summary.widely ua + Summary.newly ua + Summary.limited ua +
     Summary.unknown ua = Z.of_nat (length featureStatuses)).
Proof.
  intros P m tokens tmap usage uad ua js.
  assert (Pu : Permutation
                 (map (fun e => (fst e, status (snd e))) m)
                 (map (fun r => (ScoreUA.r_feature_id r, ScoreUA.r_status r))
                      (rows (ScoreUA.calculateScore P m tokens tmap usage uad)))).
  { rewrite ScoreUA_rows.
    eapply Permutation_trans;
      [| apply Permutation_map; apply arraySort_perm].
    rewrite map_map. apply Permutation_refl. }
  assert (Pj : Permutation
                 (map (fun e => (fst e, status (snd e))) m)
                 (map (fun r => (ScoreJs.r_feature_id r, ScoreJs.r_status r))
                      (rows (ScoreJs.calculateScore P m tokens tmap usage)))).
  { rewrite ScoreJs_rows.
    eapply Permutation_trans;
      [| apply Permutation_map; apply arraySort_perm].
    rewrite map_map. apply Permutation_refl. }
  pose proof (generateSummaryStats_counts ScoreUA.r_status
                (rows (ScoreUA.calculateScore P m tokens tmap usage uad)))
    as [Uw [Un [Ul Uu]]].
  pose proof (generateSummaryStats_counts ScoreJs.r_status
                (rows (ScoreJs.calculateScore P m tokens tmap usage)))
    as [Jw [Jn [Jl Ju]]].
  cbv zeta in *. unfold rowsWithStatus in *.
  fold ua in Uw, Un, Ul, Uu. fold js in Jw, Jn, Jl, Ju.
  pose proof (fun s => statusCount_of_rows ScoreUA.r_feature_id ScoreUA.r_status
                         m _ s Pu) as Cu.
  pose proof (fun s => statusCount_of_rows ScoreJs.r_feature_id ScoreJs.r_status
                         m _ s Pj) as Cj.
  rewrite Cu in Uw, Un, Ul, Uu. rewrite Cj in Jw, Jn, Jl, Ju.
  split; [repeat split; assumption |]. split.
  - destruct js as [a b c d], ua as [a' b' c' d']. simpl in *. congruence.
  - intros Hv. rewrite Uw, Un, Ul, Uu.
    pose proof (statusCounts_sum m Hv). lia.
Qed.

Lemma groupByFile_fold (ts : list Token) (acc : Js.Map (list SourceLocation)) :
  fold_left
    (fun (locationsByFile : Js.Map (list SourceLocation)) t =>
       match location t with
       | Some file =>
           if Js.nonEmpty file then
             let here := {| loc_url := file;
                            loc_line := orZeroZ (line t);
                            loc_column := orZeroZ (column t) |} in
             match Js.get file locationsByFile with
             | Some l => Js.set file (l ++ [here])%list locationsByFile
             | None => Js.set file [here] locationsByFile
             end
           else locationsByFile
       | None => locationsByFile
       end) ts acc =
  fold_left addLocation (filter hasLocation ts) acc.
Proof.
  revert acc. induction ts as [| t ts IH]; intros acc; [reflexivity |].
  cbn [fold_left filter]. rewrite IH.
  destruct (location t) as [file |] eqn:El.
  - destruct (Js.nonEmpty file) eqn:En.
    + assert (H : hasLocation t = true)
        by (unfold hasLocation; rewrite El; exact En).
      rewrite H. cbn [fold_left]. f_equal.
      unfold addLocation, locationOfToken. rewrite El. reflexivity.
    + assert (H : hasLocation t = false)
        by (unfold hasLocation; rewrite El; exact En).
      rewrite H. reflexivity.
  - assert (H : hasLocation t = false)
      by (unfold hasLocation; rewrite El; reflexivity).
    rewrite H. reflexivity.
Qed.

Lemma set_not_nil {V} (k : string) (v : V) (m : Js.Map V) : Js.set k v m <> [].
Proof.
  destruct m as [| [k' v'] m]; simpl; [discriminate |].
  destruct (String.eqb k' k); discriminate.
Qed.

Lemma firstKey_set {V} (k : string) (v : V) (m : Js.Map V) :
  m <> [] -> firstKey (Js.set k v m) = firstKey m.
Proof.
  destruct m as [| [k' v'] m]; [congruence |]. intros _. simpl.
  destruct (String.eqb k' k); reflexivity.
Qed.

Lemma addLocation_not_nil acc t : addLocation acc t <> [].
Proof.
  unfold addLocation. cbv zeta.
  destruct (Js.get _ acc); apply set_not_nil.
Qed.

Lemma firstKey_addLocation acc t :
  acc <> [] -> firstKey (addLocation acc t) = firstKey acc.
Proof.
  intros H. unfold addLocation. cbv zeta.
  destruct (Js.get _ acc); apply firstKey_set; exact H.
Qed.

Lemma firstKey_fold_addLocation ts acc :
  acc <> [] ->
  fold_left addLocation ts acc <> [] /\
  firstKey (fold_left addLocation ts acc) = firstKey acc.
Proof.
  revert acc. induction ts as [| t ts IH]; intros acc H; simpl.
  - split; [exact H | reflexivity].
  - destruct (IH (addLocation acc t) (addLocation_not_nil acc t)) as [H1 H2].
    split; [exact H1 |]. rewrite H2. apply firstKey_addLocation. exact H.
Qed.

Lemma concat_values_set_app {V} (k : string) (l : list V) (x : V)
    (m : Js.Map (list V)) :
  Js.get k m = Some l ->
  Permutation (concat (Js.values (Js.set k (l ++ [x])%list m)))
              (concat (Js.values m) ++ [x])%list.
Proof.
  unfold Js.values.
  induction m as [| [k' v'] m IH]; simpl; [discriminate |].
  destruct (String.eqb k' k) eqn:E; simpl.
  - intros H. inversion H; subst. rewrite <- !app_assoc.
    apply Permutation_app_head. apply Permutation_app_comm.
  - intros H. rewrite <- app_assoc. apply Permutation_app_head. apply IH.
    exact H.
Qed.

Lemma concat_values_set_new {V} (k : string) (x : V) (m : Js.Map (list V)) :
  Js.get k m = None ->
  concat (Js.values (Js.set k [x] m)) = (concat (Js.values m) ++ [x])%list.
Proof.
  unfold Js.values.
  induction m as [| [k' v'] m IH]; simpl; [reflexivity |].
  destruct (String.eqb k' k) eqn:E; simpl; [discriminate |].
  intros H. rewrite (IH H). rewrite app_assoc. reflexivity.
Qed.

Lemma concat_values_addLocation acc t :
  Permutation (concat (Js.values (addLocation acc t)))
              (concat (Js.values acc) ++ [locationOfToken t])%list.
Proof.
  unfold addLocation. cbv zeta.
  destruct (Js.get _ acc) as [l |] eqn:E.
  - apply concat_values_set_app. exact E.
  - rewrite (concat_values_set_new _ _ _ E). apply Permutation_refl.
Qed.

Lemma concat_values_fold_addLocation ts acc :
  Permutation (concat (Js.values (fold_left addLocation ts acc)))
              (concat (Js.values acc) ++ map locationOfToken ts)%list.
Proof.
  revert acc. induction ts as [| t ts IH]; intros acc; simpl.
  - rewrite app_nil_r. apply Permutation_refl.
  - eapply Permutation_trans; [apply IH |].
    eapply Permutation_trans;
      [apply Permutation_app_tail; apply concat_values_addLocation |].
    rewrite <- app_assoc. apply Permutation_refl.
Qed.

Lemma filter_filter {A} (f g : A -> bool) (l : list A) :
  filter g (filter f l) = filter (fun a => f a && g a) l.
Proof.
  induction l as [| a l IH]; simpl; [reflexivity |].
  destruct (f a); simpl; [destruct (g a); congruence | exact IH].
Qed.

(** X7. [findFeatureLocation] keeps every located use of a feature: with no
    token that maps to the feature and has a location the answer is
    ["Various"] with no sub-items; otherwise the main URL is the location of
    the first such token and the sub-items are the locations of all of them,
    each exactly once (grouped by file). *)
Theorem feature_location_keeps_every_located_token :
  forall (featureId : string) (tokens : list Token)
         (tokenToFeatureMap : Js.Map string),
    match locatedTokens featureId tokens tokenToFeatureMap with
    | [] =>
        findFeatureLocation featureId tokens tokenToFeatureMap =
        {| url := "Various"; subItems := None |}
    | first :: _ =>
        exists items,
          findFeatureLocation featureId tokens tokenToFeatureMap =
          {| url := loc_url (locationOfToken first); subItems := Some items |} /\
          Permutation items
            (map locationOfToken
               (locatedTokens featureId tokens tokenToFeatureMap))
    end.
Proof.
  intros fid tokens tmap.
  unfold findFeatureLocation, groupByFile. cbv zeta.
  rewrite groupByFile_fold, filter_filter.
  fold (locatedTokens fid tokens tmap).
  destruct (locatedTokens fid tokens tmap) as [| t ts] eqn:El; [reflexivity |].
  cbn [fold_left].
  pose proof (firstKey_fold_addLocation ts (addLocation [] t)
                (addLocation_not_nil [] t)) as [Hne Hk].
  pose proof (concat_values_fold_addLocation ts (addLocation [] t)) as Hp.
  destruct (fold_left addLocation ts (addLocation [] t)) as [| [k l] rest];
    [congruence |].
  exists (concat (Js.values ((k, l) :: rest))). split.
  - simpl in Hk. inversion Hk as [Hk']. reflexivity.
  - eapply Permutation_trans; [exact Hp |]. simpl. apply Permutation_refl.
Qed.

(** ** The report diff *)

Lemma buildFeatureMap_setAll (its : list Diff.Item) :
  Diff.buildFeatureMap its =
  Js.setAll
    (map (fun item =>
            (Diff.feature_id item,
             {| Diff.fd_status := option_map Js.toLowerCase (Diff.item_status item);
                Diff.fd_weight := Js.orOne (Diff.item_weight item) |})) its) [].
Proof.
  unfold Diff.buildFeatureMap, Js.setAll.
  generalize (@nil (string * Diff.FeatureData)).
  induction its as [| it its IH]; intros acc; simpl; [reflexivity |].
  apply IH.
Qed.

Lemma buildFeatureMap_NoDup (its : list Diff.Item) :
  NoDup (Js.keys (Diff.buildFeatureMap its)).
Proof.
  rewrite buildFeatureMap_setAll. apply NoDup_keys_setAll. constructor.
Qed.

Lemma get_of_In {V} (k : string) (v : V) (m : Js.Map V) :
  NoDup (Js.keys m) -> In (k, v) m -> Js.get k m = Some v.
Proof.
  unfold Js.keys. induction m as [| [k' v'] m IH]; simpl; intros Hnd Hin.
  - contradiction.
  - inversion Hnd as [| ? ? Hnotin Hnd']; subst.
    destruct Hin as [E | Hin].
    + inversion E; subst. rewrite String.eqb_refl. reflexivity.
    + destruct (String.eqb k' k) eqn:Ek.
      * apply String.eqb_eq in Ek. subst k'. exfalso. apply Hnotin.
        apply (in_map fst) in Hin. exact Hin.
      * apply IH; assumption.
Qed.

Lemma flat_map_nil {A B} (f : A -> list B) (l : list A) :
  (forall a, In a l -> f a = []) -> flat_map f l = [].
Proof.
  induction l as [| a l IH]; intros H; simpl; [reflexivity |].
  rewrite (H a (or_introl eq_refl)). simpl. apply IH.
  intros b Hb. apply H. right. exact Hb.
Qed.

Lemma toFixed3_zero (x : Q) : (x == 0)%Q -> (Js.toFixed3 x == 0)%Q.
Proof.
  intros H. unfold Js.toFixed3, Js.toFixedDigits, Js.Math_round. cbv zeta.
  assert (E : Qfloor (Qabs x * inject_Z (10 ^ Z.of_nat 3) + (1 # 2)) = 0).
  { rewrite H. reflexivity. }
  rewrite E. destruct (Qle_bool 0 x); reflexivity.
Qed.

(** X8. The diff of a report with itself is empty: no score change, no new
    limited feature, no downgrade and no contributor; a report without the
    audit's items gives no diff at all. *)
Theorem diff_of_a_report_with_itself_is_empty :
  forall lhr : Diff.LHR,
    match Diff.main lhr lhr with
    | Some d =>
        (Diff.scoreDelta d == 0)%Q /\ Diff.newLimited d = [] /\
        Diff.downgrades d = [] /\ Diff.topContributors d = []
    | None => Diff.extractBaselineData lhr = None
    end.
Proof.
  intros lhr. unfold Diff.main.
  destruct (Diff.extractBaselineData lhr) as [data |]; [| reflexivity].
  cbn [Diff.scoreDelta Diff.newLimited Diff.downgrades Diff.topContributors].
  set (M := Diff.buildFeatureMap (Diff.bd_items data)).
  assert (G : forall k h, In (k, h) M -> Js.get k M = Some h).
  { intros k h. apply get_of_In. apply buildFeatureMap_NoDup. }
  split; [| split; [| split]].
  - apply toFixed3_zero. ring.
  - unfold Diff.findNewLimited. apply flat_map_nil.
    intros [k h] Hin. cbn [fst snd]. rewrite (G k h Hin).
    destruct (Diff.statusIs (Diff.fd_status h) "limited"); reflexivity.
  - unfold Diff.findDowngrades. apply flat_map_nil.
    intros [k h] Hin. cbn [fst snd]. rewrite (G k h Hin).
    rewrite Z.ltb_irrefl. reflexivity.
  - unfold Diff.findTopContributors. cbv zeta.
    rewrite flat_map_nil; [reflexivity |].
    intros [k h] Hin. unfold Diff.contribution. cbn [fst snd].
    rewrite (G k h Hin).
    destruct (Diff.statusPoints (Diff.fd_status h)) as [p |]; cbn [option_map];
      [| reflexivity].
    destruct (Qlt_le_dec 0.001 _) as [Hlt | _]; [| reflexivity].
    exfalso.
    set (x := (p * Diff.weightOrOne (Diff.fd_weight h))%Q) in Hlt.
    clearbody x.
    assert (E0 : (x - x == 0)%Q) by ring.
    pose proof (Qabs_wd _ _ E0) as E. change (Qabs 0) with 0%Q in E. lra.
Qed.

Lemma statusIs_true (s : option string) (v : string) :
  Diff.statusIs s v = true <-> s = Some v.
Proof.
  destruct s as [x |]; simpl.
  - rewrite String.eqb_eq. split; [intros ->; reflexivity | intros E; congruence].
  - split; discriminate.
Qed.

(** X9. [findNewLimited] lists a feature exactly when head has it with status
    [limited] and base does not have it with status [limited] (base lacks it,
    or has it with another status); every entry is marked "New in head". *)
Theorem new_limited_exactly_when_limited_only_in_head :
  forall (baseMap headMap : Js.Map Diff.FeatureData) (n : Diff.NewLimited),
    In n (Diff.findNewLimited baseMap headMap) <->
    Diff.nl_where n = "New in head" /\
    exists headData,
      In (Diff.nl_feature_id n, headData) headMap /\
      Diff.fd_status headData = Some "limited" /\
      (forall baseData,
          Js.get (Diff.nl_feature_id n) baseMap = Some baseData ->
          Diff.fd_status baseData <> Some "limited").
Proof.
  intros baseMap headMap n. unfold Diff.findNewLimited.
  rewrite in_flat_map. split.
  - intros [[k h] [Hin Hn]]. cbn [fst snd] in Hn.
    destruct (Diff.statusIs (Diff.fd_status h) "limited") eqn:Eh;
      [| contradiction].
    apply statusIs_true in Eh.
    destruct (Js.get k baseMap) as [b |] eqn:Eb.
    + destruct (Diff.statusIs (Diff.fd_status b) "limited") eqn:Ebs;
        simpl in Hn; [contradiction |].
      destruct Hn as [<- | []]. simpl. split; [reflexivity |].
      exists h. split; [exact Hin | split; [exact Eh |]].
      intros b' Hb'. rewrite Eb in Hb'. inversion Hb'; subst b'.
      intros Hs. apply statusIs_true in Hs. congruence.
    + simpl in Hn. destruct Hn as [<- | []]. simpl. split; [reflexivity |].
      exists h. split; [exact Hin | split; [exact Eh |]].
      intros b' Hb'. rewrite Eb in Hb'. discriminate.
  - intros [Hw [h [Hin [Eh Hb]]]].
    exists (Diff.nl_feature_id n, h). split; [exact Hin |]. cbn [fst snd].
    apply statusIs_true in Eh. rewrite Eh.
    assert (Hn : n = {| Diff.nl_feature_id := Diff.nl_feature_id n;
                        Diff.nl_where := "New in head" |}).
    { destruct n as [i w]. simpl in *. subst w. reflexivity. }
    destruct (Js.get (Diff.nl_feature_id n) baseMap) as [b |] eqn:Eb.
    + destruct (Diff.statusIs (Diff.fd_status b) "limited") eqn:Ebs.
      * exfalso. apply (Hb b eq_refl). apply statusIs_true. exact Ebs.
      * simpl. left. symmetry. exact Hn.
    + simpl. left. symmetry. exact Hn.
Qed.

Lemma flat_map_keys_sub {V B} (f : string * V -> list B) (idOf : B -> string)
    (m : Js.Map V) :
  (forall kv b, In b (f kv) -> idOf b = fst kv) ->
  (forall kv, (length (f kv) <= 1)%nat) ->
  NoDup (Js.keys m) ->
  incl (map idOf (flat_map f m)) (Js.keys m) /\
  NoDup (map idOf (flat_map f m)).
Proof.
  intros Hid Hone. unfold Js.keys.
  induction m as [| kv m IH]; intros Hnd; simpl.
  - split; [intros x [] | constructor].
  - inversion Hnd as [| ? ? Hnotin Hnd']; subst.
    destruct (IH Hnd') as [Hinc Hnd2].
    rewrite map_app. split.
    + intros x Hx. apply in_app_or in Hx. destruct Hx as [Hx | Hx].
      * apply in_map_iff in Hx. destruct Hx as [b [<- Hb]].
        left. symmetry. apply Hid. exact Hb.
      * right. apply Hinc. exact Hx.
    + specialize (Hone kv).
      destruct (f kv) as [| b [| b' l]] eqn:Ef; simpl in *.
      * exact Hnd2.
      * constructor; [| exact Hnd2].
        intros Hin. apply Hnotin. apply Hinc.
        rewrite (Hid kv b) in Hin; [exact Hin |]. rewrite Ef. left. reflexivity.
      * lia.
Qed.

(** X10. The diff speaks of head features only, each at most once per list:
    the identifiers of the new limited features, of the downgrades and of the
    contributors are keys of the head map without repetition, so a feature
    that base has and head lacks is never reported. *)
Theorem diff_reports_head_features_once :
  forall (baseItems headItems : list Diff.Item) (limit : nat),
    let baseMap := Diff.buildFeatureMap baseItems in
    let headMap := Diff.buildFeatureMap headItems in
    let newLimited := map Diff.nl_feature_id (Diff.findNewLimited baseMap headMap) in
    let downgrades := map Diff.dg_feature_id (Diff.findDowngrades baseMap headMap) in
    let contributors :=
      map Diff.c_feature_id (Diff.findTopContributors baseMap headMap limit) in
    (incl newLimited (Js.keys headMap) /\ NoDup newLimited) /\
    (incl downgrades (Js.keys headMap) /\ NoDup downgrades) /\
    (incl contributors (Js.keys headMap) /\ NoDup contributors).
Proof.
  intros baseItems headItems limit baseMap headMap nl dg ct.
  pose proof (buildFeatureMap_NoDup headItems) as Hnd. fold headMap in Hnd.
  split; [| split].
  - subst nl. unfold Diff.findNewLimited.
    apply flat_map_keys_sub; [| | exact Hnd].
    + intros kv b Hb. destruct (_ && _); [| contradiction].
      destruct Hb as [<- | []]. reflexivity.
    + intros kv. destruct (_ && _); simpl; lia.
  - subst dg. unfold Diff.findDowngrades.
    apply flat_map_keys_sub; [| | exact Hnd].
    + intros kv b Hb. destruct (Js.get _ _); [| contradiction].
      destruct (_ <? _); [| contradiction].
      destruct Hb as [<- | []]. reflexivity.
    + intros kv. destruct (Js.get _ _); [| simpl; lia].
      destruct (_ <? _); simpl; lia.
  - assert (H : incl (map Diff.c_feature_id (changedFeatures baseMap headMap))
                     (Js.keys headMap) /\
                NoDup (map Diff.c_feature_id (changedFeatures baseMap headMap))).
    { unfold changedFeatures. apply flat_map_keys_sub; [| | exact Hnd].
      - intros kv b Hb. destruct (Diff.contribution _ _); [| contradiction].
        destruct (Qlt_le_dec _ _); [| contradiction].
        destruct Hb as [<- | []]. reflexivity.
      - intros kv. destruct (Diff.contribution _ _); [| simpl; lia].
        destruct (Qlt_le_dec _ _); simpl; lia. }
    destruct H as [Hinc Hnd'].
    subst ct. unfold Diff.findTopContributors. cbv zeta.
    fold (changedFeatures baseMap headMap).
    set (cmp := fun a b : Diff.Contributor => _).
    unfold Js.slice. rewrite Nat.sub_0_r. cbn [skipn].
    pose proof (arraySort_perm cmp (changedFeatures baseMap headMap)) as Hp.
    apply (Permutation_map Diff.c_feature_id) in Hp.
    assert (Hnd3 : NoDup (map Diff.c_feature_id
                            (arraySort cmp (changedFeatures baseMap headMap)))).
    { eapply Permutation_NoDup; [exact Hp | exact Hnd']. }
    rewrite <- (firstn_skipn limit
                  (arraySort cmp (changedFeatures baseMap headMap))) in Hnd3, Hp.
    rewrite map_app in Hnd3, Hp.
    split.
    + intros x Hx. apply Hinc.
      eapply Permutation_in; [apply Permutation_sym; exact Hp |].
      apply in_or_app. left. exact Hx.
    + apply NoDup_app_remove_r in Hnd3. exact Hnd3.
Qed.

Lemma StronglySorted_app_parts {A} (R : A -> A -> Prop) (l1 l2 : list A) :
  StronglySorted R (l1 ++ l2) ->
  StronglySorted R l1 /\
  (forall a b, In a l1 -> In b l2 -> R a b).
Proof.
  induction l1 as [| x l1 IH]; simpl; intros H.
  - split; [constructor | intros a b []].
  - inversion H as [| ? ? Hs Hall]; subst.
    destruct (IH Hs) as [H1 H2]. split.
    + constructor; [exact H1 |].
      apply Forall_forall. intros y Hy.
      rewrite Forall_forall in Hall. apply Hall. apply in_or_app. left. exact Hy.
    + intros a b [<- | Ha] Hb.
      * rewrite Forall_forall in Hall. apply Hall. apply in_or_app. right.
        exact Hb.
      * apply H2; assumption.
Qed.

Lemma changedFeatures_above (baseMap headMap : Js.Map Diff.FeatureData)
    (c : Diff.Contributor) :
  In c (changedFeatures baseMap headMap) -> (0.001 < Qabs (Diff.delta c))%Q.
Proof.
  unfold changedFeatures. rewrite in_flat_map.
  intros [kv [_ Hc]].
  destruct (Diff.contribution baseMap kv) as [d |]; [| contradiction].
  destruct (Qlt_le_dec 0.001 (Qabs d)) as [Hlt | _]; [| contradiction].
  destruct Hc as [<- | []]. exact Hlt.
Qed.

(** X11. [findTopContributors] returns the largest changes: at most [limit]
    entries, each a feature whose points changed by more than 0.001, in
    descending order of the size of the change, and no change left out is
    larger than one that is listed; with no more than [limit] changes all of
    them are listed. *)
Theorem top_contributors_are_the_largest_changes :
  forall (baseMap headMap : Js.Map Diff.FeatureData) (limit : nat),
    let top := Diff.findTopContributors baseMap headMap limit in
    let changed := changedFeatures baseMap headMap in
    (length top <= limit)%nat /\
    StronglySorted outweighs top /\
    (forall c, In c top ->
       In c changed /\ (0.001 < Qabs (Diff.delta c))%Q) /\
    (exists rest,
        Permutation changed (top ++ rest) /\
        forall c c', In c top -> In c' rest -> outweighs c c') /\
    ((length changed <= limit)%nat -> Permutation changed top).
Proof.
  intros baseMap headMap limit top changed.
  subst top. unfold Diff.findTopContributors. cbv zeta.
  fold (changedFeatures baseMap headMap). fold changed.
  set (cmp := fun a b : Diff.Contributor => _).
  unfold Js.slice. rewrite Nat.sub_0_r. cbn [skipn].
  set (sorted := arraySort cmp changed).
  assert (Hs : StronglySorted outweighs sorted).
  { subst sorted.
    assert (Hb : forall a b, before cmp a b <-> outweighs a b).
    { intros a b. unfold before, outweighs. subst cmp. cbv beta. split; lra. }
    apply (StronglySorted_weaken (before cmp) outweighs (fun _ => True)).
    - intros a b _ _ H. apply Hb. exact H.
    - apply Forall_forall. intros; exact I.
    - apply (arraySort_sorted cmp (fun _ => True)).
      + intros a b _ _. rewrite !Hb. unfold outweighs.
        destruct (Qlt_le_dec (Qabs (Diff.delta a)) (Qabs (Diff.delta b)));
          [right; lra | left; lra].
      + intros a b c _ _ _. rewrite !Hb. unfold outweighs. lra.
      + apply Forall_forall. intros; exact I. }
  pose proof (arraySort_perm cmp changed) as Hp. fold sorted in Hp.
  rewrite <- (firstn_skipn limit sorted) in Hs, Hp.
  destruct (StronglySorted_app_parts _ _ _ Hs) as [Hs1 Hcross].
  split; [apply firstn_le_length |].
  split; [exact Hs1 |]. split; [| split].
  - intros c Hc.
    assert (Hin : In c changed).
    { eapply Permutation_in; [apply Permutation_sym; exact Hp |].
      apply in_or_app. left. exact Hc. }
    split; [exact Hin |]. apply (changedFeatures_above baseMap headMap). exact Hin.
  - exists (skipn limit sorted). split; [exact Hp | exact Hcross].
  - intros Hlen.
    assert (Hl : (length sorted <= limit)%nat).
    { unfold sorted.
      rewrite <- (Permutation_length (arraySort_perm cmp changed)).
      exact Hlen. }
    rewrite (firstn_all2 sorted Hl). apply arraySort_perm.
Qed.

(** ** Budgets *)

Lemma clampScore_inUnit (v : option Json) : inUnit (Budgets.clampScore v).
Proof.
  unfold Budgets.clampScore, inUnit.
  destruct v as [[| | q | | |] |]; try exact I.
  apply clamp_max_min_bounds. lra.
Qed.

Lemma Forall_set {V} (Pr : string * V -> Prop) (k : string) (v : V)
    (m : Js.Map V) :
  (forall k', Pr (k', v)) -> Forall Pr m -> Forall Pr (Js.set k v m).
Proof.
  intros Hv. induction 1 as [| [k' v'] m Hx Hm IH]; simpl.
  - constructor; [apply Hv | constructor].
  - destruct (String.eqb k' k); constructor; try assumption. apply Hv.
Qed.

Lemma normalizeRoutes_ok (entries : list (string * Json))
    (acc routes : Js.Map Budgets.RoutePolicy) :
  Budgets.normalizeRoutes entries acc = Some routes ->
  NoDup (Js.keys acc) ->
  Forall (fun kv => inUnit (Budgets.rp_minScore (snd kv)) /\
                    exists f, Budgets.rp_forbidLimited (snd kv) = Some f) acc ->
  NoDup (Js.keys routes) /\
  Forall (fun kv => inUnit (Budgets.rp_minScore (snd kv)) /\
                    exists f, Budgets.rp_forbidLimited (snd kv) = Some f) routes.
Proof.
  revert acc. induction entries as [| [route rp] entries IH]; intros acc; simpl.
  - intros E Hnd Hall. inversion E; subst. split; assumption.
  - destruct (typeofObject rp) eqn:Et.
    + destruct rp; try discriminate; intros E Hnd Hall;
        (apply (IH _ E);
         [apply NoDup_keys_set; exact Hnd
         | apply Forall_set; [| exact Hall];
           intros k'; cbn [snd Budgets.rp_minScore Budgets.rp_forbidLimited];
           split; [apply clampScore_inUnit | eexists; reflexivity]]).
    + intros E Hnd Hall. apply (IH _ E); assumption.
Qed.

Lemma normalizePolicy_normalized (policy : Json) (b : Budgets.BaselineBudget) :
  Budgets.normalizePolicy policy = Some b -> normalizedBudget b.
Proof.
  unfold Budgets.normalizePolicy.
  set (routes := match field "perRoute" policy with
                 | Some pr => if truthy pr && typeofObject pr
                              then Budgets.normalizeRoutes (objectEntries pr) []
                              else Some []
                 | None => Some []
                 end).
  assert (Hr : forall rs, routes = Some rs ->
             NoDup (Js.keys rs) /\
             Forall (fun kv => inUnit (Budgets.rp_minScore (snd kv)) /\
                       exists f, Budgets.rp_forbidLimited (snd kv) = Some f) rs).
  { intros rs. subst routes.
    destruct (field "perRoute" policy) as [pr |].
    - destruct (truthy pr && typeofObject pr).
      + intros E. apply (normalizeRoutes_ok _ [] rs E); constructor.
      + intros E. inversion E; subst. split; constructor.
    - intros E. inversion E; subst. split; constructor. }
  clearbody routes.
  intros E.
  assert (E' : match routes with
               | Some perRoute' =>
                   Some {| Budgets.minScore :=
                             Budgets.clampScore (field "minScore" policy);
                           Budgets.forbidLimited :=
                             Some (truthyOpt (field "forbidLimited" policy));
                           Budgets.allowUnknown :=
                             Some (Budgets.notFalse (field "allowUnknown" policy));
                           Budgets.perRoute := Some perRoute' |}
               | None => None
               end = Some b).
  { destruct policy; try discriminate; exact E. }
  clear E. destruct routes as [rs |]; [| discriminate].
  inversion E'; subst b. clear E'.
  destruct (Hr rs eq_refl) as [Hnd Hall].
  unfold normalizedBudget. cbn.
  split; [apply clampScore_inUnit |].
  split; [eexists; reflexivity |].
  split; [eexists; reflexivity |].
  exists rs. split; [reflexivity | split; assumption].
Qed.

Lemma normalizePolicy_empty :
  Budgets.normalizePolicy (JObj []) = Some defaultBudget.
Proof. reflexivity. Qed.

(** X12. [loadBudgets] never fails on a budget file: whatever the file holds
    the result is a policy, the defaults when the file's policy cannot be
    normalized or neither settings nor file give one, and the defaults are
    violated by no route, score or rows.  Every policy it returns, from
    settings or file, is normalized: minimum scores within [0, 1], boolean
    flags, one entry per route. *)
Theorem loadBudgets_file_never_fails_and_result_is_normalized :
  (forall budgetsFile : option Json,
      exists b, BudgetsLoad.loadBudgets None budgetsFile = Some b) /\
  BudgetsLoad.loadBudgets None None = Some defaultBudget /\
  (forall filePolicy : Json,
      Budgets.normalizePolicy filePolicy = None ->
      BudgetsLoad.loadBudgets None (Some filePolicy) = Some defaultBudget) /\
  (forall (Row : Type) (statusOf : Row -> string) (route : string)
          (score01 : Q) (rows : list Row),
      Budgets.evaluateBudgets statusOf defaultBudget route score01 rows =
      {| Budgets.violated := false; Budgets.reasons := [] |}) /\
  (forall (baselineBudgets budgetsFile : option Json)
          (b : Budgets.BaselineBudget),
      BudgetsLoad.loadBudgets baselineBudgets budgetsFile = Some b ->
      normalizedBudget b).
Proof.
  split; [| split; [| split; [| split]]]; [| | | reflexivity |].
  - intros [fp |]; simpl.
    + destruct (Budgets.normalizePolicy fp) as [b |]; eexists; reflexivity.
    + eexists; reflexivity.
  - reflexivity.
  - intros fp H. simpl. rewrite H. reflexivity.
  - intros bb bf b. unfold BudgetsLoad.loadBudgets.
    assert (Hfile : forall r,
               match bf with
               | Some filePolicy =>
                   match Budgets.normalizePolicy filePolicy with
                   | Some b => Some b
                   | None => Budgets.normalizePolicy (JObj [])
                   end
               | None => Budgets.normalizePolicy (JObj [])
               end = Some r -> normalizedBudget r).
    { intros r. destruct bf as [fp |].
      - destruct (Budgets.normalizePolicy fp) as [b' |] eqn:Ef.
        + intros E. inversion E; subst. exact (normalizePolicy_normalized _ _ Ef).
        + apply normalizePolicy_normalized.
      - apply normalizePolicy_normalized. }
    destruct bb as [p |]; [| apply Hfile].
    destruct (truthy p); [apply normalizePolicy_normalized | apply Hfile].
Qed.

Lemma existsb_status {Row} (statusOf : Row -> string) (s : string)
    (rows : list Row) :
  existsb (fun r => String.eqb (statusOf r) s) rows = true <->
  exists r, In r rows /\ statusOf r = s.
Proof.
  rewrite existsb_exists. split; intros [r [Hin H]]; exists r; split;
    try assumption; apply String.eqb_eq; exact H.
Qed.

Lemma isTrue_true (b : option bool) : Budgets.isTrue b = true <-> b = Some true.
Proof.
  destruct b as [[|] |]; simpl; split; congruence.
Qed.

Lemma appendToLast_length (l : list string) (s : string) :
  length (Budgets.appendToLast l s) = length l.
Proof.
  induction l as [| r [| r' l] IH]; simpl in *; [reflexivity | reflexivity |].
  f_equal. exact IH.
Qed.

Lemma evaluateBudgets_reasons {Row} (statusOf : Row -> string)
    (policy : Budgets.BaselineBudget) (route : string) (score01 : Q)
    (rows : list Row) :
  exists r1 r2 r3 : list string,
    (length r1 <= 1 /\ length r2 <= 1 /\ length r3 <= 1)%nat /\
    (r1 <> [] <-> scoreTooLow policy route score01) /\
    (r2 <> [] <-> limitedForbidden statusOf policy route rows) /\
    (r3 <> [] <-> unknownForbidden statusOf policy rows) /\
    Budgets.violated (Budgets.evaluateBudgets statusOf policy route score01 rows)
    = negb (Nat.eqb (length (r1 ++ r2 ++ r3)) 0) /\
    length (Budgets.reasons
              (Budgets.evaluateBudgets statusOf policy route score01 rows)) =
    length (r1 ++ r2 ++ r3).
Proof.
  unfold Budgets.evaluateBudgets. cbv zeta.
  fold (routePolicyOf policy route).
  set (rp := routePolicyOf policy route).
  match goal with
  | |- context [Budgets.violated {| Budgets.violated := negb (Nat.eqb (length (?a ++ ?b ++ ?c)) 0); Budgets.reasons := _ |}] =>
      exists a, b, c
  end.
  cbn [Budgets.violated Budgets.reasons].
  split; [| split; [| split; [| split; [| split]]]].
  - repeat split.
    + destruct (Budgets.nullish _ _); [destruct (Qlt_le_dec _ _) |]; simpl; lia.
    + destruct (_ && _); simpl; lia.
    + destruct (_ && _); simpl; lia.
  - unfold scoreTooLow. fold rp.
    destruct (Budgets.nullish (Budgets.rp_minScore rp) (Budgets.minScore policy))
      as [m |].
    + destruct (Qlt_le_dec score01 m) as [Hlt | Hge].
      * split; [intros _; exists m; split; [reflexivity | exact Hlt]
               | intros _; discriminate].
      * split; [intros H; congruence |].
        intros [m' [E Hlt]]. inversion E; subst. lra.
    + split; [intros H; congruence | intros [m' [E _]]; discriminate].
  - unfold limitedForbidden. fold rp.
    rewrite <- isTrue_true, <- (existsb_status statusOf "limited").
    destruct (Budgets.isTrue _); destruct (existsb _ rows); simpl;
      intuition congruence.
  - unfold unknownForbidden.
    rewrite <- isTrue_true, <- (existsb_status statusOf "unknown").
    destruct (Budgets.isTrue _); destruct (existsb _ rows); simpl;
      intuition congruence.
  - reflexivity.
  - destruct (_ && _ && _); [apply appendToLast_length | reflexivity].
Qed.

Lemma scoreTooLow_antitone (policy : Budgets.BaselineBudget) (route : string)
    (s s' : Q) :
  (s <= s')%Q -> scoreTooLow policy route s' -> scoreTooLow policy route s.
Proof.
  intros Hle [m [E Hlt]]. exists m. split; [exact E | lra].
Qed.

Lemma nonempty_app3 {A} (a b c : list A) :
  negb (Nat.eqb (length (a ++ b ++ c)) 0) = true <->
  a <> [] \/ b <> [] \/ c <> [].
Proof.
  destruct a as [| x a]; [| simpl; split; [left; discriminate | reflexivity]].
  destruct b as [| y b]; [| simpl; split; [right; left; discriminate | reflexivity]].
  destruct c as [| z c]; simpl.
  - split; [discriminate | intros [H | [H | H]]; congruence].
  - split; [right; right; discriminate | reflexivity].
Qed.

(** X13. [evaluateBudgets] reports a violation exactly when one of its three
    checks fails on the effective policy of the route: the score is below
    the minimum, a limited feature is present while forbidden, or an unknown
    feature is present while not allowed.  It is violated exactly when it
    gives a reason, it gives one reason per failed check (at most three), and
    a higher score never adds a violation. *)
Theorem budget_violated_exactly_when_a_check_fails :
  forall (Row : Type) (statusOf : Row -> string)
         (policy : Budgets.BaselineBudget) (route : string) (score01 : Q)
         (rows : list Row),
    let e := Budgets.evaluateBudgets statusOf policy route score01 rows in
    (Budgets.violated e = true <->
     scoreTooLow policy route score01 \/
     limitedForbidden statusOf policy route rows \/
     unknownForbidden statusOf policy rows) /\
    (Budgets.violated e = true <-> Budgets.reasons e <> []) /\
    (length (Budgets.reasons e) <= 3)%nat /\
    (forall score' : Q,
        (score01 <= score')%Q ->
        Budgets.violated
          (Budgets.evaluateBudgets statusOf policy route score' rows) = true ->
        Budgets.violated e = true).
Proof.
  intros Row statusOf policy route score rows e.
  destruct (evaluateBudgets_reasons statusOf policy route score rows)
    as (r1 & r2 & r3 & (L1 & L2 & L3) & H1 & H2 & H3 & Hv & Hl).
  fold e in Hv, Hl.
  assert (Hchar : Budgets.violated e = true <->
                  scoreTooLow policy route score \/
                  limitedForbidden statusOf policy route rows \/
                  unknownForbidden statusOf policy rows).
  { rewrite Hv, nonempty_app3, H1, H2, H3. reflexivity. }
  split; [exact Hchar |]. split; [| split].
  - rewrite Hv. destruct (Budgets.reasons e) eqn:Er.
    + simpl in Hl. destruct (r1 ++ r2 ++ r3)%list; [| discriminate].
      simpl. intuition congruence.
    + simpl in Hl. destruct (r1 ++ r2 ++ r3)%list; [discriminate |].
      simpl. intuition congruence.
  - rewrite Hl, !length_app. lia.
  - intros score' Hle Hv'.
    destruct (evaluateBudgets_reasons statusOf policy route score' rows)
      as (q1 & q2 & q3 & _ & G1 & G2 & G3 & Gv & _).
    apply Hchar.
    assert (Hc' : scoreTooLow policy route score' \/
                  limitedForbidden statusOf policy route rows \/
                  unknownForbidden statusOf policy rows).
    { rewrite Gv, nonempty_app3, G1, G2, G3 in Hv'. exact Hv'. }
    destruct Hc' as [Hs | Hrest]; [left | right; exact Hrest].
    exact (scoreTooLow_antitone policy route score score' Hle Hs).
Qed.

(** ** UA distributions *)













Section Scaling.

Variable c : Q.

Hypothesis c_pos : (0 < c)%Q.







End Scaling.









(** X27. On every status that names no inherited property
    [uaSupportFactor] returns a finite factor within [0.5, 1.0], and it is
    monotone: for status [limited] a larger combined chrome+edge share never
    gives a smaller factor; for status [newly] a larger safari share never
    gives a larger factor. *)
Theorem uaSupportFactor_monotone_and_bounded_on_ordinary_statuses :
  (forall d1 d2 : UADistribution,
      (chromeEdgeShare d1 <= chromeEdgeShare d2)%Q ->
      (uaSupportFactor "limited" d1 <= uaSupportFactor "limited" d2)%Q) /\
  (forall d1 d2 : UADistribution,
      (safariShare d1 <= safariShare d2)%Q ->
      (uaSupportFactor "newly" d2 <= uaSupportFactor "newly" d1)%Q) /\
  (forall (status : string) (d : UADistribution),
      Js.inheritedProperty status = false ->
      uaSupportFactorNumber status d = Js.Fin (uaSupportFactor status d) /\
      (0.5 <= uaSupportFactor status d <= 1.0)%Q).
Proof.
  split; [| split].
  - intros d1 d2 H. rewrite !uaSupportFactor_limited.
    apply clamp_max_min_mono. lra.
  - intros d1 d2 H. rewrite !uaSupportFactor_newly.
    apply clamp_max_min_mono. lra.
  - intros status d H.
    split; [apply uaSupportFactorNumber_ordinary; exact H |].
    apply uaSupportFactor_range.
Qed.

Lemma uaSupportFactor_monotone_and_bounded_on_ordinary_statuses_witness :
  (uaSupportFactor "limited"
     [("safari", 0.7%Q); ("chrome", 0.1%Q); ("firefox", 0.1%Q); ("edge", 0.1%Q)]
   <= uaSupportFactor "limited"
     [("safari", 0.1%Q); ("chrome", 0.7%Q); ("firefox", 0.1%Q); ("edge", 0.1%Q)])%Q /\
  (uaSupportFactor "newly"
     [("safari", 0.8%Q); ("chrome", 0.1%Q); ("firefox", 0.05%Q); ("edge", 0.05%Q)]
   <= uaSupportFactor "newly"
     [("safari", 0.1%Q); ("chrome", 0.8%Q); ("firefox", 0.05%Q); ("edge", 0.05%Q)])%Q /\
  uaSupportFactorNumber "unknown" defaultDist = Js.Fin 0.7.
Proof.
  destruct uaSupportFactor_monotone_and_bounded_on_ordinary_statuses
    as [Hlim [Hnew Hfin]].
  split; [| split].
  - apply Hlim. vm_compute. discriminate.
  - apply Hnew. vm_compute. discriminate.
  - exact (proj1 (Hfin "unknown" defaultDist eq_refl)).
Defined.

(** ** The status resolver: requests, statuses, counters *)

Lemma asksAtMost_refl n batches w : asksAtMost n batches w w.
Proof.
  unfold asksAtMost. repeat split; try reflexivity.
  exists []. rewrite app_nil_r. repeat split; [simpl; lia | constructor].
Qed.

Lemma asksAtMost_quiet n batches w w' :
  cache w' = cache w -> cacheStats w' = cacheStats w ->
  (tick w <= tick w')%nat -> sent w' = sent w ->
  asksAtMost n batches w w'.
Proof.
  intros Hc Hs Ht Hsent. unfold asksAtMost.
  split; [exact Hc | split; [exact Hs | split; [exact Ht |]]].
  exists []. rewrite app_nil_r. repeat split; [exact Hsent | simpl; lia | constructor].
Qed.

Lemma requestFor_incl b1 b2 e :
  incl b1 b2 -> requestFor b1 e -> requestFor b2 e.
Proof. intros Hi [H1 H2]. split; [apply Hi; exact H1 | exact H2]. Qed.

Lemma asksAtMost_trans n1 n2 b1 b2 w1 w2 w3 :
  asksAtMost n1 b1 w1 w2 -> asksAtMost n2 b2 w2 w3 ->
  asksAtMost (n1 + n2) (b1 ++ b2) w1 w3.
Proof.
  intros (C1 & S1 & T1 & x1 & X1 & L1 & F1) (C2 & S2 & T2 & x2 & X2 & L2 & F2).
  unfold asksAtMost.
  split; [congruence | split; [congruence | split; [lia |]]].
  exists (x1 ++ x2)%list. split; [| split].
  - rewrite X2, X1, app_assoc. reflexivity.
  - rewrite length_app. lia.
  - apply Forall_app. split.
    + eapply Forall_impl; [| exact F1]. intros e.
      apply requestFor_incl. apply incl_appl. apply incl_refl.
    + eapply Forall_impl; [| exact F2]. intros e.
      apply requestFor_incl. apply incl_appr. apply incl_refl.
Qed.

Lemma asksAtMost_weaken n n' b b' w w' :
  (n <= n')%nat -> incl b b' -> asksAtMost n b w w' -> asksAtMost n' b' w w'.
Proof.
  intros Hn Hb (C & S & T & x & X & L & F).
  unfold asksAtMost. repeat split; try assumption.
  exists x. repeat split; [exact X | lia |].
  eapply Forall_impl; [| exact F]. intros e. apply requestFor_incl. exact Hb.
Qed.

Lemma asksAtMost_same n1 n2 ids w1 w2 w3 :
  asksAtMost n1 [ids] w1 w2 -> asksAtMost n2 [ids] w2 w3 ->
  asksAtMost (n1 + n2) [ids] w1 w3.
Proof.
  intros H1 H2.
  apply (asksAtMost_weaken (n1 + n2) (n1 + n2) ([ids] ++ [ids]) [ids]);
    [lia | | eapply asksAtMost_trans; eassumption].
  intros x [<- | [<- | []]]; left; reflexivity.
Qed.

Section Bounded.

Variable E : Env.

Lemma bounded_ret {A} n ids (a : A) (V : A -> Prop) :
  V a -> bounded n ids (ret a) V.
Proof. intros Hv w. simpl. split; [apply asksAtMost_refl | exact Hv]. Qed.

Lemma bounded_bind {A B} n1 n2 n ids (m : M A) (k : A -> M B)
    (V1 : A -> Prop) (V2 : B -> Prop) :
  (n1 + n2 <= n)%nat ->
  bounded n1 ids m V1 ->
  (forall a, V1 a -> bounded n2 ids (k a) V2) ->
  bounded n ids (bind m k) V2.
Proof.
  intros Hn Hm Hk w. unfold bind.
  destruct (Hm w) as [Hext Hv].
  destruct (m w) as [a w1]. simpl in Hext, Hv.
  destruct (Hk a Hv w1) as [Hext2 Hv2].
  split; [| exact Hv2].
  apply (asksAtMost_weaken (n1 + n2) n [ids] [ids]);
    [exact Hn | apply incl_refl |].
  eapply asksAtMost_same; eassumption.
Qed.

Lemma bounded_weaken {A} n n' ids (m : M A) (V : A -> Prop) :
  (n <= n')%nat -> bounded n ids m V -> bounded n' ids m V.
Proof.
  intros Hn Hm w. destruct (Hm w) as [H1 H2]. split; [| exact H2].
  eapply asksAtMost_weaken; [exact Hn | apply incl_refl | exact H1].
Qed.

Lemma bounded_dateNow ids : bounded 0 ids (dateNow E) (fun _ => True).
Proof.
  intros w. unfold dateNow. simpl. split; [| exact I].
  apply asksAtMost_quiet; simpl; auto.
Qed.

Lemma bounded_shouldAllowRequestM ids :
  bounded 0 ids (shouldAllowRequestM E) (fun _ => True).
Proof.
  unfold shouldAllowRequestM.
  eapply (bounded_bind 0 0); [lia | apply bounded_dateNow |].
  intros now _ w.
  destruct (shouldAllowRequest now (circuitBreakerState w)) as [allowed cb].
  simpl. split; [| exact I].
  apply asksAtMost_quiet; simpl; auto.
Qed.

Lemma bounded_recordSuccessM ids : bounded 0 ids recordSuccessM (fun _ => True).
Proof.
  intros w. unfold recordSuccessM. simpl. split; [| exact I].
  apply asksAtMost_quiet; simpl; auto.
Qed.

Lemma bounded_recordFailureM ids :
  bounded 0 ids (recordFailureM E) (fun _ => True).
Proof.
  unfold recordFailureM.
  eapply (bounded_bind 0 0); [lia | apply bounded_dateNow |].
  intros now _ w. simpl. split; [| exact I].
  apply asksAtMost_quiet; simpl; auto.
Qed.

Lemma bounded_fetchWithTimeout ids (query : string) :
  buildQuery ids = Some query ->
  bounded 1 ids (fetchWithTimeout E ids query) (fun _ => True).
Proof.
  intros Hq. unfold fetchWithTimeout.
  eapply (bounded_bind 1 0 1 ids _ _ (fun _ => True)); [lia | |].
  - intros w. unfold doFetch. simpl. split; [| exact I].
    unfold asksAtMost. simpl.
    split; [reflexivity | split; [reflexivity | split; [lia |]]].
    exists [(ids, query)].
    split; [reflexivity | split; [simpl; lia |]].
    constructor; [| constructor].
    split; [left; reflexivity | exact Hq].
  - intros r _. destruct r as [err | st txt body].
    + destruct (String.eqb (name err) "AbortError"); apply bounded_ret; exact I.
    + apply bounded_ret. exact I.
Qed.

Lemma bounded_fail n ids (err : JsError) :
  bounded n ids (recordFailureM E ;;; ret (Thrown err)) validFeatures.
Proof.
  eapply (bounded_bind 0 0); [lia | apply bounded_recordFailureM |].
  intros _ _. apply bounded_ret. exact I.
Qed.

Lemma bounded_catchBlock n ids retries again err :
  (forall retry, again = Some retry -> bounded n ids retry validFeatures) ->
  bounded n ids (catchBlock E retries again err) validFeatures.
Proof.
  intros Hagain. unfold catchBlock.
  destruct (String.eqb (name err) "AbortError" ||
            Js.includes (message err) "timeout").
  - destruct again as [retry |]; [apply Hagain; reflexivity | apply bounded_fail].
  - destruct (Js.includes (message err) "Circuit breaker" ||
              Js.includes (message err) "Invalid feature IDs").
    + apply bounded_ret. exact I.
    + destruct again as [retry |]; [apply Hagain; reflexivity | apply bounded_fail].
Qed.

Lemma bounded_fail_then_catch n ids retries again err :
  (forall retry, again = Some retry -> bounded n ids retry validFeatures) ->
  bounded n ids (recordFailureM E ;;; catchBlock E retries again err)
    validFeatures.
Proof.
  intros Hagain.
  eapply (bounded_bind 0 n); [lia | apply bounded_recordFailureM |].
  intros _ _. apply bounded_catchBlock. exact Hagain.
Qed.

Lemma isValidResponse_features (data : Json) :
  isValidResponse data = true ->
  forallb validFeature (responseData data) = true.
Proof.
  unfold isValidResponse, responseData. intros H.
  apply andb_prop in H. destruct H as [_ H].
  destruct (field "data" data) as [[| | | | features |] |]; try discriminate.
  exact H.
Qed.

Lemma bounded_attempt n ids retries again :
  (forall retry, again = Some retry -> bounded n ids retry validFeatures) ->
  bounded (S n) ids (attempt E retries again ids) validFeatures.
Proof.
  intros Hagain. unfold attempt.
  assert (Hagain' : forall retry, again = Some retry ->
                      bounded (S n) ids retry validFeatures).
  { intros retry H. eapply bounded_weaken; [| apply Hagain; exact H]. lia. }
  eapply (bounded_bind 0 (S n)); [lia | apply bounded_shouldAllowRequestM |].
  intros allowed _. destruct allowed; simpl negb; cbv iota.
  2: { apply bounded_ret. exact I. }
  destruct ids as [| id0 rest] eqn:Eids.
  { apply bounded_ret. reflexivity. }
  rewrite <- Eids in *.
  destruct (buildQuery ids) as [query |] eqn:Eq.
  2: { apply bounded_ret. exact I. }
  eapply (bounded_bind 1 n);
    [lia | apply bounded_fetchWithTimeout; exact Eq |].
  intros r _. destruct r as [err | [[st txt] body]].
  { apply bounded_catchBlock. exact Hagain. }
  destruct (negb (okStatus st)).
  - destruct (st =? 429).
    + destruct again as [retry |];
        [apply Hagain; reflexivity | apply bounded_fail_then_catch; exact Hagain].
    + destruct (st >=? 500).
      * destruct again as [retry |];
          [apply Hagain; reflexivity
          | apply bounded_fail_then_catch; exact Hagain].
      * apply bounded_fail_then_catch; exact Hagain.
  - destruct body as [parseErr | data].
    + apply bounded_fail_then_catch; exact Hagain.
    + destruct (isValidResponse data) eqn:Ev; simpl negb; cbv iota.
      * eapply (bounded_bind 0 0); [lia | apply bounded_recordSuccessM |].
        intros _ _. apply bounded_ret. simpl.
        apply isValidResponse_features. exact Ev.
      * apply bounded_fail_then_catch; exact Hagain.
Qed.

Lemma bounded_fetchFeaturesBatchFrom ids (remaining : nat) :
  bounded (S remaining) ids (fetchFeaturesBatchFrom E remaining ids)
    validFeatures.
Proof.
  induction remaining as [| r IH]; simpl; apply bounded_attempt.
  - intros retry H. discriminate.
  - intros retry H. inversion H; subst. exact IH.
Qed.

End Bounded.

Lemma worked_refl w : worked 0 [] w w.
Proof.
  unfold worked. repeat split; auto.
  exists []. rewrite app_nil_r. repeat split; [simpl; lia | constructor].
Qed.

Lemma worked_trans n1 n2 b1 b2 w1 w2 w3 :
  worked n1 b1 w1 w2 -> worked n2 b2 w2 w3 ->
  worked (n1 + n2) (b1 ++ b2) w1 w3.
Proof.
  intros (C1 & S1 & T1 & x1 & X1 & L1 & F1) (C2 & S2 & T2 & x2 & X2 & L2 & F2).
  unfold worked.
  split; [auto | split; [congruence | split; [lia |]]].
  exists (x1 ++ x2)%list. split; [| split].
  - rewrite X2, X1, app_assoc. reflexivity.
  - rewrite length_app. lia.
  - apply Forall_app. split.
    + eapply Forall_impl; [| exact F1]. intros e.
      apply requestFor_incl. apply incl_appl. apply incl_refl.
    + eapply Forall_impl; [| exact F2]. intros e.
      apply requestFor_incl. apply incl_appr. apply incl_refl.
Qed.

Lemma worked_weaken n n' b b' w w' :
  (n <= n')%nat -> incl b b' -> worked n b w w' -> worked n' b' w w'.
Proof.
  intros Hn Hb (C & S & T & x & X & L & F).
  unfold worked. repeat split; try assumption.
  exists x. repeat split; [exact X | lia |].
  eapply Forall_impl; [| exact F]. intros e. apply requestFor_incl. exact Hb.
Qed.

Lemma validStatus_unknown : validStatus (status unknownStatus).
Proof. unfold validStatus, fourStatuses. simpl. tauto. Qed.

Lemma featureStatus_valid (feature : Json) :
  validFeature feature = true -> validStatus (status (featureStatus feature)).
Proof.
  unfold validFeature, featureStatus. intros H.
  apply andb_prop in H. destruct H as [_ H].
  destruct (field "baseline" feature) as [b |]; [| apply validStatus_unknown].
  destruct (field "status" b) as [[| | | s | |] |]; try apply validStatus_unknown.
  destruct (truthy b) eqn:Eb; cbn [andb]; [| apply validStatus_unknown].
  destruct (Js.nonEmpty s); [| apply validStatus_unknown].
  cbn [status]. simpl in H.
  apply andb_prop in H. destruct H as [_ H].
  rewrite orb_false_r in H.
  unfold validStatus, fourStatuses.
  destruct (String.eqb s "limited") eqn:E1;
    [apply String.eqb_eq in E1; subst; simpl; tauto |].
  destruct (String.eqb s "newly") eqn:E2;
    [apply String.eqb_eq in E2; subst; simpl; tauto |].
  destruct (String.eqb s "widely") eqn:E3;
    [apply String.eqb_eq in E3; subst; simpl; tauto |].
  simpl in H. discriminate.
Qed.

Lemma validEntries_set (k : string) (v : BaselineStatus)
    (m : Js.Map BaselineStatus) :
  validStatus (status v) -> validEntries m -> validEntries (Js.set k v m).
Proof.
  intros Hv. unfold validEntries.
  induction 1 as [| [k' v'] m Hx Hm IH]; simpl.
  - constructor; [exact Hv | constructor].
  - destruct (String.eqb k' k); constructor; assumption.
Qed.

Lemma validEntries_setAll (writes : list (string * BaselineStatus))
    (m : Js.Map BaselineStatus) :
  validEntries writes -> validEntries m -> validEntries (Js.setAll writes m).
Proof.
  unfold Js.setAll. revert m.
  induction writes as [| [k v] writes IH]; intros m Hw Hm; simpl.
  - exact Hm.
  - inversion Hw; subst. apply IH; [assumption |].
    apply validEntries_set; assumption.
Qed.

Lemma responseWrites_valid (features : list Json) (ids : list string) :
  forallb validFeature features = true ->
  validEntries (responseWrites features ids).
Proof.
  intros H. unfold responseWrites, validEntries. cbv zeta.
  apply Forall_app. split.
  - apply Forall_forall. intros kv Hin.
    apply in_map_iff in Hin. destruct Hin as [f [<- Hf]]. simpl.
    apply filter_In in Hf. destruct Hf as [Hf _].
    apply featureStatus_valid.
    rewrite forallb_forall in H. apply H. exact Hf.
  - apply Forall_forall. intros kv Hin.
    apply in_map_iff in Hin. destruct Hin as [id [<- _]].
    apply validStatus_unknown.
Qed.

Lemma failureWrites_valid (ids : list string) :
  validEntries (failureWrites ids).
Proof.
  unfold failureWrites, validEntries. apply Forall_forall. intros kv Hin.
  apply in_map_iff in Hin. destruct Hin as [id [<- _]].
  apply validStatus_unknown.
Qed.

Section Resolver.

Variable E : Env.

Lemma processBatch_eq (ids : list string) (w : World) :
  ids <> [] ->
  processBatch E ids w =
  let (o, w1) := fetchFeaturesBatch E ids w in
  let writes :=
    match o with
    | Returned features => responseWrites features ids
    | Thrown _ => failureWrites ids
    end in
  (Js.setAll writes [],
   {| cache := Js.setAll writes (cache w1);
      circuitBreakerState := circuitBreakerState w1;
      cacheStats := cacheStats w1;
      tick := tick w1;
      sent := sent w1 |}).
Proof.
  intros Hne. destruct ids as [| id0 rest]; [congruence |].
  unfold processBatch, bind.
  destruct (fetchFeaturesBatch E (id0 :: rest) w) as [o w1]. reflexivity.
Qed.

Lemma runGroup_eq (batch : list string) (rest : list (list string)) (w : World) :
  runGroup E (batch :: rest) w =
  let (result, w1) := processBatch E batch w in
  let (rs, w2) := runGroup E rest w1 in
  ((result, allUnknown result && negb (Nat.eqb (length batch) 0)) :: rs, w2).
Proof.
  simpl. unfold runBatch, bind, ret.
  destruct (processBatch E batch w) as [result w1].
  destruct (runGroup E rest w1) as [rs w2]. reflexivity.
Qed.

Lemma runGroups_eq (group : list (list string))
    (rest : list (list (list string))) (results : Js.Map BaselineStatus)
    (flag : bool) (w : World) :
  runGroups E (group :: rest) results flag w =
  let (brs, w1) := runGroup E group w in
  runGroups E rest (mergeInto results brs) (flag || existsb snd brs) w1.
Proof.
  simpl. unfold bind. destruct (runGroup E group w) as [brs w1]. reflexivity.
Qed.

Lemma processBatch_worked (ids : list string) (w : World) :
  validEntries (fst (processBatch E ids w)) /\
  worked (S MAX_RETRIES) [ids] w (snd (processBatch E ids w)).
Proof.
  destruct ids as [| id0 rest] eqn:Eids.
  { simpl. split; [constructor |].
    apply (worked_weaken 0 _ [] _); [lia | intros x [] | apply worked_refl]. }
  rewrite <- Eids. rewrite processBatch_eq by (rewrite Eids; discriminate).
  clear Eids id0 rest.
  destruct (bounded_fetchFeaturesBatchFrom E ids MAX_RETRIES w) as [Hask Hv].
  fold (fetchFeaturesBatch E ids) in Hask, Hv.
  destruct (fetchFeaturesBatch E ids w) as [o w1]. simpl in Hask, Hv.
  cbv zeta.
  set (writes := match o with
                 | Returned features => responseWrites features ids
                 | Thrown _ => failureWrites ids
                 end).
  assert (Hw : validEntries writes).
  { subst writes. destruct o as [features | err].
    - apply responseWrites_valid. exact Hv.
    - apply failureWrites_valid. }
  cbn [fst snd].
  split; [apply validEntries_setAll; [exact Hw | constructor] |].
  destruct Hask as (C & S & T & x & X & L & F).
  unfold worked. cbn [cache cacheStats tick sent].
  split; [intros Hc; apply validEntries_setAll; [exact Hw | rewrite C; exact Hc] |].
  split; [exact S | split; [exact T |]].
  exists x. repeat split; assumption.
Qed.

Lemma runGroup_worked (group : list (list string)) (w : World) :
  Forall (fun r => validEntries (fst r)) (fst (runGroup E group w)) /\
  worked (S MAX_RETRIES * length group) group w (snd (runGroup E group w)).
Proof.
  revert w. induction group as [| batch rest IH]; intros w.
  - simpl. split; [constructor | apply worked_refl].
  - rewrite runGroup_eq.
    destruct (processBatch_worked batch w) as [Hv Hw].
    destruct (processBatch E batch w) as [result w1]. simpl in Hv, Hw.
    destruct (IH w1) as [Hvs Hws].
    destruct (runGroup E rest w1) as [rs w2]. simpl in Hvs, Hws.
    cbn [fst snd].
    split; [constructor; [exact Hv | exact Hvs] |].
    replace (S MAX_RETRIES * length (batch :: rest))%nat
      with (S MAX_RETRIES + S MAX_RETRIES * length rest)%nat
      by (simpl length; lia).
    apply (worked_trans _ _ [batch] rest w w1 w2); assumption.
Qed.

Lemma mergeInto_valid (results : Js.Map BaselineStatus)
    (brs : list (Js.Map BaselineStatus * bool)) :
  validEntries results ->
  Forall (fun r => validEntries (fst r)) brs ->
  validEntries (mergeInto results brs).
Proof.
  unfold mergeInto. revert results.
  induction brs as [| br brs IH]; intros results Hr Hall; simpl.
  - exact Hr.
  - inversion Hall; subst. apply IH; [| assumption].
    apply validEntries_setAll; assumption.
Qed.

Lemma runGroups_worked (groups : list (list (list string)))
    (results : Js.Map BaselineStatus) (flag : bool) (w : World) :
  (validEntries results ->
   validEntries (fst (fst (runGroups E groups results flag w)))) /\
  worked (S MAX_RETRIES * length (concat groups)) (concat groups) w
    (snd (runGroups E groups results flag w)).
Proof.
  revert results flag w.
  induction groups as [| group rest IH]; intros results flag w.
  - simpl. split; [auto | apply worked_refl].
  - rewrite runGroups_eq.
    destruct (runGroup_worked group w) as [Hv Hw].
    destruct (runGroup E group w) as [brs w1]. simpl in Hv, Hw.
    destruct (IH (mergeInto results brs) (flag || existsb snd brs) w1)
      as [Hvs Hws].
    split.
    + intros Hr. apply Hvs. apply mergeInto_valid; assumption.
    + cbn [concat]. rewrite length_app.
      replace (S MAX_RETRIES * (length group + length (concat rest)))%nat
        with (S MAX_RETRIES * length group +
              S MAX_RETRIES * length (concat rest))%nat by lia.
      eapply worked_trans; eassumption.
Qed.

Lemma checkCache_stats (ids : list string) (results : Js.Map BaselineStatus)
    (toFetch : list string) (w : World) :
  cacheStats (snd (checkCache ids results toFetch w)) =
  {| hits := hits (cacheStats w) + Z.of_nat (length (cachedIds (cache w) ids));
     misses := misses (cacheStats w) +
               Z.of_nat (length (uncached (cache w) ids)) |}.
Proof.
  revert results toFetch w.
  induction ids as [| id ids IH]; intros results toFetch w.
  - simpl. destruct (cacheStats w) as [h m]. simpl. f_equal; lia.
  - cbn [checkCache]. unfold cachedIds, uncached, Js.has. cbn [filter].
    destruct (Js.get id (cache w)) as [st |] eqn:Eg.
    + rewrite IH. simpl. unfold cachedIds, uncached, Js.has. f_equal; lia.
    + rewrite IH. simpl. unfold cachedIds, uncached, Js.has. f_equal; lia.
Qed.

Lemma cachedEntries_valid (c : Js.Map BaselineStatus) (ids : list string) :
  validEntries c -> validEntries (cachedEntries c ids).
Proof.
  intros Hc. unfold validEntries, cachedEntries.
  apply Forall_forall. intros [k v] Hin.
  apply in_flat_map in Hin. destruct Hin as [id [_ Hin]].
  destruct (Js.get id c) as [st |] eqn:Eg; [| contradiction].
  destruct Hin as [Heq | []]. inversion Heq; subst. simpl.
  clear - Hc Eg. unfold validEntries in Hc.
  induction Hc as [| [k' v'] c Hx _ IH]; simpl in Eg; [discriminate |].
  destruct (String.eqb k' k); [inversion Eg; subst; exact Hx | exact (IH Eg)].
Qed.

End Resolver.

Lemma slicesFrom_lengths {A} (fuel i size : nat) (l b : list A) :
  (0 < size)%nat -> In b (slicesFrom fuel i size l) ->
  (0 < length b <= size)%nat.
Proof.
  intros Hsize. revert i. induction fuel as [| fuel IH]; intros i Hin; simpl in Hin.
  - contradiction.
  - destruct (i <? length l)%nat eqn:Ei; [| contradiction].
    apply Nat.ltb_lt in Ei.
    destruct Hin as [<- | Hin]; [| exact (IH _ Hin)].
    unfold Js.slice. rewrite length_firstn, length_skipn. lia.
Qed.

Lemma slices_lengths {A} (size : nat) (l b : list A) :
  (0 < size)%nat -> In b (slices size l) -> (0 < length b <= size)%nat.
Proof. intros Hs. apply slicesFrom_lengths. exact Hs. Qed.

Lemma slicesFrom_count {A} (fuel i size : nat) (l : list A) :
  (0 < size)%nat -> (length l <= fuel + i)%nat ->
  length (slicesFrom fuel i size l) = ((length l - i + (size - 1)) / size)%nat.
Proof.
  intros Hsize. revert i. induction fuel as [| fuel IH]; intros i Hlen; simpl.
  - replace (length l - i)%nat with 0%nat by lia.
    symmetry. apply Nat.div_small. lia.
  - destruct (i <? length l)%nat eqn:Ei.
    + apply Nat.ltb_lt in Ei. simpl. rewrite IH by lia.
      destruct (Nat.le_gt_cases size (length l - i)) as [Hge | Hlt].
      * replace (length l - i + (size - 1))%nat
          with ((length l - (i + size) + (size - 1)) + 1 * size)%nat by lia.
        rewrite Nat.div_add by lia. lia.
      * replace (length l - (i + size))%nat with 0%nat by lia.
        rewrite (Nat.div_small (0 + (size - 1)) size) by lia.
        apply (Nat.div_unique _ size 1 (length l - i - 1)); lia.
    + apply Nat.ltb_ge in Ei.
      replace (length l - i)%nat with 0%nat by lia.
      symmetry. apply Nat.div_small. lia.
Qed.

Lemma slices_count {A} (size : nat) (l : list A) :
  (0 < size)%nat ->
  length (slices size l) = ((length l + (size - 1)) / size)%nat.
Proof.
  intros Hs. unfold slices. rewrite slicesFrom_count by lia.
  rewrite Nat.sub_0_r. reflexivity.
Qed.

Section ResolverCall.

Variable E : Env.

Lemma fetchBaselineStatus_worked (ids : list string) (w : World) :
  let r := fetchBaselineStatus E ids w in
  let batches := slices BATCH_SIZE (uncached (cache w) ids) in
  (validEntries (cache w) ->
   validEntries (cache (snd r)) /\
   forall m, fst r = Returned m -> validEntries m) /\
  cacheStats (snd r) =
    {| hits := hits (cacheStats w) +
               Z.of_nat (length (cachedIds (cache w) ids));
       misses := misses (cacheStats w) +
                 Z.of_nat (length (uncached (cache w) ids)) |} /\
  exists extra,
    sent (snd r) = (sent w ++ extra)%list /\
    (length extra <= S MAX_RETRIES * length batches)%nat /\
    Forall (requestFor batches) extra.
Proof.
  cbv zeta. unfold fetchBaselineStatus, bind.
  destruct (checkCache_spec ids [] [] w) as (Hfst & Hc & Hb & Htick & Hs).
  pose proof (checkCache_stats ids [] [] w) as Hstats.
  destruct (checkCache ids [] [] w) as [[results tf] w0].
  simpl in Hfst, Hc, Hb, Htick, Hs, Hstats. inversion Hfst; subst results tf.
  clear Hfst.
  set (results0 := Js.setAll (cachedEntries (cache w) ids) []) in *.
  assert (Hr0 : validEntries (cache w) -> validEntries results0).
  { intros Hv. subst results0. apply validEntries_setAll; [| constructor].
    apply cachedEntries_valid. exact Hv. }
  destruct (uncached (cache w) ids) as [| id0 rest] eqn:Etf.
  - unfold ret. cbn [fst snd]. split; [| split].
    + intros Hv. split; [rewrite Hc; exact Hv |].
      intros m Hm. inversion Hm; subst m. apply Hr0. exact Hv.
    + exact Hstats.
    + exists []. rewrite app_nil_r. repeat split;
        [exact Hs | simpl; lia | constructor].
  - rewrite <- Etf in Hstats |- *.
    set (toFetch := uncached (cache w) ids) in *.
    destruct (bounded_shouldAllowRequestM E [] w0) as [Hq _].
    destruct (shouldAllowRequestM E w0) as [allowed w1]. simpl in Hq.
    destruct Hq as (Hc1 & Hs1 & Ht1 & x1 & Hx1 & Hl1 & _).
    assert (x1 = []) by (destruct x1; [reflexivity | simpl in Hl1; lia]).
    subst x1. rewrite app_nil_r in Hx1.
    destruct allowed; cbn [negb]; cbv beta match.
    + destruct (runGroups_worked E
                  (slices maxConcurrent (slices BATCH_SIZE toFetch))
                  results0 false w1) as [Hv Hw].
      rewrite concat_slices in Hw by (unfold maxConcurrent; lia).
      destruct (runGroups E (slices maxConcurrent (slices BATCH_SIZE toFetch))
                  results0 false w1) as [[results' flag] w2].
      simpl in Hv, Hw.
      destruct Hw as (Cv & S2 & T2 & x & X & L & F).
      assert (Hcache : validEntries (cache w) -> validEntries (cache w2)).
      { intros H. apply Cv. rewrite Hc1, Hc. exact H. }
      destruct (flag && (failureCount (circuitBreakerState w2) >? 0));
        unfold ret; cbn [fst snd].
      * split; [| split].
        -- intros H. split; [exact (Hcache H) | intros m Hm; discriminate].
        -- rewrite S2, Hs1. exact Hstats.
        -- exists x. repeat split; [congruence | exact L | exact F].
      * split; [| split].
        -- intros H. split; [exact (Hcache H) |].
           intros m Hm. inversion Hm; subst m. apply Hv. apply Hr0. exact H.
        -- rewrite S2, Hs1. exact Hstats.
        -- exists x. repeat split; [congruence | exact L | exact F].
    + unfold ret. cbn [fst snd]. split; [| split].
      * intros H. split; [rewrite Hc1, Hc; exact H | intros m Hm; discriminate].
      * rewrite Hs1. exact Hstats.
      * exists []. rewrite app_nil_r. repeat split;
          [congruence | simpl; lia | constructor].
Qed.

End ResolverCall.

(** X16. One call of [fetchBaselineStatus] sends at most
    [MAX_RETRIES + 1 = 4] requests per batch of 20 identifiers it does not
    find in the cache; every request is for one of these batches (between 1
    and 20 uncached identifiers of the call) with the query built from that
    batch; a call whose identifiers are all cached sends none. *)
Theorem requests_per_call_are_bounded :
  forall (E : Env) (featureIds : list string) (w : World),
    let toFetch := uncached (cache w) featureIds in
    let batches := slices BATCH_SIZE toFetch in
    length batches = ((length toFetch + 19) / 20)%nat /\
    exists extra,
      sent (snd (fetchBaselineStatus E featureIds w)) = (sent w ++ extra)%list /\
      (length extra <= (MAX_RETRIES + 1) * length batches)%nat /\
      Forall (fun e =>
                In (fst e) batches /\
                buildQuery (fst e) = Some (snd e) /\
                (0 < length (fst e) <= BATCH_SIZE)%nat /\
                incl (fst e) toFetch) extra.
Proof.
  intros E ids w toFetch batches.
  split; [subst batches; unfold BATCH_SIZE; apply slices_count; lia |].
  destruct (fetchBaselineStatus_worked E ids w) as (_ & _ & x & X & L & F).
  cbv zeta in *. fold toFetch in L, F. fold batches in L, F.
  exists x. split; [exact X |]. split.
  - replace (MAX_RETRIES + 1)%nat with (S MAX_RETRIES) by (unfold MAX_RETRIES; lia).
    exact L.
  - eapply Forall_impl; [| exact F]. intros e [Hin Hq].
    split; [exact Hin | split; [exact Hq | split]].
    + apply (slices_lengths BATCH_SIZE toFetch); [unfold BATCH_SIZE; lia |].
      exact Hin.
    + apply (slices_incl BATCH_SIZE). exact Hin.
Qed.

Lemma runCalls_valid (E : Env) (calls : list (list string)) (w : World) :
  validEntries (cache w) ->
  Forall (fun o => forall m, o = Returned m -> validEntries m)
         (fst (runCalls E calls w)) /\
  validEntries (cache (snd (runCalls E calls w))).
Proof.
  revert w. induction calls as [| req rest IH]; intros w Hv.
  - simpl. split; [constructor | exact Hv].
  - cbn [runCalls].
    destruct (fetchBaselineStatus_worked E req w) as (H1 & _ & _).
    cbv zeta in H1. destruct (H1 Hv) as [Hc Hm].
    destruct (fetchBaselineStatus E req w) as [o w1]. simpl in Hc, Hm.
    destruct (IH w1 Hc) as [Hos Hc2].
    destruct (runCalls E rest w1) as [os w2]. simpl in Hos, Hc2.
    cbn [fst snd]. split; [constructor; [exact Hm | exact Hos] | exact Hc2].
Qed.

(** X17. The resolver only hands out the four statuses: if every status in
    the cache is one of [widely], [newly], [limited] and [unknown], then so
    is every status of the map [fetchBaselineStatus] returns, of the map the
    audit falls back to, and of the cache afterwards; as the cache of a fresh
    process is empty, this holds for every call a process ever makes. *)
Theorem resolved_statuses_are_among_the_four :
  (forall (E : Env) (featureIds : list string) (w : World),
      validEntries (cache w) ->
      validEntries (cache (snd (fetchBaselineStatus E featureIds w))) /\
      (forall m, fst (fetchBaselineStatus E featureIds w) = Returned m ->
                 validEntries m) /\
      validEntries (fst (auditFetchStatuses E featureIds w))) /\
  (forall (E : Env) (calls : list (list string)),
      Forall (fun o => forall m, o = Returned m -> validEntries m)
             (fst (runCalls E calls freshWorld))).
Proof.
  split.
  - intros E ids w Hv.
    destruct (fetchBaselineStatus_worked E ids w) as (H1 & _ & _).
    cbv zeta in H1. destruct (H1 Hv) as [Hc Hm].
    split; [exact Hc | split; [exact Hm |]].
    unfold auditFetchStatuses, bind.
    destruct (fetchBaselineStatus E ids w) as [[m | err] w1]; simpl in *.
    + apply Hm. reflexivity.
    + apply validEntries_setAll; [| constructor].
      apply Forall_forall. intros kv Hin.
      apply in_map_iff in Hin. destruct Hin as [id [<- _]].
      apply validStatus_unknown.
  - intros E calls. apply runCalls_valid. constructor.
Qed.

Lemma resolved_statuses_are_among_the_four_witness :
  validEntries
    (fst (auditFetchStatuses recoveringAuthority ["grid"; "flexbox"] freshWorld)).
Proof.
  destruct resolved_statuses_are_among_the_four as [H _].
  apply (H recoveringAuthority ["grid"; "flexbox"] freshWorld).
  constructor.
Defined.

Lemma filter_partition_length {A} (f : A -> bool) (l : list A) :
  (length (filter f l) + length (filter (fun x => negb (f x)) l) = length l)%nat.
Proof.
  induction l as [| a l IH]; simpl; [reflexivity |].
  destruct (f a); simpl; lia.
Qed.

Lemma runCalls_counters (E : Env) (calls : list (list string)) (w : World) :
  let s := cacheStats (snd (runCalls E calls w)) in
  hits (cacheStats w) <= hits s /\ misses (cacheStats w) <= misses s /\
  hits s + misses s =
  hits (cacheStats w) + misses (cacheStats w) + Z.of_nat (length (concat calls)).
Proof.
  cbv zeta. revert w. induction calls as [| req rest IH]; intros w.
  - simpl. lia.
  - cbn [runCalls].
    destruct (fetchBaselineStatus_worked E req w) as (_ & Hs & _).
    cbv zeta in Hs.
    destruct (fetchBaselineStatus E req w) as [o w1]. simpl in Hs.
    specialize (IH w1).
    destruct (runCalls E rest w1) as [os w2]. simpl in IH. cbn [snd].
    rewrite Hs in IH. cbn [hits misses] in IH.
    cbn [concat]. rewrite length_app.
    pose proof (filter_partition_length (fun id => Js.has id (cache w)) req) as Hp.
    change (filter _ req) with (cachedIds (cache w) req) in Hp at 1.
    change (filter _ req) with (uncached (cache w) req) in Hp.
    lia.
Qed.

(** X18. The cache counters count every identifier asked for: one call adds
    the number of requested identifiers found in the cache to [hits] and the
    number not found to [misses], whether it returns or throws; so after
    [resetCacheStats] and any sequence of calls [getStats] reports hits and
    misses that add up to the number of identifiers requested, and a hit rate
    of "0.000" when none was. *)
Theorem cache_counters_count_every_requested_identifier :
  (forall (E : Env) (featureIds : list string) (w : World),
      cacheStats (snd (fetchBaselineStatus E featureIds w)) =
      {| hits := hits (cacheStats w) +
                 Z.of_nat (length (cachedIds (cache w) featureIds));
         misses := misses (cacheStats w) +
                   Z.of_nat (length (uncached (cache w) featureIds)) |}) /\
  (forall (E : Env) (calls : list (list string)) (w : World),
      let report :=
        sr_cache (fst (getStats
                         (snd (runCalls E calls (snd (resetCacheStats w)))))) in
      0 <= cr_hits report /\ 0 <= cr_misses report /\
      cr_hits report + cr_misses report = Z.of_nat (length (concat calls)) /\
      (concat calls = [] -> cr_hitRate report = "0.000")).
Proof.
  split.
  - intros E ids w.
    destruct (fetchBaselineStatus_worked E ids w) as (_ & Hs & _). exact Hs.
  - intros E calls w report.
    pose proof (runCalls_counters E calls (snd (resetCacheStats w))) as H.
    cbv zeta in H. cbn [resetCacheStats withStats snd cacheStats hits misses] in H.
    subst report. cbn [getStats fst sr_cache cr_hits cr_misses cr_hitRate].
    cbn [resetCacheStats snd] in *.
    destruct H as (H1 & H2 & H3).
    split; [exact H1 | split; [exact H2 | split; [lia |]]].
    intros Hnil. rewrite Hnil in H3. simpl in H3.
    destruct (_ >? 0) eqn:Eg; [lia | reflexivity].
Qed.

(** ** The status resolver: answers, failures, the breaker *)

Lemma get_setAll_In {V} (x : string) (r : V) (writes : list (string * V))
    (m : Js.Map V) :
  Js.get x (Js.setAll writes m) = Some r ->
  Js.get x m = Some r \/ In (x, r) writes.
Proof.
  unfold Js.setAll. revert m.
  induction writes as [| [k v] writes IH]; intros m Hget; simpl in *.
  - left. exact Hget.
  - destruct (IH _ Hget) as [H | H]; [| right; right; exact H].
    destruct (string_dec k x) as [-> | Hne].
    + rewrite get_set_same in H. inversion H; subst. right. left. reflexivity.
    + rewrite get_set_other in H by congruence. left. exact H.
Qed.

Lemma In_set {V} (e : string * V) (k : string) (v : V) (m : Js.Map V) :
  In e (Js.set k v m) -> In e m \/ e = (k, v).
Proof.
  induction m as [| [k' v'] m IH]; simpl.
  - intros [H | []]. right. symmetry. exact H.
  - destruct (String.eqb k' k) eqn:Ek; simpl.
    + apply String.eqb_eq in Ek. subst k'.
      intros [H | H]; [right; symmetry; exact H | left; right; exact H].
    + intros [H | H]; [left; left; exact H |].
      destruct (IH H) as [H' | H']; [left; right; exact H' | right; exact H'].
Qed.

Lemma In_setAll {V} (e : string * V) (writes : list (string * V))
    (m : Js.Map V) :
  In e (Js.setAll writes m) -> In e m \/ In e writes.
Proof.
  unfold Js.setAll. revert m.
  induction writes as [| [k v] writes IH]; intros m H; simpl in *.
  - left. exact H.
  - destruct (IH _ H) as [H' | H']; [| right; right; exact H'].
    apply In_set in H'. destruct H' as [H' | H'];
      [left; exact H' | right; left; symmetry; exact H'].
Qed.

Lemma get_In {V} (x : string) (r : V) (m : Js.Map V) :
  Js.get x m = Some r -> In (x, r) m.
Proof.
  induction m as [| [k v] m IH]; simpl; [discriminate |].
  destruct (String.eqb k x) eqn:Ek.
  - apply String.eqb_eq in Ek. subst k. intros H. inversion H. left. reflexivity.
  - intros H. right. exact (IH H).
Qed.

Lemma get_mergeWrites_In (x : string) (r : BaselineStatus) wl results :
  Js.get x (mergeWrites wl results) = Some r ->
  Js.get x results = Some r \/ exists writes, In writes wl /\ In (x, r) writes.
Proof.
  unfold mergeWrites. revert results.
  induction wl as [| ws wl IH]; intros results Hget; simpl in *.
  - left. exact Hget.
  - destruct (IH _ Hget) as [H | [writes [Hin Hx]]].
    + apply get_setAll_In in H. destruct H as [H | H]; [left; exact H |].
      right. exists ws. split; [left; reflexivity |].
      apply In_setAll in H. destruct H as [[] | H]. exact H.
    + right. exists writes. split; [right; exact Hin | exact Hx].
Qed.

Lemma responseWrites_In (features : list Json) (ids : list string)
    (x : string) (r : BaselineStatus) :
  In (x, r) (responseWrites features ids) ->
  r = unknownStatus \/
  exists feature,
    In feature features /\ featureId feature = x /\ featureStatus feature = r.
Proof.
  unfold responseWrites. cbv zeta. intros H.
  apply in_app_or in H. destruct H as [H | H].
  - apply in_map_iff in H. destruct H as [f [Heq Hin]].
    inversion Heq; subst. apply filter_In in Hin. destruct Hin as [Hin _].
    right. exists f. auto.
  - apply in_map_iff in H. destruct H as [id [Heq _]].
    inversion Heq; subst. left. reflexivity.
Qed.

(** X19. Every record in a map that [fetchBaselineStatus] returns is the
    unknown record, the record the cache held for that identifier when the
    call began, or the record of a feature with that identifier in a body the
    authority delivered during the call: the resolver makes up no status. *)
Theorem resolver_reports_only_what_it_was_told :
  forall (E : Env) (featureIds : list string) (w : World)
         (m : Js.Map BaselineStatus) (id : string) (r : BaselineStatus),
    fst (fetchBaselineStatus E featureIds w) = Returned m ->
    Js.get id m = Some r ->
    r = unknownStatus \/ Js.get id (cache w) = Some r \/
    statedBy E (tick w) id r.
Proof.
  intros E ids w m id r Hret Hget.
  assert (Hcached : Js.get id (Js.setAll (cachedEntries (cache w) ids) []) = Some r ->
                    Js.get id (cache w) = Some r).
  { intros H. apply get_setAll_In in H. destruct H as [H | H]; [discriminate |].
    exact (proj2 (cachedEntries_sound (cache w) ids id r H)). }
  destruct (fetchBaselineStatus_cases E ids (tick w) w (Nat.le_refl _))
    as [(_ & Hfst & _) | [(_ & Hfst & _) | (_ & wl & Hall & _ & Hfst)]].
  - rewrite Hfst in Hret. inversion Hret; subst m. right. left. auto.
  - rewrite Hfst in Hret. discriminate.
  - destruct Hfst as [Hfst | [Hfst _]]; rewrite Hfst in Hret; [| discriminate].
    inversion Hret; subst m.
    apply get_mergeWrites_In in Hget.
    destruct Hget as [H | [writes [Hin Hx]]]; [right; left; auto |].
    destruct (Forall2_In_r _ _ _ _ Hall Hin) as [batch [_ Hok]].
    destruct Hok as [-> | [features [Hout ->]]].
    + left. unfold failureWrites in Hx. apply in_map_iff in Hx.
      destruct Hx as [id' [Heq _]]. inversion Heq. reflexivity.
    + apply responseWrites_In in Hx.
      destruct Hx as [-> | [f [Hf [Hid Hst]]]]; [left; reflexivity |].
      simpl in Hout. destruct Hout as [-> | (k & st & txt & data & Hk & Hfetch & ->)];
        [contradiction |].
      right. right. exists k, st, txt, data. split; [exact Hk |].
      split; [exact Hfetch |]. exists f. auto.
Qed.

Lemma get_setAll_last {V} (x : string) (writes : list (string * V))
    (m : Js.Map V) :
  Js.get x (Js.setAll writes m) =
  match find (fun e => String.eqb (fst e) x) (rev writes) with
  | Some e => Some (snd e)
  | None => Js.get x m
  end.
Proof.
  induction writes as [| [k v] writes IH] using rev_ind; [reflexivity |].
  rewrite setAll_app, rev_app_distr. simpl.
  destruct (String.eqb k x) eqn:Ek.
  - apply String.eqb_eq in Ek. subst k. apply get_set_same.
  - rewrite get_set_other by (intros ->; rewrite String.eqb_refl in Ek; discriminate).
    exact IH.
Qed.

Lemma find_map {A B} (g : A -> B) (p : B -> bool) (l : list A) :
  find p (map g l) = option_map g (find (fun a => p (g a)) l).
Proof.
  induction l as [| a l IH]; simpl; [reflexivity |].
  destruct (p (g a)); [reflexivity | exact IH].
Qed.

Lemma recordIn_found (features : list Json) (id : string) :
  recordIn features id <> None <->
  In id (map featureId (filter usableFeature features)).
Proof.
  unfold recordIn.
  destruct (find _ (rev (filter usableFeature features))) as [f |] eqn:Ef; simpl.
  - split; [intros _ | intros _; discriminate].
    apply find_some in Ef. destruct Ef as [Hin Heq].
    apply String.eqb_eq in Heq. apply in_rev in Hin.
    apply in_map_iff. exists f. auto.
  - split; [intros H; congruence |].
    intros H. apply in_map_iff in H. destruct H as [f [Hid Hin]].
    apply in_rev in Hin.
    pose proof (find_none _ _ Ef f Hin) as Hn. simpl in Hn.
    rewrite Hid, String.eqb_refl in Hn. discriminate.
Qed.

(** What the [set] calls of a successful batch leave for [id]. *)
Lemma get_responseWrites (features : list Json) (batch : list string)
    (id : string) (m : Js.Map BaselineStatus) :
  Js.get id (Js.setAll (responseWrites features batch) m) =
  match recordIn features id with
  | Some r => Some r
  | None => if in_dec string_dec id batch then Some unknownStatus
            else Js.get id m
  end.
Proof.
  unfold responseWrites. cbv zeta. rewrite setAll_app.
  set (usable := filter usableFeature features).
  set (A := map (fun feature => (featureId feature, featureStatus feature)) usable).
  set (B := map (fun id0 => (id0, unknownStatus))
              (filter (fun id0 => negb (Js.setHas id0 (map featureId usable))) batch)).
  assert (HA : Js.get id (Js.setAll A m) =
               match recordIn features id with
               | Some r => Some r
               | None => Js.get id m
               end).
  { rewrite get_setAll_last. unfold recordIn. fold usable.
    subst A. rewrite <- map_rev, find_map. simpl.
    destruct (find _ (rev usable)); reflexivity. }
  pose proof (recordIn_found features id) as Hfound. fold usable in Hfound.
  destruct (recordIn features id) as [r |] eqn:Er.
  - rewrite get_setAll_other; [exact HA |].
    subst B. rewrite map_map. simpl. rewrite map_id.
    intros H. apply filter_In in H. destruct H as [_ H].
    apply negb_true_iff in H.
    assert (Js.setHas id (map featureId usable) = true)
      by (apply setHas_In; apply Hfound; discriminate).
    congruence.
  - assert (Hnot : ~ In id (map featureId usable))
      by (intros H; apply Hfound in H; congruence).
    destruct (in_dec string_dec id batch) as [Hin | Hnin].
    + apply get_setAll_const.
      * intros e He. subst B. apply in_map_iff in He.
        destruct He as [x [<- _]]. reflexivity.
      * subst B. rewrite map_map. simpl. rewrite map_id.
        apply filter_In. split; [exact Hin |].
        apply negb_true_iff. destruct (Js.setHas id (map featureId usable)) eqn:Eh;
          [| reflexivity].
        apply setHas_In in Eh. contradiction.
    + rewrite get_setAll_other; [exact HA |].
      subst B. rewrite map_map. simpl. rewrite map_id.
      intros H. apply filter_In in H. destruct H as [H _]. contradiction.
Qed.

Lemma get_setAll_map {V} (x : string) (m1 acc : Js.Map V) :
  NoDup (Js.keys m1) ->
  Js.get x (Js.setAll m1 acc) =
  match Js.get x m1 with
  | Some v => Some v
  | None => Js.get x acc
  end.
Proof.
  intros Hnd. destruct (Js.get x m1) as [v |] eqn:Eg.
  - apply get_In in Eg. revert acc.
    unfold Js.setAll.
    induction m1 as [| [k v'] m1 IH]; intros acc; simpl in *; [contradiction |].
    inversion Hnd as [| ? ? Hk Hnd']; subst.
    destruct Eg as [Heq | Hin].
    + inversion Heq; subst.
      fold (Js.setAll m1 (Js.set x v acc)).
      rewrite get_setAll_other by exact Hk.
      apply get_set_same.
    + apply IH; assumption.
  - apply get_setAll_other. intros Hin.
    apply has_In in Hin. unfold Js.has in Hin. rewrite Eg in Hin. discriminate.
Qed.

Lemma get_merge_responseWrites (features : list Json)
    (batches : list (list string)) (results : Js.Map BaselineStatus)
    (id : string) :
  batches <> [] ->
  Js.get id (mergeWrites (map (responseWrites features) batches) results) =
  match recordIn features id with
  | Some r => Some r
  | None => if in_dec string_dec id (concat batches) then Some unknownStatus
            else Js.get id results
  end.
Proof.
  intros Hne.
  assert (Hgen : forall bs res,
             Js.get id (mergeWrites (map (responseWrites features) bs) res) =
             match recordIn features id with
             | Some r => match bs with [] => Js.get id res | _ => Some r end
             | None => if in_dec string_dec id (concat bs) then Some unknownStatus
                       else Js.get id res
             end).
  { intros bs. induction bs as [| b bs IH] using rev_ind; intros res.
    - simpl. destruct (recordIn features id); reflexivity.
    - rewrite map_app, mergeWrites_app. simpl map. unfold mergeWrites at 1.
      simpl fold_left.
      rewrite get_setAll_map by (apply NoDup_keys_setAll; constructor).
      rewrite get_responseWrites. simpl Js.get.
      rewrite IH. rewrite concat_app. simpl concat. rewrite app_nil_r.
      destruct (recordIn features id) as [r |].
      + destruct (bs ++ [b])%list eqn:E; [destruct bs; discriminate | reflexivity].
      + destruct (in_dec string_dec id b) as [Hb | Hb].
        * destruct (in_dec string_dec id (concat bs ++ b)) as [H | H];
            [reflexivity | exfalso; apply H; apply in_or_app; right; exact Hb].
        * destruct (in_dec string_dec id (concat bs)) as [Hc | Hc];
            destruct (in_dec string_dec id (concat bs ++ b)) as [H | H];
            try reflexivity.
          -- exfalso. apply H. apply in_or_app. left. exact Hc.
          -- exfalso. apply in_app_or in H. tauto. }
  rewrite Hgen. destruct (recordIn features id); [| reflexivity].
  destruct batches; [congruence | reflexivity].
Qed.

Lemma buildQuery_some (batch : list string) :
  batch <> [] -> Forall queryable batch -> buildQuery batch <> None.
Proof.
  intros Hne Hall. unfold buildQuery. cbv zeta.
  destruct batch as [| id rest]; [congruence |].
  inversion Hall as [| ? ? Hid _]; subst. unfold queryable in Hid.
  assert (Hn : Js.nonEmpty id = true).
  { destruct id; [simpl in Hid; discriminate | reflexivity]. }
  simpl. rewrite Hn. simpl. rewrite Hid. discriminate.
Qed.

Section Healthy.

Variable E : Env.

Variables (st : Z) (txt : string) (data : Json).

Hypothesis Hfetch : forall k, fetch E k = Responds st txt (Parsed data).

Hypothesis Hok : okStatus st = true.

Hypothesis Hvalid : isValidResponse data = true.

Lemma shouldAllowRequestM_pass (w : World) :
  state (circuitBreakerState w) <> open ->
  shouldAllowRequestM E w =
  (true, {| cache := cache w;
            circuitBreakerState := circuitBreakerState w;
            cacheStats := cacheStats w;
            tick := S (tick w);
            sent := sent w |}).
Proof.
  intros Hst. unfold shouldAllowRequestM, bind, dateNow, shouldAllowRequest.
  simpl. destruct (state (circuitBreakerState w)); [| congruence |]; reflexivity.
Qed.

Lemma attempt_healthy retries again (batch : list string) (q : string)
    (w : World) :
  batch <> [] -> buildQuery batch = Some q ->
  state (circuitBreakerState w) <> open ->
  attempt E retries again batch w =
  (Returned (responseData data), afterSuccess batch q w).
Proof.
  intros Hne Hq Hst. unfold attempt.
  unfold bind at 1. rewrite (shouldAllowRequestM_pass w Hst).
  cbn [negb]. cbv beta iota.
  destruct batch as [| id0 rest]; [congruence |].
  rewrite Hq. unfold fetchWithTimeout, bind, doFetch. simpl.
  rewrite Hfetch. unfold ret. rewrite Hok. simpl.
  rewrite Hvalid. simpl. reflexivity.
Qed.

Lemma processBatch_healthy (batch : list string) (w : World) :
  batch <> [] -> buildQuery batch <> None ->
  state (circuitBreakerState w) <> open ->
  exists q,
    buildQuery batch = Some q /\
    processBatch E batch w =
    (Js.setAll (responseWrites (responseData data) batch) [],
     {| cache := Js.setAll (responseWrites (responseData data) batch) (cache w);
        circuitBreakerState := recordSuccess (circuitBreakerState w);
        cacheStats := cacheStats w;
        tick := S (S (tick w));
        sent := (sent w ++ [(batch, q)])%list |}).
Proof.
  intros Hne Hq Hst. destruct (buildQuery batch) as [q |] eqn:Eq; [| congruence].
  exists q. split; [reflexivity |].
  rewrite processBatch_eq by exact Hne.
  unfold fetchFeaturesBatch, MAX_RETRIES. cbn [fetchFeaturesBatchFrom].
  rewrite (attempt_healthy _ _ batch q w Hne Eq Hst). reflexivity.
Qed.

Lemma recordSuccess_twice cb : recordSuccess (recordSuccess cb) = recordSuccess cb.
Proof. reflexivity. Qed.

Lemma answered_trans b1 b2 w1 w2 w3 :
  answered (responseData data) b1 w1 w2 ->
  answered (responseData data) b2 w2 w3 ->
  answered (responseData data) (b1 ++ b2) w1 w3.
Proof.
  intros (C1 & S1 & B1 & N1 & x1 & X1 & M1 & F1)
         (C2 & S2 & B2 & N2 & x2 & X2 & M2 & F2).
  unfold answered. split; [| split; [| split; [| split]]].
  - rewrite C2, C1, map_app, concat_app, setAll_app. reflexivity.
  - exact S2.
  - intros Hne. destruct b2 as [| b b2'].
    + rewrite app_nil_r in Hne. rewrite (N2 eq_refl). apply B1. exact Hne.
    + rewrite B2 by discriminate. destruct b1 as [| a b1'].
      * rewrite (N1 eq_refl). reflexivity.
      * rewrite B1 by discriminate. reflexivity.
  - intros Hnil. apply app_eq_nil in Hnil. destruct Hnil as [-> ->].
    rewrite (N2 eq_refl). apply N1. reflexivity.
  - exists (x1 ++ x2)%list. split; [rewrite X2, X1, app_assoc; reflexivity |].
    split; [rewrite map_app, M1, M2; reflexivity | apply Forall_app; auto].
Qed.

Lemma runGroup_healthy (group : list (list string)) (w : World) :
  Forall askable group ->
  state (circuitBreakerState w) <> open ->
  map fst (fst (runGroup E group w)) =
    map (fun b => Js.setAll (responseWrites (responseData data) b) []) group /\
  answered (responseData data) group w (snd (runGroup E group w)).
Proof.
  revert w. induction group as [| batch rest IH]; intros w Hall Hst.
  - simpl. split; [reflexivity |].
    unfold answered. simpl. split; [reflexivity |].
    split; [exact Hst | split; [congruence | split; [reflexivity |]]].
    exists []. rewrite app_nil_r. auto.
  - rewrite runGroup_eq.
    pose proof (Forall_inv Hall) as [Hne Hq].
    pose proof (Forall_inv_tail Hall) as Hrest.
    destruct (processBatch_healthy batch w Hne Hq Hst) as [q [Eq Hp]].
    rewrite Hp.
    match goal with
    | |- context [runGroup E rest ?w1] =>
        assert (S1 : state (circuitBreakerState w1) <> open)
          by (simpl; discriminate);
        destruct (IH w1 Hrest S1) as [Hm Ha];
        assert (A1 : answered (responseData data) [batch] w w1);
        [| destruct (runGroup E rest w1) as [rs w2] ]
    end.
    { unfold answered. cbn [cache circuitBreakerState sent map concat].
      rewrite app_nil_r.
      split; [reflexivity | split; [simpl; discriminate |]].
      split; [reflexivity | split; [discriminate |]].
      exists [(batch, q)]. simpl. auto. }
    cbn [fst snd] in *. split.
    + simpl. f_equal. exact Hm.
    + exact (answered_trans [batch] rest _ _ _ A1 Ha).
Qed.

Lemma runGroups_healthy (groups : list (list (list string)))
    (results : Js.Map BaselineStatus) (flag : bool) (w : World) :
  Forall askable (concat groups) ->
  state (circuitBreakerState w) <> open ->
  fst (fst (runGroups E groups results flag w)) =
    mergeWrites (map (responseWrites (responseData data)) (concat groups))
      results /\
  answered (responseData data) (concat groups) w
    (snd (runGroups E groups results flag w)).
Proof.
  revert results flag w.
  induction groups as [| group rest IH]; intros results flag w Hall Hst.
  - simpl. split; [reflexivity |].
    unfold answered. simpl. split; [reflexivity |].
    split; [exact Hst | split; [congruence | split; [reflexivity |]]].
    exists []. rewrite app_nil_r. auto.
  - rewrite runGroups_eq. cbn [concat] in *.
    apply Forall_app in Hall. destruct Hall as [Hg Hr].
    destruct (runGroup_healthy group w Hg Hst) as [Hm Ha].
    destruct (runGroup E group w) as [brs w1]. cbn [fst snd] in Hm, Ha.
    assert (S1 : state (circuitBreakerState w1) <> open)
      by (destruct Ha as (_ & S & _); exact S).
    destruct (IH (mergeInto results brs) (flag || existsb snd brs) w1 Hr S1)
      as [Hres Hans].
    split.
    + rewrite Hres, map_app, mergeWrites_app.
      rewrite (mergeInto_mergeWrites brs
                 (map (responseWrites (responseData data)) group) results).
      * reflexivity.
      * rewrite Hm, map_map. reflexivity.
    + exact (answered_trans _ _ _ _ _ Ha Hans).
Qed.

End Healthy.

Lemma get_concat_responseWrites (features : list Json)
    (batches : list (list string)) (c : Js.Map BaselineStatus) (id : string) :
  batches <> [] ->
  Js.get id (Js.setAll (concat (map (responseWrites features) batches)) c) =
  match recordIn features id with
  | Some r => Some r
  | None => if in_dec string_dec id (concat batches) then Some unknownStatus
            else Js.get id c
  end.
Proof.
  intros Hne.
  assert (Hgen : forall bs,
             Js.get id (Js.setAll (concat (map (responseWrites features) bs)) c) =
             match recordIn features id with
             | Some r => match bs with [] => Js.get id c | _ => Some r end
             | None => if in_dec string_dec id (concat bs) then Some unknownStatus
                       else Js.get id c
             end).
  { intros bs. induction bs as [| b bs IH] using rev_ind.
    - simpl. destruct (recordIn features id); reflexivity.
    - rewrite map_app, concat_app, setAll_app. simpl concat.
      rewrite app_nil_r, get_responseWrites, IH.
      rewrite concat_app. simpl concat. rewrite app_nil_r.
      destruct (recordIn features id) as [r |].
      + destruct (bs ++ [b])%list eqn:E; [destruct bs; discriminate | reflexivity].
      + destruct (in_dec string_dec id b) as [Hb | Hb].
        * destruct (in_dec string_dec id (concat bs ++ b)) as [H | H];
            [reflexivity | exfalso; apply H; apply in_or_app; right; exact Hb].
        * destruct (in_dec string_dec id (concat bs)) as [Hc | Hc];
            destruct (in_dec string_dec id (concat bs ++ b)) as [H | H];
            try reflexivity.
          -- exfalso. apply H. apply in_or_app. left. exact Hc.
          -- exfalso. apply in_app_or in H. tauto. }
  rewrite Hgen. destruct (recordIn features id); [| reflexivity].
  destruct batches; [congruence | reflexivity].
Qed.

Lemma shouldAllowRequest_leaves_not_open (now : Z) (cb : CircuitBreaker) :
  fst (shouldAllowRequest now cb) = true ->
  state (snd (shouldAllowRequest now cb)) <> open.
Proof.
  unfold shouldAllowRequest.
  destruct (state cb) eqn:Es; simpl.
  - intros _. congruence.
  - destruct (now - lastFailureTime cb >? CIRCUIT_BREAKER_TIMEOUT); simpl;
      [discriminate | discriminate].
  - intros _. congruence.
Qed.

Lemma shouldAllowRequestM_run (E : Env) (w : World) :
  shouldAllowRequestM E w =
  (fst (shouldAllowRequest (Date_now E (tick w)) (circuitBreakerState w)),
   {| cache := cache w;
      circuitBreakerState :=
        snd (shouldAllowRequest (Date_now E (tick w)) (circuitBreakerState w));
      cacheStats := cacheStats w;
      tick := S (tick w);
      sent := sent w |}).
Proof.
  unfold shouldAllowRequestM, bind, dateNow. simpl.
  destruct (shouldAllowRequest (Date_now E (tick w)) (circuitBreakerState w)).
  reflexivity.
Qed.

(** X20. When the breaker lets the call through and the authority answers
    every request with the same accepted body, a call with at least one
    uncached identifier returns a map (it does not throw) in which every
    requested identifier has the record the body carries for it (the last
    one, if there are several), else the record it had in the cache, else
    unknown; the cache ends with the same records, each batch was requested
    exactly once, and the breaker is closed with no failure counted. *)
Theorem accepted_answers_are_returned_and_cached :
  forall (E : Env) (st : Z) (txt : string) (data : Json)
         (featureIds : list string) (w : World),
    (forall k, fetch E k = Responds st txt (Parsed data)) ->
    okStatus st = true ->
    isValidResponse data = true ->
    fst (shouldAllowRequest (Date_now E (tick w)) (circuitBreakerState w)) = true ->
    uncached (cache w) featureIds <> [] ->
    Forall queryable (uncached (cache w) featureIds) ->
    let r := fetchBaselineStatus E featureIds w in
    (exists m,
        fst r = Returned m /\
        forall id, In id featureIds ->
          Js.get id m = Some (resolution (responseData data) (cache w) id) /\
          Js.get id (cache (snd r)) =
            Some (resolution (responseData data) (cache w) id)) /\
    (exists extra,
        sent (snd r) = (sent w ++ extra)%list /\
        map fst extra = slices BATCH_SIZE (uncached (cache w) featureIds) /\
        Forall (fun e => buildQuery (fst e) = Some (snd e)) extra) /\
    state (circuitBreakerState (snd r)) = closed /\
    failureCount (circuitBreakerState (snd r)) = 0.
Proof.
  intros E st txt data ids w Hfetch Hok Hvalid Hallow Hne Hq.
  cbv zeta. unfold fetchBaselineStatus, bind.
  destruct (checkCache_spec ids [] [] w) as (Hfst & Hc & Hb & Htick & Hs).
  destruct (checkCache ids [] [] w) as [[results tf] w0].
  simpl in Hfst, Hc, Hb, Htick, Hs. inversion Hfst; subst results tf.
  clear Hfst.
  set (results0 := Js.setAll (cachedEntries (cache w) ids) []) in *.
  destruct (uncached (cache w) ids) as [| id0 rest] eqn:Etf; [congruence |].
  rewrite <- Etf in *. set (toFetch := uncached (cache w) ids) in *.
  set (batches := slices BATCH_SIZE toFetch).
  assert (Hbatches : batches <> []).
  { intros Hnil.
    pose proof (concat_slices BATCH_SIZE toFetch) as Hcs.
    fold batches in Hcs. rewrite Hnil in Hcs. simpl in Hcs.
    apply Hne. symmetry. apply Hcs. unfold BATCH_SIZE. lia. }
  assert (Hask : Forall askable (concat (slices maxConcurrent batches))).
  { rewrite concat_slices by (unfold maxConcurrent; lia).
    apply Forall_forall. intros b Hin.
    assert (Hb0 : b <> []).
    { pose proof (slices_lengths BATCH_SIZE toFetch b) as Hl.
      intros ->. simpl in Hl.
      assert (0 < 0 <= BATCH_SIZE)%nat
        by (apply Hl; [unfold BATCH_SIZE; lia | exact Hin]).
      lia. }
    split; [exact Hb0 |].
    apply buildQuery_some; [exact Hb0 |].
    apply Forall_forall. intros id Hid.
    apply (proj1 (Forall_forall _ _) Hq).
    exact (slices_incl BATCH_SIZE toFetch b Hin id Hid). }
  rewrite shouldAllowRequestM_run, Hb, Htick.
  pose proof (shouldAllowRequest_leaves_not_open _ _ Hallow) as Hst1.
  rewrite Hallow. cbn [negb]. cbv beta iota.
  match goal with
  | |- context [runGroups E ?g ?res ?fl ?w1] =>
      assert (S1 : state (circuitBreakerState w1) <> open) by exact Hst1;
      destruct (runGroups_healthy E st txt data Hfetch Hok Hvalid g res fl w1
                  Hask S1) as [Hres Hans];
      assert (Hc1 : cache w1 = cache w) by (simpl; exact Hc);
      assert (Hs1 : sent w1 = sent w) by (simpl; exact Hs);
      destruct (runGroups E g res fl w1) as [[results' flag] w2]
  end.
  cbn [fst snd] in Hres, Hans.
  rewrite concat_slices in Hres, Hans by (unfold maxConcurrent; lia).
  destruct Hans as (C2 & S2 & B2 & _ & x & X & Mx & Fx).
  specialize (B2 Hbatches).
  assert (Hcount : failureCount (circuitBreakerState w2) = 0)
    by (rewrite B2; reflexivity).
  assert (Hclosed : state (circuitBreakerState w2) = closed)
    by (rewrite B2; reflexivity).
  rewrite Hcount. rewrite andb_false_r. cbn [fst snd].
  split; [| split; [| split; [exact Hclosed | exact Hcount]]].
  - exists results'. split; [reflexivity |].
    intros id Hin.
    assert (Hconcat : concat batches = toFetch)
      by (apply concat_slices; unfold BATCH_SIZE; lia).
    assert (Hcase : match recordIn (responseData data) id with
                    | Some r => Some r
                    | None => if in_dec string_dec id (concat batches)
                              then Some unknownStatus
                              else Js.get id (cache w)
                    end = Some (resolution (responseData data) (cache w) id) /\
                    (~ In id (concat batches) ->
                     Js.get id results0 = Js.get id (cache w))).
    { unfold resolution. rewrite Hconcat.
      destruct (Js.get id (cache w)) as [c |] eqn:Eg.
      - assert (Hnin : ~ In id toFetch).
        { intros H. apply uncached_In in H. destruct H as [_ H].
          unfold Js.has in H. rewrite Eg in H. discriminate. }
        split.
        + destruct (recordIn (responseData data) id); [reflexivity |].
          destruct (in_dec string_dec id toFetch); [contradiction | reflexivity].
        + intros _. subst results0. apply results0_get; assumption.
      - assert (Hin' : In id toFetch).
        { apply uncached_In. split; [exact Hin |].
          unfold Js.has. rewrite Eg. reflexivity. }
        split.
        + destruct (recordIn (responseData data) id); [reflexivity |].
          destruct (in_dec string_dec id toFetch); [reflexivity | contradiction].
        + intros H. contradiction. }
    destruct Hcase as [Hcase Hres0]. split.
    + rewrite Hres, get_merge_responseWrites by exact Hbatches.
      rewrite <- Hcase.
      destruct (recordIn (responseData data) id); [reflexivity |].
      destruct (in_dec string_dec id (concat batches)); [reflexivity |].
      apply Hres0. assumption.
    + rewrite C2, Hc1, get_concat_responseWrites by exact Hbatches.
      exact Hcase.
  - exists x. rewrite X, Hs1. auto.
Qed.

Lemma recordFailure_inStep (now : Z) (cb : CircuitBreaker) :
  breakerInStep cb -> breakerInStep (recordFailure now cb).
Proof.
  unfold breakerInStep, recordFailure, CIRCUIT_BREAKER_THRESHOLD. simpl.
  intros H. rewrite H.
  destruct (failureCount cb + 1 >=? 5) eqn:E1; [reflexivity |].
  destruct (failureCount cb >=? 5) eqn:E2; [lia | reflexivity].
Qed.

Lemma failedRun_trans n1 n2 k1 k2 batch q w1 w2 w3 :
  failedRun n1 k1 batch q w1 w2 -> failedRun n2 k2 batch q w2 w3 ->
  failedRun (n1 + n2) (k1 + k2) batch q w1 w3.
Proof.
  intros (C1 & S1 & X1 & F1 & I1) (C2 & S2 & X2 & F2 & I2).
  unfold failedRun. repeat split; try congruence.
  - rewrite X2, X1, repeat_app, app_assoc. reflexivity.
  - lia.
Qed.

Section FailedBatch.

Variable E : Env.

Variable reply : Reply.

Variable err : JsError.

Variables (batch : list string) (q : string).

Hypothesis Hfetch : forall k, fetch E k = reply.

Hypothesis Hcaught : caughtError reply = Some err.

Hypothesis Hretried : retried err = true.

Hypothesis Hne : batch <> [].

Hypothesis Hq : buildQuery batch = Some q.

Lemma recordFailureM_run (w : World) :
  breakerInStep (circuitBreakerState w) ->
  failedRun 0 1 batch q w (snd (recordFailureM E w)).
Proof.
  intros HI. unfold recordFailureM, bind, dateNow, failedRun. simpl.
  rewrite app_nil_r. repeat split. apply recordFailure_inStep. exact HI.
Qed.

Lemma shouldAllowRequestM_closed (w : World) :
  breakerInStep (circuitBreakerState w) ->
  failureCount (circuitBreakerState w) < CIRCUIT_BREAKER_THRESHOLD ->
  fst (shouldAllowRequestM E w) = true /\
  failedRun 0 0 batch q w (snd (shouldAllowRequestM E w)).
Proof.
  intros HI Hlt. rewrite shouldAllowRequestM_run. cbn [fst snd].
  unfold breakerInStep in HI.
  destruct (failureCount (circuitBreakerState w) >=? CIRCUIT_BREAKER_THRESHOLD)
    eqn:Ege; [lia |].
  unfold shouldAllowRequest. rewrite HI. cbn [fst snd].
  split; [reflexivity |]. unfold failedRun. cbn.
  rewrite app_nil_r, Z.add_0_r. repeat split.
  unfold breakerInStep. rewrite Ege. exact HI.
Qed.

Lemma catchBlock_last (retries : Z) (e : JsError) (w : World) :
  retried e = true ->
  breakerInStep (circuitBreakerState w) ->
  isThrown (fst (catchBlock E retries None e w)) /\
  failedRun 0 1 batch q w (snd (catchBlock E retries None e w)).
Proof.
  intros Hr HI. unfold catchBlock, retried in *.
  destruct (String.eqb (name e) "AbortError" || Js.includes (message e) "timeout").
  - unfold bind. pose proof (recordFailureM_run w HI) as H.
    destruct (recordFailureM E w) as [u w1]. simpl. split; [exact I | exact H].
  - simpl in Hr. apply negb_true_iff in Hr. rewrite Hr.
    unfold bind. pose proof (recordFailureM_run w HI) as H.
    destruct (recordFailureM E w) as [u w1]. simpl. split; [exact I | exact H].
Qed.

Lemma catchBlock_retry (retries : Z) (retry : M (Outcome (list Json)))
    (e : JsError) :
  retried e = true -> catchBlock E retries (Some retry) e = retry.
Proof.
  intros Hr. unfold catchBlock, retried in *.
  destruct (String.eqb (name e) "AbortError" || Js.includes (message e) "timeout");
    [reflexivity |].
  simpl in Hr. apply negb_true_iff in Hr. rewrite Hr. reflexivity.
Qed.

Lemma fetchWithTimeout_run (w : World) :
  fetchWithTimeout E batch q w =
  (match reply with
   | Rejects e =>
       inl (if String.eqb (name e) "AbortError"
            then Error "Request timeout after 5000ms" else e)
   | Responds st txt body => inr (st, txt, body)
   end,
   {| cache := cache w;
      circuitBreakerState := circuitBreakerState w;
      cacheStats := cacheStats w;
      tick := S (tick w);
      sent := (sent w ++ [(batch, q)])%list |}).
Proof.
  unfold fetchWithTimeout, bind, doFetch. rewrite Hfetch.
  destruct reply as [e | st txt body]; [| reflexivity].
  destruct (String.eqb (name e) "AbortError"); reflexivity.
Qed.

Lemma attempt_last (w : World) :
  breakerInStep (circuitBreakerState w) ->
  failureCount (circuitBreakerState w) < CIRCUIT_BREAKER_THRESHOLD ->
  let r := attempt E (Z.of_nat MAX_RETRIES) None batch w in
  isThrown (fst r) /\ failedRun 1 (recordedAtLast reply + 1) batch q w (snd r).
Proof.
  intros HI Hlt. cbv zeta. unfold attempt, bind.
  destruct (shouldAllowRequestM_closed w HI Hlt) as [Ha Hrun0].
  destruct (shouldAllowRequestM E w) as [allowed w1]. simpl in Ha, Hrun0.
  subst allowed. cbn [negb]. cbv beta iota.
  destruct batch as [| id0 rest] eqn:Eb; [congruence |]. rewrite <- Eb in *.
  rewrite Hq, fetchWithTimeout_run.
  set (w2 := {| cache := cache w1;
                circuitBreakerState := circuitBreakerState w1;
                cacheStats := cacheStats w1;
                tick := S (tick w1);
                sent := (sent w1 ++ [(batch, q)])%list |}).
  assert (Hrun1 : failedRun 1 0 batch q w w2).
  { apply (failedRun_trans 0 1 0 0 batch q w w1 w2 Hrun0).
    unfold failedRun, w2. cbn. rewrite Z.add_0_r.
    repeat split. destruct Hrun0 as (_ & _ & _ & _ & HI1). exact HI1. }
  assert (HI2 : breakerInStep (circuitBreakerState w2))
    by (destruct Hrun1 as (_ & _ & _ & _ & H); exact H).
  assert (Hfail : forall e, retried e = true ->
             let r := let (_, w') := recordFailureM E w2 in
                      catchBlock E (Z.of_nat MAX_RETRIES) None e w' in
             isThrown (fst r) /\ failedRun 1 (1 + 1) batch q w (snd r)).
  { intros e He. cbv zeta.
    pose proof (recordFailureM_run w2 HI2) as H3.
    destruct (recordFailureM E w2) as [u w3]. simpl in H3.
    assert (HI3 : breakerInStep (circuitBreakerState w3))
      by (destruct H3 as (_ & _ & _ & _ & H); exact H).
    destruct (catchBlock_last (Z.of_nat MAX_RETRIES) e w3 He HI3) as [Ht H4].
    split; [exact Ht |].
    pose proof (failedRun_trans _ _ _ _ _ _ _ _ _ H3 H4) as H34.
    exact (failedRun_trans 1 0 0 (1 + 1) batch q w w2 _ Hrun1 H34). }
  unfold recordedAtLast. unfold caughtError in Hcaught.
  destruct reply as [e | st txt body].
  - injection Hcaught as He. cbv beta iota. rewrite He.
    destruct (catchBlock_last (Z.of_nat MAX_RETRIES) err w2 Hretried HI2)
      as [Ht H3].
    split; [exact Ht |].
    exact (failedRun_trans 1 0 0 1 batch q w w2 _ Hrun1 H3).
  - cbv beta iota.
    destruct (okStatus st) eqn:Eok; cbn [negb] in *; cbv beta iota.
    + destruct body as [parseErr | data].
      * apply Hfail. congruence.
      * destruct (isValidResponse data) eqn:Ev; [discriminate |].
        cbn [negb]. cbv beta iota.
        apply Hfail. congruence.
    + destruct (st =? 429).
      * apply Hfail. congruence.
      * destruct (st >=? 500);
          apply Hfail; congruence.
Qed.

Lemma attempt_retry (retries : Z) (retry : M (Outcome (list Json)))
    (w : World) :
  breakerInStep (circuitBreakerState w) ->
  failureCount (circuitBreakerState w) < CIRCUIT_BREAKER_THRESHOLD ->
  exists w2,
    failedRun 1 (recordedPerRetry reply) batch q w w2 /\
    attempt E retries (Some retry) batch w = retry w2.
Proof.
  intros HI Hlt. unfold attempt, bind.
  destruct (shouldAllowRequestM_closed w HI Hlt) as [Ha Hrun0].
  destruct (shouldAllowRequestM E w) as [allowed w1]. simpl in Ha, Hrun0.
  subst allowed. cbn [negb]. cbv beta iota.
  destruct batch as [| id0 rest] eqn:Eb; [congruence |]. rewrite <- Eb in *.
  rewrite Hq, fetchWithTimeout_run.
  set (w2 := {| cache := cache w1;
                circuitBreakerState := circuitBreakerState w1;
                cacheStats := cacheStats w1;
                tick := S (tick w1);
                sent := (sent w1 ++ [(batch, q)])%list |}).
  assert (Hrun1 : failedRun 1 0 batch q w w2).
  { apply (failedRun_trans 0 1 0 0 batch q w w1 w2 Hrun0).
    unfold failedRun, w2. cbn. rewrite Z.add_0_r.
    repeat split. destruct Hrun0 as (_ & _ & _ & _ & HI1). exact HI1. }
  assert (HI2 : breakerInStep (circuitBreakerState w2))
    by (destruct Hrun1 as (_ & _ & _ & _ & H); exact H).
  assert (Hfail : forall e, retried e = true ->
             exists w3,
               failedRun 1 1 batch q w w3 /\
               (let (_, w') := recordFailureM E w2 in
                catchBlock E retries (Some retry) e w') = retry w3).
  { intros e He.
    pose proof (recordFailureM_run w2 HI2) as H3.
    destruct (recordFailureM E w2) as [u w3]. simpl in H3.
    exists w3. split.
    - exact (failedRun_trans 1 0 0 1 batch q w w2 w3 Hrun1 H3).
    - rewrite catchBlock_retry by exact He. reflexivity. }
  unfold recordedPerRetry. unfold caughtError in Hcaught.
  destruct reply as [e | st txt body].
  - injection Hcaught as He. cbv beta iota. rewrite He.
    exists w2. split; [exact Hrun1 |].
    rewrite catchBlock_retry by exact Hretried. reflexivity.
  - cbv beta iota.
    destruct (okStatus st) eqn:Eok; cbn [negb andb] in *; cbv beta iota.
    + destruct body as [parseErr | data].
      * apply Hfail. congruence.
      * destruct (isValidResponse data) eqn:Ev; [discriminate |].
        cbn [negb]. cbv beta iota. apply Hfail. congruence.
    + destruct (st =? 429); cbn [orb]; cbv beta iota.
      * exists w2. split; [exact Hrun1 | reflexivity].
      * destruct (st >=? 500).
        -- exists w2. split; [exact Hrun1 | reflexivity].
        -- apply Hfail. congruence.
Qed.

Lemma fetchFeaturesBatchFrom_failed (remaining : nat) (w : World) :
  (remaining <= MAX_RETRIES)%nat ->
  breakerInStep (circuitBreakerState w) ->
  failureCount (circuitBreakerState w) +
    recordedPerRetry reply * Z.of_nat remaining < CIRCUIT_BREAKER_THRESHOLD ->
  let r := fetchFeaturesBatchFrom E remaining batch w in
  isThrown (fst r) /\
  failedRun (S remaining)
    (recordedPerRetry reply * Z.of_nat remaining + recordedAtLast reply + 1)
    batch q w (snd r).
Proof.
  assert (Hper : 0 <= recordedPerRetry reply).
  { unfold recordedPerRetry. destruct reply as [e | st txt body]; [lia |].
    destruct (negb (okStatus st) && ((st =? 429) || (st >=? 500))); lia. }
  revert w. induction remaining as [| n IH]; intros w Hle HI Hlt; cbv zeta.
  - cbn [fetchFeaturesBatchFrom]. rewrite Nat.sub_0_r.
    destruct (attempt_last w HI ltac:(lia)) as [Ht Hrun].
    split; [exact Ht |].
    replace (recordedPerRetry reply * Z.of_nat 0 + recordedAtLast reply + 1)
      with (recordedAtLast reply + 1) by lia.
    exact Hrun.
  - cbn [fetchFeaturesBatchFrom].
    destruct (attempt_retry (Z.of_nat (MAX_RETRIES - S n))
                (fetchFeaturesBatchFrom E n batch) w HI ltac:(nia))
      as [w2 [Hrun Heq]].
    rewrite Heq.
    assert (HI2 : breakerInStep (circuitBreakerState w2))
      by (destruct Hrun as (_ & _ & _ & _ & H); exact H).
    assert (Hc2 : failureCount (circuitBreakerState w2) =
                  failureCount (circuitBreakerState w) + recordedPerRetry reply)
      by (destruct Hrun as (_ & _ & _ & H & _); exact H).
    destruct (IH w2 ltac:(lia) HI2 ltac:(nia)) as [Ht Hrun2].
    split; [exact Ht |].
    pose proof (failedRun_trans _ _ _ _ _ _ _ _ _ Hrun Hrun2) as H.
    replace (recordedPerRetry reply * Z.of_nat (S n) + recordedAtLast reply + 1)
      with (recordedPerRetry reply +
            (recordedPerRetry reply * Z.of_nat n + recordedAtLast reply + 1))
      by nia.
    exact H.
Qed.

End FailedBatch.

Lemma failuresOf_recorded (reply : Reply) :
  recordedPerRetry reply * Z.of_nat MAX_RETRIES + recordedAtLast reply + 1 =
  failuresOf reply.
Proof.
  unfold recordedPerRetry, recordedAtLast, failuresOf, MAX_RETRIES.
  destruct reply as [e | st txt body]; [reflexivity |].
  destruct (negb (okStatus st) && ((st =? 429) || (st >=? 500))); reflexivity.
Qed.

Lemma slices_single {A} (size : nat) (l : list A) :
  l <> [] -> (length l <= size)%nat -> slices size l = [l].
Proof.
  intros Hne Hle. unfold slices.
  destruct l as [| a l']; [congruence |].
  cbn [length slicesFrom].
  assert (H0 : (0 <? S (length l'))%nat = true) by (apply Nat.ltb_lt; lia).
  cbn [length] in *. rewrite H0. f_equal.
  - unfold Js.slice. rewrite Nat.add_0_l, Nat.sub_0_r. cbn [skipn].
    apply firstn_all2. simpl. lia.
  - destruct (length l') as [| n] eqn:El; [reflexivity |].
    cbn [slicesFrom]. cbn [length]. rewrite El.
    assert (H1 : (0 + size <? S (S n))%nat = false) by (apply Nat.ltb_ge; lia).
    rewrite H1. reflexivity.
Qed.

Lemma allUnknown_failureWrites (batch : list string) :
  allUnknown (Js.setAll (failureWrites batch) []) = true.
Proof.
  unfold allUnknown. apply forallb_forall. intros s Hin.
  unfold Js.values in Hin. apply in_map_iff in Hin.
  destruct Hin as [[k v] [<- Hin]]. simpl.
  apply In_setAll in Hin. destruct Hin as [[] | Hin].
  unfold failureWrites in Hin. apply in_map_iff in Hin.
  destruct Hin as [id [Heq _]]. inversion Heq. reflexivity.
Qed.

(** X21. A call with between 1 and 20 uncached identifiers, made with the
    breaker closed and no failure counted, to an authority whose every reply
    fails the same way: the batch is requested four times, the call throws
    "WebStatus API unreachable", every uncached identifier is cached as
    unknown, and the breaker has counted one failure when the requests did
    not complete, two for a 429 or 5xx status, and five (which opens it) for
    any other error status or a body that cannot be used. *)
Theorem failing_batch_is_tried_four_times :
  forall (E : Env) (reply : Reply) (err : JsError)
         (featureIds : list string) (q : string) (w : World),
    (forall k, fetch E k = reply) ->
    caughtError reply = Some err ->
    retried err = true ->
    state (circuitBreakerState w) = closed ->
    failureCount (circuitBreakerState w) = 0 ->
    uncached (cache w) featureIds <> [] ->
    (length (uncached (cache w) featureIds) <= BATCH_SIZE)%nat ->
    buildQuery (uncached (cache w) featureIds) = Some q ->
    let r := fetchBaselineStatus E featureIds w in
    fst r = Thrown (Error
              "WebStatus API unreachable - multiple request failures") /\
    sent (snd r) =
      (sent w ++ repeat (uncached (cache w) featureIds, q) 4)%list /\
    (forall id, In id (uncached (cache w) featureIds) ->
                Js.get id (cache (snd r)) = Some unknownStatus) /\
    failureCount (circuitBreakerState (snd r)) = failuresOf reply /\
    state (circuitBreakerState (snd r)) =
      (if failuresOf reply =? 5 then open else closed).
Proof.
  intros E reply err ids q w Hfetch Hcaught Hretried Hclosed Hcount Hne Hlen Hq.
  cbv zeta. unfold fetchBaselineStatus, bind.
  destruct (checkCache_spec ids [] [] w) as (Hfst & Hc & Hb & Htick & Hs).
  destruct (checkCache ids [] [] w) as [[results tf] w0].
  simpl in Hfst, Hc, Hb, Htick, Hs. inversion Hfst; subst results tf.
  clear Hfst.
  set (results0 := Js.setAll (cachedEntries (cache w) ids) []) in *.
  destruct (uncached (cache w) ids) as [| id0 rest] eqn:Etf; [congruence |].
  rewrite <- Etf in *. set (toFetch := uncached (cache w) ids) in *.
  rewrite (slices_single BATCH_SIZE toFetch Hne Hlen).
  assert (Hgroups : slices maxConcurrent [toFetch] = [[toFetch]]) by reflexivity.
  rewrite Hgroups.
  assert (HI0 : breakerInStep (circuitBreakerState w0)).
  { unfold breakerInStep. rewrite Hb, Hcount, Hclosed. reflexivity. }
  assert (Hlt0 : failureCount (circuitBreakerState w0) < CIRCUIT_BREAKER_THRESHOLD)
    by (rewrite Hb, Hcount; reflexivity).
  destruct (shouldAllowRequestM_closed E toFetch q w0 HI0 Hlt0) as [Ha Hrun0].
  destruct (shouldAllowRequestM E w0) as [allowed w1]. simpl in Ha, Hrun0.
  subst allowed. cbn [negb]. cbv beta iota.
  rewrite runGroups_eq, runGroup_eq, processBatch_eq by exact Hne.
  destruct Hrun0 as (C1 & S1 & X1 & F1 & I1).
  rewrite app_nil_r in X1. rewrite Z.add_0_r in F1.
  assert (Hlt1 : failureCount (circuitBreakerState w1) +
                 recordedPerRetry reply * Z.of_nat MAX_RETRIES <
                 CIRCUIT_BREAKER_THRESHOLD).
  { rewrite F1, Hb, Hcount. unfold recordedPerRetry, MAX_RETRIES.
    destruct reply as [e | st txt body]; [reflexivity |].
    destruct (negb (okStatus st) && ((st =? 429) || (st >=? 500))); reflexivity. }
  destruct (fetchFeaturesBatchFrom_failed E reply err toFetch q Hfetch Hcaught
              Hretried Hne Hq MAX_RETRIES w1 (Nat.le_refl _) I1 Hlt1)
    as [Ht Hrun].
  fold (fetchFeaturesBatch E toFetch) in Ht, Hrun.
  destruct (fetchFeaturesBatch E toFetch w1) as [o w2].
  cbn [fst snd] in Ht, Hrun.
  destruct o as [features | e]; [contradiction |].
  cbv zeta. cbn [runGroup ret fst snd mergeInto fold_left existsb orb].
  rewrite allUnknown_failureWrites.
  assert (Hlen0 : negb (Nat.eqb (length toFetch) 0) = true).
  { destruct toFetch; [congruence | reflexivity]. }
  rewrite Hlen0. cbn [andb orb runGroups ret circuitBreakerState].
  destruct Hrun as (C2 & S2 & X2 & F2 & I2).
  rewrite failuresOf_recorded in F2. rewrite F1, Hb, Hcount in F2.
  simpl in F2.
  assert (Hpos : (failureCount (circuitBreakerState w2) >? 0) = true).
  { rewrite F2. unfold failuresOf. destruct reply as [e' | st txt body];
      [reflexivity |].
    destruct (negb (okStatus st) && ((st =? 429) || (st >=? 500))); reflexivity. }
  rewrite Hpos. cbn [fst snd cache circuitBreakerState sent].
  split; [reflexivity |].
  split; [rewrite X2, X1, Hs; reflexivity |].
  split; [| split].
  - intros id Hin. apply get_setAll_const.
    + intros kv Hkv. unfold failureWrites in Hkv. apply in_map_iff in Hkv.
      destruct Hkv as [x [<- _]]. reflexivity.
    + unfold failureWrites. rewrite map_map. simpl. rewrite map_id. exact Hin.
  - exact F2.
  - unfold breakerInStep in I2. rewrite I2, F2.
    unfold failuresOf, CIRCUIT_BREAKER_THRESHOLD.
    destruct reply as [e' | st txt body]; [reflexivity |].
    destruct (negb (okStatus st) && ((st =? 429) || (st >=? 500))); reflexivity.
Qed.

Lemma allowed_call_is_not_refused (E : Env) (ids : list string) (w : World) :
  state (circuitBreakerState w) <> open ->
  fst (fetchBaselineStatus E ids w) <>
  Thrown (Error "WebStatus API temporarily unavailable - circuit breaker open").
Proof.
  intros Hst. unfold fetchBaselineStatus, bind.
  destruct (checkCache_spec ids [] [] w) as (Hfst & Hc & Hb & Htick & Hs).
  destruct (checkCache ids [] [] w) as [[results tf] w0].
  simpl in Hfst, Hc, Hb, Htick, Hs. inversion Hfst; subst results tf.
  clear Hfst.
  destruct (uncached (cache w) ids) as [| id0 rest]; [simpl; discriminate |].
  rewrite shouldAllowRequestM_pass by (rewrite Hb; exact Hst).
  cbn [negb]. cbv beta iota.
  match goal with
  | |- context [runGroups E ?g ?res ?fl ?w1] =>
      destruct (runGroups E g res fl w1) as [[results' flag] w2]
  end.
  destruct (flag && (failureCount (circuitBreakerState w2) >? 0));
    simpl; discriminate.
Qed.

(** X22. While the breaker is open and its cool-down has not passed, a call
    with at least one uncached identifier is refused at once: it throws
    "temporarily unavailable", sends no request and leaves cache and breaker
    as they were; the audit then reports every requested identifier as
    unknown, those with a cached status included.  After
    [resetCircuitBreaker] the same call is no longer refused. *)
Theorem open_breaker_refuses_the_call_until_reset :
  forall (E : Env) (featureIds : list string) (w : World),
    state (circuitBreakerState w) = open ->
    Date_now E (tick w) - lastFailureTime (circuitBreakerState w) <=
      CIRCUIT_BREAKER_TIMEOUT ->
    uncached (cache w) featureIds <> [] ->
    let r := fetchBaselineStatus E featureIds w in
    fst r = Thrown (Error
              "WebStatus API temporarily unavailable - circuit breaker open") /\
    sent (snd r) = sent w /\
    cache (snd r) = cache w /\
    circuitBreakerState (snd r) = circuitBreakerState w /\
    (forall id, In id featureIds ->
       Js.get id (fst (auditFetchStatuses E featureIds w)) = Some unknownStatus) /\
    fst (fetchBaselineStatus E featureIds (snd (resetCircuitBreaker (snd r)))) <>
      Thrown (Error
        "WebStatus API temporarily unavailable - circuit breaker open").
Proof.
  intros E ids w Hopen Htime Hne. cbv zeta.
  assert (Hrun : fetchBaselineStatus E ids w =
                 (Thrown (Error
                    "WebStatus API temporarily unavailable - circuit breaker open"),
                  {| cache := cache w;
                     circuitBreakerState := circuitBreakerState w;
                     cacheStats := cacheStats (snd (checkCache ids [] [] w));
                     tick := S (tick w);
                     sent := sent w |})).
  { unfold fetchBaselineStatus, bind.
    destruct (checkCache_spec ids [] [] w) as (Hfst & Hc & Hb & Htick & Hs).
    destruct (checkCache ids [] [] w) as [[results tf] w0].
    simpl in Hfst, Hc, Hb, Htick, Hs. inversion Hfst; subst results tf.
    clear Hfst.
    destruct (uncached (cache w) ids) as [| id0 rest]; [congruence |].
    rewrite shouldAllowRequestM_run, Hb, Htick, Hc, Hs.
    unfold shouldAllowRequest. rewrite Hopen.
    destruct (Date_now E (tick w) - lastFailureTime (circuitBreakerState w) >?
              CIRCUIT_BREAKER_TIMEOUT) eqn:Egt; [lia |].
    reflexivity. }
  rewrite Hrun. cbn [fst snd cache circuitBreakerState sent].
  repeat split.
  - intros id Hin. unfold auditFetchStatuses, bind. rewrite Hrun.
    cbn [fst ret]. apply get_setAll_const.
    + intros kv Hkv. apply in_map_iff in Hkv.
      destruct Hkv as [x [<- _]]. reflexivity.
    + rewrite map_map. simpl. rewrite map_id. exact Hin.
  - apply allowed_call_is_not_refused. simpl. discriminate.
Qed.

Lemma everyChar_app (p : ascii -> bool) (a b : string) :
  everyChar p (a ++ b) = everyChar p a && everyChar p b.
Proof.
  induction a as [| c a IH]; simpl; [reflexivity |].
  rewrite IH. apply andb_assoc.
Qed.

Lemma everyChar_filterChars (p : ascii -> bool) (s : string) :
  everyChar p (Js.filterChars p s) = true.
Proof.
  induction s as [| c s IH]; simpl; [reflexivity |].
  destruct (p c) eqn:Ep; simpl; [rewrite Ep |]; exact IH.
Qed.

Lemma everyChar_weaken (p p' : ascii -> bool) (s : string) :
  (forall c, p c = true -> p' c = true) ->
  everyChar p s = true -> everyChar p' s = true.
Proof.
  intros Hpp. induction s as [| c s IH]; simpl; [reflexivity |].
  intros H. apply andb_true_iff in H. destruct H as [Hc Hs].
  rewrite (Hpp c Hc), (IH Hs). reflexivity.
Qed.

Lemma filterChars_clean (p : ascii -> bool) (s : string) :
  everyChar p s = true -> Js.filterChars p s = s.
Proof.
  induction s as [| c s IH]; simpl; [reflexivity |].
  intros H. apply andb_true_iff in H. destruct H as [Hc Hs].
  rewrite Hc, (IH Hs). reflexivity.
Qed.

Lemma everyChar_join_gen (p : ascii -> bool) (sep : string) (l : list string) :
  everyChar p sep = true ->
  Forall (fun s => everyChar p s = true) l ->
  everyChar p (Js.join sep l) = true.
Proof.
  intros Hsep. induction l as [| s l IH]; intros Hall; [reflexivity |].
  pose proof (Forall_inv Hall) as Hs. pose proof (Forall_inv_tail Hall) as Hl.
  destruct l as [| s' l'].
  - exact Hs.
  - change (Js.join sep (s :: s' :: l')) with (s ++ sep ++ Js.join sep (s' :: l')).
    rewrite !everyChar_app, Hs, Hsep, (IH Hl). reflexivity.
Qed.

Lemma everyChar_join (l : list string) :
  Forall (fun id => everyChar validIdChar id = true) l ->
  everyChar queryChar (Js.join " OR " (map (fun id => "id:" ++ id) l)) = true.
Proof.
  intros Hall. apply everyChar_join_gen; [reflexivity |].
  apply Forall_forall. intros s Hs. apply in_map_iff in Hs.
  destruct Hs as [id [<- Hin]].
  rewrite everyChar_app.
  rewrite (everyChar_weaken validIdChar queryChar id); [reflexivity | |].
  - intros c Hc. unfold queryChar. rewrite Hc. reflexivity.
  - exact (proj1 (Forall_forall _ _) Hall id Hin).
Qed.

Lemma filter_nil_iff {A} (f : A -> bool) (l : list A) :
  filter f l = [] <-> forall x, In x l -> f x = false.
Proof.
  induction l as [| a l IH]; simpl.
  - split; [intros _ x [] | reflexivity].
  - destruct (f a) eqn:Ea.
    + split; [discriminate |]. intros H. specialize (H a (or_introl eq_refl)).
      congruence.
    + rewrite IH. split.
      * intros H x [<- | Hx]; [exact Ea | exact (H x Hx)].
      * intros H x Hx. apply H. right. exact Hx.
Qed.

Lemma nonEmpty_false (s : string) : Js.nonEmpty s = false <-> s = "".
Proof. destruct s; simpl; split; congruence. Qed.

(** X23. [buildQuery] lets nothing through but the characters it keeps: a
    query it builds consists of letters, digits, [-], [_], [.], the colon and
    the space only; it fails exactly when no identifier keeps a character;
    and identifiers that are already clean are joined as they are. *)
Theorem buildQuery_emits_only_kept_characters :
  forall featureIds : list string,
    (buildQuery featureIds = None <->
     forall id, In id featureIds -> Js.filterChars validIdChar id = "") /\
    (forall q, buildQuery featureIds = Some q -> everyChar queryChar q = true) /\
    (featureIds <> [] -> Forall cleanId featureIds ->
     buildQuery featureIds =
     Some (Js.join " OR " (map (fun id => "id:" ++ id) featureIds))).
Proof.
  intros ids. unfold buildQuery. cbv zeta.
  set (validIds := filter Js.nonEmpty
                     (map (Js.filterChars validIdChar)
                          (filter Js.nonEmpty ids))).
  split; [| split].
  - assert (Hnil : validIds = [] <->
                   forall id, In id ids -> Js.filterChars validIdChar id = "").
    { subst validIds. rewrite filter_nil_iff. split.
      - intros H id Hin. destruct (Js.nonEmpty id) eqn:En.
        + apply nonEmpty_false. apply H. apply in_map.
          apply filter_In. split; assumption.
        + apply nonEmpty_false in En. subst id. reflexivity.
      - intros H x Hx. apply in_map_iff in Hx. destruct Hx as [id [<- Hin]].
        apply filter_In in Hin. destruct Hin as [Hin _].
        apply nonEmpty_false. apply H. exact Hin. }
    rewrite <- Hnil. destruct validIds; split; congruence.
  - intros q Hq.
    assert (Hall : Forall (fun id => everyChar validIdChar id = true) validIds).
    { subst validIds. apply Forall_forall. intros x Hx.
      apply filter_In in Hx. destruct Hx as [Hx _].
      apply in_map_iff in Hx. destruct Hx as [id [<- _]].
      apply everyChar_filterChars. }
    destruct validIds as [| v vs] eqn:Ev; [discriminate |].
    injection Hq as <-. exact (everyChar_join (v :: vs) Hall).
  - intros Hne Hclean.
    assert (Hsame : validIds = ids).
    { subst validIds. clear Hne.
      induction Hclean as [| id l [Hn Hc] _ IH]; [reflexivity |].
      simpl. rewrite Hn. simpl. rewrite (filterChars_clean _ _ Hc), Hn.
      f_equal. exact IH. }
    rewrite Hsame. destruct ids; [congruence | reflexivity].
Qed.

Lemma resolver_reports_only_what_it_was_told_witness :
  widelyStatus = unknownStatus \/
  Js.get "grid" (cache freshWorld) = Some widelyStatus \/
  statedBy (steadyAuthority (Responds 200 "OK" (Parsed gridBody)))
    (tick freshWorld) "grid" widelyStatus.
Proof.
  apply (resolver_reports_only_what_it_was_told
           (steadyAuthority (Responds 200 "OK" (Parsed gridBody)))
           ["grid"; "subgrid"] freshWorld
           [("grid", widelyStatus); ("subgrid", unknownStatus)]).
  - vm_compute. reflexivity.
  - reflexivity.
Defined.

Lemma accepted_answers_are_returned_and_cached_witness :
  exists m,
    fst (fetchBaselineStatus
           (steadyAuthority (Responds 200 "OK" (Parsed gridBody)))
           ["grid"; "subgrid"] freshWorld) = Returned m /\
    Js.get "grid" m = Some widelyStatus /\
    Js.get "subgrid" m = Some unknownStatus.
Proof.
  destruct (accepted_answers_are_returned_and_cached
              (steadyAuthority (Responds 200 "OK" (Parsed gridBody)))
              200 "OK" gridBody ["grid"; "subgrid"] freshWorld)
    as [[m [Hm Hget]] _].
  - intros k. reflexivity.
  - reflexivity.
  - reflexivity.
  - reflexivity.
  - discriminate.
  - repeat constructor.
  - exists m. split; [exact Hm |]. split.
    + apply (Hget "grid"). left. reflexivity.
    + apply (Hget "subgrid"). right. left. reflexivity.
Defined.

Lemma failing_batch_is_tried_four_times_witness :
  state (circuitBreakerState
           (snd (fetchBaselineStatus
                   (steadyAuthority (Responds 404 "Not Found" (Parsed JNull)))
                   ["grid"; "subgrid"] freshWorld))) = open.
Proof.
  refine (proj2 (proj2 (proj2 (proj2
    (failing_batch_is_tried_four_times
       (steadyAuthority (Responds 404 "Not Found" (Parsed JNull)))
       (Responds 404 "Not Found" (Parsed JNull))
       (Error "Client error: 404 Not Found")
       ["grid"; "subgrid"] "id:grid OR id:subgrid" freshWorld
       _ _ _ _ _ _ _ _))))).
  - intros k. reflexivity.
  - reflexivity.
  - reflexivity.
  - reflexivity.
  - reflexivity.
  - discriminate.
  - simpl. unfold BATCH_SIZE. lia.
  - reflexivity.
Defined.

Lemma open_breaker_refuses_the_call_until_reset_witness :
  Js.get "grid"
    (fst (auditFetchStatuses
            (steadyAuthority (Responds 200 "OK" (Parsed gridBody)))
            ["grid"; "subgrid"] trippedWorld)) = Some unknownStatus.
Proof.
  refine (proj1 (proj2 (proj2 (proj2 (proj2
    (open_breaker_refuses_the_call_until_reset
       (steadyAuthority (Responds 200 "OK" (Parsed gridBody)))
       ["grid"; "subgrid"] trippedWorld _ _ _))))) "grid" _).
  - reflexivity.
  - vm_compute. discriminate.
  - discriminate.
  - left. reflexivity.
Defined.

(** ** The cache across calls; the report diff, continued *)

Lemma has_setAll_keeps {V} (x : string) (writes : list (string * V))
    (m : Js.Map V) :
  Js.has x m = true -> Js.has x (Js.setAll writes m) = true.
Proof.
  intros H. apply has_In. apply In_keys_setAll. right. apply has_In. exact H.
Qed.

Lemma has_setAll_written {V} (x : string) (writes : list (string * V))
    (m : Js.Map V) :
  In x (map fst writes) -> Js.has x (Js.setAll writes m) = true.
Proof.
  intros H. apply has_In. apply In_keys_setAll. left. exact H.
Qed.

Lemma has_get {V} (x : string) (m : Js.Map V) :
  Js.has x m = true -> exists v, Js.get x m = Some v.
Proof.
  unfold Js.has. destruct (Js.get x m) as [v |]; [eauto | discriminate].
Qed.

(** After a call that was not refused at entry every requested identifier is
    cached. *)
Lemma attempted_call_caches_request (E : Env) (ids : list string) (w : World) :
  fst (fetchBaselineStatus E ids w) <>
    Thrown (Error "WebStatus API temporarily unavailable - circuit breaker open") ->
  forall id, In id ids ->
    Js.has id (cache (snd (fetchBaselineStatus E ids w))) = true.
Proof.
  intros Hnot id Hin.
  destruct (fetchBaselineStatus_cases E ids 0 w (Nat.le_0_l _))
    as [(Htf & _ & Hc & _) | [(_ & Hfst & _) | (_ & wl & Hall & Hran & _)]].
  - rewrite Hc. destruct (Js.has id (cache w)) eqn:Eh; [reflexivity |].
    assert (Hu : In id (uncached (cache w) ids))
      by (apply uncached_In; split; assumption).
    rewrite Htf in Hu. contradiction.
  - contradiction.
  - destruct Hran as (Hc & _). rewrite Hc.
    destruct (Js.has id (cache w)) eqn:Eh.
    + apply has_setAll_keeps. exact Eh.
    + apply has_setAll_written.
      assert (Hu : In id (uncached (cache w) ids))
        by (apply uncached_In; split; assumption).
      rewrite <- (concat_slices BATCH_SIZE (uncached (cache w) ids)) in Hu
        by (unfold BATCH_SIZE; lia).
      apply in_concat in Hu. destruct Hu as [batch [Hb Hid]].
      destruct (Forall2_In_l _ _ _ batch Hall Hb) as [ws [Hws Hok]].
      rewrite concat_map. apply in_concat.
      exists (map fst ws). split; [apply in_map; exact Hws |].
      exact (writes_cover E 0 batch ws Hok id Hid).
Qed.

(** With a single batch the returned map and the cache agree on the
    request. *)
Lemma single_batch_map_matches_cache (E : Env) (ids : list string) (w : World)
    (m : Js.Map BaselineStatus) :
  (length (uncached (cache w) ids) <= BATCH_SIZE)%nat ->
  fst (fetchBaselineStatus E ids w) = Returned m ->
  forall id, In id ids ->
    Js.get id m = Js.get id (cache (snd (fetchBaselineStatus E ids w))).
Proof.
  intros Hlen Hret id Hin.
  destruct (fetchBaselineStatus_cases E ids 0 w (Nat.le_0_l _))
    as [(Htf & Hfst & Hc & _) | [(_ & Hfst & _) | (Hne & wl & Hall & Hran & Hfst)]].
  - rewrite Hfst in Hret. inversion Hret; subst m. rewrite Hc.
    destruct (Js.has id (cache w)) eqn:Eh.
    + destruct (has_get _ _ Eh) as [v Hv]. rewrite Hv.
      apply results0_get; assumption.
    + assert (Hu : In id (uncached (cache w) ids))
        by (apply uncached_In; split; assumption).
      rewrite Htf in Hu. contradiction.
  - rewrite Hfst in Hret. discriminate.
  - destruct Hfst as [Hfst | [Hfst _]]; rewrite Hfst in Hret; [| discriminate].
    inversion Hret; subst m. clear Hret.
    rewrite (slices_single BATCH_SIZE _ Hne Hlen) in Hall.
    inversion Hall as [| b ws l l' Hok Hrest]; subst.
    inversion Hrest; subst. clear Hall Hrest.
    destruct Hran as (Hc & _). rewrite Hc. simpl concat. rewrite app_nil_r.
    unfold mergeWrites. simpl fold_left.
    rewrite get_setAll_map by (apply NoDup_keys_setAll; constructor).
    rewrite (get_setAll_last id ws []), (get_setAll_last id ws (cache w)).
    simpl Js.get.
    destruct (find (fun e => String.eqb (fst e) id) (rev ws)) as [e |] eqn:Ef;
      [reflexivity |].
    destruct (Js.has id (cache w)) eqn:Eh.
    + destruct (has_get _ _ Eh) as [v Hv]. rewrite Hv.
      apply results0_get; assumption.
    + exfalso.
      assert (Hu : In id (uncached (cache w) ids))
        by (apply uncached_In; split; assumption).
      pose proof (writes_cover E 0 _ ws Hok id Hu) as Hw.
      apply in_map_iff in Hw. destruct Hw as [kv [Hk Hkv]].
      apply in_rev in Hkv.
      pose proof (find_none _ _ Ef kv Hkv) as Hn. simpl in Hn.
      rewrite Hk, String.eqb_refl in Hn. discriminate.
Qed.

(** X24. A call repeated is served from the cache: after a call that the
    breaker did not refuse at entry, whether it returned or threw, the same
    call again sends no request, leaves the cache as it is and returns a map
    holding, for every requested identifier, the record the cache holds; when
    the first call had at most 20 uncached identifiers and returned a map,
    the second map has the same records for the request.  After [clearCache]
    every identifier counts as uncached again. *)
Theorem repeated_call_is_served_from_the_cache :
  forall (E : Env) (featureIds : list string) (w : World),
    let first := fetchBaselineStatus E featureIds w in
    let second := fetchBaselineStatus E featureIds (snd first) in
    fst first <>
      Thrown (Error
        "WebStatus API temporarily unavailable - circuit breaker open") ->
    (exists m2,
        fst second = Returned m2 /\
        (forall id, In id featureIds ->
           Js.get id m2 <> None /\
           Js.get id m2 = Js.get id (cache (snd first))) /\
        (forall m1,
            fst first = Returned m1 ->
            (length (uncached (cache w) featureIds) <= BATCH_SIZE)%nat ->
            forall id, In id featureIds -> Js.get id m2 = Js.get id m1)) /\
    sent (snd second) = sent (snd first) /\
    cache (snd second) = cache (snd first) /\
    uncached (cache (snd (clearCache (snd second)))) featureIds = featureIds.
Proof.
  intros E ids w first second Hnot.
  pose proof (attempted_call_caches_request E ids w Hnot) as Hcached.
  fold first in Hcached.
  destruct (all_cached_no_request E ids (snd first) Hcached)
    as (Hret & Hc & _ & _ & Hs).
  fold second in Hret, Hc, Hs.
  assert (Hget : forall id, In id ids ->
             Js.get id (Js.setAll (cachedEntries (cache (snd first)) ids) []) =
             Js.get id (cache (snd first)) /\
             Js.get id (cache (snd first)) <> None).
  { intros id Hin. destruct (has_get _ _ (Hcached id Hin)) as [v Hv].
    rewrite Hv. split; [apply results0_get; assumption | discriminate]. }
  split; [| split; [exact Hs | split; [exact Hc |]]].
  - eexists. split; [exact Hret |]. split.
    + intros id Hin. destruct (Hget id Hin) as [H1 H2].
      split; [rewrite H1; exact H2 | exact H1].
    + intros m1 Hm1 Hlen id Hin. destruct (Hget id Hin) as [H1 _].
      rewrite H1. symmetry.
      exact (single_batch_map_matches_cache E ids w m1 Hlen Hm1 id Hin).
  - unfold clearCache, withCache, uncached. simpl.
    clear. induction ids as [| id ids' IH]; simpl;
      [reflexivity | f_equal; exact IH].
Qed.

Lemma repeated_call_is_served_from_the_cache_witness :
  sent (snd (fetchBaselineStatus unreachableAuthority ["grid"]
               (snd (fetchBaselineStatus unreachableAuthority ["grid"]
                       freshWorld)))) =
  sent (snd (fetchBaselineStatus unreachableAuthority ["grid"] freshWorld)).
Proof.
  refine (proj1 (proj2
    (repeated_call_is_served_from_the_cache unreachableAuthority ["grid"]
       freshWorld _))).
  vm_compute. discriminate.
Defined.

Lemma Math_round_close (y : Q) :
  (y - (1 # 2) <= inject_Z (Js.Math_round y) <= y + (1 # 2))%Q.
Proof.
  unfold Js.Math_round.
  pose proof (Qfloor_le (y + (1 # 2))) as Hle.
  pose proof (Qlt_floor (y + (1 # 2))) as Hlt.
  rewrite inject_Z_plus in Hlt. change (inject_Z 1) with 1%Q in Hlt.
  split; lra.
Qed.

Lemma toFixed3_close (x : Q) : (Qabs (Js.toFixed3 x - x) <= 1 # 2000)%Q.
Proof.
  unfold Js.toFixed3, Js.toFixedDigits. cbv zeta.
  change (inject_Z (10 ^ Z.of_nat 3)) with 1000%Q.
  pose proof (Math_round_close (Qabs x * 1000)) as [Hlo Hhi].
  set (n := Js.Math_round (Qabs x * 1000)) in *.
  set (y := (inject_Z n / 1000)%Q).
  assert (Hy : (inject_Z n == y * 1000)%Q) by (unfold y; field).
  assert (Hn : ((n # 1000) == y)%Q)
    by (unfold y, Qeq, inject_Z, Qdiv, Qmult, Qinv; simpl; lia).
  assert (Hn' : ((- n # 1000) == - y)%Q)
    by (unfold y, Qeq, inject_Z, Qdiv, Qmult, Qinv, Qopp; simpl; lia).
  rewrite Hy in Hlo, Hhi. clearbody y. clear Hy.
  apply Qabs_Qle_condition.
  destruct (Qle_bool 0 x) eqn:Ex.
  - apply Qle_bool_iff in Ex. rewrite (Qabs_pos x Ex) in Hlo, Hhi.
    rewrite Hn. split; lra.
  - assert (Hneg : (x < 0)%Q).
    { destruct (Qlt_le_dec x 0) as [H | H]; [exact H |].
      apply Qle_bool_iff in H. congruence. }
    rewrite (Qabs_neg x) in Hlo, Hhi by lra.
    rewrite Hn'. split; lra.
Qed.

Lemma toFixed3_opp (x : Q) : (Js.toFixed3 (- x) == - Js.toFixed3 x)%Q.
Proof.
  destruct (Qeq_dec x 0) as [Hz | Hnz].
  - rewrite (toFixed3_zero x Hz).
    rewrite (toFixed3_zero (- x)) by (rewrite Hz; reflexivity). reflexivity.
  - unfold Js.toFixed3, Js.toFixedDigits, Js.Math_round. cbv zeta.
    assert (Hfl : Qfloor (Qabs (- x) * inject_Z (10 ^ Z.of_nat 3) + (1 # 2)) =
                  Qfloor (Qabs x * inject_Z (10 ^ Z.of_nat 3) + (1 # 2))).
    { apply Qfloor_comp. rewrite Qabs_opp. reflexivity. }
    rewrite Hfl.
    set (n := Qfloor (Qabs x * inject_Z (10 ^ Z.of_nat 3) + (1 # 2))).
    destruct (Qle_bool 0 x) eqn:Ex; destruct (Qle_bool 0 (- x)) eqn:Eo.
    + apply Qle_bool_iff in Ex, Eo. exfalso. apply Hnz. lra.
    + unfold Qeq, Qopp. simpl. lia.
    + unfold Qeq, Qopp. simpl. lia.
    + exfalso.
      destruct (Qlt_le_dec x 0) as [H | H].
      * assert (Hq : (0 <= - x)%Q) by lra.
        apply Qle_bool_iff in Hq. congruence.
      * apply Qle_bool_iff in H. congruence.
Qed.

(** X25. The score change the diff reports is the difference of the two
    scores rounded to three decimals: a whole number of thousandths within
    half a thousandth of head minus base, and swapping base and head
    reports the opposite change. *)
Theorem score_delta_is_the_rounded_difference :
  forall (baseLHR headLHR : Diff.LHR) (d : Diff.DiffResult),
    Diff.main baseLHR headLHR = Some d ->
    exists baseData headData,
      Diff.extractBaselineData baseLHR = Some baseData /\
      Diff.extractBaselineData headLHR = Some headData /\
      (Qabs (Diff.scoreDelta d -
             (Diff.bd_score headData - Diff.bd_score baseData)) <= 1 # 2000)%Q /\
      (exists n : Z, (Diff.scoreDelta d == n # 1000)%Q) /\
      exists d',
        Diff.main headLHR baseLHR = Some d' /\
        (Diff.scoreDelta d' == - Diff.scoreDelta d)%Q.
Proof.
  intros baseLHR headLHR d Hmain. unfold Diff.main in *.
  destruct (Diff.extractBaselineData baseLHR) as [b |]; [| discriminate].
  destruct (Diff.extractBaselineData headLHR) as [h |]; [| discriminate].
  inversion Hmain; subst d. clear Hmain. cbn [Diff.scoreDelta].
  exists b, h. split; [reflexivity |]. split; [reflexivity |].
  split; [apply toFixed3_close |]. split.
  - unfold Js.toFixed3. cbv zeta. eexists. reflexivity.
  - eexists. split; [reflexivity |]. cbn [Diff.scoreDelta].
    rewrite <- toFixed3_opp.
    unfold Js.toFixed3, Js.toFixedDigits, Js.Math_round. cbv zeta.
    assert (Hab : (Qabs (Diff.bd_score b - Diff.bd_score h) ==
                   Qabs (- (Diff.bd_score h - Diff.bd_score b)))%Q)
      by (apply Qabs_wd; ring).
    rewrite (Qfloor_comp _ _
               (Qplus_comp _ _ (Qmult_comp _ _ Hab _ _ (Qeq_refl _)) _ _
                  (Qeq_refl _))).
    assert (Hb : Qle_bool 0 (Diff.bd_score b - Diff.bd_score h) =
                 Qle_bool 0 (- (Diff.bd_score h - Diff.bd_score b))).
    { destruct (Qle_bool 0 (- (Diff.bd_score h - Diff.bd_score b))) eqn:E1.
      - apply Qle_bool_iff in E1. apply Qle_bool_iff. lra.
      - destruct (Qle_bool 0 (Diff.bd_score b - Diff.bd_score h)) eqn:E2;
          [| reflexivity].
        apply Qle_bool_iff in E2.
        assert (H : (0 <= - (Diff.bd_score h - Diff.bd_score b))%Q) by lra.
        apply Qle_bool_iff in H. congruence. }
    rewrite Hb. reflexivity.
Qed.

Lemma score_delta_is_the_rounded_difference_witness :
  exists d',
    Diff.main
      {| Diff.baselineReadiness :=
           Some {| Diff.score := 0.85; Diff.numericValue := 85;
                   Diff.details := Some {| Diff.items := Some [] |} |} |}
      {| Diff.baselineReadiness :=
           Some {| Diff.score := 0.9; Diff.numericValue := 90;
                   Diff.details := Some {| Diff.items := Some [] |} |} |}
    = Some d' /\ (Diff.scoreDelta d' == 0.05)%Q.
Proof.
  destruct (score_delta_is_the_rounded_difference
              {| Diff.baselineReadiness :=
                   Some {| Diff.score := 0.9; Diff.numericValue := 90;
                           Diff.details := Some {| Diff.items := Some [] |} |} |}
              {| Diff.baselineReadiness :=
                   Some {| Diff.score := 0.85; Diff.numericValue := 85;
                           Diff.details := Some {| Diff.items := Some [] |} |} |}
              _ eq_refl)
    as (_ & _ & _ & _ & _ & _ & d' & Hd' & Hs).
  exists d'. split; [exact Hd' |]. rewrite Hs. reflexivity.
Defined.

(** X26. A downgrade to [limited] is reported twice: a head feature with
    status [limited] is listed among the downgrades exactly when base has
    it as [widely] or [newly], and it is then listed among the new limited
    features too; a feature that base has as [unknown], or lacks, and
    head as [limited] is a new limited feature but no downgrade. *)
Theorem limited_downgrade_is_also_new_limited :
  forall (baseMap headMap : Js.Map Diff.FeatureData) (id : string)
         (headData : Diff.FeatureData),
    In (id, headData) headMap ->
    Diff.fd_status headData = Some "limited" ->
    let downgraded :=
      exists d, In d (Diff.findDowngrades baseMap headMap) /\
                Diff.dg_feature_id d = id /\ Diff.dg_to d = Some "limited" in
    let newlyLimited :=
      exists n, In n (Diff.findNewLimited baseMap headMap) /\
                Diff.nl_feature_id n = id in
    (downgraded <->
     exists baseData,
       Js.get id baseMap = Some baseData /\
       (Diff.fd_status baseData = Some "widely" \/
        Diff.fd_status baseData = Some "newly")) /\
    (downgraded -> newlyLimited) /\
    ((Js.get id baseMap = None \/
      exists baseData, Js.get id baseMap = Some baseData /\
                       Diff.fd_status baseData = Some "unknown") ->
     newlyLimited /\ ~ downgraded).
Proof.
  intros baseMap headMap id headData Hin Hlim downgraded newlyLimited.
  assert (Hrank : forall s : option string,
             1 < Diff.statusRank s <-> s = Some "widely" \/ s = Some "newly").
  { intros s. unfold Diff.statusRank. destruct s as [x |].
    - destruct (String.eqb x "widely") eqn:Ew.
      { apply String.eqb_eq in Ew. subst. split; [auto | lia]. }
      destruct (String.eqb x "newly") eqn:En.
      { apply String.eqb_eq in En. subst. split; [auto | lia]. }
      destruct (String.eqb x "limited"); split; try lia;
        intros [H | H]; inversion H; subst; simpl in *; discriminate.
    - split; [lia | intros [H | H]; discriminate]. }
  assert (Hdown : downgraded <->
                  exists baseData,
                    Js.get id baseMap = Some baseData /\
                    (Diff.fd_status baseData = Some "widely" \/
                     Diff.fd_status baseData = Some "newly")).
  { subst downgraded. split.
    - intros [d [Hd [Hid Hto]]].
      apply findDowngrades_spec in Hd.
      destruct Hd as (h & b & _ & Hb & Hr & _ & Hto').
      rewrite Hid in Hb. exists b. split; [exact Hb |].
      apply Hrank. rewrite <- Hto', Hto in Hr. exact Hr.
    - intros [b [Hb Hs]].
      exists {| Diff.dg_feature_id := id; Diff.dg_from := Diff.fd_status b;
                Diff.dg_to := Diff.fd_status headData |}.
      split; [| split; [reflexivity | exact Hlim]].
      apply findDowngrades_spec. exists headData, b. simpl.
      repeat split; try assumption.
      rewrite Hlim. apply Hrank in Hs. exact Hs. }
  assert (Hnew : (forall b, Js.get id baseMap = Some b ->
                            Diff.fd_status b <> Some "limited") ->
                 newlyLimited).
  { intros Hb. subst newlyLimited.
    exists {| Diff.nl_feature_id := id; Diff.nl_where := "New in head" |}.
    split; [| reflexivity].
    unfold Diff.findNewLimited. apply in_flat_map.
    exists (id, headData). split; [exact Hin |]. simpl.
    rewrite Hlim. simpl.
    destruct (Js.get id baseMap) as [b |] eqn:Eb; [| left; reflexivity].
    specialize (Hb b eq_refl).
    destruct (Diff.fd_status b) as [s |]; simpl; [| left; reflexivity].
    destruct (String.eqb s "limited") eqn:Es; [| left; reflexivity].
    apply String.eqb_eq in Es. subst. congruence. }
  split; [exact Hdown |]. split.
  - intros Hd. apply Hdown in Hd. destruct Hd as [b [Hb Hs]].
    apply Hnew. intros b' Hb'. rewrite Hb in Hb'. inversion Hb'; subst.
    destruct Hs as [Hs | Hs]; rewrite Hs; discriminate.
  - intros Hbase. split.
    + apply Hnew. intros b Hb.
      destruct Hbase as [Hnone | [b' [Hb' Hs]]]; [congruence |].
      rewrite Hb in Hb'. inversion Hb'; subst. rewrite Hs. discriminate.
    + intros Hd. apply Hdown in Hd. destruct Hd as [b [Hb Hs]].
      destruct Hbase as [Hnone | [b' [Hb' Hs']]]; [congruence |].
      rewrite Hb in Hb'. inversion Hb'; subst.
      destruct Hs as [Hs | Hs]; rewrite Hs in Hs'; discriminate.
Qed.

Lemma limited_downgrade_is_also_new_limited_witness :
  exists n,
    In n (Diff.findNewLimited
            [("grid", {| Diff.fd_status := Some "widely"; Diff.fd_weight := 1 |})]
            [("grid", {| Diff.fd_status := Some "limited"; Diff.fd_weight := 1 |})]) /\
    Diff.nl_feature_id n = "grid".
Proof.
  refine (proj1 (proj2
    (limited_downgrade_is_also_new_limited
       [("grid", {| Diff.fd_status := Some "widely"; Diff.fd_weight := 1 |})]
       [("grid", {| Diff.fd_status := Some "limited"; Diff.fd_weight := 1 |})]
       "grid" {| Diff.fd_status := Some "limited"; Diff.fd_weight := 1 |}
       _ _)) _).
  - left. reflexivity.
  - reflexivity.
  - eexists. split; [left; reflexivity | split; reflexivity].
Defined.
